(** * AudioReactive: audio analysis, reactivity mapping and effect compositing

    Shallow embedding of the numeric core of
    [audio_analysis.py], [video_processor.py], [image_to_video.py] and the
    smoothing helper of [gui_preview_pyqt5.py].

    Numbers.  Python floats are modelled by exact rationals [Q]; every
    formula keeps the shape it has in the source (including the [1e-8]
    guards and the [np.clip] calls).  Equality of numbers is [Qeq] ([==]).
    Where a result depends on the rounding of the floats (an integer taken
    by [int(...)], an overflow, a saturating recurrence) the computation is
    modelled on IEEE binary64 numbers, see the section on binary64. *)

From Stdlib Require Import QArith Qminmax Qabs Qround Lqa Lia ZArith List Bool.
From Stdlib Require Import Sorting.Sorted Sorting.Permutation.
From Stdlib Require Floats.
From stdpp Require Import base option list gmap strings sorting.

Open Scope Q_scope.

(** ** Numeric helpers *)

Definition Qltb (x y : Q) : bool := negb (Qle_bool y x).

(** [np.clip(x, lo, hi)] is [minimum(maximum(x, lo), hi)]. *)
Definition np_clip (x lo hi : Q) : Q := Qmin (Qmax x lo) hi.

(** [1e-8] *)
Definition eps8 : Q := 1 # 100000000.

(** [np.min] / [np.max] of a one-dimensional array; both raise on an empty
    array, which is [None] here. *)
Definition np_min (a : list Q) : option Q :=
  match a with
  | [] => None
  | x :: xs => Some (fold_left Qmin xs x)
  end.

Definition np_max (a : list Q) : option Q :=
  match a with
  | [] => None
  | x :: xs => Some (fold_left Qmax xs x)
  end.

(** ** audio_analysis.py *)

(** [AudioAnalyzer.normalize_energy] *)
Definition normalize_energy (energy : list Q) : option (list Q) :=
  energy_min ← np_min energy;
  energy_max ← np_max energy;
  let energy_range := energy_max - energy_min in
  if Qltb energy_range eps8 then
    Some (map (fun _ => 0) energy)
  else
    Some (map (fun x => (x - energy_min) / energy_range) energy).

(** *** numpy / scipy routines used by [detect_peaks]

    [np.percentile] and [scipy.signal.find_peaks] are library code; they are
    transcribed from the libraries' documented algorithms. *)

(** Ascending insertion sort ([np.sort]). *)
Fixpoint Qinsert (x : Q) (l : list Q) : list Q :=
  match l with
  | [] => [x]
  | y :: r => if Qle_bool x y then x :: l else y :: Qinsert x r
  end.

Definition Qsort (l : list Q) : list Q := foldr Qinsert [] l.

(** [np.percentile(a, q)] with the default linear interpolation between the
    two closest ranks; [None] for an empty array or [q] outside [0,100]. *)
Definition np_percentile (a : list Q) (q : Q) : option Q :=
  match a with
  | [] => None
  | _ =>
    if Qle_bool 0 q && Qle_bool q 100 then
      let s := Qsort a in
      let n := length a in
      let vidx := q / 100 * inject_Z (Z.of_nat (n - 1)) in
      let lo := Z.to_nat (Qfloor vidx) in
      let hi := Nat.min (S lo) (n - 1) in
      let gamma := vidx - inject_Z (Z.of_nat lo) in
      let a_lo := nth lo s 0 in
      let a_hi := nth hi s 0 in
      Some (a_lo + (a_hi - a_lo) * gamma)
    else None
  end.

(** Inner loop of [_local_maxima_1d]:
    [while i_ahead < i_max and x[i_ahead] == x[i]: i_ahead += 1]. *)
Fixpoint look_ahead (x : list Q) (xi : Q) (i_max : nat) (fuel i_ahead : nat) : nat :=
  match fuel with
  | O => i_ahead
  | S fuel' =>
    if (i_ahead <? i_max)%nat && Qeq_bool (nth i_ahead x 0) xi
    then look_ahead x xi i_max fuel' (S i_ahead)
    else i_ahead
  end.

(** Outer loop of [_local_maxima_1d], started at sample [i]; returns the
    midpoints of the (possibly flat) local maxima. *)
Fixpoint local_maxima_loop (x : list Q) (i_max : nat) (fuel i : nat) : list nat :=
  match fuel with
  | O => []
  | S fuel' =>
    if (i <? i_max)%nat then
      let xi := nth i x 0 in
      if Qltb (nth (i - 1) x 0) xi then
        let i_ahead := look_ahead x xi i_max (i_max - i) (S i) in
        if Qltb (nth i_ahead x 0) xi then
          let left_edge := i in
          let right_edge := (i_ahead - 1)%nat in
          ((left_edge + right_edge) / 2)%nat
            :: local_maxima_loop x i_max fuel' (S i_ahead)
        else local_maxima_loop x i_max fuel' (S i)
      else local_maxima_loop x i_max fuel' (S i)
    else []
  end.

(** [_local_maxima_1d(x)]: [i = 1], [i_max = len(x) - 1]. *)
Definition local_maxima_1d (x : list Q) : list nat :=
  local_maxima_loop x (length x - 1) (length x) 1.

(** Boolean-mask indexing [a[keep]]. *)
Fixpoint mask_select {A} (a : list A) (keep : list bool) : list A :=
  match a, keep with
  | v :: a', b :: keep' =>
    if b then v :: mask_select a' keep' else mask_select a' keep'
  | _, _ => []
  end.

(** Stable [np.argsort]: indices of [a] in ascending order of value. *)
Fixpoint key_insert (k : Q) (i : nat) (l : list (Q * nat)) : list (Q * nat) :=
  match l with
  | [] => [(k, i)]
  | (k', i') :: r =>
    if Qle_bool k k' then (k, i) :: l else (k', i') :: key_insert k i r
  end.

Definition key_sort (l : list (Q * nat)) : list (Q * nat) :=
  foldr (fun ki acc => key_insert ki.1 ki.2 acc) [] l.

Definition np_argsort (a : list Q) : list nat :=
  (key_sort (zip a (seq 0 (length a)))).*2.

(** [_select_by_peak_distance], first inner loop:
    [k = j - 1; while 0 <= k and peaks[j] - peaks[k] < distance_:
       keep[k] = 0; k -= 1].  The argument [n] is [k + 1]. *)
Fixpoint flag_earlier (peaks : list nat) (pj : nat) (distance_ : Z)
    (n : nat) (keep : list bool) : list bool :=
  match n with
  | O => keep
  | S k =>
    if (Z.of_nat pj - Z.of_nat (nth k peaks O) <? distance_)%Z
    then flag_earlier peaks pj distance_ k (<[k:=false]> keep)
    else keep
  end.

(** Second inner loop:
    [k = j + 1; while k < peaks_size and peaks[k] - peaks[j] < distance_:
       keep[k] = 0; k += 1].  [later] is [peaks[k:]]. *)
Fixpoint flag_later (later : list nat) (pj : nat) (distance_ : Z)
    (k : nat) (keep : list bool) : list bool :=
  match later with
  | [] => keep
  | pk :: rest =>
    if (Z.of_nat pk - Z.of_nat pj <? distance_)%Z
    then flag_later rest pj distance_ (S k) (<[k:=false]> keep)
    else keep
  end.

(** One iteration of the outer loop, for the peak at position-index [j]. *)
Definition select_step (peaks : list nat) (distance_ : Z)
    (keep : list bool) (j : nat) : list bool :=
  match keep !! j with
  | Some true =>
    let pj := nth j peaks O in
    let keep1 := flag_earlier peaks pj distance_ j keep in
    flag_later (drop (S j) peaks) pj distance_ (S j) keep1
  | _ => keep
  end.

(** [_select_by_peak_distance(peaks, priority, distance)]: peaks are
    visited from the highest priority to the lowest. *)
Definition select_by_peak_distance (peaks : list nat) (priority : list Q)
    (distance : nat) : list bool :=
  let priority_to_position := np_argsort priority in
  fold_left (select_step peaks (Z.of_nat distance))
            (rev priority_to_position)
            (replicate (length peaks) true).

(** The local maxima whose height reaches [height]
    ([peaks[hmin <= x[peaks]]]). *)
Definition peaks_above (x : list Q) (height : Q) : list nat :=
  let peaks := local_maxima_1d x in
  mask_select peaks (map (fun p => Qle_bool height (nth p x 0)) peaks).

(** [scipy.signal.find_peaks(x, height=height, distance=distance)];
    [distance < 1] raises [ValueError]. *)
Definition find_peaks (x : list Q) (height : Q) (distance : nat)
    : option (list nat) :=
  if (distance <? 1)%nat then None
  else
    let peaks := peaks_above x height in
    let keep :=
      select_by_peak_distance peaks (map (fun p => nth p x 0) peaks) distance in
    Some (mask_select peaks keep).

(** [AudioAnalyzer.detect_peaks] *)
Definition detect_peaks (energy : list Q) (threshold_percentile : Q)
    (min_distance : nat) : option (list nat) :=
  threshold ← np_percentile energy threshold_percentile;
  find_peaks energy threshold min_distance.

(** ** Resampling: [np.linspace], [np.interp], [np.convolve]

    numpy library routines, transcribed from their documented behaviour. *)

(** [np.linspace(start, stop, num)] (endpoint included). *)
Definition np_linspace (start stop : Q) (num : nat) : list Q :=
  let div := (num - 1)%nat in
  let step := (stop - start) / inject_Z (Z.of_nat div) in
  map (fun i => if (0 <? div)%nat && (i =? div)%nat then stop
                else start + inject_Z (Z.of_nat i) * step)
      (seq 0 num).

(** [np.interp] at one point, scanning the knots from the left: [(x0, y0)]
    is the current knot (with [x0 <= x]) and [rest] the knots after it.
    Past the last knot the value is the last ordinate. *)
Fixpoint interp_scan (x x0 y0 : Q) (rest : list (Q * Q)) : Q :=
  match rest with
  | [] => y0
  | (x1, y1) :: rest' =>
    if Qltb x x1 then
      if Qeq_bool x0 x then y0
      else (y1 - y0) / (x1 - x0) * (x - x0) + y0
    else interp_scan x x1 y1 rest'
  end.

Definition interp1 (x : Q) (xp fp : list Q) : Q :=
  match zip xp fp with
  | [] => 0
  | (x0, y0) :: rest => if Qltb x x0 then y0 else interp_scan x x0 y0 rest
  end.

(** [np.interp(x, xp, fp)]; raises [ValueError] ([None]) when [xp] is empty
    or [xp] and [fp] differ in length. *)
Definition np_interp (x xp fp : list Q) : option (list Q) :=
  if (length xp =? 0)%nat || negb (length xp =? length fp)%nat then None
  else Some (map (fun v => interp1 v xp fp) x).

(** Full discrete convolution, [out[k] = sum_j a[j] * v[k - j]]. *)
Fixpoint Qsum (l : list Q) : Q :=
  match l with
  | [] => 0
  | x :: r => x + Qsum r
  end.

Definition convolve_full (a v : list Q) : list Q :=
  map (fun k =>
         Qsum (map (fun j => if (j <=? k)%nat
                             then nth j a 0 * nth (k - j) v 0 else 0)
                   (seq 0 (length a))))
      (seq 0 (length a + length v - 1)).

(** [np.convolve(a, v, mode='same')]: the centred [max(len a, len v)]
    samples of the full convolution; an empty argument raises. *)
Definition np_convolve_same (a v : list Q) : option (list Q) :=
  if (length a =? 0)%nat || (length v =? 0)%nat then None
  else
    let m := Nat.min (length a) (length v) in
    let n := Nat.max (length a) (length v) in
    Some (take n (drop ((m - 1) / 2) (convolve_full a v))).

(** ** Reactivity mapping (per-frame body of [process_video_enhanced] and
    [process_image_to_video]) *)

Record ReactConfig := {
  zoom_factor : Q;
  rotation_angle : Q;
  sub_bass_zoom : Q;
  bass_zoom : Q;
  treble_rotation : Q;
  high_treble_rotation : Q;
  beat_triggered_zoom : bool;
  beat_window : Q;
  intensity_sensitivity : Q;
  smoothness : Q
}.

(** The keyword defaults of the two processing methods. *)
Definition default_config : ReactConfig := {|
  zoom_factor := 13 # 10;
  rotation_angle := 5;
  sub_bass_zoom := 2 # 10;
  bass_zoom := 1;
  treble_rotation := 1;
  high_treble_rotation := 5 # 10;
  beat_triggered_zoom := true;
  beat_window := 2 # 10;
  intensity_sensitivity := 7 # 10;
  smoothness := 8 # 10
|}.

(** The energy values sampled for one output frame. *)
Record BandValues := {
  sub_bass_val : Q;
  bass_val : Q;
  mid_val : Q;
  treble_val : Q;
  high_treble_val : Q
}.

(** [(1.0 - intensity_sensitivity) + (intensity_sensitivity * x)] *)
Definition sensitivity_blend (cfg : ReactConfig) (x : Q) : Q :=
  (1 - intensity_sensitivity cfg) + (intensity_sensitivity cfg * x).

(** [(sub_bass_val * sub_bass_zoom + bass_val * bass_zoom)
      / (sub_bass_zoom + bass_zoom + 1e-8)], clipped to [0,1].  With
    non-negative weights the denominator is positive; a denominator of zero
    (weights summing to [-1e-8]), where the source divides by zero, is not
    represented: [Qdiv] gives 0 there. *)
Definition bass_intensity (cfg : ReactConfig) (b : BandValues) : Q :=
  np_clip ((sub_bass_val b * sub_bass_zoom cfg + bass_val b * bass_zoom cfg)
           / (sub_bass_zoom cfg + bass_zoom cfg + eps8)) 0 1.

(** [np.min(np.abs(bass_beat_times - current_time))] *)
Definition nearest_beat_distance (bass_beat_times : list Q) (current_time : Q)
    : option Q :=
  np_min (map (fun bt => Qabs (bt - current_time)) bass_beat_times).

(** Zoom intensity inside the beat window, after sensitivity blending. *)
Definition beat_zoom_intensity (cfg : ReactConfig) (b : BandValues)
    (nearest_beat_distance : Q) : Q :=
  let beat_proximity := 1 - nearest_beat_distance / beat_window cfg in
  let beat_proximity := np_clip beat_proximity 0 1 in
  let zoom_intensity := beat_proximity * (7 # 10) + bass_intensity cfg b * (3 # 10) in
  sensitivity_blend cfg zoom_intensity.

(** Zoom intensity of the continuous mode, after sensitivity blending. *)
Definition continuous_zoom_intensity (cfg : ReactConfig) (b : BandValues) : Q :=
  sensitivity_blend cfg (bass_intensity cfg b).

(** The [zoom] value of one frame. *)
Definition compute_zoom (cfg : ReactConfig) (bass_beat_times : list Q)
    (current_time : Q) (b : BandValues) : Q :=
  if beat_triggered_zoom cfg && (0 <? length bass_beat_times)%nat then
    match nearest_beat_distance bass_beat_times current_time with
    | Some d =>
      if Qle_bool d (beat_window cfg) then
        1 + (zoom_factor cfg - 1) * beat_zoom_intensity cfg b d
      else 1
    | None => 1
    end
  else
    1 + (zoom_factor cfg - 1) * continuous_zoom_intensity cfg b.

(** Rotation intensity, after sensitivity blending. *)
Definition rotation_intensity (cfg : ReactConfig) (b : BandValues) : Q :=
  let r := (treble_val b * treble_rotation cfg
            + high_treble_val b * high_treble_rotation cfg)
           / (treble_rotation cfg + high_treble_rotation cfg + eps8) in
  sensitivity_blend cfg (np_clip r 0 1).

Definition compute_rotation (cfg : ReactConfig) (b : BandValues) : Q :=
  rotation_angle cfg * rotation_intensity cfg b.

(** ** image_to_video.py: the frame timeline *)

(** Python [int(x)]: truncation toward zero. *)
Definition py_int (x : Q) : Z := Z.quot (Qnum x) (Zpos (Qden x)).

(** Python [round(x)]: nearest integer, ties to even. *)
Definition py_round (x : Q) : Z :=
  let f := Qfloor x in
  let r := x - inject_Z f in
  if Qltb r (1 # 2) then f
  else if Qltb (1 # 2) r then (f + 1)%Z
  else if Z.even f then f else (f + 1)%Z.

(** [ImageToVideoProcessor.__init__]:
    [audio_duration = len(y) / sr; total_frames = int(audio_duration * fps)]. *)
Definition audio_duration (n_samples sr : Z) : Q :=
  inject_Z n_samples / inject_Z sr.

Definition total_frames (audio_duration fps : Q) : Z :=
  py_int (audio_duration * fps).

(** What the frame loop computes for one written frame. *)
Record FrameParams := {
  fp_frame_idx : nat;
  fp_current_time : Q;
  fp_zoom : Q;
  fp_rotation : Q
}.

(** The smoothing block: a moving average of [max(1, int(smoothness * 5))]
    samples when that window is larger than one. *)
Definition smooth_curve (cfg : ReactConfig) (curve : list Q) : option (list Q) :=
  if Qltb 0 (smoothness cfg) then
    let window_size := Z.to_nat (Z.max 1 (py_int (smoothness cfg * 5))) in
    if (1 <? window_size)%nat then
      let kernel := replicate window_size (1 / inject_Z (Z.of_nat window_size)) in
      np_convolve_same curve kernel
    else Some curve
  else Some curve.

(** [energy_curves.get(name, np.zeros(len(frame_times)))], resampled onto
    [video_frame_times] and smoothed. *)
Definition resample_band (cfg : ReactConfig) (energy_curves : gmap string (list Q))
    (frame_times video_frame_times : list Q) (name : string) : option (list Q) :=
  let energy := default (replicate (length frame_times) 0) (energy_curves !! name) in
  interp ← np_interp video_frame_times frame_times energy;
  smooth_curve cfg interp.

(** [frame_times[bass_beat_frames]]; an index out of range raises. *)
Definition beat_times (frame_times : list Q) (bass_beat_frames : list nat)
    : option (list Q) :=
  mapM (fun f => frame_times !! f) bass_beat_frames.

(** Body of the frame loop of [process_image_to_video]. *)
Definition frame_body (cfg : ReactConfig) (fps : Q) (bass_beat_times : list Q)
    (sub_bass_interp bass_interp mid_interp treble_interp high_treble_interp : list Q)
    (frame_idx : nat) : option FrameParams :=
  let current_time := inject_Z (Z.of_nat frame_idx) / fps in
  sb ← sub_bass_interp !! frame_idx;
  ba ← bass_interp !! frame_idx;
  mi ← mid_interp !! frame_idx;
  tr ← treble_interp !! frame_idx;
  ht ← high_treble_interp !! frame_idx;
  let b := {| sub_bass_val := sb; bass_val := ba; mid_val := mi;
              treble_val := tr; high_treble_val := ht |} in
  Some {| fp_frame_idx := frame_idx;
          fp_current_time := current_time;
          fp_zoom := compute_zoom cfg bass_beat_times current_time b;
          fp_rotation := compute_rotation cfg b |}.

(** [process_image_to_video]: one [FrameParams] per frame handed to the
    writer, in writing order; [None] when the method raises. *)
Definition process_image_to_video (cfg : ReactConfig) (audio_duration fps : Q)
    (energy_curves : gmap string (list Q)) (frame_times : list Q)
    (bass_beat_frames : list nat) : option (list FrameParams) :=
  let total := Z.to_nat (total_frames audio_duration fps) in
  let video_frame_times := np_linspace 0 audio_duration total in
  sub_bass_interp ← resample_band cfg energy_curves frame_times video_frame_times "sub_bass";
  bass_interp ← resample_band cfg energy_curves frame_times video_frame_times "bass";
  mid_interp ← resample_band cfg energy_curves frame_times video_frame_times "mid";
  treble_interp ← resample_band cfg energy_curves frame_times video_frame_times "treble";
  high_treble_interp ← resample_band cfg energy_curves frame_times video_frame_times "high_treble";
  bass_beat_times ← beat_times frame_times bass_beat_frames;
  mapM (frame_body cfg fps bass_beat_times sub_bass_interp bass_interp
                   mid_interp treble_interp high_treble_interp)
       (seq 0 total).

(** ** gui_preview_pyqt5.py: temporal smoothing of effect intensities *)

(** [apply_temporal_smoothing(effect_name, current_intensity)]: returns the
    smoothed intensity together with the updated [prev_effect_intensities]. *)
Definition apply_temporal_smoothing (effect_smoothing_factor : Q)
    (prev_effect_intensities : gmap string Q)
    (effect_name : string) (current_intensity : Q) : Q * gmap string Q :=
  match prev_effect_intensities !! effect_name with
  | None =>
    (current_intensity, <[effect_name := current_intensity]> prev_effect_intensities)
  | Some prev =>
    let alpha := 1 - effect_smoothing_factor in
    let smoothed := alpha * current_intensity + (1 - alpha) * prev in
    (smoothed, <[effect_name := smoothed]> prev_effect_intensities)
  end.

(** Feeding a sequence of intensities, one call per frame. *)
Fixpoint smooth_sequence (effect_smoothing_factor : Q)
    (prev_effect_intensities : gmap string Q)
    (effect_name : string) (inputs : list Q) : list Q :=
  match inputs with
  | [] => []
  | x :: rest =>
    let '(y, st) := apply_temporal_smoothing effect_smoothing_factor
                      prev_effect_intensities effect_name x in
    y :: smooth_sequence effect_smoothing_factor st effect_name rest
  end.


(** ** video_processor.py: frames and the array operations of the effects

    A frame is an array with a shape and pixel contents.  The effects are
    built from NumPy and OpenCV primitives; these are modelled by what they
    do to the shape of an array and by when they raise, as the libraries
    document it.  Pixel contents are kept symbolically: [Raw] stands for the
    pixels of an input image and [Prim op params args] for the result of
    the primitive [op] on the contents [args], so two frames are equal
    exactly when they have the same shape and were computed in the same
    way from the same inputs. *)

#[local] Unset Elimination Schemes.
Inductive pixels : Type :=
| Raw (id : nat)
| Prim (op : string) (params : list Q) (args : list pixels).
#[local] Set Elimination Schemes.

Record ndarray := { shape : list nat; data : pixels }.

Inductive exn : Type := CvError | ValueError | IndexError.

Inductive result (A : Type) : Type :=
| Ok (a : A)
| Raise (e : exn).
Arguments Ok {A} a.
Arguments Raise {A} e.

(** Effects run in a state-and-exception monad.  The state is the tape of
    raw draws that [np.random] will hand out. *)
Definition M (A : Type) : Type := list Z -> result (A * list Z).

Definition ret {A} (a : A) : M A := fun tape => Ok (a, tape).

Definition bind {A B} (m : M A) (k : A -> M B) : M B :=
  fun tape =>
    match m tape with
    | Ok (a, tape') => k a tape'
    | Raise e => Raise e
    end.

Definition raise {A} (e : exn) : M A := fun _ => Raise e.

Notation "x <- m ;; k" := (bind m (fun x => k))
  (at level 20, m at level 99, k at level 200, only parsing).
Notation "' p <- m ;; k" := (bind m (fun x => let 'p := x in k))
  (at level 20, p pattern, m at level 99, k at level 200, only parsing).

(** [for x in xs: a = body(x, a)] *)
Fixpoint foldM {A B} (body : B -> A -> M A) (xs : list B) (a : A) : M A :=
  match xs with
  | [] => ret a
  | x :: rest => a' <- body x a ;; foldM body rest a'
  end.

(** [range(n)] and [range(start, stop, step)] for a positive step. *)
Definition py_range (n : Z) : list Z :=
  map Z.of_nat (seq 0 (Z.to_nat n)).

Definition py_range_step (start stop step : Z) : list Z :=
  map (fun i => (start + Z.of_nat i * step)%Z)
      (seq 0 (Z.to_nat ((stop - start + step - 1) / step))).

(** *** np.random *)

Definition draw : M Z :=
  fun tape =>
    match tape with
    | [] => Ok (0%Z, [])
    | r :: tape' => Ok (r, tape')
    end.

(** [np.random.random()]: a multiple of [2^-53] in [0, 1). *)
Definition np_random_random : M Q :=
  r <- draw ;;
  ret (inject_Z (r mod 2 ^ 53) / inject_Z (2 ^ 53)).

(** [np.random.randint(low, high)]: an integer in [low, high);
    [ValueError] when [low >= high]. *)
Definition np_random_randint (low high : Z) : M Z :=
  if (low <? high)%Z then
    r <- draw ;; ret (low + r mod (high - low))%Z
  else raise ValueError.

(** [np.random.normal(0, scale, shape)] and
    [np.random.randint(0, 256, shape)]: a fresh array of that shape. *)
Definition np_random_array (op : string) (scale : Q) (shp : list nat) : M ndarray :=
  r <- draw ;;
  ret {| shape := shp; data := Prim op [scale; inject_Z r] [] |}.

(** [np.random.choice(n, k, replace=False)]: [k] distinct indices below
    [n]. *)
Fixpoint choose (k : nat) (pool : list Z) : M (list Z) :=
  match k with
  | O => ret []
  | S k' =>
    match pool with
    | [] => raise ValueError
    | _ =>
      r <- draw ;;
      let i := Z.to_nat (r mod Z.of_nat (length pool)) in
      rest <- choose k' (delete i pool) ;;
      ret (nth i pool 0%Z :: rest)
    end
  end.

Definition np_random_choice (n k : Z) : M (list Z) :=
  choose (Z.to_nat k) (py_range n).

(** *** NumPy indexing *)

(** A slice bound [i] on an axis of length [n]: negative bounds count from
    the end, and bounds are clamped to the axis. *)
Definition slice_bound (n : nat) (i : Z) : nat :=
  if (i <? 0)%Z then Z.to_nat (Z.max 0 (Z.of_nat n + i))
  else Z.to_nat (Z.min (Z.of_nat n) i).

Definition slice_len (n : nat) (sl : Z * Z) : nat :=
  (slice_bound n sl.2 - slice_bound n sl.1)%nat.

(** The whole axis of length [n], [:]. *)
Definition whole (n : Z) : Z * Z := (0%Z, n).

Definition slice_params (ys xs : Z * Z) : list Q :=
  [inject_Z ys.1; inject_Z ys.2; inject_Z xs.1; inject_Z xs.2].

(** [h, w = a.shape[:2]] *)
Definition shape_hw (a : ndarray) : M (Z * Z) :=
  match shape a with
  | h :: w :: _ => ret (Z.of_nat h, Z.of_nat w)
  | _ => raise ValueError
  end.

(** [a[y0:y1, x0:x1]] *)
Definition getitem (a : ndarray) (ys xs : Z * Z) : M ndarray :=
  match shape a with
  | h :: w :: rest =>
    ret {| shape := slice_len h ys :: slice_len w xs :: rest;
           data := Prim "getitem" (slice_params ys xs) [data a] |}
  | _ => raise IndexError
  end.

(** Broadcasting of a value of shape [src] into a target of shape [dst]:
    aligned at the last axis, every axis of [src] equals that of [dst] or
    is 1. *)
Fixpoint broadcastable_rev (src dst : list nat) : bool :=
  match src, dst with
  | [], _ => true
  | _ :: _, [] => false
  | s :: src', d :: dst' =>
    ((s =? d)%nat || (s =? 1)%nat) && broadcastable_rev src' dst'
  end.

Definition broadcastable (src dst : list nat) : bool :=
  broadcastable_rev (rev src) (rev dst).

(** [a[y0:y1, x0:x1] = v]; [ValueError] when [v] cannot be broadcast
    into the region. *)
Definition setitem (a : ndarray) (ys xs : Z * Z) (v : ndarray) : M ndarray :=
  match shape a with
  | h :: w :: rest =>
    if broadcastable (shape v) (slice_len h ys :: slice_len w xs :: rest) then
      ret {| shape := shape a;
             data := Prim "setitem" (slice_params ys xs) [data a; data v] |}
    else raise ValueError
  | _ => raise IndexError
  end.

(** [a[:, :, c]] *)
Definition get_channel (a : ndarray) (c : nat) : M ndarray :=
  match shape a with
  | [h; w; cn] =>
    if (c <? cn)%nat then
      ret {| shape := [h; w];
             data := Prim "get_channel" [inject_Z (Z.of_nat c)] [data a] |}
    else raise IndexError
  | _ => raise IndexError
  end.

(** [a[:, :, c] = v] *)
Definition set_channel (a : ndarray) (c : nat) (v : ndarray) : M ndarray :=
  match shape a with
  | [h; w; cn] =>
    if (c <? cn)%nat then
      if broadcastable (shape v) [h; w] then
        ret {| shape := shape a;
               data := Prim "set_channel" [inject_Z (Z.of_nat c)] [data a; data v] |}
      else raise ValueError
    else raise IndexError
  | _ => raise IndexError
  end.

(** [a[y0:y1, x]]: one column of a band of rows. *)
Definition get_column (a : ndarray) (ys : Z * Z) (x : Z) : M ndarray :=
  match shape a with
  | h :: w :: rest =>
    if ((- Z.of_nat w <=? x) && (x <? Z.of_nat w))%Z then
      ret {| shape := slice_len h ys :: rest;
             data := Prim "get_column" [inject_Z ys.1; inject_Z ys.2; inject_Z x] [data a] |}
    else raise IndexError
  | _ => raise IndexError
  end.

(** [a[y0:y1, x] = v] *)
Definition set_column (a : ndarray) (ys : Z * Z) (x : Z) (v : ndarray) : M ndarray :=
  match shape a with
  | h :: w :: rest =>
    if ((- Z.of_nat w <=? x) && (x <? Z.of_nat w))%Z then
      if broadcastable (shape v) (slice_len h ys :: rest) then
        ret {| shape := shape a;
               data := Prim "set_column" [inject_Z ys.1; inject_Z ys.2; inject_Z x]
                         [data a; data v] |}
      else raise ValueError
    else raise IndexError
  | _ => raise IndexError
  end.

(** [a[y, x0:x1]] and [a[y, x0:x1] = v]: one row of a band of columns. *)
Definition get_row (a : ndarray) (y : Z) (xs : Z * Z) : M ndarray :=
  match shape a with
  | h :: w :: rest =>
    if ((- Z.of_nat h <=? y) && (y <? Z.of_nat h))%Z then
      ret {| shape := slice_len w xs :: rest;
             data := Prim "get_row" [inject_Z y; inject_Z xs.1; inject_Z xs.2] [data a] |}
    else raise IndexError
  | _ => raise IndexError
  end.

Definition set_row (a : ndarray) (y : Z) (xs : Z * Z) (v : ndarray) : M ndarray :=
  match shape a with
  | h :: w :: rest =>
    if ((- Z.of_nat h <=? y) && (y <? Z.of_nat h))%Z then
      if broadcastable (shape v) (slice_len w xs :: rest) then
        ret {| shape := shape a;
               data := Prim "set_row" [inject_Z y; inject_Z xs.1; inject_Z xs.2]
                         [data a; data v] |}
      else raise ValueError
    else raise IndexError
  | _ => raise IndexError
  end.

(** [a[:, 2]] of a two-dimensional array, and [a[indices]] along axis 0. *)
Definition get_field (a : ndarray) (c : nat) : M ndarray :=
  match shape a with
  | [n; cn] =>
    if (c <? cn)%nat then
      ret {| shape := [n];
             data := Prim "get_field" [inject_Z (Z.of_nat c)] [data a] |}
    else raise IndexError
  | _ => raise IndexError
  end.

Definition take_along (a indices : ndarray) : M ndarray :=
  match shape a, shape indices with
  | n :: rest, [m] =>
    ret {| shape := m :: rest; data := Prim "take" [] [data a; data indices] |}
  | _, _ => raise IndexError
  end.

(** An operation that works element by element (or in place) and so keeps
    the shape: [astype], [np.clip], arithmetic with a scalar,
    [a[rows, :] *= s], [np.argsort] of a vector, [frame.copy()],
    [np.zeros_like]. *)
Definition elementwise (op : string) (params : list Q) (a : ndarray) : ndarray :=
  {| shape := shape a; data := Prim op params [data a] |}.

(** [a.copy()]: a new array with the same shape and contents. *)
Definition copy (a : ndarray) : ndarray := a.

(** Broadcasting of two operand shapes, aligned at the last axis. *)
Fixpoint broadcast_rev (s1 s2 : list nat) : option (list nat) :=
  match s1, s2 with
  | [], _ => Some s2
  | _, [] => Some s1
  | a :: s1', b :: s2' =>
    r ← broadcast_rev s1' s2';
    if (a =? b)%nat then Some (a :: r)
    else if (a =? 1)%nat then Some (b :: r)
    else if (b =? 1)%nat then Some (a :: r)
    else None
  end.

Fixpoint broadcast_all_rev (shapes : list (list nat)) : option (list nat) :=
  match shapes with
  | [] => Some []
  | s :: rest => t ← broadcast_all_rev rest; broadcast_rev s t
  end.

(** An element-by-element operation on several arrays ([a + noise],
    [np.where(mask, a, b)], the blend formulas); [ValueError] when the
    shapes cannot be broadcast together. *)
Definition broadcast_op (op : string) (params : list Q) (args : list ndarray)
    : M ndarray :=
  match broadcast_all_rev (map (fun a => rev (shape a)) args) with
  | Some s => ret {| shape := rev s; data := Prim op params (map data args) |}
  | None => raise ValueError
  end.

(** *** OpenCV *)

(** How OpenCV sees an array: rows, columns and channels. *)
Definition cv_mat (a : ndarray) : option (nat * nat * nat) :=
  match shape a with
  | [rows; cols] => Some (rows, cols, 1%nat)
  | [rows; cols; cn] => Some (rows, cols, cn)
  | _ => None
  end.

(** The array OpenCV returns for a matrix of that size. *)
Definition cv_shape (rows cols cn : nat) : list nat :=
  if (cn =? 1)%nat then [rows; cols] else [rows; cols; cn].

(** Most OpenCV functions reject an empty source. *)
Definition cv_input (a : ndarray) : M (nat * nat * nat) :=
  match cv_mat a with
  | Some (rows, cols, cn) =>
    if (0 <? rows)%nat && (0 <? cols)%nat && (0 <? cn)%nat
    then ret (rows, cols, cn)
    else raise CvError
  | None => raise CvError
  end.

(** A function producing an image of size [dsize = (w, h)] from [src]:
    [cv2.resize] and [cv2.warpAffine]. *)
Definition cv_sized (op : string) (params : list Q) (src : ndarray) (dsize : Z * Z)
    : M ndarray :=
  '(_, _, cn) <- cv_input src ;;
  let '(w, h) := dsize in
  if ((0 <? w) && (0 <? h))%Z then
    ret {| shape := cv_shape (Z.to_nat h) (Z.to_nat w) cn;
           data := Prim op (params ++ [inject_Z w; inject_Z h]) [data src] |}
  else raise CvError.

Definition cv2_resize (src : ndarray) (dsize : Z * Z) : M ndarray :=
  cv_sized "cv2.resize" [] src dsize.

Definition cv2_warpAffine (src : ndarray) (m : list Q) (dsize : Z * Z) : M ndarray :=
  cv_sized "cv2.warpAffine" m src dsize.

(** A function producing an image of the size of its source:
    [cv2.GaussianBlur]. *)
Definition cv_same (op : string) (params : list Q) (src : ndarray) : M ndarray :=
  '(rows, cols, cn) <- cv_input src ;;
  ret {| shape := cv_shape rows cols cn; data := Prim op params [data src] |}.

Inductive color_code : Type := BGR2HSV | HSV2BGR | BGR2GRAY | GRAY2BGR.

(** [cv2.cvtColor(src, code)]: the source must have the channel count the
    conversion expects. *)
Definition cv2_cvtColor (src : ndarray) (code : color_code) : M ndarray :=
  '(rows, cols, cn) <- cv_input src ;;
  match code with
  | BGR2HSV =>
    if (cn =? 3)%nat || (cn =? 4)%nat then
      ret {| shape := [rows; cols; 3%nat]; data := Prim "cv2.BGR2HSV" [] [data src] |}
    else raise CvError
  | HSV2BGR =>
    if (cn =? 3)%nat then
      ret {| shape := [rows; cols; 3%nat]; data := Prim "cv2.HSV2BGR" [] [data src] |}
    else raise CvError
  | BGR2GRAY =>
    if (cn =? 3)%nat || (cn =? 4)%nat then
      ret {| shape := [rows; cols]; data := Prim "cv2.BGR2GRAY" [] [data src] |}
    else raise CvError
  | GRAY2BGR =>
    if (cn =? 1)%nat then
      ret {| shape := [rows; cols; 3%nat]; data := Prim "cv2.GRAY2BGR" [] [data src] |}
    else raise CvError
  end.

(** [b, g, r = cv2.split(src)]: unpacking needs exactly three planes. *)
Definition cv2_split3 (src : ndarray) : M (ndarray * ndarray * ndarray) :=
  match cv_mat src with
  | Some (rows, cols, cn) =>
    if (cn =? 3)%nat then
      let plane c := {| shape := [rows; cols];
                        data := Prim "cv2.split" [inject_Z c] [data src] |} in
      ret (plane 0%Z, plane 1%Z, plane 2%Z)
    else raise ValueError
  | None => raise CvError
  end.

(** [cv2.merge([c0, c1, c2])]: three planes of one size. *)
Definition cv2_merge3 (c0 c1 c2 : ndarray) : M ndarray :=
  '(rows, cols, cn) <- cv_input c0 ;;
  if (cn =? 1)%nat
     && bool_decide (cv_mat c1 = Some (rows, cols, 1%nat))
     && bool_decide (cv_mat c2 = Some (rows, cols, 1%nat))
  then ret {| shape := [rows; cols; 3%nat];
              data := Prim "cv2.merge" [] [data c0; data c1; data c2] |}
  else raise CvError.

(** [cv2.Canny(gray, 50, 150)]: a single-channel source. *)
Definition cv2_Canny (gray : ndarray) : M ndarray :=
  '(rows, cols, cn) <- cv_input gray ;;
  if (cn =? 1)%nat then
    ret {| shape := [rows; cols]; data := Prim "cv2.Canny" [50; 150] [data gray] |}
  else raise CvError.

(** [cv2.addWeighted(a, alpha, b, beta, 0)]: two images of one size and
    channel count. *)
Definition cv2_addWeighted (a : ndarray) (alpha : Q) (b : ndarray) (beta : Q)
    : M ndarray :=
  '(rows, cols, cn) <- cv_input a ;;
  if bool_decide (cv_mat b = Some (rows, cols, cn)) then
    ret {| shape := cv_shape rows cols cn;
           data := Prim "cv2.addWeighted" [alpha; beta] [data a; data b] |}
  else raise CvError.

(** [cv2.remap(src, map_x, map_y, ...)] with maps built by [np.meshgrid]
    over [h] rows and [w] columns: the result has the size of the maps. *)
Definition cv2_remap (src : ndarray) (params : list Q) (h w : Z) : M ndarray :=
  '(_, _, cn) <- cv_input src ;;
  if ((0 <? w) && (0 <? h))%Z then
    ret {| shape := cv_shape (Z.to_nat h) (Z.to_nat w) cn;
           data := Prim "cv2.remap" params [data src] |}
  else raise CvError.

(** *** Basic effects *)

Definition Zq (z : Z) : Q := inject_Z z.

(** [VideoProcessor.zoom_frame] *)
Definition zoom_frame (frame : ndarray) (zoom_factor : Q) : M ndarray :=
  if Qle_bool zoom_factor 1 then ret frame
  else
    '(h, w) <- shape_hw frame ;;
    let crop_h := py_int (Zq h / zoom_factor) in
    let crop_w := py_int (Zq w / zoom_factor) in
    let start_y := ((h - crop_h) / 2)%Z in
    let start_x := ((w - crop_w) / 2)%Z in
    cropped <- getitem frame (start_y, start_y + crop_h)%Z
                             (start_x, start_x + crop_w)%Z ;;
    zoomed <- cv2_resize cropped (w, h) ;;
    ret zoomed.

(** [VideoProcessor.rotate_frame] *)
Definition rotate_frame (frame : ndarray) (angle_degrees : Q) : M ndarray :=
  if Qltb (Qabs angle_degrees) (1 # 100) then ret frame
  else
    '(h, w) <- shape_hw frame ;;
    let center := ((w / 2)%Z, (h / 2)%Z) in
    let rotation_matrix := [Zq center.1; Zq center.2; angle_degrees; 1] in
    rotated <- cv2_warpAffine frame rotation_matrix (w, h) ;;
    ret rotated.

(** [VideoProcessor.apply_color_grade] *)
Definition apply_color_grade (frame : ndarray)
    (hue_shift saturation_mult brightness_mult : Q) : M ndarray :=
  if Qeq_bool hue_shift 0 && Qeq_bool saturation_mult 1
     && Qeq_bool brightness_mult 1
  then ret frame
  else
    hsv <- cv2_cvtColor frame BGR2HSV ;;
    let hsv := elementwise "astype.float32" [] hsv in
    hsv <- (if negb (Qeq_bool hue_shift 0) then
              ch <- get_channel hsv 0 ;;
              set_channel hsv 0 (elementwise "hue" [hue_shift; 180] ch)
            else ret hsv) ;;
    hsv <- (if negb (Qeq_bool saturation_mult 1) then
              ch <- get_channel hsv 1 ;;
              set_channel hsv 1 (elementwise "scale_clip" [saturation_mult; 0; 255] ch)
            else ret hsv) ;;
    hsv <- (if negb (Qeq_bool brightness_mult 1) then
              ch <- get_channel hsv 2 ;;
              set_channel hsv 2 (elementwise "scale_clip" [brightness_mult; 0; 255] ch)
            else ret hsv) ;;
    let hsv := elementwise "astype.uint8" [] hsv in
    graded <- cv2_cvtColor hsv HSV2BGR ;;
    ret graded.

(** [VideoProcessor.apply_motion_blur] *)
Definition apply_motion_blur (frame : ndarray) (intensity : Q) : M ndarray :=
  if Qle_bool intensity 0 then ret frame
  else
    let kernel_size := py_int (1 + intensity * 15) in
    let kernel_size :=
      if (kernel_size mod 2 =? 0)%Z then (kernel_size + 1)%Z else kernel_size in
    if (kernel_size <=? 1)%Z then ret frame
    else
      blurred <- cv_same "cv2.GaussianBlur" [Zq kernel_size; Zq kernel_size; 0] frame ;;
      ret blurred.

(** *** Corruption effects *)

(** [VideoProcessor.apply_glitch_effect] *)
Definition apply_glitch_effect (frame : ndarray) (intensity : Q) : M ndarray :=
  if Qle_bool intensity 0 then ret frame
  else
    '(h, w) <- shape_hw frame ;;
    let glitched := copy frame in
    glitched <-
      (if Qltb (3 # 10) intensity then
         let shift_amount := py_int (intensity * 20) in
         red_channel <- get_channel glitched 2 ;;
         shift_x <- np_random_randint (- shift_amount) (shift_amount + 1) ;;
         if negb (shift_x =? 0)%Z then
           shifted_red <- cv2_warpAffine red_channel [1; 0; Zq shift_x; 0; 1; 0] (w, h) ;;
           set_channel glitched 2 shifted_red
         else ret glitched
       else ret glitched) ;;
    glitched <-
      (if Qltb (5 # 10) intensity then
         let num_slices := py_int (intensity * 10) in
         foldM (fun _ glitched =>
           slice_y <- np_random_randint 0 h ;;
           slice_height <- np_random_randint 1 (py_int (intensity * 20) + 1) ;;
           slice_x <- np_random_randint 0 (Z.max 1 (w - 50)) ;;
           slice_width <- np_random_randint 10 50 ;;
           coin <- np_random_random ;;
           let rows := (slice_y, slice_y + slice_height)%Z in
           let cols := (slice_x, slice_x + slice_width)%Z in
           if Qltb (5 # 10) coin then
             shift <- np_random_randint (-20) 21 ;;
             if ((0 <=? slice_x + shift) && (slice_x + shift <? w - slice_width))%Z then
               src <- getitem glitched rows
                              (slice_x + shift, slice_x + shift + slice_width)%Z ;;
               setitem glitched rows cols src
             else ret glitched
           else
             src <- getitem glitched rows cols ;;
             setitem glitched rows cols src)
           (py_range num_slices) glitched
       else ret glitched) ;;
    glitched <-
      (if Qltb (4 # 10) intensity then
         let aberration := py_int (intensity * 5) in
         '(b, g, r) <- cv2_split3 glitched ;;
         g_shifted <- cv2_warpAffine g [1; 0; Zq (- aberration); 0; 1; 0] (w, h) ;;
         b_shifted <- cv2_warpAffine b [1; 0; Zq aberration; 0; 1; 0] (w, h) ;;
         cv2_merge3 b_shifted g_shifted r
       else ret glitched) ;;
    ret glitched.

(** [VideoProcessor.apply_artifacts_effect] *)
Definition apply_artifacts_effect (frame : ndarray) (intensity : Q) : M ndarray :=
  if Qle_bool intensity 0 then ret frame
  else
    '(h, w) <- shape_hw frame ;;
    let artifacted := elementwise "astype.float32" [] (copy frame) in
    artifacted <-
      (if Qltb (2 # 10) intensity then
         let block_size := py_int (4 + intensity * 12) in
         let block_probability := (2 # 10) + intensity * (6 # 10) in
         foldM (fun y artifacted =>
           foldM (fun x artifacted =>
             coin <- np_random_random ;;
             if Qltb coin block_probability then
               let end_y := Z.min (y + block_size) h in
               let end_x := Z.min (x + block_size) w in
               block <- getitem artifacted (y, end_y) (x, end_x) ;;
               let quantize_levels := Z.max 2 (py_int (256 / (1 + intensity * 15))) in
               let quantize_step := 256 / Zq quantize_levels in
               let quantized := elementwise "quantize" [quantize_step] block in
               let quantized := elementwise "np.clip" [0; 255] quantized in
               setitem artifacted (y, end_y) (x, end_x) quantized
             else ret artifacted)
             (py_range_step 0 w block_size) artifacted)
           (py_range_step 0 h block_size) artifacted
       else ret artifacted) ;;
    artifacted <-
      (if Qltb (15 # 100) intensity then
         let noise_amount := intensity * 25 in
         noise <- np_random_array "np.random.normal" noise_amount
                    [Z.to_nat h; Z.to_nat w; 3%nat] ;;
         artifacted <- broadcast_op "add" [] [artifacted; noise] ;;
         ret (elementwise "np.clip" [0; 255] artifacted)
       else ret artifacted) ;;
    artifacted <-
      (if Qltb (3 # 10) intensity then
         let num_lines := py_int (2 + intensity * 8) in
         foldM (fun _ artifacted =>
           line_y <- np_random_randint 0 (Z.max 1 (h - 3)) ;;
           line_height <- np_random_randint 1 4 ;;
           coin <- np_random_random ;;
           if Qltb (5 # 10) coin then
             ret (elementwise "imul_rows" [Zq line_y; Zq (line_y + line_height); 7 # 10]
                    artifacted)
           else
             rows <- getitem artifacted (line_y, line_y + line_height)%Z (whole w) ;;
             setitem artifacted (line_y, line_y + line_height)%Z (whole w)
                     (elementwise "scale_clip" [13 # 10; 0; 255] rows))
           (py_range num_lines) artifacted
       else ret artifacted) ;;
    let artifacted :=
      if Qltb (4 # 10) intensity then
        let color_levels := Z.max 8 (py_int (256 / (1 + intensity * 8))) in
        let color_step := 256 / Zq color_levels in
        elementwise "quantize" [color_step] artifacted
      else artifacted in
    let artifacted := elementwise "clip.astype.uint8" [0; 255] artifacted in
    artifacted <-
      (if Qltb (7 # 10) intensity then
         let pixel_size := py_int (2 + (intensity - (7 # 10)) * 2) in
         if (1 <? pixel_size)%Z then
           let small_w := Z.max 1 (w / pixel_size) in
           let small_h := Z.max 1 (h / pixel_size) in
           small <- cv2_resize artifacted (small_w, small_h) ;;
           cv2_resize small (w, h)
         else ret artifacted
       else ret artifacted) ;;
    ret artifacted.

(** [VideoProcessor.apply_data_corruption] *)
Definition apply_data_corruption (frame : ndarray) (intensity : Q) : M ndarray :=
  if Qle_bool intensity 0 then ret frame
  else
    '(h, w) <- shape_hw frame ;;
    let corrupted := copy frame in
    corrupted <-
      (if Qltb (1 # 10) intensity then
         let num_blocks := Z.max 1 (py_int (intensity * 20)) in
         foldM (fun _ corrupted =>
           let block_size := py_int (10 + intensity * 40) in
           x <- np_random_randint 0 (Z.max 1 (w - block_size)) ;;
           y <- np_random_randint 0 (Z.max 1 (h - block_size)) ;;
           corruption_type <- np_random_random ;;
           let rows := (y, y + block_size)%Z in
           let cols := (x, x + block_size)%Z in
           if Qltb corruption_type (3 # 10) then
             noise <- np_random_array "np.random.randint" 256
                        [Z.to_nat block_size; Z.to_nat block_size; 3%nat] ;;
             setitem corrupted rows cols noise
           else if Qltb corruption_type (6 # 10) then
             shift_x <- np_random_randint (- block_size) block_size ;;
             shift_y <- np_random_randint (- block_size) block_size ;;
             let src_x := Z.min (Z.max (x + shift_x) 0) (w - block_size) in
             let src_y := Z.min (Z.max (y + shift_y) 0) (h - block_size) in
             src <- getitem corrupted (src_y, src_y + block_size)%Z
                            (src_x, src_x + block_size)%Z ;;
             setitem corrupted rows cols src
           else
             block <- getitem corrupted rows cols ;;
             '(b, g, r) <- cv2_split3 (copy block) ;;
             order <- draw ;;
             let shuffled :=
               match (order mod 6)%Z with
               | 0%Z => (b, g, r) | 1%Z => (b, r, g) | 2%Z => (g, b, r)
               | 3%Z => (g, r, b) | 4%Z => (r, b, g) | _ => (r, g, b)
               end in
             merged <- cv2_merge3 shuffled.1.1 shuffled.1.2 shuffled.2 ;;
             setitem corrupted rows cols merged)
           (py_range num_blocks) corrupted
       else ret corrupted) ;;
    corrupted <-
      (if Qltb (4 # 10) intensity then
         let num_lines := py_int (2 + intensity * 8) in
         foldM (fun _ corrupted =>
           line_y <- np_random_randint 0 h ;;
           let line_height := Z.max 1 (py_int (intensity * 15)) in
           line_width <- np_random_randint (w / 4) w ;;
           line_x <- np_random_randint 0 (Z.max 1 (w - line_width)) ;;
           shift <- np_random_randint (-50) 51 ;;
           let src_x := Z.min (Z.max (line_x + shift) 0) (w - line_width) in
           let rows := (line_y, line_y + line_height)%Z in
           src <- getitem corrupted rows (src_x, src_x + line_width)%Z ;;
           setitem corrupted rows (line_x, line_x + line_width)%Z src)
           (py_range num_lines) corrupted
       else ret corrupted) ;;
    ret corrupted.

(** *** Artistic effects *)

(** Sorting one column (or row) of a strip by the brightness of its HSV
    counterpart and writing it back. *)
Definition sort_column (strip strip_hsv : ndarray) (rows : Z * Z) (x : Z)
    (sorted_frame : ndarray) : M ndarray :=
  column <- get_column strip (whole (Z.of_nat (hd O (shape strip)))) x ;;
  column_hsv <- get_column strip_hsv (whole (Z.of_nat (hd O (shape strip_hsv)))) x ;;
  brightness <- get_field column_hsv 2 ;;
  let sort_indices := elementwise "np.argsort" [] brightness in
  sorted_column <- take_along column sort_indices ;;
  set_column sorted_frame rows x sorted_column.

Definition sort_row (strip strip_hsv : ndarray) (y : Z) (cols : Z * Z)
    (sorted_frame : ndarray) : M ndarray :=
  row <- get_row strip y (whole (Z.of_nat (nth 1 (shape strip) O))) ;;
  row_hsv <- get_row strip_hsv y (whole (Z.of_nat (nth 1 (shape strip_hsv) O))) ;;
  brightness <- get_field row_hsv 2 ;;
  let sort_indices := elementwise "np.argsort" [] brightness in
  sorted_row <- take_along row sort_indices ;;
  set_row sorted_frame y cols sorted_row.

(** [VideoProcessor.apply_pixel_sorting] *)
Definition apply_pixel_sorting (frame : ndarray) (intensity : Q) : M ndarray :=
  if Qle_bool intensity 0 then ret frame
  else
    '(h, w) <- shape_hw frame ;;
    let sorted_frame := copy frame in
    hsv <- cv2_cvtColor sorted_frame BGR2HSV ;;
    let num_strips := Z.max 1 (py_int (intensity * 15)) in
    let num_strips :=
      if Qltb intensity (3 # 10) then Z.max 1 (py_int (intensity * 5))
      else num_strips in
    coin <- np_random_random ;;
    if Qltb (5 # 10) coin then
      let strip_height := (h / Z.max 1 num_strips)%Z in
      foldM (fun i sorted_frame =>
        let y_start := (i * strip_height)%Z in
        let y_end := Z.min ((i + 1) * strip_height) h in
        if (y_end - y_start <? 2)%Z then ret sorted_frame
        else
          strip <- getitem sorted_frame (y_start, y_end) (whole w) ;;
          strip_hsv <- getitem hsv (y_start, y_end) (whole w) ;;
          let columns_to_sort :=
            Z.max 1 (py_int (Zq w * Qmin 1 (intensity * 3))) in
          column_indices <-
            (if (columns_to_sort <? w)%Z then np_random_choice w columns_to_sort
             else ret (py_range w)) ;;
          foldM (fun x sorted_frame =>
                   sort_column strip strip_hsv (y_start, y_end) x sorted_frame)
                column_indices sorted_frame)
        (py_range num_strips) sorted_frame
    else
      let strip_width := (w / Z.max 1 num_strips)%Z in
      foldM (fun i sorted_frame =>
        let x_start := (i * strip_width)%Z in
        let x_end := Z.min ((i + 1) * strip_width) w in
        if (x_end - x_start <? 2)%Z then ret sorted_frame
        else
          strip <- getitem sorted_frame (whole h) (x_start, x_end) ;;
          strip_hsv <- getitem hsv (whole h) (x_start, x_end) ;;
          let rows_to_sort :=
            Z.max 1 (py_int (Zq h * Qmin 1 (intensity * 3))) in
          row_indices <-
            (if (rows_to_sort <? h)%Z then np_random_choice h rows_to_sort
             else ret (py_range h)) ;;
          foldM (fun y sorted_frame =>
                   sort_row strip strip_hsv y (x_start, x_end) sorted_frame)
                row_indices sorted_frame)
        (py_range num_strips) sorted_frame.

(** [VideoProcessor.apply_kaleidoscope] *)
Definition apply_kaleidoscope (frame : ndarray) (intensity : Q) : M ndarray :=
  if Qle_bool intensity 0 then ret frame
  else
    '(h, w) <- shape_hw frame ;;
    let center_x := (w / 2)%Z in
    let center_y := (h / 2)%Z in
    let num_segments := py_int (2 + intensity * 6) in
    let kaleidoscope := elementwise "np.zeros_like" [] frame in
    let segment_angle := 360 / Zq num_segments in
    kaleidoscope <-
      foldM (fun i kaleidoscope =>
        let angle := Zq i * segment_angle in
        rotated <- cv2_warpAffine frame [Zq center_x; Zq center_y; angle; 1] (w, h) ;;
        let mask :=
          {| shape := [Z.to_nat h; Z.to_nat w];
             data := Prim "cv2.fillPoly"
                       [Zq center_x; Zq center_y; Zq w; angle; segment_angle] [] |} in
        foldM (fun c kaleidoscope =>
          rc <- get_channel rotated c ;;
          kc <- get_channel kaleidoscope c ;;
          chosen <- broadcast_op "np.where" [] [mask; rc; kc] ;;
          set_channel kaleidoscope c chosen)
          [0; 1; 2]%nat kaleidoscope)
        (py_range num_segments) kaleidoscope ;;
    let blend_factor := intensity * (7 # 10) in
    result <- cv2_addWeighted frame (1 - blend_factor) kaleidoscope blend_factor ;;
    ret result.

(** [VideoProcessor.apply_wave_distortion] *)
Definition apply_wave_distortion (frame : ndarray) (intensity : Q) : M ndarray :=
  if Qle_bool intensity 0 then ret frame
  else
    '(h, w) <- shape_hw frame ;;
    let wave_amplitude := intensity * 30 in
    let wave_frequency := (2 # 100) + intensity * (5 # 100) in
    phase_x <- np_random_random ;;
    phase_y <- np_random_random ;;
    distorted <- cv2_remap frame [wave_amplitude; wave_frequency; phase_x; phase_y] h w ;;
    ret distorted.

(** *** Stylization *)

(** [VideoProcessor.apply_posterization] *)
Definition apply_posterization (frame : ndarray) (intensity : Q) : M ndarray :=
  if Qle_bool intensity 0 then ret frame
  else
    let num_levels := Z.max 2 (py_int (256 / (1 + intensity * 20))) in
    let posterized := copy frame in
    foldM (fun c posterized =>
      channel <- get_channel posterized c ;;
      let step := 256 / Zq num_levels in
      let quantized := elementwise "quantize" [step] channel in
      let quantized := elementwise "np.clip" [0; 255] quantized in
      set_channel posterized c quantized)
      [0; 1; 2]%nat posterized.

(** [VideoProcessor.apply_edge_detection_overlay] *)
Definition apply_edge_detection_overlay (frame : ndarray) (intensity : Q)
    : M ndarray :=
  if Qle_bool intensity 0 then ret frame
  else
    gray <- cv2_cvtColor frame BGR2GRAY ;;
    edges <- cv2_Canny gray ;;
    edges_bgr <- cv2_cvtColor edges GRAY2BGR ;;
    let edges_bgr := elementwise "255-" [] edges_bgr in
    let blend_factor := intensity * (4 # 10) in
    result <- cv2_addWeighted frame (1 - blend_factor) edges_bgr blend_factor ;;
    ret result.

(** *** Retro effects *)

(** [VideoProcessor.apply_vhs_degradation] *)
Definition apply_vhs_degradation (frame : ndarray) (intensity : Q) : M ndarray :=
  if Qle_bool intensity 0 then ret frame
  else
    '(h, w) <- shape_hw frame ;;
    let vhs_frame := elementwise "astype.float32" [] (copy frame) in
    let vhs_frame :=
      if Qltb (2 # 10) intensity then
        let num_lines := py_int (2 + intensity * 15) in
        let line_spacing := (h / (num_lines + 1))%Z in
        fold_left (fun vhs_frame i =>
          let line_y := (i * line_spacing)%Z in
          let line_height := Z.max 1 (py_int (intensity * 3)) in
          elementwise "imul_rows" [Zq line_y; Zq (line_y + line_height); 6 # 10]
            vhs_frame)
          (map (fun i => (i + 1)%Z) (py_range num_lines)) vhs_frame
      else vhs_frame in
    vhs_frame <-
      (if Qltb (3 # 10) intensity then
         let bleed_amount := py_int (intensity * 8) in
         '(b, g, r) <- cv2_split3 vhs_frame ;;
         r_shifted <- cv2_warpAffine r [1; 0; Zq bleed_amount; 0; 1; 0] (w, h) ;;
         b_shifted <- cv2_warpAffine b [1; 0; Zq (- bleed_amount); 0; 1; 0] (w, h) ;;
         cv2_merge3 b_shifted g r_shifted
       else ret vhs_frame) ;;
    vhs_frame <-
      (if Qltb (4 # 10) intensity then
         let noise_amount := intensity * 20 in
         noise <- np_random_array "np.random.normal" noise_amount
                    [Z.to_nat h; Z.to_nat w; 3%nat] ;;
         broadcast_op "add" [] [vhs_frame; noise]
       else ret vhs_frame) ;;
    vhs_frame <-
      (if Qltb (5 # 10) intensity then
         hsv <- cv2_cvtColor (elementwise "astype.uint8" [] vhs_frame) BGR2HSV ;;
         sat <- get_channel hsv 1 ;;
         hsv <- set_channel hsv 1
                  (elementwise "scale" [1 - intensity * (3 # 10)] sat) ;;
         bgr <- cv2_cvtColor hsv HSV2BGR ;;
         ret (elementwise "astype.float32" [] bgr)
       else ret vhs_frame) ;;
    let vhs_frame := elementwise "clip.astype.uint8" [0; 255] vhs_frame in
    ret vhs_frame.

(** [VideoProcessor.apply_scan_lines_crt] *)
Definition apply_scan_lines_crt (frame : ndarray) (intensity : Q) : M ndarray :=
  if Qle_bool intensity 0 then ret frame
  else
    '(h, w) <- shape_hw frame ;;
    let crt_frame := elementwise "astype.float32" [] (copy frame) in
    let scan_line_spacing := Z.max 2 (py_int (3 - intensity * 2)) in
    let crt_frame :=
      fold_left (fun crt_frame y =>
        let line_end := Z.min (y + scan_line_spacing) h in
        elementwise "imul_rows" [Zq y; Zq line_end; (7 # 10) - intensity * (3 # 10)]
          crt_frame)
        (py_range_step 0 h (scan_line_spacing * 2)) crt_frame in
    crt_frame <-
      (if Qltb (5 # 10) intensity then
         remapped <- cv2_remap (elementwise "astype.uint8" [] crt_frame)
                       [intensity * (1 # 10)] h w ;;
         ret (elementwise "astype.float32" [] remapped)
       else ret crt_frame) ;;
    let crt_frame := elementwise "clip.astype.uint8" [0; 255] crt_frame in
    ret crt_frame.

(** *** Layer blending *)

(** [VideoProcessor.blend_layers]: every mode is an element-by-element
    formula in [base], [overlay] and [opacity]; an unknown mode falls back
    to ["normal"]. *)
Definition blend_modes : list string :=
  ["normal"; "multiply"; "screen"; "overlay"; "soft_light"; "hard_light";
   "color_dodge"; "color_burn"; "darken"; "lighten"; "difference";
   "exclusion"].

Definition blend_layers (base overlay : ndarray) (mode : string) (opacity : Q)
    : M ndarray :=
  if Qle_bool opacity 0 then ret base
  else
    let base_f := elementwise "astype.float32./255" [] base in
    let overlay_f := elementwise "astype.float32./255" [] overlay in
    let formula :=
      if bool_decide (mode ∈ blend_modes) then mode else "normal" in
    result <- broadcast_op formula [opacity] [base_f; overlay_f] ;;
    let result := elementwise "*255.clip.astype.uint8" [0; 255] result in
    ret result.

(** *** Combined effects *)

Record EffectParams := {
  zoom : Q;
  rotation : Q;
  hue_shift : Q;
  saturation : Q;
  brightness : Q;
  blur_intensity : Q;
  glitch_intensity : Q;
  artifacts_intensity : Q;
  pixel_sort_intensity : Q;
  kaleidoscope_intensity : Q;
  wave_distortion_intensity : Q;
  vhs_intensity : Q;
  posterization_intensity : Q;
  edge_detection_intensity : Q;
  data_corruption_intensity : Q;
  scan_lines_intensity : Q
}.

(** The keyword defaults of [apply_effects]: every parameter neutral. *)
Definition neutral_params : EffectParams := {|
  zoom := 1; rotation := 0; hue_shift := 0; saturation := 1; brightness := 1;
  blur_intensity := 0; glitch_intensity := 0; artifacts_intensity := 0;
  pixel_sort_intensity := 0; kaleidoscope_intensity := 0;
  wave_distortion_intensity := 0; vhs_intensity := 0;
  posterization_intensity := 0; edge_detection_intensity := 0;
  data_corruption_intensity := 0; scan_lines_intensity := 0
|}.

(** [if intensity > 0.0: frame = effect(frame, intensity)] *)
Definition when_positive (intensity : Q) (effect : ndarray -> Q -> M ndarray)
    (frame : ndarray) : M ndarray :=
  if Qltb 0 intensity then effect frame intensity else ret frame.

(** The body of [VideoProcessor.apply_effects], with the method
    [self.blend_layers] it calls as a parameter. *)
Definition apply_effects_with
    (blend_layers : ndarray -> ndarray -> string -> Q -> M ndarray)
    (frame : ndarray) (p : EffectParams)
    (effect_mode blend_mode : string) (layer_opacity : Q) : M ndarray :=
  let original_frame :=
    if bool_decide (effect_mode = "layer") then Some (copy frame) else None in
  original_transformed <-
    match original_frame with
    | Some original_frame =>
      if bool_decide (effect_mode = "layer") then
        original_transformed <- zoom_frame original_frame (zoom p) ;;
        original_transformed <- rotate_frame original_transformed (rotation p) ;;
        ret (Some original_transformed)
      else ret None
    | None => ret None
    end ;;
  frame <- zoom_frame frame (zoom p) ;;
  frame <- rotate_frame frame (rotation p) ;;
  frame <- apply_color_grade frame (hue_shift p) (saturation p) (brightness p) ;;
  frame <- when_positive (pixel_sort_intensity p) apply_pixel_sorting frame ;;
  frame <- when_positive (kaleidoscope_intensity p) apply_kaleidoscope frame ;;
  frame <- when_positive (wave_distortion_intensity p) apply_wave_distortion frame ;;
  frame <- when_positive (glitch_intensity p) apply_glitch_effect frame ;;
  frame <- when_positive (data_corruption_intensity p) apply_data_corruption frame ;;
  frame <- when_positive (artifacts_intensity p) apply_artifacts_effect frame ;;
  frame <- when_positive (posterization_intensity p) apply_posterization frame ;;
  frame <- when_positive (edge_detection_intensity p) apply_edge_detection_overlay frame ;;
  frame <- when_positive (vhs_intensity p) apply_vhs_degradation frame ;;
  frame <- when_positive (scan_lines_intensity p) apply_scan_lines_crt frame ;;
  frame <- when_positive (blur_intensity p) apply_motion_blur frame ;;
  match original_transformed with
  | Some original_transformed =>
    if bool_decide (effect_mode = "layer") then
      blend_layers original_transformed frame blend_mode layer_opacity
    else ret frame
  | None => ret frame
  end.

(** [VideoProcessor.apply_effects] *)
Definition apply_effects : ndarray -> EffectParams -> string -> string -> Q ->
    M ndarray :=
  apply_effects_with blend_layers.

(** *** Specifications of monadic computations *)

(** [returns m Q]: whenever [m] returns a value, [Q] holds of it. *)
Definition returns {A} (m : M A) (Q : A -> Prop) : Prop :=
  forall tape a tape', m tape = Ok (a, tape') -> Q a.

(** [succeeds m Q]: on every tape [m] returns a value, and [Q] holds of
    it. *)
Definition succeeds {A} (m : M A) (Q : A -> Prop) : Prop :=
  forall tape, exists a tape', m tape = Ok (a, tape') /\ Q a.

(** A colour frame of [h] rows and [w] columns. *)
Definition color_frame (h w : nat) (a : ndarray) : Prop :=
  shape a = [h; w; 3%nat].

(** ** Definitions used by the statements *)

Definition f64 : Set := PrimFloat.float.

(** An [int] converted to a float (exact below [2^53]). *)
Definition f64_of_Z (z : Z) : f64 := PrimFloat.of_uint63 (Uint63.of_Z z).

(** The float literal written [n/d] in decimal, e.g. [0.3] is
    [f64_ratio 3 10]: the double nearest to the quotient. *)
Definition f64_ratio (n d : Z) : f64 :=
  PrimFloat.div (f64_of_Z n) (f64_of_Z d).

Definition is_nan_f64 (x : f64) : bool :=
  match FloatOps.Prim2SF x with
  | SpecFloat.S754_nan => true
  | _ => false
  end.


(** The exact value of a finite float. *)
Definition f64_to_Q (x : f64) : Q :=
  match FloatOps.Prim2SF x with
  | SpecFloat.S754_finite s m e =>
    let v := match e with
             | Z0 => inject_Z (Zpos m)
             | Zpos p => inject_Z (Zpos m * 2 ^ Zpos p)
             | Zneg p => Zpos m # (2 ^ p)
             end in
    if s then - v else v
  | _ => 0
  end.

(** Python [int(x)] of a float: truncation toward zero; [None] where it
    raises ([nan], [inf]). *)
Definition py_int_f64 (x : f64) : option Z :=
  match FloatOps.Prim2SF x with
  | SpecFloat.S754_zero _ => Some 0%Z
  | SpecFloat.S754_finite s m e =>
    let v := match e with
             | Z0 => Zpos m
             | Zpos p => (Zpos m * 2 ^ Zpos p)%Z
             | Zneg p => (Zpos m / 2 ^ Zpos p)%Z
             end in
    Some (if s then (- v)%Z else v)
  | _ => None
  end.

(** [np.minimum] / [np.maximum] of two floats: a [nan] propagates. *)
Definition f64_minimum (a b : f64) : f64 :=
  if is_nan_f64 a then a else if is_nan_f64 b then b
  else if PrimFloat.ltb b a then b else a.

Definition f64_maximum (a b : f64) : f64 :=
  if is_nan_f64 a then a else if is_nan_f64 b then b
  else if PrimFloat.ltb a b then b else a.

Definition np_min_f64 (a : list f64) : option f64 :=
  match a with
  | [] => None
  | x :: xs => Some (fold_left f64_minimum xs x)
  end.

Definition np_max_f64 (a : list f64) : option f64 :=
  match a with
  | [] => None
  | x :: xs => Some (fold_left f64_maximum xs x)
  end.

(** [AudioAnalyzer.normalize_energy] on a binary64 array. *)
Definition normalize_energy_f64 (energy : list f64) : option (list f64) :=
  energy_min ← np_min_f64 energy;
  energy_max ← np_max_f64 energy;
  let energy_range := PrimFloat.sub energy_max energy_min in
  if PrimFloat.ltb energy_range (f64_ratio 1 100000000) then
    Some (map (fun _ => PrimFloat.zero) energy)
  else
    Some (map (fun x => PrimFloat.div (PrimFloat.sub x energy_min) energy_range)
              energy).


(** The energies 1, 3, 2, as rationals and as floats. *)
Definition energy_132 : list f64 := [f64_of_Z 1; f64_of_Z 3; f64_of_Z 2].





(** Every band at half energy. *)
Definition half_bands : BandValues :=
  {| sub_bass_val := 1 # 2; bass_val := 1 # 2; mid_val := 1 # 2;
     treble_val := 1 # 2; high_treble_val := 1 # 2 |}.

(** What the analysis hands to the renderer: a non-empty spectrogram time
    axis, band curves of that length, onset indices inside it. *)
Definition valid_analysis (energy_curves : gmap string (list Q))
    (frame_times : list Q) (bass_beat_frames : list nat) : Prop :=
  frame_times <> [] /\
  (forall name c, energy_curves !! name = Some c -> length c = length frame_times) /\
  Forall (fun f => (f < length frame_times)%nat) bass_beat_frames.

(** The recurrence behind [apply_temporal_smoothing] once a previous value
    [prev] is stored. *)
Fixpoint ema (f prev : Q) (inputs : list Q) : list Q :=
  match inputs with
  | [] => []
  | x :: rest =>
    let alpha := 1 - f in
    let smoothed := alpha * x + (1 - alpha) * prev in
    smoothed :: ema f smoothed rest
  end.

Fixpoint qpow (f : Q) (n : nat) : Q :=
  match n with
  | O => 1
  | S n' => f * qpow f n'
  end.





(** Resampling a curve from the axis [xs] onto [ts] and back onto [xs]. *)
Definition resample_round_trip (xs ys ts : list Q) : option (list Q) :=
  r ← np_interp ts xs ys;
  np_interp xs ts r.

(** A strictly increasing time axis. *)
Definition strictly_increasing (l : list Q) : Prop :=
  forall i j a b, (i < j)%nat -> l !! i = Some a -> l !! j = Some b -> a < b.

(** Two peak positions closer than the minimal distance. *)
Definition too_close (distance : nat) (p q : nat) : Prop :=
  (Z.abs (Z.of_nat p - Z.of_nat q) < Z.of_nat distance)%Z.

(** A run of equal samples around [p], higher than the samples on both
    sides of it ([scipy]'s notion of a peak, flat tops included). *)
Definition local_maximum (x : list Q) (p : nat) : Prop :=
  exists left right,
    (1 <= left)%nat /\ (left <= p)%nat /\ (p <= right)%nat /\
    (right + 1 < length x)%nat /\
    (forall j, (left <= j <= right)%nat -> nth j x 0 == nth p x 0) /\
    nth (left - 1) x 0 < nth p x 0 /\
    nth (right + 1) x 0 < nth p x 0.

(** A sharp peak: an interior sample strictly higher than both its
    neighbours. *)
Definition sharp_peak (x : list Q) (p : nat) : Prop :=
  (1 <= p)%nat /\ (p + 1 < length x)%nat /\
  nth (p - 1) x 0 < nth p x 0 /\ nth (p + 1) x 0 < nth p x 0.

(** Two peaks of heights 1 and 2, four frames apart. *)
Definition two_peaks_apart : list Q := [0; 1; 0; 0; 0; 2; 0].

(** The same peaks three frames apart. *)
Definition two_peaks_closer : list Q := [0; 1; 0; 0; 2; 0].

(** The two peaks four frames apart, and a higher third peak two frames
    after the second. *)
Definition three_peaks : list Q := [0; 1; 0; 0; 0; 2; 0; 3; 0].

(** The blocks of [apply_data_corruption] have side
    [int(10 + intensity * 40)]. *)
Definition corruption_block (intensity : Q) : Z := py_int (10 + intensity * 40).

(** The centre crop of [zoom_frame] keeps at least one pixel. *)
Definition crop_nonempty (h w : nat) (zoom_factor : Q) : Prop :=
  1 < zoom_factor ->
  (1 <= py_int (Zq (Z.of_nat h) / zoom_factor))%Z /\
  (1 <= py_int (Zq (Z.of_nat w) / zoom_factor))%Z.

(** The blocks of [apply_data_corruption] fit into the frame. *)
Definition block_fits (h w : nat) (intensity : Q) : Prop :=
  1 # 10 < intensity ->
  (corruption_block intensity <= Z.of_nat h)%Z /\
  (corruption_block intensity <= Z.of_nat w)%Z.

(** The effects of the pipeline that take the frame and one intensity and
    have no size requirement beyond a non-empty frame. *)
Definition intensity_effects : list (ndarray -> Q -> M ndarray) :=
  [apply_pixel_sorting; apply_kaleidoscope; apply_wave_distortion;
   apply_glitch_effect; apply_artifacts_effect; apply_posterization;
   apply_edge_detection_overlay; apply_vhs_degradation; apply_scan_lines_crt;
   apply_motion_blur].

(** A frame of [h] rows and [w] columns holding the pixels of input [id]. *)
Definition input_frame (id h w : nat) : ndarray :=
  {| shape := [h; w; 3%nat]; data := Raw id |}.

(** Every parameter of [apply_effects] away from its neutral value. *)
Definition busy_params : EffectParams := {|
  zoom := 13 # 10; rotation := 5; hue_shift := 30; saturation := 3 # 2;
  brightness := 12 # 10;
  blur_intensity := 1; glitch_intensity := 1; artifacts_intensity := 1;
  pixel_sort_intensity := 1; kaleidoscope_intensity := 1;
  wave_distortion_intensity := 1; vhs_intensity := 1;
  posterization_intensity := 1; edge_detection_intensity := 1;
  data_corruption_intensity := 1; scan_lines_intensity := 1
|}.

(** Neutral parameters except for the zoom factor. *)
Definition zoom_only (z : Q) : EffectParams := {|
  zoom := z; rotation := 0; hue_shift := 0; saturation := 1; brightness := 1;
  blur_intensity := 0; glitch_intensity := 0; artifacts_intensity := 0;
  pixel_sort_intensity := 0; kaleidoscope_intensity := 0;
  wave_distortion_intensity := 0; vhs_intensity := 0;
  posterization_intensity := 0; edge_detection_intensity := 0;
  data_corruption_intensity := 0; scan_lines_intensity := 0
|}.

(** [SoundReactiveGUI.mix_frequency_bands]; a missing key of [weights]
    raises [KeyError] ([None]). *)
Definition mix_frequency_bands (sub_bass bass mid treble high_treble : Q)
    (weights : gmap string Q) : option Q :=
  w_sub_bass ← weights !! "sub_bass";
  w_bass ← weights !! "bass";
  w_mid ← weights !! "mid";
  w_treble ← weights !! "treble";
  w_high_treble ← weights !! "high_treble";
  let total_weight := w_sub_bass + w_bass + w_mid + w_treble + w_high_treble in
  if Qltb total_weight eps8 then Some 0
  else
    let mixed := (sub_bass * w_sub_bass + bass * w_bass + mid * w_mid +
                  treble * w_treble + high_treble * w_high_treble) / total_weight in
    Some (np_clip mixed 0 1).

(** A weight dictionary with the five band keys, as [init_frequency_weights]
    builds them. *)
Definition band_weights (w_sub_bass w_bass w_mid w_treble w_high_treble : Q)
    : gmap string Q :=
  <["sub_bass" := w_sub_bass]> (<["bass" := w_bass]> (<["mid" := w_mid]>
    (<["treble" := w_treble]> (<["high_treble" := w_high_treble]> ∅)))).

(** [init_frequency_weights]: the default weights of the VHS effect. *)
Definition vhs_weights : gmap string Q :=
  band_weights 0 (3 # 10) (3 # 10) (4 # 10) 0.

(** The block [get_effect_parameters] repeats for each artistic effect:
    [intensity = 0.0; if checked: base = mix(...); if base > 1e-8:
     intensity = clip(base * (0.5 + sens * 0.5), 0, 1);
     intensity = apply_temporal_smoothing(name, intensity)].
    Returns the intensity and the smoothing state. *)
Definition effect_intensity (effect_smoothing_factor intensity_sens : Q)
    (checked : bool) (effect_name : string) (weights : gmap string Q)
    (sub_bass bass mid treble high_treble : Q)
    (prev_effect_intensities : gmap string Q) : option (Q * gmap string Q) :=
  if checked then
    base_intensity ← mix_frequency_bands sub_bass bass mid treble high_treble weights;
    if Qltb eps8 base_intensity then
      let intensity := base_intensity * ((5 # 10) + intensity_sens * (5 # 10)) in
      let intensity := np_clip intensity 0 1 in
      Some (apply_temporal_smoothing effect_smoothing_factor
              prev_effect_intensities effect_name intensity)
    else Some (0, prev_effect_intensities)
  else Some (0, prev_effect_intensities).

(** Every stored intensity lies in [0,1]. *)
Definition intensities_in_range (prev_effect_intensities : gmap string Q) : Prop :=
  forall name v, prev_effect_intensities !! name = Some v -> 0 <= v <= 1.

(** [VideoProcessor.ease_in_out_cubic] *)
Definition ease_in_out_cubic (t : Q) : Q :=
  if Qltb t 0 then 0
  else if Qltb 1 t then 1
  else t * t * (3 - 2 * t).

(** [VideoProcessor.ease_out_cubic] *)
Definition ease_out_cubic (t : Q) : Q :=
  if Qltb t 0 then 0
  else if Qltb 1 t then 1
  else 1 - (1 - t) ^ 3.

(** [VideoProcessor.ease_in_out_quad] *)
Definition ease_in_out_quad (t : Q) : Q :=
  if Qltb t 0 then 0
  else if Qltb 1 t then 1
  else if Qltb t (1 # 2) then 2 * t * t
  else 1 - (-2 * t + 2) ^ 2 / 2.

(** What the docstrings promise of an interpolation curve: values in
    [0,1], 0 up to [t = 0], 1 from [t = 1] on, never decreasing. *)
Definition easing_curve (f : Q -> Q) : Prop :=
  (forall t, 0 <= f t <= 1) /\
  (forall t, t <= 0 -> f t == 0) /\
  (forall t, 1 <= t -> f t == 1) /\
  (forall s t, s <= t -> f s <= f t).

(** [VideoProcessor.time_to_frame] *)
Definition time_to_frame (fps : Q) (time_seconds : Q) : Z :=
  py_int (time_seconds * fps).

(** [VideoProcessor.frame_to_time] *)
Definition frame_to_time (fps : Q) (frame_idx : Z) : Q :=
  inject_Z frame_idx / fps.

(** [process_video]: the zoom of frame [i] of a bass hit lasting
    [effect_frames] frames. *)
Definition bass_hit_zoom (zoom_factor : Q) (effect_frames i : Z) : Q :=
  let progress := inject_Z i / inject_Z effect_frames in
  let eased_progress := ease_in_out_cubic progress in
  if Qltb progress (1 # 2) then
    1 + (zoom_factor - 1) * (eased_progress * 2)
  else
    zoom_factor + (1 - zoom_factor) * ((eased_progress - (1 # 2)) * 2).

(** [process_video]: the rotation of frame [i] of a treble hit. *)
Definition treble_hit_rotation (rotation_angle : Q) (effect_frames i : Z) : Q :=
  let progress := inject_Z i / inject_Z effect_frames in
  let eased_progress := ease_in_out_cubic progress in
  if Qltb progress (1 # 2) then
    rotation_angle * (eased_progress * 2)
  else
    rotation_angle * ((1 - eased_progress) * 2).

(** [process_video]: the inner loop for one bass hit; [effect_map] maps a
    video frame index to its [(zoom, rotation)]. *)
Definition map_bass_hit (fps : Q) (total_frames : Z) (zoom_factor : Q)
    (effect_frames : Z) (effect_map : gmap Z (Q * Q)) (bass_time : Q)
    : gmap Z (Q * Q) :=
  let start_frame := time_to_frame fps bass_time in
  fold_left
    (fun effect_map i =>
       let frame_idx := (start_frame + i)%Z in
       if (frame_idx <? total_frames)%Z then
         let zoom := bass_hit_zoom zoom_factor effect_frames i in
         match effect_map !! frame_idx with
         | None => <[frame_idx := (zoom, 0)]> effect_map
         | Some (current_zoom, current_rotation) =>
           <[frame_idx := (Qmax zoom current_zoom, current_rotation)]> effect_map
         end
       else effect_map)
    (py_range effect_frames) effect_map.

(** [process_video]: the inner loop for one treble hit. *)
Definition map_treble_hit (fps : Q) (total_frames : Z) (rotation_angle : Q)
    (effect_frames : Z) (effect_map : gmap Z (Q * Q)) (treble_time : Q)
    : gmap Z (Q * Q) :=
  let start_frame := time_to_frame fps treble_time in
  fold_left
    (fun effect_map i =>
       let frame_idx := (start_frame + i)%Z in
       if (frame_idx <? total_frames)%Z then
         let rotation := treble_hit_rotation rotation_angle effect_frames i in
         match effect_map !! frame_idx with
         | None => <[frame_idx := (1, rotation)]> effect_map
         | Some (current_zoom, current_rotation) =>
           <[frame_idx := (current_zoom, current_rotation + rotation)]> effect_map
         end
       else effect_map)
    (py_range effect_frames) effect_map.

(** [process_video]: the effect map built from the bass and treble hit
    times; [None] when a hit index is outside [frame_times]. *)
Definition build_effect_map (fps : Q) (total_frames : Z)
    (zoom_factor rotation_angle effect_duration : Q)
    (frame_times : list Q) (bass_frames treble_frames : list nat)
    : option (gmap Z (Q * Q)) :=
  bass_times ← beat_times frame_times bass_frames;
  treble_times ← beat_times frame_times treble_frames;
  let effect_frames := py_int (effect_duration * fps) in
  let effect_map :=
    fold_left (map_bass_hit fps total_frames zoom_factor effect_frames)
              bass_times ∅ in
  Some (fold_left (map_treble_hit fps total_frames rotation_angle effect_frames)
                  treble_times effect_map).

(** [effect_map.get(frame_idx, (1.0, 0.0))] *)
Definition effect_at (effect_map : gmap Z (Q * Q)) (frame_idx : Z) : Q * Q :=
  default (1, 0) (effect_map !! frame_idx).

(** Whether the hit at [hit_time] reaches the video frame [frame_idx]:
    [frame_idx = start_frame + i] for an [i] of [range(effect_frames)], and
    [frame_idx < total_frames]. *)
Definition hit_covers (fps : Q) (total_frames effect_frames : Z) (hit_time : Q)
    (frame_idx : Z) : bool :=
  let start_frame := time_to_frame fps hit_time in
  (start_frame <=? frame_idx)%Z && (frame_idx <? start_frame + effect_frames)%Z
  && (frame_idx <? total_frames)%Z.

(** The largest zoom among 1 and the bass hits that reach [frame_idx]. *)
Definition zoom_of_hits (fps : Q) (total_frames : Z) (zoom_factor : Q)
    (effect_frames : Z) (bass_times : list Q) (frame_idx : Z) : Q :=
  fold_left
    (fun acc t =>
       if hit_covers fps total_frames effect_frames t frame_idx then
         Qmax (bass_hit_zoom zoom_factor effect_frames
                 (frame_idx - time_to_frame fps t)) acc
       else acc)
    bass_times 1.

(** The sum of the rotations of the treble hits that reach [frame_idx]. *)
Definition rotation_of_hits (fps : Q) (total_frames : Z) (rotation_angle : Q)
    (effect_frames : Z) (treble_times : list Q) (frame_idx : Z) : Q :=
  Qsum (map (fun t =>
               if hit_covers fps total_frames effect_frames t frame_idx then
                 treble_hit_rotation rotation_angle effect_frames
                   (frame_idx - time_to_frame fps t)
               else 0)
            treble_times).

(** The remaining keyword arguments of [process_video_enhanced]. *)
Record EffectSwitches := {
  mid_hue_shift : Q;
  enable_color_grading : bool;
  enable_blur : bool;
  enable_brightness : bool;
  enable_glitch : bool;
  enable_artifacts : bool;
  snare_triggered_flash : bool;
  snare_window : Q
}.

(** Their defaults. *)
Definition default_switches : EffectSwitches := {|
  mid_hue_shift := 30;
  enable_color_grading := true;
  enable_blur := true;
  enable_brightness := true;
  enable_glitch := false;
  enable_artifacts := false;
  snare_triggered_flash := true;
  snare_window := 15 # 100
|}.

(** The brightness of one frame: the pulse, then the snare flash. *)
Definition compute_brightness (sw : EffectSwitches) (snare_hit_times : list Q)
    (current_time : Q) (b : BandValues) : Q :=
  let brightness := 1 in
  let brightness :=
    if enable_brightness sw then 1 + (bass_val b + mid_val b) * (3 # 10)
    else brightness in
  if snare_triggered_flash sw && (0 <? length snare_hit_times)%nat then
    match nearest_beat_distance snare_hit_times current_time with
    | Some nearest_snare_distance =>
      if Qle_bool nearest_snare_distance (snare_window sw) then
        let snare_proximity := 1 - nearest_snare_distance / snare_window sw in
        let snare_proximity := np_clip snare_proximity 0 1 in
        let flash_intensity := snare_proximity * (8 # 10) in
        let brightness := brightness + flash_intensity in
        np_clip brightness 1 2
      else brightness
    | None => brightness
    end
  else brightness.

(** The arguments the frame loop of [process_video_enhanced] passes to
    [apply_effects]; the parameters it does not pass keep their default 0. *)
Definition frame_effect_params (cfg : ReactConfig) (sw : EffectSwitches)
    (bass_beat_times snare_hit_times : list Q) (current_time : Q)
    (b : BandValues) : EffectParams := {|
  zoom := compute_zoom cfg bass_beat_times current_time b;
  rotation := compute_rotation cfg b;
  hue_shift :=
    if enable_color_grading sw then mid_val b * mid_hue_shift sw else 0;
  saturation :=
    if enable_color_grading sw then 1 + treble_val b * (3 # 10) else 1;
  brightness := compute_brightness sw snare_hit_times current_time b;
  blur_intensity := if enable_blur sw then bass_val b * (5 # 10) else 0;
  glitch_intensity :=
    if enable_glitch sw then
      (treble_val b * (6 # 10) + high_treble_val b * (4 # 10))
      * intensity_sensitivity cfg
    else 0;
  artifacts_intensity :=
    if enable_artifacts sw then
      let base_intensity :=
        treble_val b * (5 # 10) + high_treble_val b * (5 # 10) in
      np_clip (base_intensity * ((5 # 10) + intensity_sensitivity cfg * (5 # 10))) 0 1
    else 0;
  pixel_sort_intensity := 0; kaleidoscope_intensity := 0;
  wave_distortion_intensity := 0; vhs_intensity := 0;
  posterization_intensity := 0; edge_detection_intensity := 0;
  data_corruption_intensity := 0; scan_lines_intensity := 0
|}.

(** The guard of the frame loop:
    [zoom != 1.0 or rotation != 0.0 or hue_shift != 0.0 or saturation != 1.0
     or brightness != 1.0 or blur_intensity > 0.0 or glitch_intensity > 0.0
     or artifacts_intensity > 0.0]. *)
Definition needs_effects (p : EffectParams) : bool :=
  negb (Qeq_bool (zoom p) 1) || negb (Qeq_bool (rotation p) 0)
  || negb (Qeq_bool (hue_shift p) 0) || negb (Qeq_bool (saturation p) 1)
  || negb (Qeq_bool (brightness p) 1) || Qltb 0 (blur_intensity p)
  || Qltb 0 (glitch_intensity p) || Qltb 0 (artifacts_intensity p).

(** What the frame loop hands to the writer for one frame. *)
Definition render_frame (frame : ndarray) (p : EffectParams) : M ndarray :=
  if needs_effects p then apply_effects frame p "direct" "normal" 1
  else ret frame.

(** Band weights for which the mixing denominators
    [w1 + w2 + 1e-8] cannot vanish. *)
Definition nonneg_weights (cfg : ReactConfig) : Prop :=
  0 <= sub_bass_zoom cfg /\ 0 <= bass_zoom cfg /\
  0 <= treble_rotation cfg /\ 0 <= high_treble_rotation cfg.

(** Band values as the analysis delivers them, each in [0,1]. *)
Definition bands_in_range (b : BandValues) : Prop :=
  0 <= sub_bass_val b <= 1 /\ 0 <= bass_val b <= 1 /\ 0 <= mid_val b <= 1 /\
  0 <= treble_val b <= 1 /\ 0 <= high_treble_val b <= 1.

(** A computation that draws no random number: it returns the same value,
    or raises the same error, whatever the state of the random generator,
    and leaves that state as it was. *)
Definition draws_nothing {A} (m : M A) : Prop :=
  exists r : result A,
    forall tape, m tape = match r with
                          | Ok a => Ok (a, tape)
                          | Raise e => Raise e
                          end.

(** Parameters at which no stage of [apply_effects] does anything. *)
Definition inactive (p : EffectParams) : Prop :=
  zoom p <= 1 /\ Qabs (rotation p) < 1 # 100 /\
  hue_shift p == 0 /\ saturation p == 1 /\ brightness p == 1 /\
  Forall (fun intensity => intensity <= 0)
    [pixel_sort_intensity p; kaleidoscope_intensity p;
     wave_distortion_intensity p; glitch_intensity p;
     data_corruption_intensity p; artifacts_intensity p;
     posterization_intensity p; edge_detection_intensity p;
     vhs_intensity p; scan_lines_intensity p; blur_intensity p].

(** [librosa.fft_frequencies(sr, n_fft)], that is
    [np.fft.rfftfreq(n_fft, 1.0 / sr)]: [k * (1 / (n_fft * (1 / sr)))] for
    [k = 0 .. n_fft // 2]. *)
Definition fft_frequencies (sr : Q) (n_fft : nat) : list Q :=
  let val := 1 / (inject_Z (Z.of_nat n_fft) * (1 / sr)) in
  map (fun k => inject_Z (Z.of_nat k) * val) (seq 0 (n_fft / 2 + 1)).

(** [librosa.frames_to_time(np.arange(n), sr, hop_length)]:
    [(k * hop_length) / sr]. *)
Definition frames_to_time (n : nat) (sr : Q) (hop_length : nat) : list Q :=
  map (fun k => inject_Z (Z.of_nat (k * hop_length)) / sr) (seq 0 n).

(** The state of an [AudioAnalyzer].  [spectrogram] is [self.S], one row
    per frequency bin and one column per frame; the attributes that are
    [None] or absent before the analysis are options. *)
Record AudioAnalyzer := {
  sr : Q;
  n_fft : nat;
  hop_length : nat;
  spectrogram : list (list Q);
  times : list Q;
  energy_curves : gmap string (list Q);
  bass_frames : option (list nat);
  treble_frames : option (list nat);
  bass_beat_frames : option (list nat);
  snare_hit_frames : option (list nat)
}.

(** [self.energy_curves = c] *)
Definition set_energy_curves (a : AudioAnalyzer) (c : gmap string (list Q))
    : AudioAnalyzer :=
  {| sr := sr a; n_fft := n_fft a; hop_length := hop_length a;
     spectrogram := spectrogram a; times := times a; energy_curves := c;
     bass_frames := bass_frames a; treble_frames := treble_frames a;
     bass_beat_frames := bass_beat_frames a;
     snare_hit_frames := snare_hit_frames a |}.

(** [self.bass_frames = peaks] *)
Definition set_bass_frames (a : AudioAnalyzer) (peaks : list nat) : AudioAnalyzer :=
  {| sr := sr a; n_fft := n_fft a; hop_length := hop_length a;
     spectrogram := spectrogram a; times := times a;
     energy_curves := energy_curves a;
     bass_frames := Some peaks; treble_frames := treble_frames a;
     bass_beat_frames := bass_beat_frames a;
     snare_hit_frames := snare_hit_frames a |}.

(** [self.treble_frames = peaks] *)
Definition set_treble_frames (a : AudioAnalyzer) (peaks : list nat) : AudioAnalyzer :=
  {| sr := sr a; n_fft := n_fft a; hop_length := hop_length a;
     spectrogram := spectrogram a; times := times a;
     energy_curves := energy_curves a;
     bass_frames := bass_frames a; treble_frames := Some peaks;
     bass_beat_frames := bass_beat_frames a;
     snare_hit_frames := snare_hit_frames a |}.

(** [self.bass_beat_frames = beats; self.snare_hit_frames = snares] *)
Definition set_beat_frames (a : AudioAnalyzer) (beats snares : list nat)
    : AudioAnalyzer :=
  {| sr := sr a; n_fft := n_fft a; hop_length := hop_length a;
     spectrogram := spectrogram a; times := times a;
     energy_curves := energy_curves a;
     bass_frames := bass_frames a; treble_frames := treble_frames a;
     bass_beat_frames := Some beats;
     snare_hit_frames := Some snares |}.

(** [np.sum(rows, axis=0)] of rows of [n] columns; no row gives [n] zeros. *)
Definition np_sum_axis0 (n : nat) (rows : list (list Q)) : list Q :=
  foldr (zip_with Qplus) (replicate n 0) rows.

(** [AudioAnalyzer.extract_frequency_band_energy]; a mask that does not
    have one entry per row of [S] raises [IndexError]. *)
Definition extract_frequency_band_energy (a : AudioAnalyzer) (freq_range : Q * Q)
    : option (list Q) :=
  let '(fmin, fmax) := freq_range in
  let freqs := fft_frequencies (sr a) (n_fft a) in
  let freq_mask := map (fun f => Qle_bool fmin f && Qle_bool f fmax) freqs in
  if (length freq_mask =? length (spectrogram a))%nat then
    Some (np_sum_axis0 (length (hd [] (spectrogram a)))
                       (mask_select (spectrogram a) freq_mask))
  else None.

(** [AudioAnalyzer.detect_bass_drums]: the peaks and the updated analyzer. *)
Definition detect_bass_drums (a : AudioAnalyzer) (bass_freq_range : Q * Q)
    (threshold_percentile : Q) : option (list nat * AudioAnalyzer) :=
  bass_energy ← extract_frequency_band_energy a bass_freq_range;
  bass_energy_normalized ← normalize_energy bass_energy;
  let a := set_energy_curves a
             (<["bass" := bass_energy_normalized]> (energy_curves a)) in
  peaks ← detect_peaks bass_energy_normalized threshold_percentile 10;
  Some (peaks, set_bass_frames a peaks).

(** [AudioAnalyzer.detect_treble] *)
Definition detect_treble (a : AudioAnalyzer) (treble_freq_range : Q * Q)
    (threshold_percentile : Q) : option (list nat * AudioAnalyzer) :=
  treble_energy ← extract_frequency_band_energy a treble_freq_range;
  treble_energy_normalized ← normalize_energy treble_energy;
  let a := set_energy_curves a
             (<["treble" := treble_energy_normalized]> (energy_curves a)) in
  peaks ← detect_peaks treble_energy_normalized threshold_percentile 5;
  Some (peaks, set_treble_frames a peaks).

(** The loop of [analyze_multiple_bands] over [bands.items()]. *)
Fixpoint band_curves (a : AudioAnalyzer) (bands : list (string * (Q * Q)))
    (energy_curves : gmap string (list Q)) : option (gmap string (list Q)) :=
  match bands with
  | [] => Some energy_curves
  | (band_name, freq_range) :: rest =>
    energy ← extract_frequency_band_energy a freq_range;
    normalized ← normalize_energy energy;
    band_curves a rest (<[band_name := normalized]> energy_curves)
  end.

(** [AudioAnalyzer.analyze_multiple_bands]: the dictionary returned and the
    updated analyzer. *)
Definition analyze_multiple_bands (a : AudioAnalyzer)
    (sub_bass_range bass_range mid_range treble_range high_treble_range : Q * Q)
    : option (gmap string (list Q) * AudioAnalyzer) :=
  let bands := [("sub_bass", sub_bass_range); ("bass", bass_range);
                ("mid", mid_range); ("treble", treble_range);
                ("high_treble", high_treble_range)] in
  curves ← band_curves a bands ∅;
  let a := set_energy_curves a (curves ∪ energy_curves a) in
  let bass_energy := default (replicate (length (times a)) 0) (curves !! "bass") in
  bass_peaks ← detect_peaks bass_energy 75 10;
  let snare_freq_range := (200, 500) in
  snare_energy ← extract_frequency_band_energy a snare_freq_range;
  snare_energy_normalized ← normalize_energy snare_energy;
  snare_peaks ← detect_peaks snare_energy_normalized 70 8;
  Some (curves, set_beat_frames a bass_peaks snare_peaks).

(** [AudioAnalyzer.get_energy_curve] *)
Definition get_energy_curve (a : AudioAnalyzer) (band_name : string)
    : option (list Q) :=
  energy_curves a !! band_name.

(** [AudioAnalyzer.analyze] after [load_audio] and [compute_spectrogram]:
    [(bass_frames, treble_frames, times)] and the updated analyzer. *)
Definition analyze (a : AudioAnalyzer) (bass_freq_range treble_freq_range : Q * Q)
    : option (list nat * list nat * list Q * AudioAnalyzer) :=
  '(bass_frames, a) ← detect_bass_drums a bass_freq_range 75;
  '(treble_frames, a) ← detect_treble a treble_freq_range 70;
  Some (bass_frames, treble_frames, times a, a).

(** The analyzer as [compute_spectrogram] leaves it: [n_fft // 2 + 1] rows
    of one magnitude (non-negative) per frame, and the frame times of
    [librosa.frames_to_time]. *)
Definition spectrogram_computed (a : AudioAnalyzer) : Prop :=
  length (spectrogram a) = (n_fft a / 2 + 1)%nat /\
  Forall (fun row => length row = length (times a) /\ Forall (fun v => 0 <= v) row)
         (spectrogram a) /\
  times a = frames_to_time (length (times a)) (sr a) (hop_length a).

(** A spectrogram of three bins and two frames, at 8 Hz with a 4-sample
    FFT: the bin frequencies are 0, 2 and 4 Hz. *)
Definition small_analyzer : AudioAnalyzer := {|
  sr := 8; n_fft := 4; hop_length := 2;
  spectrogram := [[1; 0]; [2; 1]; [0; 3]];
  times := frames_to_time 2 8 2;
  energy_curves := ∅;
  bass_frames := None; treble_frames := None;
  bass_beat_frames := None; snare_hit_frames := None
|}.

Definition band_names : list string :=
  ["sub_bass"; "bass"; "mid"; "treble"; "high_treble"].

(** [np.zeros(shape, dtype=np.uint8)]; a negative dimension raises
    [ValueError]. *)
Definition np_zeros (dims : list Z) : M ndarray :=
  if forallb (fun d => (0 <=? d)%Z) dims then
    ret {| shape := map Z.to_nat dims; data := Prim "np.zeros" [] [] |}
  else raise ValueError.

(** A step that raises when the pure model has no value. *)
Definition of_option {A} (e : exn) (o : option A) : M A :=
  match o with
  | Some a => ret a
  | None => raise e
  end.

(** Python's [min(a, b)] of two floats. *)
Definition py_min_f64 (a b : f64) : f64 := if PrimFloat.ltb b a then b else a.

(** The size [_resize_image_to_fit] resizes an [h] x [w] image to, computed
    in binary64 as the source does:
    [scale = min(target_width / w, target_height / h)],
    [(new_w, new_h) = (int(w * scale), int(h * scale))]. *)
Definition fit_size (h w target_width target_height : Z) : option (Z * Z) :=
  let scale :=
    py_min_f64 (PrimFloat.div (f64_of_Z target_width) (f64_of_Z w))
               (PrimFloat.div (f64_of_Z target_height) (f64_of_Z h)) in
  new_w ← py_int_f64 (PrimFloat.mul (f64_of_Z w) scale);
  new_h ← py_int_f64 (PrimFloat.mul (f64_of_Z h) scale);
  Some (new_w, new_h).

(** [SoundReactiveGUI._resize_image_to_fit].  (For an image without rows or
    columns the source divides by zero; here the size has no value and the
    method raises.) *)
Definition resize_image_to_fit (image : ndarray) (target_width target_height : Z)
    : M ndarray :=
  '(h, w) <- shape_hw image ;;
  '(new_w, new_h) <- of_option ValueError (fit_size h w target_width target_height) ;;
  resized <- cv2_resize image (new_w, new_h) ;;
  canvas <- np_zeros [target_height; target_width; 3%Z] ;;
  let y_offset := ((target_height - new_h) / 2)%Z in
  let x_offset := ((target_width - new_w) / 2)%Z in
  canvas <- setitem canvas (y_offset, y_offset + new_h)%Z
                           (x_offset, x_offset + new_w)%Z resized ;;
  ret canvas.

(** Energy curves as [analyze_multiple_bands] delivers them: every sample
    in [0,1]. *)
Definition curves_in_range (energy_curves : gmap string (list Q)) : Prop :=
  forall name c, energy_curves !! name = Some c -> Forall (fun v => 0 <= v <= 1) c.

(** The artistic-effect switches of [process_image_to_video]. *)
Record ArtSwitches := {
  enable_pixel_sort : bool;
  enable_kaleidoscope : bool;
  enable_wave_distortion : bool;
  enable_vhs : bool;
  enable_posterization : bool;
  enable_edge_detection : bool;
  enable_data_corruption : bool;
  enable_scan_lines : bool
}.

(** Their defaults: all off. *)
Definition default_art_switches : ArtSwitches := {|
  enable_pixel_sort := false; enable_kaleidoscope := false;
  enable_wave_distortion := false; enable_vhs := false;
  enable_posterization := false; enable_edge_detection := false;
  enable_data_corruption := false; enable_scan_lines := false
|}.

(** The block repeated for every reactive intensity:
    [x = 0.0; if enable: x = base_intensity * (0.5 + intensity_sensitivity * 0.5);
     x = np.clip(x, 0.0, 1.0)]. *)
Definition reactive_intensity (cfg : ReactConfig) (enable : bool)
    (base_intensity : Q) : Q :=
  if enable then
    np_clip (base_intensity * ((5 # 10) + intensity_sensitivity cfg * (5 # 10))) 0 1
  else 0.

(** The arguments the frame loop of [process_image_to_video] passes to
    [apply_effects]. *)
Definition image_effect_params (cfg : ReactConfig) (sw : EffectSwitches)
    (art : ArtSwitches) (bass_beat_times snare_hit_times : list Q)
    (current_time : Q) (b : BandValues) : EffectParams := {|
  zoom := compute_zoom cfg bass_beat_times current_time b;
  rotation := compute_rotation cfg b;
  hue_shift :=
    if enable_color_grading sw then mid_val b * mid_hue_shift sw else 0;
  saturation :=
    if enable_color_grading sw then 1 + treble_val b * (3 # 10) else 1;
  brightness := compute_brightness sw snare_hit_times current_time b;
  blur_intensity := if enable_blur sw then bass_val b * (5 # 10) else 0;
  glitch_intensity :=
    reactive_intensity cfg (enable_glitch sw)
      (treble_val b * (6 # 10) + high_treble_val b * (4 # 10));
  artifacts_intensity :=
    reactive_intensity cfg (enable_artifacts sw)
      (treble_val b * (5 # 10) + high_treble_val b * (5 # 10));
  pixel_sort_intensity :=
    reactive_intensity cfg (enable_pixel_sort art)
      (mid_val b * (7 # 10) + treble_val b * (3 # 10));
  kaleidoscope_intensity :=
    reactive_intensity cfg (enable_kaleidoscope art)
      (treble_val b * (5 # 10) + high_treble_val b * (5 # 10));
  wave_distortion_intensity :=
    reactive_intensity cfg (enable_wave_distortion art)
      (sub_bass_val b * (3 # 10) + bass_val b * (7 # 10));
  vhs_intensity :=
    reactive_intensity cfg (enable_vhs art)
      (bass_val b * (3 # 10) + mid_val b * (3 # 10) + treble_val b * (4 # 10));
  posterization_intensity :=
    reactive_intensity cfg (enable_posterization art)
      (mid_val b * (8 # 10) + treble_val b * (2 # 10));
  edge_detection_intensity :=
    reactive_intensity cfg (enable_edge_detection art)
      (treble_val b * (4 # 10) + high_treble_val b * (6 # 10));
  data_corruption_intensity :=
    reactive_intensity cfg (enable_data_corruption art)
      (treble_val b * (5 # 10) + high_treble_val b * (5 # 10));
  scan_lines_intensity :=
    reactive_intensity cfg (enable_scan_lines art)
      (bass_val b * (2 # 10) + mid_val b * (3 # 10) + treble_val b * (5 # 10))
|}.

(** The guard in front of the [apply_effects] call. *)
Definition image_needs_effects (p : EffectParams) : bool :=
  negb (Qeq_bool (zoom p) 1) || negb (Qeq_bool (rotation p) 0)
  || negb (Qeq_bool (hue_shift p) 0) || negb (Qeq_bool (saturation p) 1)
  || negb (Qeq_bool (brightness p) 1) || Qltb 0 (blur_intensity p)
  || Qltb 0 (glitch_intensity p) || Qltb 0 (artifacts_intensity p)
  || Qltb 0 (pixel_sort_intensity p) || Qltb 0 (kaleidoscope_intensity p)
  || Qltb 0 (wave_distortion_intensity p) || Qltb 0 (vhs_intensity p)
  || Qltb 0 (posterization_intensity p) || Qltb 0 (edge_detection_intensity p)
  || Qltb 0 (data_corruption_intensity p) || Qltb 0 (scan_lines_intensity p).

(** One frame: [frame = self.base_image.copy()], then the guarded call. *)
Definition image_frame (base_image : ndarray) (p : EffectParams) : M ndarray :=
  let frame := copy base_image in
  if image_needs_effects p then apply_effects frame p "direct" "normal" 1
  else ret frame.

(** The band values of one output frame, [sub_bass_interp[frame_idx]] and
    so on. *)
Definition frame_bands
    (sub_bass_interp bass_interp mid_interp treble_interp high_treble_interp : list Q)
    (frame_idx : nat) : option BandValues :=
  sb ← sub_bass_interp !! frame_idx;
  ba ← bass_interp !! frame_idx;
  mi ← mid_interp !! frame_idx;
  tr ← treble_interp !! frame_idx;
  ht ← high_treble_interp !! frame_idx;
  Some {| sub_bass_val := sb; bass_val := ba; mid_val := mi;
          treble_val := tr; high_treble_val := ht |}.

(** The attributes of an [ImageToVideoProcessor] that
    [process_image_to_video] reads. *)
Record ImageToVideoProcessor := {
  self_fps : Q;
  self_base_image : ndarray;
  self_audio_duration : Q;
  self_total_frames : Z
}.

(** [ImageToVideoProcessor.__init__] for a picture loaded as [base_image]
    (no output size given, so no resize), an audio of [n_samples] samples
    at [sr] Hz (both below [2^53]) and the frame rate [fps]:
    [audio_duration = len(y) / sr; total_frames = int(audio_duration * fps)],
    computed in binary64.  The later arithmetic works on the exact values of
    these floats. *)
Definition image_to_video_init (base_image : ndarray) (n_samples sr : Z)
    (fps : f64) : option ImageToVideoProcessor :=
  if (sr =? 0)%Z then None
  else
    let audio_duration := PrimFloat.div (f64_of_Z n_samples) (f64_of_Z sr) in
    total_frames ← py_int_f64 (PrimFloat.mul audio_duration fps);
    Some {| self_fps := f64_to_Q fps;
            self_base_image := base_image;
            self_audio_duration := f64_to_Q audio_duration;
            self_total_frames := total_frames |}.

(** [process_image_to_video] with its effects: for every [out.write(frame)],
    in writing order, the [current_time] of the iteration and the frame
    written.  [np.linspace] raises on a negative number of frames; the
    division [frame_idx / self.fps] is modelled for [self.fps] other than
    0. *)
Definition process_image_to_video_render (self : ImageToVideoProcessor)
    (cfg : ReactConfig) (sw : EffectSwitches) (art : ArtSwitches)
    (energy_curves : gmap string (list Q)) (frame_times : list Q)
    (bass_beat_frames snare_hit_frames : list nat) : M (list (Q * ndarray)) :=
  let total_frames := self_total_frames self in
  if (total_frames <? 0)%Z then raise ValueError
  else
    let video_frame_times :=
      np_linspace 0 (self_audio_duration self) (Z.to_nat total_frames) in
    let resample := resample_band cfg energy_curves frame_times video_frame_times in
    sub_bass_interp <- of_option ValueError (resample "sub_bass") ;;
    bass_interp <- of_option ValueError (resample "bass") ;;
    mid_interp <- of_option ValueError (resample "mid") ;;
    treble_interp <- of_option ValueError (resample "treble") ;;
    high_treble_interp <- of_option ValueError (resample "high_treble") ;;
    bass_beat_times <- of_option IndexError (beat_times frame_times bass_beat_frames) ;;
    snare_hit_times <- of_option IndexError (beat_times frame_times snare_hit_frames) ;;
    foldM (fun frame_idx out =>
             let current_time := inject_Z (Z.of_nat frame_idx) / self_fps self in
             b <- of_option IndexError
                    (frame_bands sub_bass_interp bass_interp mid_interp treble_interp
                                 high_treble_interp frame_idx) ;;
             frame <- image_frame (self_base_image self)
                        (image_effect_params cfg sw art bass_beat_times
                                             snare_hit_times current_time b) ;;
             ret (out ++ [(current_time, frame)]))
          (seq 0 (Z.to_nat total_frames)) [].

(** What the theorems about the whole method assume of its arguments:
    analysis data that fit together, and keyword arguments for which no
    denominator vanishes. *)
Definition render_inputs_valid (cfg : ReactConfig) (sw : EffectSwitches)
    (energy_curves : gmap string (list Q)) (frame_times : list Q)
    (bass_beat_frames snare_hit_frames : list nat) : Prop :=
  valid_analysis energy_curves frame_times bass_beat_frames /\
  Forall (fun f => (f < length frame_times)%nat) snare_hit_frames /\
  nonneg_weights cfg /\ 0 < beat_window cfg /\ 0 < snare_window sw /\
  1 <= zoom_factor cfg /\ 0 <= intensity_sensitivity cfg <= 1.

(** The picture is large enough for the zoom crop and, when the data
    corruption is on, for its 50-pixel blocks. *)
Definition picture_fits (cfg : ReactConfig) (art : ArtSwitches) (h w : nat) : Prop :=
  zoom_factor cfg <= inject_Z (Z.of_nat h) /\
  zoom_factor cfg <= inject_Z (Z.of_nat w) /\
  (enable_data_corruption art = true -> (50 <= h)%nat /\ (50 <= w)%nat).

(** A 40 x 40 picture with only the data corruption switched on, driven by
    full treble. *)
Definition corruption_only : ArtSwitches := {|
  enable_pixel_sort := false; enable_kaleidoscope := false;
  enable_wave_distortion := false; enable_vhs := false;
  enable_posterization := false; enable_edge_detection := false;
  enable_data_corruption := true; enable_scan_lines := false
|}.

Definition full_treble : BandValues := {|
  sub_bass_val := 0; bass_val := 0; mid_val := 0; treble_val := 1;
  high_treble_val := 1
|}.

(** No movement and no colour effect: zoom factor 1, rotation angle 0. *)
Definition still_config : ReactConfig := {|
  zoom_factor := 1; rotation_angle := 0;
  sub_bass_zoom := 2 # 10; bass_zoom := 1;
  treble_rotation := 1; high_treble_rotation := 5 # 10;
  beat_triggered_zoom := true; beat_window := 2 # 10;
  intensity_sensitivity := 1; smoothness := 8 # 10
|}.

Definition switches_off : EffectSwitches := {|
  mid_hue_shift := 30;
  enable_color_grading := false; enable_blur := false;
  enable_brightness := false; enable_glitch := false;
  enable_artifacts := false; snare_triggered_flash := false;
  snare_window := 15 # 100
|}.

(** A 64 x 64 picture with five seconds of audio at 22050 Hz, at 30 fps. *)
Definition five_seconds : option ImageToVideoProcessor :=
  image_to_video_init (input_frame 0 64 64) 110250 22050 (f64_of_Z 30).

(** The frames written: their number, the time each was computed for, and
    their size. *)
Definition written (self : ImageToVideoProcessor) (h w : nat)
    (out : list (Q * ndarray)) : Prop :=
  Z.of_nat (length out) = self_total_frames self /\
  out.*1 = map (fun frame_idx => inject_Z (Z.of_nat frame_idx) / self_fps self)
               (seq 0 (length out)) /\
  Forall (color_frame h w) out.*2.

(** Three frames of a 64 x 64 picture at 30 fps. *)
Definition three_frames : ImageToVideoProcessor := {|
  self_fps := 30; self_base_image := input_frame 0 64 64;
  self_audio_duration := 1 # 10; self_total_frames := 3
|}.

(** No frame of a 64 x 64 picture. *)
Definition no_frames : ImageToVideoProcessor := {|
  self_fps := 30; self_base_image := input_frame 0 64 64;
  self_audio_duration := 1 # 100; self_total_frames := 0
|}.

(** * Properties *)

(** ** Binary64

    Where the result of the code depends on the rounding of Python's
    floats (an integer obtained by [int(...)], an overflow, a value that
    saturates), the computation is modelled on IEEE binary64 numbers. *)

(** *** Rounding never produces [nan] *)









(** ** Facts about the numeric helpers *)

Lemma Qltb_lt x y : Qltb x y = true <-> x < y.
Proof.
  unfold Qltb. rewrite negb_true_iff.
  split; intros H.
  - apply Qnot_le_lt. intros Hle. apply Qle_bool_iff in Hle. congruence.
  - apply not_true_is_false. intros Hle. apply Qle_bool_iff in Hle.
    apply (Qlt_not_le _ _ H Hle).
Qed.

Lemma Qltb_ge x y : Qltb x y = false <-> y <= x.
Proof.
  unfold Qltb. rewrite negb_false_iff. apply Qle_bool_iff.
Qed.

Lemma Qmin_cases x y : Qmin x y = x \/ Qmin x y = y.
Proof.
  unfold Qmin, GenericMinMax.gmin. destruct (x ?= y); auto.
Qed.

Lemma Qmax_cases x y : Qmax x y = x \/ Qmax x y = y.
Proof.
  unfold Qmax, GenericMinMax.gmax. destruct (x ?= y); auto.
Qed.

Lemma fold_Qmin_lower (xs : list Q) : forall x y,
  y ∈ x :: xs -> fold_left Qmin xs x <= y.
Proof.
  induction xs as [|a xs IH]; intros x y Hy; simpl.
  - apply list_elem_of_singleton in Hy. subst. apply Qle_refl.
  - apply elem_of_cons in Hy as [->|Hy].
    + apply Qle_trans with (Qmin x a).
      * apply IH. left.
      * apply Q.le_min_l.
    + apply elem_of_cons in Hy as [->|Hy].
      * apply Qle_trans with (Qmin x a).
        -- apply IH. left.
        -- apply Q.le_min_r.
      * apply IH. right. exact Hy.
Qed.

Lemma fold_Qmin_elem (xs : list Q) : forall x, fold_left Qmin xs x ∈ x :: xs.
Proof.
  induction xs as [|a xs IH]; intros x; simpl.
  - left.
  - specialize (IH (Qmin x a)).
    apply elem_of_cons in IH as [Heq|Hin].
    + rewrite Heq. destruct (Qmin_cases x a) as [-> | ->].
      * left.
      * right. left.
    + right. right. exact Hin.
Qed.

Lemma fold_Qmax_upper (xs : list Q) : forall x y,
  y ∈ x :: xs -> y <= fold_left Qmax xs x.
Proof.
  induction xs as [|a xs IH]; intros x y Hy; simpl.
  - apply list_elem_of_singleton in Hy. subst. apply Qle_refl.
  - apply elem_of_cons in Hy as [->|Hy].
    + apply Qle_trans with (Qmax x a).
      * apply Q.le_max_l.
      * apply IH. left.
    + apply elem_of_cons in Hy as [->|Hy].
      * apply Qle_trans with (Qmax x a).
        -- apply Q.le_max_r.
        -- apply IH. left.
      * apply IH. right. exact Hy.
Qed.

Lemma fold_Qmax_elem (xs : list Q) : forall x, fold_left Qmax xs x ∈ x :: xs.
Proof.
  induction xs as [|a xs IH]; intros x; simpl.
  - left.
  - specialize (IH (Qmax x a)).
    apply elem_of_cons in IH as [Heq|Hin].
    + rewrite Heq. destruct (Qmax_cases x a) as [-> | ->].
      * left.
      * right. left.
    + right. right. exact Hin.
Qed.

Lemma np_min_spec (a : list Q) (m : Q) :
  np_min a = Some m -> m ∈ a /\ forall y, y ∈ a -> m <= y.
Proof.
  destruct a as [|x xs]; simpl; [discriminate|].
  intros [= <-]. split; [apply fold_Qmin_elem|apply fold_Qmin_lower].
Qed.

Lemma np_max_spec (a : list Q) (m : Q) :
  np_max a = Some m -> m ∈ a /\ forall y, y ∈ a -> y <= m.
Proof.
  destruct a as [|x xs]; simpl; [discriminate|].
  intros [= <-]. split; [apply fold_Qmax_elem|apply fold_Qmax_upper].
Qed.

Lemma np_clip_bounds x lo hi : lo <= hi -> lo <= np_clip x lo hi <= hi.
Proof.
  intros H. unfold np_clip. split.
  - apply Q.min_glb; [apply Q.le_max_r|exact H].
  - apply Q.le_min_r.
Qed.

Lemma np_clip_id x lo hi : lo <= x -> x <= hi -> np_clip x lo hi == x.
Proof.
  intros H1 H2. unfold np_clip.
  rewrite (Q.max_l x lo) by exact H1.
  apply Q.min_l. exact H2.
Qed.

(** ** normalize_energy *)

Lemma normalized_value_bounds (x mn mx : Q) :
  mn <= x -> x <= mx -> 0 < mx - mn ->
  0 <= (x - mn) / (mx - mn) <= 1.
Proof.
  intros H1 H2 Hr. split.
  - apply Qle_shift_div_l; [exact Hr|]. lra.
  - apply Qle_shift_div_r; [exact Hr|]. lra.
Qed.


(** *** The binary64 array *)


Lemma f64_maximum_cases (a b : f64) : f64_maximum a b = a \/ f64_maximum a b = b.
Proof.
  unfold f64_maximum.
  destruct (is_nan_f64 a); [left; reflexivity|].
  destruct (is_nan_f64 b); [right; reflexivity|].
  destruct (PrimFloat.ltb a b); auto.
Qed.

Lemma fold_f64_elem (f : f64 -> f64 -> f64) (P : f64 -> Prop) :
  (forall a b, f a b = a \/ f a b = b) ->
  forall xs x, P x -> Forall P xs -> P (fold_left f xs x).
Proof.
  intros Hf xs. induction xs as [|y xs IH]; intros x Hx Hxs; simpl; [exact Hx|].
  apply Forall_cons_1 in Hxs as [Hy Hxs]. apply IH; [|exact Hxs].
  destruct (Hf x y) as [-> | ->]; assumption.
Qed.


Lemma np_max_f64_elem (P : f64 -> Prop) (a : list f64) (m : f64) :
  Forall P a -> np_max_f64 a = Some m -> P m.
Proof.
  destruct a as [|x xs]; [discriminate|]. intros Ha [= <-].
  apply Forall_cons_1 in Ha as [Hx Hxs].
  apply fold_f64_elem; auto using f64_maximum_cases.
Qed.





(** Normalizing 1, 3, 2 in binary64 gives 0, 1, 0.5. *)
Example normalize_energy_f64_run :
  normalize_energy_f64 energy_132
  = Some [PrimFloat.zero; PrimFloat.one; f64_ratio 1 2].
Proof. vm_compute. reflexivity. Qed.


(** ** Zoom *)







(** ** Sensitivity blending *)



Lemma bass_intensity_bounds cfg b : 0 <= bass_intensity cfg b <= 1.
Proof. unfold bass_intensity. apply np_clip_bounds. lra. Qed.




(** ** The frame timeline *)

Lemma py_int_floor (x : Q) : 0 <= x -> py_int x = Qfloor x.
Proof.
  destruct x as [n d]. unfold py_int, Qfloor, Qle. simpl. intros H.
  apply Z.quot_div_nonneg; lia.
Qed.

Lemma length_np_linspace start stop num :
  length (np_linspace start stop num) = num.
Proof. unfold np_linspace. rewrite length_map, length_seq. reflexivity. Qed.

Lemma np_interp_Some (x xp fp : list Q) :
  xp <> [] -> length xp = length fp ->
  exists r, np_interp x xp fp = Some r /\ length r = length x.
Proof.
  intros Hne Hlen. unfold np_interp.
  destruct xp as [|x0 xp]; [congruence|].
  rewrite <- Hlen, Nat.eqb_refl. simpl.
  eexists. split; [reflexivity|]. apply length_map.
Qed.

Lemma length_convolve_full a v :
  length (convolve_full a v) = (length a + length v - 1)%nat.
Proof. unfold convolve_full. rewrite length_map, length_seq. reflexivity. Qed.

Lemma np_convolve_same_Some (a v : list Q) :
  a <> [] -> v <> [] ->
  exists r, np_convolve_same a v = Some r /\
            length r = Nat.max (length a) (length v).
Proof.
  intros Ha Hv. unfold np_convolve_same.
  destruct a as [|a0 a]; [congruence|]. destruct v as [|v0 v]; [congruence|].
  cbn [length Nat.eqb orb].
  eexists. split; [reflexivity|].
  rewrite length_take, length_drop, length_convolve_full. cbn [length].
  set (la := length a). set (lv := length v).
  assert (H : ((Nat.min (S la) (S lv) - 1) / 2 <= Nat.min (S la) (S lv) - 1)%nat)
    by (apply Nat.Div0.div_le_upper_bound; lia).
  lia.
Qed.

Lemma smooth_curve_Some cfg (curve : list Q) :
  curve <> [] ->
  exists r, smooth_curve cfg curve = Some r /\ (length curve <= length r)%nat.
Proof.
  intros Hne. unfold smooth_curve.
  destruct (Qltb 0 (smoothness cfg)); [|eauto].
  destruct (1 <? _)%nat eqn:Hw; [|eauto].
  apply Nat.ltb_lt in Hw.
  destruct (np_convolve_same_Some curve
              (replicate (Z.to_nat (Z.max 1 (py_int (smoothness cfg * 5))))
                 (1 / inject_Z (Z.of_nat (Z.to_nat (Z.max 1 (py_int (smoothness cfg * 5))))))))
    as (r & Hr & Hlen); [exact Hne | |].
  - intros Hnil. apply (f_equal length) in Hnil.
    rewrite length_replicate in Hnil. simpl in Hnil. lia.
  - exists r. split; [exact Hr|]. rewrite Hlen. lia.
Qed.

Lemma resample_band_Some cfg curves frame_times video_frame_times beats name :
  valid_analysis curves frame_times beats ->
  video_frame_times <> [] ->
  exists r, resample_band cfg curves frame_times video_frame_times name = Some r /\
            (length video_frame_times <= length r)%nat.
Proof.
  intros (Hne & Hlen & _) Hv. unfold resample_band.
  set (energy := default _ _).
  assert (He : length frame_times = length energy).
  { subst energy. destruct (curves !! name) as [c|] eqn:Hc; simpl.
    - symmetry. eauto.
    - rewrite length_replicate. reflexivity. }
  destruct (np_interp_Some video_frame_times frame_times energy Hne He)
    as (r & -> & Hr). simpl.
  destruct (smooth_curve_Some cfg r) as (r' & -> & Hr').
  - intros ->. destruct video_frame_times; [congruence|discriminate].
  - exists r'. split; [reflexivity|]. lia.
Qed.

Lemma beat_times_Some frame_times beats :
  Forall (fun f => (f < length frame_times)%nat) beats ->
  is_Some (beat_times frame_times beats).
Proof.
  intros H. unfold beat_times. apply mapM_is_Some.
  eapply Forall_impl; [exact H|]. intros f Hf. simpl.
  apply lookup_lt_is_Some. exact Hf.
Qed.

Lemma frame_body_Some cfg fps bt c1 c2 c3 c4 c5 i :
  (i < length c1)%nat -> (i < length c2)%nat -> (i < length c3)%nat ->
  (i < length c4)%nat -> (i < length c5)%nat ->
  exists p, frame_body cfg fps bt c1 c2 c3 c4 c5 i = Some p.
Proof.
  intros H1 H2 H3 H4 H5. unfold frame_body.
  destruct (lookup_lt_is_Some_2 c1 i H1) as [? ->].
  destruct (lookup_lt_is_Some_2 c2 i H2) as [? ->].
  destruct (lookup_lt_is_Some_2 c3 i H3) as [? ->].
  destruct (lookup_lt_is_Some_2 c4 i H4) as [? ->].
  destruct (lookup_lt_is_Some_2 c5 i H5) as [? ->].
  simpl. eauto.
Qed.

Lemma frame_body_time cfg fps bt c1 c2 c3 c4 c5 i p :
  frame_body cfg fps bt c1 c2 c3 c4 c5 i = Some p ->
  fp_frame_idx p = i /\ fp_current_time p = inject_Z (Z.of_nat i) / fps.
Proof.
  unfold frame_body. intros H.
  destruct (c1 !! i); [|discriminate]. destruct (c2 !! i); [|discriminate].
  destruct (c3 !! i); [|discriminate]. destruct (c4 !! i); [|discriminate].
  destruct (c5 !! i); [|discriminate].
  simpl in H. injection H as <-. split; reflexivity.
Qed.

Lemma process_image_to_video_frames cfg dur fps curves frame_times beats frames :
  process_image_to_video cfg dur fps curves frame_times beats = Some frames ->
  length frames = Z.to_nat (total_frames dur fps) /\
  forall i p, frames !! i = Some p ->
    fp_frame_idx p = i /\ fp_current_time p = inject_Z (Z.of_nat i) / fps.
Proof.
  unfold process_image_to_video. intros H.
  repeat match type of H with
  | (mbind _ ?o) = Some _ => destruct o; [simpl in H|discriminate]
  end.
  apply mapM_Some in H.
  split.
  - erewrite <- Forall2_length by exact H. apply length_seq.
  - intros i p Hp.
    destruct (Forall2_lookup_r _ _ _ _ _ H Hp) as (j & Hj & Hbody).
    apply lookup_seq in Hj as [-> _].
    apply frame_body_time in Hbody. exact Hbody.
Qed.

(** ** Temporal smoothing *)



Lemma ema_zero f n : forall p, p == 0 ->
  Forall (fun y => y == 0) (ema f p (replicate n 0)).
Proof.
  induction n as [|n IH]; intros p Hp; simpl; constructor.
  - rewrite Hp. ring.
  - apply IH. rewrite Hp. ring.
Qed.




Lemma qpow_pos f n : 0 < f -> 0 < qpow f n.
Proof.
  intros Hf. induction n as [|n IH]; simpl; [lra|].
  apply Qmult_lt_0_compat; assumption.
Qed.


Lemma qpow_S_lt f n : 0 < f -> f < 1 -> qpow f (S n) < qpow f n.
Proof.
  intros H0 H1. simpl.
  pose proof (qpow_pos f n H0) as Hp.
  generalize dependent (qpow f n). intros q Hq.
  assert (H : 0 < (1 - f) * q) by (apply Qmult_lt_0_compat; lra).
  lra.
Qed.









(** ** Resampling *)

Lemma Qeq_bool_true x y : x == y -> Qeq_bool x y = true.
Proof. apply Qeq_bool_iff. Qed.

Lemma strictly_increasing_tail x l :
  strictly_increasing (x :: l) -> strictly_increasing l.
Proof.
  intros H i j a b Hij Ha Hb. apply (H (S i) (S j)); [lia|exact Ha|exact Hb].
Qed.

Lemma interp_scan_knot (rest : list (Q * Q)) : forall x0 y0 v j x y,
  strictly_increasing (x0 :: rest.*1) ->
  ((x0, y0) :: rest) !! j = Some (x, y) ->
  v == x ->
  interp_scan v x0 y0 rest = y.
Proof.
  induction rest as [|[x1 y1] rest IH]; intros x0 y0 v j x y Hinc Hj Hv.
  - destruct j; simpl in Hj; [|discriminate]. injection Hj as <- <-. reflexivity.
  - cbn [interp_scan].
    destruct j as [|j]; simpl in Hj.
    + injection Hj as <- <-.
      assert (Hlt : x0 < x1) by (apply (Hinc 0%nat 1%nat); [lia|reflexivity|reflexivity]).
      assert (Hb : Qltb v x1 = true) by (apply Qltb_lt; rewrite Hv; exact Hlt).
      rewrite Hb, Qeq_bool_true; [reflexivity|]. symmetry. exact Hv.
    + assert (Hge : x1 <= x).
      { destruct j as [|j]; simpl in Hj.
        - injection Hj as <- <-. apply Qle_refl.
        - apply Qlt_le_weak.
          apply (Hinc 1%nat (S (S j))); [lia|reflexivity|].
          simpl. rewrite list_lookup_fmap, Hj. reflexivity. }
      assert (Hb : Qltb v x1 = false) by (apply Qltb_ge; rewrite Hv; exact Hge).
      rewrite Hb. apply (IH x1 y1 v j x y); [|exact Hj|exact Hv].
      apply strictly_increasing_tail in Hinc. exact Hinc.
Qed.

Lemma fst_zip_same_length (xp fp : list Q) :
  length xp = length fp -> (zip xp fp).*1 = xp.
Proof. intros H. apply fst_zip. lia. Qed.

(** At a knot [np.interp] returns the knot's ordinate. *)
Lemma interp1_knot (xp fp : list Q) (v x y : Q) (j : nat) :
  strictly_increasing xp -> length xp = length fp ->
  xp !! j = Some x -> fp !! j = Some y -> v == x ->
  interp1 v xp fp = y.
Proof.
  intros Hinc Hlen Hx Hy Hv. unfold interp1.
  assert (Hz : zip xp fp !! j = Some (x, y)).
  { apply lookup_zip_with_Some. eauto. }
  pose proof (fst_zip_same_length xp fp Hlen) as Hfst.
  destruct (zip xp fp) as [|[x0 y0] rest] eqn:Ez; [destruct j; discriminate|].
  simpl in Hfst. rewrite <- Hfst in Hinc.
  assert (Hge : x0 <= x).
  { destruct j as [|j]; simpl in Hz.
    - injection Hz as <- <-. apply Qle_refl.
    - apply Qlt_le_weak. apply (Hinc 0%nat (S j)); [lia|reflexivity|].
      simpl. rewrite list_lookup_fmap, Hz. reflexivity. }
  assert (Hb : Qltb v x0 = false) by (apply Qltb_ge; rewrite Hv; exact Hge).
  rewrite Hb. apply (interp_scan_knot rest x0 y0 v j x y); assumption.
Qed.

Lemma np_interp_lookup (x xp fp r : list Q) (i : nat) (v : Q) :
  np_interp x xp fp = Some r -> x !! i = Some v ->
  r !! i = Some (interp1 v xp fp).
Proof.
  unfold np_interp. destruct (_ || _); [discriminate|].
  intros [= <-] Hv. rewrite list_lookup_fmap, Hv. reflexivity.
Qed.

Lemma np_interp_Some' (x xp fp : list Q) :
  xp <> [] -> length xp = length fp ->
  exists r, np_interp x xp fp = Some r /\ length r = length x.
Proof.
  intros Hne Hlen. unfold np_interp.
  destruct xp as [|x0 xp]; [congruence|].
  rewrite <- Hlen, Nat.eqb_refl. simpl.
  eexists. split; [reflexivity|]. apply length_map.
Qed.

(** Resampling from one strictly increasing axis onto another and back
    gives back the value at every point the two axes share. *)
Lemma resample_round_trip_on_shared_points (xs ys ts : list Q)
    (i j : nat) (x y t : Q) :
  strictly_increasing xs -> strictly_increasing ts ->
  length ys = length xs ->
  xs !! i = Some x -> ys !! i = Some y ->
  ts !! j = Some t -> t == x ->
  exists back,
    resample_round_trip xs ys ts = Some back /\
    length back = length xs /\
    back !! i = Some y.
Proof.
  intros Hxs Hts Hlen Hx Hy Ht Htx.
  unfold resample_round_trip.
  assert (Hxne : xs <> []) by (intros ->; discriminate).
  assert (Htne : ts <> []) by (intros ->; discriminate).
  destruct (np_interp_Some' ts xs ys Hxne (eq_sym Hlen)) as (r & Hr & Hrlen).
  rewrite Hr. simpl.
  destruct (np_interp_Some' xs ts r Htne (eq_sym Hrlen)) as (back & Hback & Hblen).
  exists back. split; [exact Hback|]. split; [exact Hblen|].
  rewrite (np_interp_lookup _ _ _ _ _ _ Hback Hx). f_equal.
  pose proof (np_interp_lookup _ _ _ _ _ _ Hr Ht) as Hrj.
  rewrite (interp1_knot xs ys t x y i Hxs (eq_sym Hlen) Hx Hy Htx) in Hrj.
  apply (interp1_knot ts r x t y j Hts (eq_sym Hrlen) Ht Hrj).
  symmetry. exact Htx.
Qed.

Lemma np_linspace_lookup start stop num k v :
  np_linspace start stop num !! k = Some v ->
  (k < num)%nat /\
  v == start + inject_Z (Z.of_nat k) * ((stop - start) / inject_Z (Z.of_nat (num - 1))).
Proof.
  unfold np_linspace. rewrite list_lookup_fmap.
  destruct (seq 0 num !! k) as [k'|] eqn:Hk; [|discriminate].
  apply lookup_seq in Hk as [-> Hlt]. simpl. intros [= <-].
  split; [exact Hlt|].
  destruct ((0 <? num - 1)%nat && (k =? num - 1)%nat) eqn:Hc; [|reflexivity].
  apply andb_true_iff in Hc as [Hpos Hlast].
  apply Nat.ltb_lt in Hpos. apply Nat.eqb_eq in Hlast. subst k.
  assert (Hd : 0 < inject_Z (Z.of_nat (num - 1))).
  { change 0 with (inject_Z 0). rewrite <- Zlt_Qlt. lia. }
  field. lra.
Qed.

Lemma np_linspace_increasing start stop num :
  start < stop -> strictly_increasing (np_linspace start stop num).
Proof.
  intros Hlt i j a b Hij Ha Hb.
  apply np_linspace_lookup in Ha as [Hi ->].
  apply np_linspace_lookup in Hb as [Hj ->].
  assert (Hd : 0 < inject_Z (Z.of_nat (num - 1))).
  { change 0 with (inject_Z 0). rewrite <- Zlt_Qlt. lia. }
  assert (Hstep : 0 < (stop - start) / inject_Z (Z.of_nat (num - 1))).
  { apply Qlt_shift_div_l; [exact Hd|lra]. }
  assert (Hk : inject_Z (Z.of_nat i) < inject_Z (Z.of_nat j)).
  { rewrite <- Zlt_Qlt. lia. }
  generalize dependent ((stop - start) / inject_Z (Z.of_nat (num - 1))).
  intros s Hs.
  assert (0 < (inject_Z (Z.of_nat j) - inject_Z (Z.of_nat i)) * s)
    by (apply Qmult_lt_0_compat; lra).
  lra.
Qed.

(** C6 (as the code has it). Resampling a band curve from the spectrogram
    time axis onto the output-frame axis [linspace(0, duration, total)] and
    back reproduces the original value at every spectrogram sample time that
    is also an output-frame time. *)
Theorem resample_round_trip_on_shared_times (xs ys : list Q) (dur : Q)
    (total i j : nat) (x y t : Q) :
  strictly_increasing xs -> length ys = length xs -> 0 < dur ->
  xs !! i = Some x -> ys !! i = Some y ->
  np_linspace 0 dur total !! j = Some t -> t == x ->
  exists back,
    resample_round_trip xs ys (np_linspace 0 dur total) = Some back /\
    length back = length xs /\
    back !! i = Some y.
Proof.
  intros Hxs Hlen Hdur Hx Hy Ht Htx.
  apply (resample_round_trip_on_shared_points xs ys _ i j x y t); auto.
  apply np_linspace_increasing. exact Hdur.
Qed.

Lemma strictly_increasing_three (a b c : Q) :
  a < b -> b < c -> strictly_increasing [a; b; c].
Proof.
  intros Hab Hbc i j u v Hij Hu Hv.
  destruct i as [|[|[|i]]]; destruct j as [|[|[|j]]];
    simpl in Hu, Hv; try lia; try discriminate;
    injection Hu as <-; injection Hv as <-; lra.
Qed.

Lemma resample_round_trip_on_shared_times_witness :
  exists back,
    resample_round_trip [0; 1 # 2; 1] [0; 1; 0] (np_linspace 0 1 3) = Some back /\
    length back = length [0; 1 # 2; 1] /\
    back !! 1%nat = Some 1.
Proof.
  apply (resample_round_trip_on_shared_times
           [0; 1 # 2; 1] [0; 1; 0] 1 3 1 1 (1 # 2) 1 (1 # 2)).
  - apply strictly_increasing_three; reflexivity.
  - reflexivity.
  - reflexivity.
  - reflexivity.
  - reflexivity.
  - reflexivity.
  - reflexivity.
Defined.

(** C6 as stated fails: a curve with a peak between two output frames loses
    the peak.  Spectrogram times 0, 1/2, 1 with values 0, 1, 0, resampled to
    the two output times [linspace(0, 1, 2)] and back, come back as
    0, 0, 0: the middle sample is off by 1. *)
Lemma resample_round_trip_counterexample :
  np_linspace 0 1 2 = [0; 1] /\
  np_interp (np_linspace 0 1 2) [0; 1 # 2; 1] [0; 1; 0] = Some [0; 0] /\
  exists back,
    resample_round_trip [0; 1 # 2; 1] [0; 1; 0] (np_linspace 0 1 2) = Some back /\
    nth 1 back 0 == 0 /\
    Qabs (nth 1 back 0 - nth 1 [0; 1; 0] 0) == 1.
Proof.
  split; [reflexivity|]. split; [reflexivity|].
  eexists. split; [vm_compute; reflexivity|]. split; reflexivity.
Qed.

(** ** Peak picking *)

Lemma look_ahead_ge x xi i_max fuel : forall start,
  (start <= look_ahead x xi i_max fuel start)%nat.
Proof.
  induction fuel as [|fuel IH]; intros start; simpl; [lia|].
  destruct (_ && _); [|lia].
  specialize (IH (S start)). lia.
Qed.

Lemma local_maxima_loop_sorted x i_max fuel : forall i,
  StronglySorted lt (local_maxima_loop x i_max fuel i) /\
  Forall (fun p => (i <= p)%nat) (local_maxima_loop x i_max fuel i).
Proof.
  induction fuel as [|fuel IH]; intros i; cbn [local_maxima_loop].
  - split; constructor.
  - destruct (i <? i_max)%nat; [|split; constructor].
    destruct (Qltb (nth (i - 1) x 0) (nth i x 0)).
    + set (i_ahead := look_ahead x (nth i x 0) i_max (i_max - i) (S i)).
      assert (Ha : (S i <= i_ahead)%nat) by apply look_ahead_ge.
      clearbody i_ahead.
      destruct (Qltb (nth i_ahead x 0) (nth i x 0)).
      * destruct (IH (S i_ahead)) as [Hs Hf].
        assert (Hmid : (i <= (i + (i_ahead - 1)) / 2 <= i_ahead - 1)%nat).
        { split.
          - apply Nat.div_le_lower_bound; lia.
          - apply Nat.Div0.div_le_upper_bound; lia. }
        split.
        -- constructor; [exact Hs|].
           eapply Forall_impl; [exact Hf|]. cbv beta. intros p Hp. lia.
        -- constructor; [lia|].
           eapply Forall_impl; [exact Hf|]. cbv beta. intros p Hp. lia.
      * destruct (IH (S i)) as [Hs Hf]. split; [exact Hs|].
        eapply Forall_impl; [exact Hf|]. cbv beta. intros p Hp. lia.
    + destruct (IH (S i)) as [Hs Hf]. split; [exact Hs|].
      eapply Forall_impl; [exact Hf|]. cbv beta. intros p Hp. lia.
Qed.

Lemma local_maxima_1d_sorted x : StronglySorted lt (local_maxima_1d x).
Proof. apply local_maxima_loop_sorted. Qed.

Lemma elem_of_mask_select {A} (a : list A) : forall (keep : list bool) (v : A),
  v ∈ mask_select a keep <->
  exists j, a !! j = Some v /\ keep !! j = Some true.
Proof.
  induction a as [|u a IH]; intros keep v; simpl.
  - split; [intros H; inversion H|intros (j & H & _); discriminate].
  - destruct keep as [|b keep].
    + split; [intros H; inversion H|intros (j & _ & H); discriminate].
    + destruct b.
      * rewrite elem_of_cons, IH. split.
        -- intros [->|(j & H1 & H2)]; [exists 0%nat; auto|exists (S j); auto].
        -- intros ([|j] & H1 & H2); simpl in *.
           ++ left. congruence.
           ++ right. eauto.
      * rewrite IH. split.
        -- intros (j & H1 & H2). exists (S j); auto.
        -- intros ([|j] & H1 & H2); simpl in *; [discriminate|eauto].
Qed.

Lemma mask_select_Forall {A} (P : A -> Prop) (a : list A) (keep : list bool) :
  Forall P a -> Forall P (mask_select a keep).
Proof.
  rewrite !Forall_forall. intros H v Hv.
  apply elem_of_mask_select in Hv as (j & Hj & _).
  apply H. eapply list_elem_of_lookup_2. exact Hj.
Qed.

Lemma mask_select_sorted {A} (R : A -> A -> Prop) (a : list A) : forall keep,
  StronglySorted R a -> StronglySorted R (mask_select a keep).
Proof.
  induction a as [|u a IH]; intros keep Hs; simpl; [constructor|].
  destruct keep as [|b keep]; [constructor|].
  apply StronglySorted_cons in Hs as [Hf Hs].
  destruct b; [|apply IH; exact Hs].
  constructor; [apply IH; exact Hs|].
  apply mask_select_Forall. exact Hf.
Qed.

Lemma peaks_above_sorted x height : StronglySorted lt (peaks_above x height).
Proof. apply mask_select_sorted, local_maxima_1d_sorted. Qed.

(** Index-wise reading of a strictly sorted list of positions. *)
Lemma sorted_lookup_lt (peaks : list nat) i j pi pj :
  StronglySorted lt peaks -> (i < j)%nat ->
  peaks !! i = Some pi -> peaks !! j = Some pj -> (pi < pj)%nat.
Proof.
  intros Hs. revert i j. induction Hs as [|p peaks Hs IH Hf]; intros i j Hij Hi Hj.
  - discriminate.
  - destruct j as [|j]; [lia|]. simpl in Hj.
    destruct i as [|i]; simpl in Hi.
    + injection Hi as <-. rewrite Forall_forall in Hf. apply Hf.
      eapply list_elem_of_lookup_2. exact Hj.
    + apply (IH i j); [lia|exact Hi|exact Hj].
Qed.

Lemma lookup_nth_lt {A} (l : list A) (i : nat) (d : A) :
  (i < length l)%nat -> l !! i = Some (nth i l d).
Proof.
  intros H. destruct (nth_lookup_or_length l i d) as [E|E]; [exact E|lia].
Qed.

Lemma sorted_nth_lt (peaks : list nat) i j :
  StronglySorted lt peaks -> (i < j)%nat -> (j < length peaks)%nat ->
  (nth i peaks O < nth j peaks O)%nat.
Proof.
  intros Hs Hij Hj.
  apply (sorted_lookup_lt peaks i j); auto.
  - apply lookup_nth_lt. lia.
  - apply lookup_nth_lt. lia.
Qed.

Section SelectByDistance.
Variable peaks : list nat.
Variable distance : nat.
Hypothesis peaks_sorted : StronglySorted lt peaks.

Local Abbreviation dz := (Z.of_nat distance).
Local Abbreviation pos k := (nth k peaks O).

Lemma flag_earlier_length pj n : forall keep,
  length (flag_earlier peaks pj dz n keep) = length keep.
Proof.
  induction n as [|m IH]; intros keep; simpl; [reflexivity|].
  destruct (_ <? _)%Z; [|reflexivity].
  rewrite IH. apply length_insert.
Qed.

Lemma flag_earlier_lookup pj n : forall keep k,
  flag_earlier peaks pj dz n keep !! k = keep !! k \/
  (flag_earlier peaks pj dz n keep !! k = Some false /\
   (k < n)%nat /\ (k < length keep)%nat /\
   (Z.of_nat pj - Z.of_nat (pos k) < dz)%Z).
Proof.
  induction n as [|m IH]; intros keep k; simpl; [left; reflexivity|].
  destruct (_ <? _)%Z eqn:Hc; [|left; reflexivity].
  apply Z.ltb_lt in Hc.
  destruct (IH (<[m:=false]> keep) k) as [E|(E & Hk & Hlen & Hd)].
  - rewrite E. destruct (decide (k = m)) as [->|Hne].
    + destruct (decide (m < length keep)%nat) as [Hlt|Hge].
      * right. rewrite list_lookup_insert_eq by exact Hlt.
        split; [reflexivity|]. split; [lia|]. split; [exact Hlt|exact Hc].
      * left. rewrite list_insert_ge by lia. reflexivity.
    + left. apply list_lookup_insert_ne. congruence.
  - right. rewrite length_insert in Hlen. split; [exact E|].
    split; [lia|]. split; [exact Hlen|exact Hd].
Qed.

Lemma flag_earlier_flags pj n : forall keep k,
  (n <= length peaks)%nat ->
  (k < n)%nat -> (k < length keep)%nat ->
  (Z.of_nat pj - Z.of_nat (pos k) < dz)%Z ->
  flag_earlier peaks pj dz n keep !! k = Some false.
Proof.
  induction n as [|m IH]; intros keep k Hn Hk Hlen Hd; [lia|]. simpl.
  destruct (_ <? _)%Z eqn:Hc.
  - destruct (decide (k = m)) as [->|Hne].
    + destruct (flag_earlier_lookup pj m (<[m:=false]> keep) m)
        as [E|(_ & Hm & _)]; [|lia].
      rewrite E. apply list_lookup_insert_eq. exact Hlen.
    + apply IH; [lia|lia| |exact Hd]. rewrite length_insert. exact Hlen.
  - apply Z.ltb_ge in Hc. exfalso.
    destruct (decide (k = m)) as [->|Hne]; [lia|].
    assert (pos k < pos m)%nat by (apply sorted_nth_lt; [exact peaks_sorted|lia|lia]).
    lia.
Qed.

Lemma flag_later_length pj later : forall k0 keep,
  length (flag_later later pj dz k0 keep) = length keep.
Proof.
  induction later as [|pk rest IH]; intros k0 keep; simpl; [reflexivity|].
  destruct (_ <? _)%Z; [|reflexivity].
  rewrite IH. apply length_insert.
Qed.

Lemma flag_later_lookup pj later : forall k0 keep k,
  flag_later later pj dz k0 keep !! k = keep !! k \/
  (flag_later later pj dz k0 keep !! k = Some false /\
   (k0 <= k)%nat /\ (k < length keep)%nat /\
   exists pk, later !! (k - k0)%nat = Some pk /\
              (Z.of_nat pk - Z.of_nat pj < dz)%Z).
Proof.
  induction later as [|pk0 rest IH]; intros k0 keep k; simpl;
    [left; reflexivity|].
  destruct (_ <? _)%Z eqn:Hc; [|left; reflexivity].
  apply Z.ltb_lt in Hc.
  destruct (IH (S k0) (<[k0:=false]> keep) k)
    as [E|(E & Hk & Hlen & pk & Hpk & Hd)].
  - rewrite E. destruct (decide (k = k0)) as [->|Hne].
    + destruct (decide (k0 < length keep)%nat) as [Hlt|Hge].
      * right. rewrite list_lookup_insert_eq by exact Hlt.
        split; [reflexivity|]. split; [lia|]. split; [exact Hlt|].
        exists pk0. rewrite Nat.sub_diag. split; [reflexivity|exact Hc].
      * left. rewrite list_insert_ge by lia. reflexivity.
    + left. apply list_lookup_insert_ne. congruence.
  - right. rewrite length_insert in Hlen. split; [exact E|].
    split; [lia|]. split; [exact Hlen|].
    exists pk. split; [|exact Hd].
    replace (k - k0)%nat with (S (k - S k0)) by lia. exact Hpk.
Qed.

Lemma flag_later_flags pj later : forall k0 keep i pk,
  StronglySorted lt later ->
  later !! i = Some pk ->
  (Z.of_nat pk - Z.of_nat pj < dz)%Z ->
  (k0 + i < length keep)%nat ->
  flag_later later pj dz k0 keep !! (k0 + i)%nat = Some false.
Proof.
  induction later as [|pk0 rest IH]; intros k0 keep i pk Hs Hi Hd Hlen;
    [discriminate|].
  simpl. apply StronglySorted_cons in Hs as [Hf Hs].
  destruct (_ <? _)%Z eqn:Hc.
  - destruct i as [|i]; simpl in Hi.
    + rewrite Nat.add_0_r in *.
      destruct (flag_later_lookup pj rest (S k0) (<[k0:=false]> keep) k0)
        as [E|(_ & Hk & _)]; [|lia].
      rewrite E. apply list_lookup_insert_eq. exact Hlen.
    + replace (k0 + S i)%nat with (S k0 + i)%nat by lia.
      apply (IH (S k0) _ i pk Hs Hi Hd).
      rewrite length_insert. lia.
  - apply Z.ltb_ge in Hc. exfalso.
    destruct i as [|i]; simpl in Hi.
    + injection Hi as <-. lia.
    + rewrite Forall_forall in Hf.
      assert (pk0 < pk)%nat by (apply Hf; eapply list_elem_of_lookup_2; exact Hi).
      lia.
Qed.

(** What one iteration of the outer loop changes. *)
Lemma select_step_lookup keep j k :
  (j < length peaks)%nat ->
  select_step peaks dz keep j !! k = keep !! k \/
  (select_step peaks dz keep j !! k = Some false /\
   keep !! j = Some true /\ k <> j /\ (k < length keep)%nat /\
   too_close distance (pos k) (pos j)).
Proof.
  intros Hj. unfold select_step.
  destruct (keep !! j) as [[|]|] eqn:Hkj; [|left; reflexivity..].
  destruct (flag_later_lookup (pos j) (drop (S j) peaks) (S j)
              (flag_earlier peaks (pos j) dz j keep) k)
    as [E|(E & Hk & Hlen & pk & Hpk & Hd)].
  - rewrite E.
    destruct (flag_earlier_lookup (pos j) j keep k) as [E'|(E' & Hk & Hlen & Hd)].
    + left. exact E'.
    + right. split; [exact E'|]. split; [reflexivity|]. split; [lia|].
      split; [exact Hlen|].
      assert (pos k < pos j)%nat by (apply sorted_nth_lt; [exact peaks_sorted|lia|lia]).
      unfold too_close. lia.
  - right. rewrite flag_earlier_length in Hlen.
    split; [exact E|]. split; [reflexivity|]. split; [lia|].
    split; [exact Hlen|].
    rewrite lookup_drop in Hpk.
    replace (S j + (k - S j))%nat with k in Hpk by lia.
    rewrite (nth_lookup_Some _ _ O _ Hpk).
    assert (k < length peaks)%nat by (apply lookup_lt_is_Some; eauto).
    assert (pos j < pos k)%nat by (apply sorted_nth_lt; [exact peaks_sorted|lia|lia]).
    rewrite (nth_lookup_Some _ _ O _ Hpk) in H0.
    unfold too_close. lia.
Qed.

Lemma select_step_length keep j :
  length (select_step peaks dz keep j) = length keep.
Proof.
  unfold select_step. destruct (keep !! j) as [[|]|]; try reflexivity.
  rewrite flag_later_length, flag_earlier_length. reflexivity.
Qed.

(** A kept peak clears every other peak that is too close to it. *)
Lemma select_step_flags keep j k :
  length keep = length peaks ->
  keep !! j = Some true -> k <> j -> (k < length keep)%nat ->
  too_close distance (pos k) (pos j) ->
  select_step peaks dz keep j !! k = Some false.
Proof.
  intros Hlen Hkj Hne Hk Hclose. unfold select_step. rewrite Hkj.
  assert (Hj : (j < length peaks)%nat).
  { rewrite <- Hlen. apply lookup_lt_is_Some. eauto. }
  unfold too_close in Hclose.
  destruct (decide (k < j)%nat) as [Hlt|Hge].
  - assert (pos k < pos j)%nat by (apply sorted_nth_lt; [exact peaks_sorted|lia|lia]).
    destruct (flag_later_lookup (pos j) (drop (S j) peaks) (S j)
                (flag_earlier peaks (pos j) dz j keep) k)
      as [E|(E & _)]; [|exact E].
    rewrite E. apply flag_earlier_flags; [lia|exact Hlt|exact Hk|lia].
  - assert (pos j < pos k)%nat by (apply sorted_nth_lt; [exact peaks_sorted|lia|lia]).
    replace k with (S j + (k - S j))%nat at 1 by lia.
    apply flag_later_flags with (pk := pos k).
    + apply StronglySorted_app_1_r with (l1 := take (S j) peaks).
      rewrite take_drop. exact peaks_sorted.
    + rewrite lookup_drop. replace (S j + (k - S j))%nat with k by lia.
      apply lookup_nth_lt. lia.
    + lia.
    + rewrite flag_earlier_length. lia.
Qed.

Lemma select_fold_length l : forall keep,
  length (fold_left (select_step peaks dz) l keep) = length keep.
Proof.
  induction l as [|j l IH]; intros keep; simpl; [reflexivity|].
  rewrite IH. apply select_step_length.
Qed.

Lemma select_fold_false l : forall keep k,
  Forall (fun j => (j < length peaks)%nat) l ->
  keep !! k = Some false ->
  fold_left (select_step peaks dz) l keep !! k = Some false.
Proof.
  induction l as [|j l IH]; intros keep k Hl Hk; simpl; [exact Hk|].
  apply Forall_cons in Hl as [Hj Hl].
  apply IH; [exact Hl|].
  destruct (select_step_lookup keep j k Hj) as [E|[E _]]; congruence.
Qed.

Lemma select_fold_true l : forall keep k,
  Forall (fun j => (j < length peaks)%nat) l ->
  fold_left (select_step peaks dz) l keep !! k = Some true ->
  keep !! k = Some true.
Proof.
  induction l as [|j l IH]; intros keep k Hl Hk; simpl in Hk; [exact Hk|].
  apply Forall_cons in Hl as [Hj Hl].
  apply IH in Hk; [|exact Hl].
  destruct (select_step_lookup keep j k Hj) as [E|[E _]]; congruence.
Qed.

(** After the loop, a visited peak that is still kept has cleared all
    peaks too close to it. *)
Lemma select_fold_flags l : forall keep j k,
  length keep = length peaks ->
  Forall (fun j => (j < length peaks)%nat) l ->
  j ∈ l ->
  fold_left (select_step peaks dz) l keep !! j = Some true ->
  k <> j -> (k < length peaks)%nat ->
  too_close distance (pos k) (pos j) ->
  fold_left (select_step peaks dz) l keep !! k = Some false.
Proof.
  induction l as [|j0 l IH]; intros keep j k Hlen Hl Hin Hj Hne Hk Hclose.
  - inversion Hin.
  - simpl in *. apply Forall_cons in Hl as [Hj0 Hl].
    apply elem_of_cons in Hin as [->|Hin].
    + apply select_fold_false; [exact Hl|].
      apply select_fold_true in Hj; [|exact Hl].
      assert (Hkeep : keep !! j0 = Some true).
      { destruct (select_step_lookup keep j0 j0 Hj0) as [E|(_ & _ & Hc & _)];
          congruence. }
      apply select_step_flags; auto. lia.
    + apply (IH _ j k); auto. rewrite select_step_length. exact Hlen.
Qed.

(** A peak is only ever cleared by a different, kept peak too close to
    it. *)
Lemma select_fold_cause l : forall keep k,
  Forall (fun j => (j < length peaks)%nat) l ->
  keep !! k = Some true ->
  fold_left (select_step peaks dz) l keep !! k = Some false ->
  exists j, j ∈ l /\ j <> k /\ too_close distance (pos k) (pos j) /\
            keep !! j = Some true.
Proof.
  induction l as [|j0 l IH]; intros keep k Hl Hk Hf; simpl in Hf.
  - congruence.
  - apply Forall_cons in Hl as [Hj0 Hl].
    destruct (select_step_lookup keep j0 k Hj0) as [E|(E & Hkj & Hne & _ & Hc)].
    + rewrite Hk in E.
      destruct (IH _ k Hl E Hf) as (j & Hin & Hne & Hc & Hj).
      exists j. split; [right; exact Hin|]. split; [exact Hne|].
      split; [exact Hc|].
      destruct (select_step_lookup keep j0 j Hj0) as [E'|[E' _]]; congruence.
    + exists j0. split; [left|]. split; [congruence|]. split; [exact Hc|exact Hkj].
Qed.
End SelectByDistance.

(** *** The visiting order *)

Lemma key_insert_perm k i l : key_insert k i l ≡ₚ (k, i) :: l.
Proof.
  induction l as [|[k' i'] l IH]; simpl; [reflexivity|].
  destruct (Qle_bool k k'); [reflexivity|].
  rewrite IH. apply Permutation_swap.
Qed.

Lemma key_sort_perm l : key_sort l ≡ₚ l.
Proof.
  induction l as [|[k i] l IH]; simpl; [reflexivity|].
  rewrite key_insert_perm. simpl. rewrite IH. reflexivity.
Qed.

Lemma key_insert_sorted k i l :
  StronglySorted (fun x y => x.1 <= y.1) l ->
  StronglySorted (fun x y => x.1 <= y.1) (key_insert k i l).
Proof.
  induction 1 as [|[k' i'] l Hs IH Hf]; simpl.
  - repeat constructor.
  - destruct (Qle_bool k k') eqn:Hc.
    + apply Qle_bool_iff in Hc.
      constructor; [constructor; assumption|].
      constructor; [exact Hc|].
      eapply Forall_impl; [exact Hf|]. simpl. intros y Hy.
      eapply Qle_trans; [exact Hc|exact Hy].
    + constructor; [exact IH|].
      assert (Hlt : k' <= k).
      { apply Qlt_le_weak. apply Qltb_lt. unfold Qltb. rewrite Hc. reflexivity. }
      rewrite key_insert_perm. constructor; [exact Hlt|exact Hf].
Qed.

Lemma key_sort_sorted l : StronglySorted (fun x y => x.1 <= y.1) (key_sort l).
Proof.
  induction l as [|[k i] l IH]; simpl; [constructor|].
  apply key_insert_sorted. exact IH.
Qed.

Lemma np_argsort_perm (a : list Q) : np_argsort a ≡ₚ seq 0 (length a).
Proof.
  unfold np_argsort. rewrite key_sort_perm.
  rewrite snd_zip; [reflexivity|]. rewrite length_seq. lia.
Qed.

Lemma elem_of_rev {A} (l : list A) (x : A) : x ∈ rev l <-> x ∈ l.
Proof. rewrite !list_elem_of_In. symmetry. apply in_rev. Qed.

Lemma np_argsort_bounds (a : list Q) :
  Forall (fun j => (j < length a)%nat) (rev (np_argsort a)).
Proof.
  apply Forall_forall. intros j Hj.
  rewrite elem_of_rev in Hj.
  rewrite np_argsort_perm in Hj. apply elem_of_seq in Hj. lia.
Qed.

Lemma np_argsort_complete (a : list Q) j :
  (j < length a)%nat -> j ∈ rev (np_argsort a).
Proof.
  intros Hj. rewrite elem_of_rev.
  rewrite np_argsort_perm. apply elem_of_seq. lia.
Qed.

(** The visiting order splits around any index [j]: everything visited
    before [j] has a priority at least that of [j]. *)
Lemma visiting_order_split (a : list Q) j :
  (j < length a)%nat ->
  exists before after,
    rev (np_argsort a) = before ++ j :: after /\
    forall j', j' ∈ before -> nth j a 0 <= nth j' a 0.
Proof.
  intros Hj. unfold np_argsort.
  set (S := key_sort (zip a (seq 0 (length a)))).
  assert (Hmem : forall k i, (k, i) ∈ S -> a !! i = Some k).
  { intros k i H. subst S. rewrite key_sort_perm in H.
    apply list_elem_of_lookup in H as [n Hn].
    apply lookup_zip_with_Some in Hn as (x & y & [= <- <-] & Hx & Hy).
    apply lookup_seq in Hy as [-> _]. exact Hx. }
  assert (Hin : (nth j a 0, j) ∈ S).
  { subst S. rewrite key_sort_perm.
    apply list_elem_of_lookup. exists j.
    apply lookup_zip_with_Some. exists (nth j a 0), j.
    split; [reflexivity|]. split; [apply lookup_nth_lt; exact Hj|].
    apply lookup_seq. lia. }
  apply list_elem_of_split in Hin as (S1 & S2 & HS).
  pose proof (key_sort_sorted (zip a (seq 0 (length a)))) as Hsorted.
  fold S in Hsorted. rewrite HS in Hsorted.
  apply StronglySorted_app in Hsorted as (_ & _ & Hs2).
  apply StronglySorted_cons in Hs2 as [Hf _].
  exists (rev (S2.*2)), (rev (S1.*2)).
  split.
  - rewrite HS, fmap_app, rev_app_distr. simpl. rewrite <- app_assoc. reflexivity.
  - intros j' Hj'.
    rewrite elem_of_rev in Hj'.
    apply list_elem_of_fmap in Hj' as ([k' i'] & -> & Hk').
    rewrite Forall_forall in Hf. specialize (Hf _ Hk'). simpl in *.
    assert (Hk'S : (k', i') ∈ S).
    { rewrite HS. apply elem_of_app. right. right. exact Hk'. }
    apply Hmem in Hk'S. rewrite (nth_lookup_Some _ _ 0 _ Hk'S). exact Hf.
Qed.

(** *** [_select_by_peak_distance] as a whole *)

Section SelectSpec.
Variable peaks : list nat.
Variable priority : list Q.
Variable distance : nat.
Hypothesis peaks_sorted : StronglySorted lt peaks.
Hypothesis priority_length : length priority = length peaks.

Local Abbreviation pos k := (nth k peaks O).
Local Abbreviation keep := (select_by_peak_distance peaks priority distance).

Lemma select_length : length keep = length peaks.
Proof.
  unfold select_by_peak_distance.
  rewrite select_fold_length, length_replicate. reflexivity.
Qed.

Lemma visiting_order_bounds :
  Forall (fun j => (j < length peaks)%nat) (rev (np_argsort priority)).
Proof. rewrite <- priority_length. apply np_argsort_bounds. Qed.

(** A kept peak excludes every other peak closer than [distance]. *)
Lemma select_removed j k :
  keep !! j = Some true -> k <> j -> (k < length peaks)%nat ->
  too_close distance (pos k) (pos j) ->
  keep !! k = Some false.
Proof.
  intros Hj Hne Hk Hclose.
  assert (Hjlt : (j < length peaks)%nat).
  { rewrite <- select_length. apply lookup_lt_is_Some. eauto. }
  unfold select_by_peak_distance in *.
  apply (select_fold_flags peaks distance peaks_sorted _ _ j k); auto.
  - apply length_replicate.
  - apply visiting_order_bounds.
  - apply np_argsort_complete. rewrite priority_length. exact Hjlt.
Qed.

(** Any two peaks that are both kept are at least [distance] apart. *)
Lemma select_spaced i j :
  (i < j)%nat -> keep !! i = Some true -> keep !! j = Some true ->
  (pos i + distance <= pos j)%nat.
Proof.
  intros Hij Hi Hj.
  assert (Hjlt : (j < length peaks)%nat).
  { rewrite <- select_length. apply lookup_lt_is_Some. eauto. }
  assert (Hlt : (pos i < pos j)%nat) by (apply sorted_nth_lt; auto).
  destruct (decide (pos i + distance <= pos j)%nat) as [H|H]; [exact H|].
  exfalso.
  assert (Hf : keep !! i = Some false).
  { apply (select_removed j i); auto; [lia|lia|]. unfold too_close. lia. }
  congruence.
Qed.

(** A peak higher than every other peak closer than [distance] is
    kept. *)
Lemma select_retained j :
  (j < length peaks)%nat ->
  (forall k, k <> j -> (k < length peaks)%nat ->
     too_close distance (pos k) (pos j) ->
     nth k priority 0 < nth j priority 0) ->
  keep !! j = Some true.
Proof.
  intros Hj Hhigher.
  destruct (visiting_order_split priority j) as (before & after & Hsplit & Hprio);
    [rewrite priority_length; exact Hj|].
  pose proof visiting_order_bounds as Hb.
  unfold select_by_peak_distance. rewrite Hsplit in *.
  apply Forall_app in Hb as [Hb1 Hb2]. apply Forall_cons in Hb2 as [_ Hb2].
  rewrite fold_left_app. cbn [fold_left].
  set (keep0 := replicate (length peaks) true).
  set (keep1 := fold_left (select_step peaks (Z.of_nat distance)) before keep0).
  set (keep2 := select_step peaks (Z.of_nat distance) keep1 j).
  assert (H0 : keep0 !! j = Some true) by (apply lookup_replicate_2; exact Hj).
  assert (L1 : length keep1 = length peaks).
  { subst keep1. rewrite select_fold_length. apply length_replicate. }
  assert (H1 : keep1 !! j = Some true).
  { destruct (keep1 !! j) as [[|]|] eqn:E; [reflexivity| |].
    - exfalso.
      destruct (select_fold_cause peaks distance peaks_sorted before keep0 j Hb1 H0 E)
        as (j' & Hin & Hne & Hclose & _).
      assert (Hj' : (j' < length peaks)%nat).
      { rewrite Forall_forall in Hb1. apply Hb1. exact Hin. }
      assert (Hc' : too_close distance (pos j') (pos j)).
      { unfold too_close in *. lia. }
      specialize (Hhigher j' Hne Hj' Hc'). specialize (Hprio j' Hin).
      apply (Qlt_not_le _ _ Hhigher Hprio).
    - exfalso. apply lookup_ge_None in E. lia. }
  assert (H2 : keep2 !! j = Some true).
  { subst keep2.
    destruct (select_step_lookup peaks distance peaks_sorted keep1 j j Hj)
      as [E|(_ & _ & Hc & _)]; congruence. }
  destruct (fold_left (select_step peaks (Z.of_nat distance)) after keep2 !! j)
    as [[|]|] eqn:E; [reflexivity| |].
  - exfalso.
    destruct (select_fold_cause peaks distance peaks_sorted after keep2 j Hb2 H2 E)
      as (j' & Hin & Hne & Hclose & Hj'true).
    assert (Hj' : (j' < length peaks)%nat).
    { rewrite Forall_forall in Hb2. apply Hb2. exact Hin. }
    assert (Hf : keep2 !! j' = Some false).
    { subst keep2. apply select_step_flags; auto; [lia|].
      unfold too_close in *. lia. }
    congruence.
  - exfalso. apply lookup_ge_None in E.
    rewrite select_fold_length in E. subst keep2.
    rewrite select_step_length in E. lia.
Qed.
End SelectSpec.

(** *** [detect_peaks] *)

Lemma sorted_lookup_inj (peaks : list nat) i j v :
  StronglySorted lt peaks ->
  peaks !! i = Some v -> peaks !! j = Some v -> i = j.
Proof.
  intros Hs Hi Hj.
  destruct (Nat.lt_trichotomy i j) as [H|[H|H]]; [|exact H|].
  - pose proof (sorted_lookup_lt peaks i j v v Hs H Hi Hj). lia.
  - pose proof (sorted_lookup_lt peaks j i v v Hs H Hj Hi). lia.
Qed.

Lemma np_percentile_Some (a : list Q) (q : Q) :
  a <> [] -> 0 <= q -> q <= 100 -> is_Some (np_percentile a q).
Proof.
  intros Hne H0 H100. unfold np_percentile.
  destruct a as [|x a]; [congruence|].
  apply Qle_bool_iff in H0. apply Qle_bool_iff in H100.
  rewrite H0, H100. simpl. eauto.
Qed.

Lemma priority_nth (x : list Q) (peaks : list nat) k :
  (k < length peaks)%nat ->
  nth k (map (fun p => nth p x 0) peaks) 0 = nth (nth k peaks O) x 0.
Proof.
  intros Hk. apply nth_lookup_Some.
  rewrite list_lookup_fmap, (lookup_nth_lt peaks k O Hk). reflexivity.
Qed.

Section FindPeaks.
Variable x : list Q.
Variable height : Q.
Variable distance : nat.

Local Abbreviation candidates := (peaks_above x height).
Local Abbreviation priority := (map (fun p => nth p x 0) candidates).
Local Abbreviation kept :=
  (mask_select candidates (select_by_peak_distance candidates priority distance)).

Lemma kept_sorted : StronglySorted lt kept.
Proof. apply mask_select_sorted, peaks_above_sorted. Qed.

Lemma kept_spaced p q :
  p ∈ kept -> q ∈ kept -> (p < q)%nat -> (p + distance <= q)%nat.
Proof.
  intros Hp Hq Hlt.
  apply elem_of_mask_select in Hp as (i & Hi & Hki).
  apply elem_of_mask_select in Hq as (j & Hj & Hkj).
  pose proof (peaks_above_sorted x height) as Hs.
  assert (Hij : (i < j)%nat).
  { destruct (Nat.lt_trichotomy i j) as [H|[H|H]]; [exact H| |].
    - subst. rewrite Hi in Hj. injection Hj as ->. lia.
    - pose proof (sorted_lookup_lt _ j i q p Hs H Hj Hi). lia. }
  pose proof (select_spaced candidates priority distance Hs
                (length_map _ _) i j Hij Hki Hkj) as H.
  rewrite (nth_lookup_Some _ _ O _ Hi), (nth_lookup_Some _ _ O _ Hj) in H.
  exact H.
Qed.

Lemma kept_consecutive i p q :
  kept !! i = Some p -> kept !! S i = Some q ->
  (p < q /\ distance <= q - p)%nat.
Proof.
  intros Hp Hq.
  assert (Hlt : (p < q)%nat).
  { apply (sorted_lookup_lt kept i (S i)); auto using kept_sorted. }
  split; [exact Hlt|].
  assert (p + distance <= q)%nat; [|lia].
  apply kept_spaced; [| |exact Hlt]; eapply list_elem_of_lookup_2; eauto.
Qed.

(** A candidate higher than every other candidate closer than
    [distance] is returned. *)
Lemma kept_if_dominant p :
  p ∈ candidates ->
  (forall r, r ∈ candidates -> r <> p -> too_close distance r p ->
     nth r x 0 < nth p x 0) ->
  p ∈ kept.
Proof.
  intros Hp Hdom.
  pose proof (peaks_above_sorted x height) as Hs.
  apply list_elem_of_lookup in Hp as [i Hi].
  apply elem_of_mask_select. exists i. split; [exact Hi|].
  assert (Hilt : (i < length candidates)%nat)
    by (apply lookup_lt_is_Some; eauto).
  apply select_retained; auto using length_map.
  intros k Hne Hk Hclose.
  rewrite !priority_nth by assumption.
  rewrite (nth_lookup_Some _ _ O _ Hi) in *.
  apply Hdom; [| |exact Hclose].
  - eapply list_elem_of_lookup_2. apply lookup_nth_lt. exact Hk.
  - intros Heq. apply Hne.
    apply (sorted_lookup_inj candidates k i p Hs); [|exact Hi].
    rewrite <- Heq. apply lookup_nth_lt. exact Hk.
Qed.

(** A candidate closer than [distance] to a returned peak is dropped. *)
Lemma dropped_if_close p q :
  p ∈ kept -> q ∈ candidates -> q <> p -> too_close distance q p ->
  q ∉ kept.
Proof.
  intros Hp Hq Hne Hclose Hqk.
  pose proof (peaks_above_sorted x height) as Hs.
  apply elem_of_mask_select in Hp as (i & Hi & Hki).
  apply elem_of_mask_select in Hqk as (j & Hj & Hkj).
  assert (Hjlt : (j < length candidates)%nat)
    by (apply lookup_lt_is_Some; eauto).
  assert (Hf : select_by_peak_distance candidates priority distance !! j
               = Some false).
  { apply (select_removed candidates priority distance Hs (length_map _ _) i j);
      auto.
    - intros ->. rewrite Hi in Hj. congruence.
    - rewrite (nth_lookup_Some _ _ O _ Hi), (nth_lookup_Some _ _ O _ Hj).
      exact Hclose. }
  congruence.
Qed.
End FindPeaks.

Lemma too_close_sym d p q : too_close d p q -> too_close d q p.
Proof. unfold too_close. lia. Qed.

Lemma look_ahead_spec x xi i_max : forall fuel start,
  (i_max - start <= fuel)%nat ->
  (start <= look_ahead x xi i_max fuel start)%nat /\
  (look_ahead x xi i_max fuel start <= Nat.max start i_max)%nat /\
  (forall j, (start <= j < look_ahead x xi i_max fuel start)%nat ->
     nth j x 0 == xi).
Proof.
  induction fuel as [|fuel IH]; intros start Hfuel.
  - simpl. split; [lia|]. split; [lia|]. intros j Hj. lia.
  - cbn [look_ahead].
    destruct ((start <? i_max)%nat && Qeq_bool (nth start x 0) xi) eqn:Hc.
    + apply andb_true_iff in Hc as [Hlt Heq].
      apply Nat.ltb_lt in Hlt. apply Qeq_bool_iff in Heq.
      destruct (IH (S start) ltac:(lia)) as (H1 & H2 & H3).
      split; [lia|]. split; [lia|].
      intros j Hj. destruct (decide (j = start)) as [->|Hne]; [exact Heq|].
      apply H3. lia.
    + split; [lia|]. split; [lia|]. intros j Hj. lia.
Qed.

Lemma local_maxima_loop_peaks x i_max :
  i_max = (length x - 1)%nat ->
  forall fuel i, (1 <= i)%nat ->
    Forall (local_maximum x) (local_maxima_loop x i_max fuel i).
Proof.
  intros Hmax. induction fuel as [|fuel IH]; intros i Hi; [constructor|].
  cbn [local_maxima_loop]. cbv zeta.
  destruct (i <? i_max)%nat eqn:Hlt; [|constructor].
  apply Nat.ltb_lt in Hlt.
  destruct (Qltb (nth (i - 1) x 0) (nth i x 0)) eqn:Hleft; [|apply IH; lia].
  apply Qltb_lt in Hleft.
  destruct (look_ahead_spec x (nth i x 0) i_max (i_max - i) (S i) ltac:(lia))
    as (Ha1 & Ha2 & Ha3).
  set (i_ahead := look_ahead x (nth i x 0) i_max (i_max - i) (S i)) in *.
  destruct (Qltb (nth i_ahead x 0) (nth i x 0)) eqn:Hright; [|apply IH; lia].
  apply Qltb_lt in Hright.
  constructor; [|apply IH; lia].
  assert (Hplateau : forall j, (i <= j <= i_ahead - 1)%nat -> nth j x 0 == nth i x 0).
  { intros j Hj. destruct (decide (j = i)) as [->|Hne]; [reflexivity|].
    apply Ha3. lia. }
  assert (Hmid : (i <= (i + (i_ahead - 1)) / 2 <= i_ahead - 1)%nat).
  { split.
    - apply Nat.div_le_lower_bound; lia.
    - apply Nat.Div0.div_le_upper_bound. lia. }
  exists i, (i_ahead - 1)%nat.
  split; [exact Hi|]. split; [lia|]. split; [lia|].
  split; [lia|].
  split.
  { intros j Hj. rewrite (Hplateau j Hj). symmetry. apply Hplateau. exact Hmid. }
  rewrite (Hplateau _ Hmid).
  split; [exact Hleft|].
  replace (i_ahead - 1 + 1)%nat with i_ahead by lia. exact Hright.
Qed.

Lemma local_maxima_1d_peaks x : Forall (local_maximum x) (local_maxima_1d x).
Proof. apply local_maxima_loop_peaks; [reflexivity|lia]. Qed.

Lemma peaks_above_spec x height :
  Forall (fun p => local_maximum x p /\ height <= nth p x 0) (peaks_above x height).
Proof.
  apply Forall_forall. intros p Hp. unfold peaks_above in Hp. cbv zeta in Hp.
  apply elem_of_mask_select in Hp as (j & Hj & Hk).
  split.
  - pose proof (local_maxima_1d_peaks x) as H.
    rewrite Forall_forall in H. apply H. eapply list_elem_of_lookup_2. exact Hj.
  - rewrite list_lookup_fmap, Hj in Hk. simpl in Hk.
    injection Hk as Hk. apply Qle_bool_iff. exact Hk.
Qed.

Lemma local_maximum_inside x p : local_maximum x p -> (1 <= p /\ p + 1 < length x)%nat.
Proof. intros (l & r & H1 & H2 & H3 & H4 & _). lia. Qed.

(** [_local_maxima_1d] misses no sharp peak. *)
Lemma local_maxima_loop_complete x i_max p :
  (p < i_max)%nat ->
  nth (p - 1) x 0 < nth p x 0 -> nth (p + 1) x 0 < nth p x 0 ->
  forall fuel i, (1 <= i <= p)%nat -> (i_max - i <= fuel)%nat ->
    p ∈ local_maxima_loop x i_max fuel i.
Proof.
  intros Hp Hl Hr. induction fuel as [|fuel IH]; intros i Hi Hfuel; [lia|].
  cbn [local_maxima_loop]. cbv zeta.
  replace (i <? i_max)%nat with true by (symmetry; apply Nat.ltb_lt; lia).
  destruct (look_ahead_spec x (nth i x 0) i_max (i_max - i) (S i) ltac:(lia))
    as (Ha1 & Ha2 & Ha3).
  set (i_ahead := look_ahead x (nth i x 0) i_max (i_max - i) (S i)) in *.
  destruct (decide (i = p)) as [->|Hne].
  - replace (Qltb (nth (p - 1) x 0) (nth p x 0)) with true
      by (symmetry; apply Qltb_lt; exact Hl).
    assert (Ea : i_ahead = S p).
    { destruct (decide (i_ahead = S p)) as [E|E]; [exact E|]. exfalso.
      assert (Heq : nth (S p) x 0 == nth p x 0) by (apply Ha3; lia).
      replace (p + 1)%nat with (S p) in Hr by lia. lra. }
    rewrite Ea.
    replace (Qltb (nth (S p) x 0) (nth p x 0)) with true
      by (symmetry; apply Qltb_lt; replace (S p) with (p + 1)%nat by lia; exact Hr).
    replace ((p + (S p - 1)) / 2)%nat with p
      by (replace (p + (S p - 1))%nat with (p * 2)%nat by lia;
          symmetry; apply Nat.div_mul; lia).
    left.
  - destruct (Qltb (nth (i - 1) x 0) (nth i x 0)) eqn:Hleft; [|apply IH; lia].
    destruct (Qltb (nth i_ahead x 0) (nth i x 0)) eqn:Hright; [|apply IH; lia].
    apply Qltb_lt in Hright.
    assert (Hplateau : forall j, (i <= j < i_ahead)%nat -> nth j x 0 == nth i x 0).
    { intros j Hj. destruct (decide (j = i)) as [->|Hji]; [reflexivity|].
      apply Ha3. lia. }
    assert (Hpast : (S i_ahead <= p)%nat).
    { destruct (Nat.le_gt_cases (S i_ahead) p) as [H|H]; [exact H|]. exfalso.
      assert (Hprev : nth (p - 1) x 0 == nth i x 0) by (apply Hplateau; lia).
      destruct (decide (p = i_ahead)) as [->|Hpa].
      - lra.
      - assert (Hcur : nth p x 0 == nth i x 0) by (apply Hplateau; lia). lra. }
    right. apply IH; lia.
Qed.

Lemma peaks_above_complete x height p :
  sharp_peak x p -> height <= nth p x 0 -> p ∈ peaks_above x height.
Proof.
  intros (H1 & H2 & Hl & Hr) Hh.
  assert (Hin : p ∈ local_maxima_1d x).
  { unfold local_maxima_1d. apply local_maxima_loop_complete; try assumption; lia. }
  apply list_elem_of_lookup in Hin as [j Hj].
  unfold peaks_above. cbv zeta. apply elem_of_mask_select.
  exists j. split; [exact Hj|].
  rewrite list_lookup_fmap, Hj. simpl. f_equal.
  apply Qle_bool_iff. exact Hh.
Qed.

Lemma kept_are_peaks x height distance :
  Forall (fun p => local_maximum x p /\ height <= nth p x 0)
    (mask_select (peaks_above x height)
       (select_by_peak_distance (peaks_above x height)
          (map (fun p => nth p x 0) (peaks_above x height)) distance)).
Proof. apply mask_select_Forall, peaks_above_spec. Qed.

(** C2 (as the code has it). For a non-empty energy curve, a percentile in
    [0,100] and [minDistanceFrames >= 1], the indices returned by
    [detect_peaks] are strictly increasing, consecutive ones are at least
    [minDistanceFrames] apart, and each sits on a local maximum of the curve
    that reaches the percentile threshold.  Moreover, for two sharp peaks
    [p < q] of the curve that reach the threshold, with no other local
    maximum reaching the threshold within [minDistanceFrames] of either: if
    they are exactly [minDistanceFrames] apart both are returned; if they
    are one frame closer, only the higher of the two is returned. *)
Theorem detect_peaks_min_distance (energy : list Q) (pct : Q) (d : nat) :
  energy <> [] -> 0 <= pct -> pct <= 100 -> (1 <= d)%nat ->
  exists threshold peaks,
    np_percentile energy pct = Some threshold /\
    detect_peaks energy pct d = Some peaks /\
    StronglySorted lt peaks /\
    (forall i p q, peaks !! i = Some p -> peaks !! S i = Some q ->
       (p < q /\ d <= q - p)%nat) /\
    Forall (fun p => local_maximum energy p /\ threshold <= nth p energy 0) peaks /\
    (forall p q,
       sharp_peak energy p -> threshold <= nth p energy 0 ->
       sharp_peak energy q -> threshold <= nth q energy 0 ->
       (p < q)%nat ->
       (forall r, r <> p -> r <> q ->
          local_maximum energy r -> threshold <= nth r energy 0 ->
          ~ too_close d r p /\ ~ too_close d r q) ->
       ((q - p = d)%nat -> p ∈ peaks /\ q ∈ peaks) /\
       ((S (q - p) = d)%nat -> nth q energy 0 < nth p energy 0 ->
          p ∈ peaks /\ q ∉ peaks) /\
       ((S (q - p) = d)%nat -> nth p energy 0 < nth q energy 0 ->
          q ∈ peaks /\ p ∉ peaks)).
Proof.
  intros Hne H0 H100 Hd.
  destruct (np_percentile_Some energy pct Hne H0 H100) as [thr Hthr].
  exists thr. eexists. split; [exact Hthr|].
  unfold detect_peaks, find_peaks. rewrite Hthr. simpl.
  assert (Hd' : (d <? 1)%nat = false) by (apply Nat.ltb_ge; exact Hd).
  rewrite Hd'. split; [reflexivity|].
  split; [apply kept_sorted|]. split; [apply kept_consecutive|].
  split; [apply kept_are_peaks|].
  intros p q Sp Tp Sq Tq Hlt Hiso'.
  pose proof (peaks_above_complete energy thr p Sp Tp) as Hp.
  pose proof (peaks_above_complete energy thr q Sq Tq) as Hq.
  assert (Hiso : forall r, r ∈ peaks_above energy thr -> r <> p -> r <> q ->
                   ~ too_close d r p /\ ~ too_close d r q).
  { intros r Hr Hrp Hrq.
    pose proof (peaks_above_spec energy thr) as Hall.
    rewrite Forall_forall in Hall. destruct (Hall r Hr) as [Hm Ht].
    apply Hiso'; assumption. }
  assert (Hdomp : (d <= q - p)%nat \/ nth q energy 0 < nth p energy 0 ->
                  forall r, r ∈ peaks_above energy thr -> r <> p ->
                    too_close d r p -> nth r energy 0 < nth p energy 0).
  { intros Hcase r Hr Hrp Hclose.
    destruct (decide (r = q)) as [->|Hrq].
    - destruct Hcase as [Hfar|Hhigh]; [|exact Hhigh].
      exfalso. unfold too_close in Hclose. lia.
    - exfalso. destruct (Hiso r Hr Hrp Hrq) as [Hn _]. exact (Hn Hclose). }
  assert (Hdomq : (d <= q - p)%nat \/ nth p energy 0 < nth q energy 0 ->
                  forall r, r ∈ peaks_above energy thr -> r <> q ->
                    too_close d r q -> nth r energy 0 < nth q energy 0).
  { intros Hcase r Hr Hrq Hclose.
    destruct (decide (r = p)) as [->|Hrp].
    - destruct Hcase as [Hfar|Hhigh]; [|exact Hhigh].
      exfalso. unfold too_close in Hclose. lia.
    - exfalso. destruct (Hiso r Hr Hrp Hrq) as [_ Hn]. exact (Hn Hclose). }
  split; [|split].
  - intros Heq. split.
    + apply kept_if_dominant; [exact Hp|]. apply Hdomp. left. lia.
    + apply kept_if_dominant; [exact Hq|]. apply Hdomq. left. lia.
  - intros Heq Hhigh.
    assert (Hpk : p ∈ mask_select (peaks_above energy thr)
                    (select_by_peak_distance (peaks_above energy thr)
                       (map (fun p => nth p energy 0) (peaks_above energy thr)) d)).
    { apply kept_if_dominant; [exact Hp|]. apply Hdomp. right. exact Hhigh. }
    split; [exact Hpk|].
    apply (dropped_if_close energy thr d p q Hpk Hq); [lia|].
    unfold too_close. lia.
  - intros Heq Hhigh.
    assert (Hqk : q ∈ mask_select (peaks_above energy thr)
                    (select_by_peak_distance (peaks_above energy thr)
                       (map (fun p => nth p energy 0) (peaks_above energy thr)) d)).
    { apply kept_if_dominant; [exact Hq|]. apply Hdomq. right. exact Hhigh. }
    split; [exact Hqk|].
    apply (dropped_if_close energy thr d q p Hqk Hp); [lia|].
    unfold too_close. lia.
Qed.

Lemma detect_peaks_min_distance_witness :
  exists threshold peaks,
    np_percentile two_peaks_apart 50 = Some threshold /\
    detect_peaks two_peaks_apart 50 4 = Some peaks /\
    StronglySorted lt peaks /\
    (forall i p q, peaks !! i = Some p -> peaks !! S i = Some q ->
       (p < q /\ 4 <= q - p)%nat) /\
    Forall (fun p => local_maximum two_peaks_apart p /\
                     threshold <= nth p two_peaks_apart 0) peaks /\
    (forall p q,
       sharp_peak two_peaks_apart p -> threshold <= nth p two_peaks_apart 0 ->
       sharp_peak two_peaks_apart q -> threshold <= nth q two_peaks_apart 0 ->
       (p < q)%nat ->
       (forall r, r <> p -> r <> q ->
          local_maximum two_peaks_apart r -> threshold <= nth r two_peaks_apart 0 ->
          ~ too_close 4 r p /\ ~ too_close 4 r q) ->
       ((q - p = 4)%nat -> p ∈ peaks /\ q ∈ peaks) /\
       ((S (q - p) = 4)%nat -> nth q two_peaks_apart 0 < nth p two_peaks_apart 0 ->
          p ∈ peaks /\ q ∉ peaks) /\
       ((S (q - p) = 4)%nat -> nth p two_peaks_apart 0 < nth q two_peaks_apart 0 ->
          q ∈ peaks /\ p ∉ peaks)).
Proof.
  apply (detect_peaks_min_distance two_peaks_apart 50 4).
  - discriminate.
  - discriminate.
  - discriminate.
  - lia.
Defined.

(** C2 as stated fails when a third peak is near: in [three_peaks] the
    sharp peaks at frames 1 and 5 both reach the threshold and are exactly
    4 frames apart, yet with a minimal distance of 4 the peak at frame 5 is
    dropped, because the higher peak at frame 7 is only 2 frames from it. *)
Lemma crowded_peaks_counterexample :
  exists threshold,
    np_percentile three_peaks 50 = Some threshold /\
    sharp_peak three_peaks 1 /\ threshold <= nth 1 three_peaks 0 /\
    sharp_peak three_peaks 5 /\ threshold <= nth 5 three_peaks 0 /\
    (5 - 1 = 4)%nat /\
    detect_peaks three_peaks 50 4 = Some [1; 7]%nat /\
    5%nat ∉ [1; 7]%nat.
Proof.
  eexists. split; [reflexivity|].
  split; [unfold sharp_peak; simpl; split_and!; try lia; reflexivity|].
  split; [vm_compute; discriminate|].
  split; [unfold sharp_peak; simpl; split_and!; try lia; reflexivity|].
  split; [vm_compute; discriminate|]. split; [reflexivity|]. split; [reflexivity|].
  intros H. apply elem_of_cons in H as [H|H]; [discriminate|].
  apply elem_of_cons in H as [H|H]; [discriminate|].
  apply elem_of_nil in H. exact H.
Qed.

(** The two scenarios of the specification, run. *)
Example detect_peaks_exactly_apart :
  detect_peaks two_peaks_apart 50 4 = Some [1; 5]%nat.
Proof. reflexivity. Qed.

Example detect_peaks_one_closer :
  detect_peaks two_peaks_closer 50 4 = Some [4]%nat.
Proof. reflexivity. Qed.

(** *** The loops of [_local_maxima_1d] are given enough fuel *)

Lemma look_ahead_fuel x xi i_max : forall fuel fuel' start,
  (i_max - start <= fuel)%nat -> (i_max - start <= fuel')%nat ->
  look_ahead x xi i_max fuel start = look_ahead x xi i_max fuel' start.
Proof.
  induction fuel as [|fuel IH]; intros fuel' start H H'.
  - destruct fuel' as [|fuel']; [reflexivity|]. simpl.
    assert (E : (start <? i_max)%nat = false) by (apply Nat.ltb_ge; lia).
    rewrite E. reflexivity.
  - destruct fuel' as [|fuel']; simpl.
    + assert (E : (start <? i_max)%nat = false) by (apply Nat.ltb_ge; lia).
      rewrite E. reflexivity.
    + destruct (start <? i_max)%nat eqn:E; [|reflexivity].
      destruct (Qeq_bool _ _); [|reflexivity]. simpl.
      apply Nat.ltb_lt in E. apply IH; lia.
Qed.

Lemma local_maxima_loop_fuel x i_max : forall fuel fuel' i,
  (i_max - i <= fuel)%nat -> (i_max - i <= fuel')%nat ->
  local_maxima_loop x i_max fuel i = local_maxima_loop x i_max fuel' i.
Proof.
  induction fuel as [|fuel IH]; intros fuel' i H H'.
  - destruct fuel' as [|fuel']; [reflexivity|]. cbn [local_maxima_loop].
    assert (E : (i <? i_max)%nat = false) by (apply Nat.ltb_ge; lia).
    rewrite E. reflexivity.
  - destruct fuel' as [|fuel']; cbn [local_maxima_loop].
    + assert (E : (i <? i_max)%nat = false) by (apply Nat.ltb_ge; lia).
      rewrite E. reflexivity.
    + destruct (i <? i_max)%nat eqn:E; [|reflexivity].
      apply Nat.ltb_lt in E.
      pose proof (look_ahead_ge x (nth i x 0) i_max (i_max - i) (S i)) as Ha.
      destruct (Qltb (nth (i - 1) x 0) (nth i x 0)); [|apply IH; lia].
      destruct (Qltb _ (nth i x 0)); [|apply IH; lia].
      f_equal. apply IH; lia.
Qed.

(** More fuel than [len(x)] never changes the result of
    [local_maxima_1d]. *)
Lemma local_maxima_1d_fuel x extra :
  local_maxima_1d x
  = local_maxima_loop x (length x - 1) (length x + extra) 1.
Proof. apply local_maxima_loop_fuel; lia. Qed.

(** ** The effect pipeline *)

Section Returns.
Context {A B : Type}.

Lemma returns_ret (a : A) (Q : A -> Prop) : Q a -> returns (ret a) Q.
Proof. intros H tape a' tape' [= <- _]. exact H. Qed.

Lemma returns_raise (e : exn) (Q : A -> Prop) : returns (raise e) Q.
Proof. intros tape a tape' H. discriminate. Qed.

Lemma returns_bind (m : M A) (k : A -> M B) (P : A -> Prop) (Q : B -> Prop) :
  returns m P -> (forall a, P a -> returns (k a) Q) -> returns (bind m k) Q.
Proof.
  intros Hm Hk tape b tape' H. unfold bind in H.
  destruct (m tape) as [[a t1]|e] eqn:E; [|discriminate].
  exact (Hk a (Hm _ _ _ E) _ _ _ H).
Qed.

Lemma returns_weaken (m : M A) (P Q : A -> Prop) :
  returns m P -> (forall a, P a -> Q a) -> returns m Q.
Proof. intros Hm HPQ tape a tape' H. apply HPQ. exact (Hm _ _ _ H). Qed.

Lemma returns_any (m : M A) : returns m (fun _ => True).
Proof. intros tape a tape' _. exact I. Qed.

End Returns.

Lemma returns_foldM {A B} (body : B -> A -> M A) (P : A -> Prop) (xs : list B) :
  (forall x a, P a -> returns (body x a) P) ->
  forall a, P a -> returns (foldM body xs a) P.
Proof.
  intros Hbody. induction xs as [|x xs IH]; intros a Ha; simpl.
  - apply returns_ret. exact Ha.
  - apply returns_bind with (P := P); [apply Hbody; exact Ha|exact IH].
Qed.

(** After a bind whose first computation is unconstrained. *)
Lemma returns_then {A B} (m : M A) (k : A -> M B) (Q : B -> Prop) :
  (forall a, returns (k a) Q) -> returns (bind m k) Q.
Proof.
  intros Hk. apply returns_bind with (P := fun _ => True); [apply returns_any|].
  intros a _. apply Hk.
Qed.

Lemma fold_left_shape {B} (f : ndarray -> B -> ndarray) (xs : list B) (s : list nat) :
  (forall a x, shape a = s -> shape (f a x) = s) ->
  forall a, shape a = s -> shape (fold_left f xs a) = s.
Proof.
  intros Hf. induction xs as [|x xs IH]; intros a Ha; simpl; [exact Ha|].
  apply IH, Hf, Ha.
Qed.

(** *** Shapes produced by the primitives *)

Lemma shape_hw_returns (a : ndarray) h w rest :
  shape a = h :: w :: rest ->
  returns (shape_hw a) (fun hw => hw = (Z.of_nat h, Z.of_nat w)).
Proof.
  intros Hs tape hw tape'. unfold shape_hw. rewrite Hs.
  intros [= <- _]. reflexivity.
Qed.

Lemma getitem_returns (a : ndarray) ys xs h w rest :
  shape a = h :: w :: rest ->
  returns (getitem a ys xs)
          (fun b => shape b = slice_len h ys :: slice_len w xs :: rest).
Proof.
  intros Hs tape b tape'. unfold getitem. rewrite Hs.
  intros [= <- _]. reflexivity.
Qed.

Lemma setitem_returns (a v : ndarray) ys xs :
  returns (setitem a ys xs v) (fun b => shape b = shape a).
Proof.
  intros tape b tape'. unfold setitem.
  destruct (shape a) as [|h [|w rest]]; try discriminate.
  destruct (broadcastable _ _); [|discriminate].
  intros [= <- _]. reflexivity.
Qed.

Lemma set_channel_returns (a v : ndarray) c :
  returns (set_channel a c v) (fun b => shape b = shape a).
Proof.
  intros tape b tape'. unfold set_channel.
  destruct (shape a) as [|h [|w [|cn [|]]]]; try discriminate.
  destruct (c <? cn)%nat; [|discriminate].
  destruct (broadcastable _ _); [|discriminate].
  intros [= <- _]. reflexivity.
Qed.

Lemma set_column_returns (a v : ndarray) ys x :
  returns (set_column a ys x v) (fun b => shape b = shape a).
Proof.
  intros tape b tape'. unfold set_column.
  destruct (shape a) as [|h [|w rest]]; try discriminate.
  destruct (_ && _); [|discriminate].
  destruct (broadcastable _ _); [|discriminate].
  intros [= <- _]. reflexivity.
Qed.

Lemma set_row_returns (a v : ndarray) y xs :
  returns (set_row a y xs v) (fun b => shape b = shape a).
Proof.
  intros tape b tape'. unfold set_row.
  destruct (shape a) as [|h [|w rest]]; try discriminate.
  destruct (_ && _); [|discriminate].
  destruct (broadcastable _ _); [|discriminate].
  intros [= <- _]. reflexivity.
Qed.

Lemma cv_input_returns (a : ndarray) :
  returns (cv_input a) (fun m => cv_mat a = Some m).
Proof.
  intros tape m tape'. unfold cv_input.
  destruct (cv_mat a) as [[[rows cols] cn]|]; [|discriminate].
  destruct (_ && _); [|discriminate].
  intros [= <- _]. reflexivity.
Qed.

Lemma cv_mat_color h w (a : ndarray) :
  color_frame h w a -> cv_mat a = Some (h, w, 3%nat).
Proof. unfold color_frame, cv_mat. intros ->. reflexivity. Qed.

Lemma cv_sized_returns op params (src : ndarray) (w h : Z) cn :
  (exists rows cols, cv_mat src = Some (rows, cols, cn)) ->
  returns (cv_sized op params src (w, h))
          (fun b => shape b = cv_shape (Z.to_nat h) (Z.to_nat w) cn).
Proof.
  intros (rows & cols & Hm). unfold cv_sized.
  eapply returns_bind; [apply cv_input_returns|].
  intros [[r c] cn'] Hm'. rewrite Hm in Hm'. injection Hm' as <- <- <-.
  destruct (_ && _); [|apply returns_raise].
  apply returns_ret. reflexivity.
Qed.

Lemma cv_sized_color op params (src : ndarray) (h w h0 w0 : nat) :
  color_frame h0 w0 src ->
  returns (cv_sized op params src (Z.of_nat w, Z.of_nat h)) (color_frame h w).
Proof.
  intros Hs.
  eapply returns_weaken.
  - apply cv_sized_returns with (cn := 3%nat).
    exists h0, w0. apply cv_mat_color. exact Hs.
  - intros b Hb. unfold color_frame. rewrite Hb, !Nat2Z.id. reflexivity.
Qed.

Lemma cv_sized_plane op params (src : ndarray) (h w h0 w0 : nat) :
  shape src = [h0; w0] ->
  returns (cv_sized op params src (Z.of_nat w, Z.of_nat h))
          (fun b => shape b = [h; w]).
Proof.
  intros Hs.
  eapply returns_weaken.
  - apply cv_sized_returns with (cn := 1%nat).
    exists h0, w0. unfold cv_mat. rewrite Hs. reflexivity.
  - intros b Hb. rewrite Hb, !Nat2Z.id. reflexivity.
Qed.

Lemma cv_same_color op params (src : ndarray) (h w : nat) :
  color_frame h w src -> returns (cv_same op params src) (color_frame h w).
Proof.
  intros Hs. unfold cv_same.
  eapply returns_bind; [apply cv_input_returns|].
  intros [[r c] cn] Hm. rewrite (cv_mat_color _ _ _ Hs) in Hm.
  injection Hm as <- <- <-. apply returns_ret. reflexivity.
Qed.

Lemma cv2_cvtColor_hsv (src : ndarray) (h w : nat) (code : color_code) :
  color_frame h w src -> code = BGR2HSV \/ code = HSV2BGR ->
  returns (cv2_cvtColor src code) (color_frame h w).
Proof.
  intros Hs Hcode. unfold cv2_cvtColor.
  eapply returns_bind; [apply cv_input_returns|].
  intros [[r c] cn] Hm. rewrite (cv_mat_color _ _ _ Hs) in Hm.
  injection Hm as <- <- <-.
  destruct Hcode as [-> | ->]; apply returns_ret; reflexivity.
Qed.

Lemma get_channel_returns (a : ndarray) c :
  returns (get_channel a c)
          (fun b => exists h w cn, shape a = [h; w; cn] /\ shape b = [h; w]).
Proof.
  intros tape b tape'. unfold get_channel.
  destruct (shape a) as [|h [|w [|cn [|]]]]; try discriminate.
  destruct (c <? cn)%nat; [|discriminate].
  intros [= <- _]. eauto.
Qed.

Lemma cv2_split3_returns (src : ndarray) h w :
  color_frame h w src ->
  returns (cv2_split3 src)
          (fun bgr => shape bgr.1.1 = [h; w] /\ shape bgr.1.2 = [h; w] /\
                      shape bgr.2 = [h; w]).
Proof.
  intros Hs tape bgr tape'. unfold cv2_split3.
  rewrite (cv_mat_color _ _ _ Hs). simpl.
  intros [= <- _]. simpl. auto.
Qed.

Lemma cv2_merge3_returns (c0 c1 c2 : ndarray) h w :
  shape c0 = [h; w] ->
  returns (cv2_merge3 c0 c1 c2) (color_frame h w).
Proof.
  intros Hs. unfold cv2_merge3.
  eapply returns_bind; [apply cv_input_returns|].
  intros [[r c] cn] Hm. unfold cv_mat in Hm. rewrite Hs in Hm.
  injection Hm as <- <- <-.
  destruct (_ && _); [|apply returns_raise].
  apply returns_ret. reflexivity.
Qed.

Lemma cv2_addWeighted_color (a b : ndarray) alpha beta h w :
  color_frame h w a ->
  returns (cv2_addWeighted a alpha b beta) (color_frame h w).
Proof.
  intros Hs. unfold cv2_addWeighted.
  eapply returns_bind; [apply cv_input_returns|].
  intros [[r c] cn] Hm. rewrite (cv_mat_color _ _ _ Hs) in Hm.
  injection Hm as <- <- <-.
  destruct (bool_decide _); [|apply returns_raise].
  apply returns_ret. reflexivity.
Qed.

Lemma cv2_remap_color (src : ndarray) params (h w h0 w0 : nat) :
  color_frame h0 w0 src ->
  returns (cv2_remap src params (Z.of_nat h) (Z.of_nat w)) (color_frame h w).
Proof.
  intros Hs. unfold cv2_remap.
  eapply returns_bind; [apply cv_input_returns|].
  intros [[r c] cn] Hm. rewrite (cv_mat_color _ _ _ Hs) in Hm.
  injection Hm as <- <- <-.
  destruct (_ && _); [|apply returns_raise].
  apply returns_ret. unfold color_frame. simpl. rewrite !Nat2Z.id. reflexivity.
Qed.

Lemma broadcast_rev_same (s : list nat) : broadcast_rev s s = Some s.
Proof.
  induction s as [|a s IH]; [reflexivity|]. simpl. rewrite IH. simpl.
  rewrite Nat.eqb_refl. reflexivity.
Qed.

Lemma broadcast_rev_nil_r (s : list nat) : broadcast_rev s [] = Some s.
Proof. destruct s; reflexivity. Qed.

(** Combining two arrays of the same shape keeps the shape. *)
Lemma broadcast_op_same op params (a b : ndarray) :
  shape b = shape a ->
  returns (broadcast_op op params [a; b]) (fun r => shape r = shape a).
Proof.
  intros Hb tape r tape'. unfold broadcast_op.
  cbn [map broadcast_all_rev]. rewrite Hb.
  cbn [mbind option_bind]. rewrite broadcast_rev_nil_r. cbn [mbind option_bind].
  rewrite broadcast_rev_same.
  intros [= <- _]. simpl. apply rev_involutive.
Qed.

(** *** Every effect keeps the shape of a colour frame *)

Lemma kept_shape {h w} (a : ndarray) {m : M ndarray} :
  color_frame h w a ->
  returns m (fun b => shape b = shape a) ->
  returns m (color_frame h w).
Proof.
  intros Ha Hm. eapply returns_weaken; [exact Hm|].
  intros b Hb. unfold color_frame in *. congruence.
Qed.

Lemma elementwise_color {h w} op params (a : ndarray) :
  color_frame h w a -> color_frame h w (elementwise op params a).
Proof. intros H. exact H. Qed.

Ltac bind_with lem :=
  eapply returns_bind; [eapply lem; eauto|cbv beta; intros].

Ltac skip_bind := apply returns_then; intros.

Lemma shape_hw_color {h w} (frame : ndarray) {B} (k : Z * Z -> M B) (Q : B -> Prop) :
  color_frame h w frame ->
  returns (k (Z.of_nat h, Z.of_nat w)) Q ->
  returns (bind (shape_hw frame) k) Q.
Proof.
  intros Hf Hk. eapply returns_bind; [apply (shape_hw_returns frame h w [3%nat] Hf)|].
  intros hw ->. exact Hk.
Qed.

Theorem zoom_frame_shape (frame : ndarray) (zoom_factor : Q) (h w : nat) :
  color_frame h w frame ->
  returns (zoom_frame frame zoom_factor) (color_frame h w).
Proof.
  intros Hf. unfold zoom_frame.
  destruct (Qle_bool zoom_factor 1); [apply returns_ret; exact Hf|].
  apply (shape_hw_color frame _ _ Hf). cbv zeta.
  bind_with getitem_returns.
  bind_with (cv_sized_color "cv2.resize" [] a h w).
  apply returns_ret. assumption.
Qed.

Theorem rotate_frame_shape (frame : ndarray) (angle_degrees : Q) (h w : nat) :
  color_frame h w frame ->
  returns (rotate_frame frame angle_degrees) (color_frame h w).
Proof.
  intros Hf. unfold rotate_frame.
  destruct (Qltb _ _); [apply returns_ret; exact Hf|].
  apply (shape_hw_color frame _ _ Hf). cbv zeta.
  bind_with (cv_sized_color "cv2.warpAffine").
  apply returns_ret. assumption.
Qed.

(** [if flag: hsv[:, :, c] = f(hsv[:, :, c])] *)
Ltac update_channel H :=
  match type of H with
  | color_frame ?h ?w _ =>
    apply returns_bind with (P := color_frame h w);
    [ destruct (negb _);
      [ skip_bind; eapply kept_shape; [exact H|apply set_channel_returns]
      | apply returns_ret; exact H ]
    | cbv beta; intros ]
  end.

Theorem apply_color_grade_shape (frame : ndarray) (hue sat bri : Q) (h w : nat) :
  color_frame h w frame ->
  returns (apply_color_grade frame hue sat bri) (color_frame h w).
Proof.
  intros Hf. unfold apply_color_grade.
  destruct (_ && _); [apply returns_ret; exact Hf|].
  bind_with (cv2_cvtColor_hsv frame h w).
  assert (H0 : color_frame h w (elementwise "astype.float32" [] a)) by assumption.
  update_channel H0. update_channel H1. update_channel H2.
  bind_with (cv2_cvtColor_hsv (elementwise "astype.uint8" [] a2) h w).
  apply returns_ret. assumption.
Qed.

Theorem apply_motion_blur_shape (frame : ndarray) (intensity : Q) (h w : nat) :
  color_frame h w frame ->
  returns (apply_motion_blur frame intensity) (color_frame h w).
Proof.
  intros Hf. unfold apply_motion_blur.
  destruct (Qle_bool intensity 0); [apply returns_ret; exact Hf|]. cbv zeta.
  destruct (_ <=? 1)%Z; [apply returns_ret; exact Hf|].
  bind_with (cv_same_color "cv2.GaussianBlur").
  apply returns_ret. assumption.
Qed.

Theorem apply_glitch_effect_shape (frame : ndarray) (intensity : Q) (h w : nat) :
  color_frame h w frame ->
  returns (apply_glitch_effect frame intensity) (color_frame h w).
Proof.
  intros Hf. unfold apply_glitch_effect.
  destruct (Qle_bool intensity 0); [apply returns_ret; exact Hf|].
  apply (shape_hw_color frame _ _ Hf). cbv zeta. unfold copy.
  apply returns_bind with (P := color_frame h w).
  { destruct (Qltb (3 # 10) intensity); [|apply returns_ret; exact Hf].
    skip_bind. skip_bind.
    destruct (negb _); [|apply returns_ret; exact Hf].
    skip_bind. apply (kept_shape frame Hf), set_channel_returns. }
  intros g1 H1.
  apply returns_bind with (P := color_frame h w).
  { destruct (Qltb (5 # 10) intensity); [|apply returns_ret; exact H1].
    apply returns_foldM; [|exact H1].
    intros _ g Hg. do 5 skip_bind.
    destruct (Qltb _ _).
    - skip_bind. destruct (_ && _); [|apply returns_ret; exact Hg].
      skip_bind. apply (kept_shape g Hg), setitem_returns.
    - skip_bind. apply (kept_shape g Hg), setitem_returns. }
  intros g2 H2.
  apply returns_bind with (P := color_frame h w); [|intros; apply returns_ret; assumption].
  destruct (Qltb (4 # 10) intensity); [|apply returns_ret; exact H2].
  bind_with (cv2_split3_returns g2 h w).
  destruct a as [[b g] r]. simpl in H. destruct H as (Hb & Hg & Hr).
  bind_with (cv_sized_plane "cv2.warpAffine").
  bind_with (cv_sized_plane "cv2.warpAffine").
  eapply cv2_merge3_returns. eassumption.
Qed.

Lemma noise_color (op : string) (scale : Q) (h w : nat) :
  returns (np_random_array op scale [h; w; 3%nat]) (color_frame h w).
Proof.
  unfold np_random_array. skip_bind. apply returns_ret. reflexivity.
Qed.

(** [a = a + noise] with [noise] of shape [(h, w, 3)]. *)
Lemma add_noise_color {h w} (a noise : ndarray) :
  color_frame h w a -> color_frame h w noise ->
  returns (broadcast_op "add" [] [a; noise]) (color_frame h w).
Proof.
  intros Ha Hn. apply (kept_shape a Ha).
  apply broadcast_op_same. unfold color_frame in *. congruence.
Qed.

Theorem apply_artifacts_effect_shape (frame : ndarray) (intensity : Q) (h w : nat) :
  color_frame h w frame ->
  returns (apply_artifacts_effect frame intensity) (color_frame h w).
Proof.
  intros Hf. unfold apply_artifacts_effect.
  destruct (Qle_bool intensity 0); [apply returns_ret; exact Hf|].
  apply (shape_hw_color frame _ _ Hf). cbv zeta. unfold copy.
  assert (H0 : color_frame h w (elementwise "astype.float32" [] frame)) by exact Hf.
  apply returns_bind with (P := color_frame h w).
  { destruct (Qltb (2 # 10) intensity); [|apply returns_ret; exact H0].
    apply returns_foldM; [|exact H0]. intros y a Ha.
    apply returns_foldM; [|exact Ha]. intros x a' Ha'.
    skip_bind. destruct (Qltb _ _); [|apply returns_ret; exact Ha'].
    skip_bind. apply (kept_shape a' Ha'), setitem_returns. }
  intros a1 H1.
  apply returns_bind with (P := color_frame h w).
  { destruct (Qltb (15 # 100) intensity); [|apply returns_ret; exact H1].
    rewrite !Nat2Z.id.
    bind_with (noise_color "np.random.normal").
    bind_with (@add_noise_color h w a1 a).
    apply returns_ret. assumption. }
  intros a2 H2.
  apply returns_bind with (P := color_frame h w).
  { destruct (Qltb (3 # 10) intensity); [|apply returns_ret; exact H2].
    apply returns_foldM; [|exact H2]. intros _ a Ha.
    do 3 skip_bind. destruct (Qltb _ _); [apply returns_ret; exact Ha|].
    skip_bind. apply (kept_shape a Ha), setitem_returns. }
  intros a3 H3.
  apply returns_bind with (P := color_frame h w);
    [|intros; apply returns_ret; assumption].
  set (a4 := elementwise "clip.astype.uint8" _ _).
  assert (H4 : color_frame h w a4).
  { subst a4. destruct (Qltb (4 # 10) intensity); exact H3. }
  clearbody a4.
  destruct (Qltb (7 # 10) intensity); [|apply returns_ret; exact H4].
  destruct (1 <? _)%Z eqn:Hp; [|apply returns_ret; exact H4].
  set (small_w := Z.max 1 _). set (small_h := Z.max 1 _).
  replace small_w with (Z.of_nat (Z.to_nat small_w)) by (subst small_w; lia).
  replace small_h with (Z.of_nat (Z.to_nat small_h)) by (subst small_h; lia).
  bind_with (cv_sized_color "cv2.resize" [] a4 (Z.to_nat small_h) (Z.to_nat small_w)).
  eapply (cv_sized_color "cv2.resize" [] a). eassumption.
Qed.

Theorem apply_data_corruption_shape (frame : ndarray) (intensity : Q) (h w : nat) :
  color_frame h w frame ->
  returns (apply_data_corruption frame intensity) (color_frame h w).
Proof.
  intros Hf. unfold apply_data_corruption.
  destruct (Qle_bool intensity 0); [apply returns_ret; exact Hf|].
  apply (shape_hw_color frame _ _ Hf). cbv zeta. unfold copy.
  apply returns_bind with (P := color_frame h w).
  { destruct (Qltb (1 # 10) intensity); [|apply returns_ret; exact Hf].
    apply returns_foldM; [|exact Hf]. intros _ a Ha.
    do 3 skip_bind.
    destruct (Qltb _ _).
    - skip_bind. apply (kept_shape a Ha), setitem_returns.
    - destruct (Qltb _ _).
      + do 3 skip_bind. apply (kept_shape a Ha), setitem_returns.
      + skip_bind. skip_bind. destruct a4 as [[b g] r].
        do 2 skip_bind. apply (kept_shape a Ha), setitem_returns. }
  intros a1 H1.
  apply returns_bind with (P := color_frame h w);
    [|intros; apply returns_ret; assumption].
  destruct (Qltb (4 # 10) intensity); [|apply returns_ret; exact H1].
  apply returns_foldM; [|exact H1]. intros _ a Ha.
  do 5 skip_bind. apply (kept_shape a Ha), setitem_returns.
Qed.

Lemma sort_column_shape strip strip_hsv rows x (sorted_frame : ndarray) :
  returns (sort_column strip strip_hsv rows x sorted_frame)
          (fun b => shape b = shape sorted_frame).
Proof.
  unfold sort_column. do 4 skip_bind. apply set_column_returns.
Qed.

Lemma sort_row_shape strip strip_hsv y cols (sorted_frame : ndarray) :
  returns (sort_row strip strip_hsv y cols sorted_frame)
          (fun b => shape b = shape sorted_frame).
Proof.
  unfold sort_row. do 4 skip_bind. apply set_row_returns.
Qed.

Theorem apply_pixel_sorting_shape (frame : ndarray) (intensity : Q) (h w : nat) :
  color_frame h w frame ->
  returns (apply_pixel_sorting frame intensity) (color_frame h w).
Proof.
  intros Hf. unfold apply_pixel_sorting.
  destruct (Qle_bool intensity 0); [apply returns_ret; exact Hf|].
  apply (shape_hw_color frame _ _ Hf). cbv zeta. unfold copy.
  do 2 skip_bind.
  destruct (Qltb _ _).
  - apply returns_foldM; [|exact Hf]. intros i f Hfr.
    destruct (_ <? 2)%Z; [apply returns_ret; exact Hfr|].
    do 3 skip_bind.
    apply returns_foldM; [|exact Hfr]. intros x f' Hf'.
    apply (kept_shape f' Hf'), sort_column_shape.
  - apply returns_foldM; [|exact Hf]. intros i f Hfr.
    destruct (_ <? 2)%Z; [apply returns_ret; exact Hfr|].
    do 3 skip_bind.
    apply returns_foldM; [|exact Hfr]. intros y f' Hf'.
    apply (kept_shape f' Hf'), sort_row_shape.
Qed.

Theorem apply_kaleidoscope_shape (frame : ndarray) (intensity : Q) (h w : nat) :
  color_frame h w frame ->
  returns (apply_kaleidoscope frame intensity) (color_frame h w).
Proof.
  intros Hf. unfold apply_kaleidoscope.
  destruct (Qle_bool intensity 0); [apply returns_ret; exact Hf|].
  apply (shape_hw_color frame _ _ Hf). cbv zeta.
  skip_bind.
  bind_with (cv2_addWeighted_color frame).
  apply returns_ret. assumption.
Qed.

Theorem apply_wave_distortion_shape (frame : ndarray) (intensity : Q) (h w : nat) :
  color_frame h w frame ->
  returns (apply_wave_distortion frame intensity) (color_frame h w).
Proof.
  intros Hf. unfold apply_wave_distortion.
  destruct (Qle_bool intensity 0); [apply returns_ret; exact Hf|].
  apply (shape_hw_color frame _ _ Hf). cbv zeta.
  do 2 skip_bind.
  bind_with (cv2_remap_color frame).
  apply returns_ret. assumption.
Qed.

Theorem apply_posterization_shape (frame : ndarray) (intensity : Q) (h w : nat) :
  color_frame h w frame ->
  returns (apply_posterization frame intensity) (color_frame h w).
Proof.
  intros Hf. unfold apply_posterization.
  destruct (Qle_bool intensity 0); [apply returns_ret; exact Hf|]. cbv zeta.
  apply returns_foldM; [|exact Hf]. intros c a Ha.
  skip_bind. apply (kept_shape a Ha), set_channel_returns.
Qed.

Theorem apply_edge_detection_overlay_shape (frame : ndarray) (intensity : Q)
    (h w : nat) :
  color_frame h w frame ->
  returns (apply_edge_detection_overlay frame intensity) (color_frame h w).
Proof.
  intros Hf. unfold apply_edge_detection_overlay.
  destruct (Qle_bool intensity 0); [apply returns_ret; exact Hf|].
  do 3 skip_bind. cbv zeta.
  bind_with (cv2_addWeighted_color frame).
  apply returns_ret. assumption.
Qed.

Theorem apply_vhs_degradation_shape (frame : ndarray) (intensity : Q) (h w : nat) :
  color_frame h w frame ->
  returns (apply_vhs_degradation frame intensity) (color_frame h w).
Proof.
  intros Hf. unfold apply_vhs_degradation.
  destruct (Qle_bool intensity 0); [apply returns_ret; exact Hf|].
  apply (shape_hw_color frame _ _ Hf). cbv zeta. unfold copy.
  set (v0 := if Qltb (2 # 10) intensity then _ else _).
  assert (H0 : color_frame h w v0).
  { subst v0. destruct (Qltb (2 # 10) intensity); [|exact Hf].
    apply fold_left_shape; [|exact Hf]. intros a x Ha. exact Ha. }
  clearbody v0.
  apply returns_bind with (P := color_frame h w).
  { destruct (Qltb (3 # 10) intensity); [|apply returns_ret; exact H0].
    bind_with (cv2_split3_returns v0 h w).
    destruct a as [[b g] r]. simpl in H. destruct H as (Hb & Hg & Hr).
    bind_with (cv_sized_plane "cv2.warpAffine").
    bind_with (cv_sized_plane "cv2.warpAffine").
    eapply cv2_merge3_returns. eassumption. }
  intros v1 H1.
  apply returns_bind with (P := color_frame h w).
  { destruct (Qltb (4 # 10) intensity); [|apply returns_ret; exact H1].
    rewrite !Nat2Z.id.
    bind_with (noise_color "np.random.normal").
    apply (add_noise_color v1 a); assumption. }
  intros v2 H2.
  apply returns_bind with (P := color_frame h w);
    [|intros; apply returns_ret; assumption].
  destruct (Qltb (5 # 10) intensity); [|apply returns_ret; exact H2].
  bind_with (cv2_cvtColor_hsv (elementwise "astype.uint8" [] v2) h w).
  skip_bind.
  apply returns_bind with (P := color_frame h w).
  { eapply kept_shape; [eassumption|apply set_channel_returns]. }
  intros hsv' Hh.
  bind_with (cv2_cvtColor_hsv hsv' h w).
  apply returns_ret. assumption.
Qed.

Theorem apply_scan_lines_crt_shape (frame : ndarray) (intensity : Q) (h w : nat) :
  color_frame h w frame ->
  returns (apply_scan_lines_crt frame intensity) (color_frame h w).
Proof.
  intros Hf. unfold apply_scan_lines_crt.
  destruct (Qle_bool intensity 0); [apply returns_ret; exact Hf|].
  apply (shape_hw_color frame _ _ Hf). cbv zeta. unfold copy.
  set (c0 := fold_left _ _ _).
  assert (H0 : color_frame h w c0).
  { subst c0. apply fold_left_shape; [|exact Hf]. intros a x Ha. exact Ha. }
  clearbody c0.
  apply returns_bind with (P := color_frame h w);
    [|intros; apply returns_ret; assumption].
  destruct (Qltb (5 # 10) intensity); [|apply returns_ret; exact H0].
  bind_with (cv2_remap_color (elementwise "astype.uint8" [] c0)).
  apply returns_ret. assumption.
Qed.

Theorem blend_layers_shape (base overlay : ndarray) (mode : string) (opacity : Q)
    (h w : nat) :
  color_frame h w base -> color_frame h w overlay ->
  returns (blend_layers base overlay mode opacity) (color_frame h w).
Proof.
  intros Hb Ho. unfold blend_layers.
  destruct (Qle_bool opacity 0); [apply returns_ret; exact Hb|]. cbv zeta.
  apply returns_bind with (P := color_frame h w);
    [|intros; apply returns_ret; assumption].
  apply (kept_shape (elementwise "astype.float32./255" [] base) Hb).
  apply broadcast_op_same. unfold color_frame in *. simpl. congruence.
Qed.

Lemma when_positive_shape (intensity : Q) (effect : ndarray -> Q -> M ndarray)
    (frame : ndarray) (h w : nat) :
  (forall f i, color_frame h w f -> returns (effect f i) (color_frame h w)) ->
  color_frame h w frame ->
  returns (when_positive intensity effect frame) (color_frame h w).
Proof.
  intros He Hf. unfold when_positive.
  destruct (Qltb 0 intensity); [apply He; exact Hf|apply returns_ret; exact Hf].
Qed.

Theorem apply_effects_shape (frame : ndarray) (p : EffectParams)
    (effect_mode blend_mode : string) (layer_opacity : Q) (h w : nat) :
  color_frame h w frame ->
  returns (apply_effects frame p effect_mode blend_mode layer_opacity)
          (color_frame h w).
Proof.
  intros Hf. unfold apply_effects, apply_effects_with, copy.
  apply returns_bind with (P := fun o => forall a, o = Some a -> color_frame h w a).
  { destruct (bool_decide (effect_mode = "layer")).
    - bind_with (zoom_frame_shape frame (zoom p) h w).
      bind_with (rotate_frame_shape a (rotation p) h w).
      apply returns_ret. intros ? [= <-]. assumption.
    - apply returns_ret. discriminate. }
  intros original_transformed Ho.
  bind_with (zoom_frame_shape frame (zoom p) h w).
  bind_with (rotate_frame_shape a (rotation p) h w).
  bind_with (apply_color_grade_shape a0 (hue_shift p) (saturation p) (brightness p) h w).
  repeat (eapply returns_bind;
          [apply when_positive_shape;
           [intros; first
              [ apply apply_pixel_sorting_shape | apply apply_kaleidoscope_shape
              | apply apply_wave_distortion_shape | apply apply_glitch_effect_shape
              | apply apply_data_corruption_shape | apply apply_artifacts_effect_shape
              | apply apply_posterization_shape | apply apply_edge_detection_overlay_shape
              | apply apply_vhs_degradation_shape | apply apply_scan_lines_crt_shape
              | apply apply_motion_blur_shape ]; assumption
           | eassumption]
          | cbv beta; intros]).
  destruct original_transformed as [o|]; [|apply returns_ret; assumption].
  destruct (bool_decide _); [|apply returns_ret; assumption].
  apply blend_layers_shape; [apply Ho; reflexivity|assumption].
Qed.

(** *** When the effects return *)

Lemma succeeds_ret {A} (a : A) (Q : A -> Prop) : Q a -> succeeds (ret a) Q.
Proof. intros H tape. exists a, tape. split; [reflexivity|exact H]. Qed.

Lemma succeeds_bind {A B} (m : M A) (k : A -> M B) (P : A -> Prop) (Q : B -> Prop) :
  succeeds m P -> (forall a, P a -> succeeds (k a) Q) -> succeeds (bind m k) Q.
Proof.
  intros Hm Hk tape. destruct (Hm tape) as (a & t1 & E & Ha).
  destruct (Hk a Ha t1) as (b & t2 & E' & Hb).
  exists b, t2. split; [|exact Hb]. unfold bind. rewrite E. exact E'.
Qed.

Lemma succeeds_weaken {A} (m : M A) (P Q : A -> Prop) :
  succeeds m P -> (forall a, P a -> Q a) -> succeeds m Q.
Proof.
  intros Hm HPQ tape. destruct (Hm tape) as (a & t1 & E & Ha).
  exists a, t1. split; [exact E|apply HPQ; exact Ha].
Qed.

Lemma succeeds_returns {A} (m : M A) (Q : A -> Prop) :
  succeeds m Q -> returns m Q.
Proof.
  intros Hm tape a tape' E. destruct (Hm tape) as (a' & t1 & E' & Ha).
  rewrite E in E'. injection E' as -> _. exact Ha.
Qed.

Lemma succeeds_and {A} (m : M A) (P Q : A -> Prop) :
  succeeds m P -> returns m Q -> succeeds m (fun a => P a /\ Q a).
Proof.
  intros Hm Hr tape. destruct (Hm tape) as (a & t1 & E & Ha).
  exists a, t1. split; [exact E|]. split; [exact Ha|exact (Hr _ _ _ E)].
Qed.

Lemma succeeds_foldM {A B} (body : B -> A -> M A) (P : A -> Prop) (xs : list B) :
  (forall x a, x ∈ xs -> P a -> succeeds (body x a) P) ->
  forall a, P a -> succeeds (foldM body xs a) P.
Proof.
  induction xs as [|x xs IH]; intros Hbody a Ha; simpl.
  - apply succeeds_ret. exact Ha.
  - apply succeeds_bind with (P := P).
    + apply Hbody; [left|exact Ha].
    + apply IH. intros y b Hy. apply Hbody. right. exact Hy.
Qed.

(** **** np.random *)

Lemma draw_succeeds : succeeds draw (fun _ => True).
Proof. intros [|r tape]; simpl; eauto. Qed.

Lemma np_random_random_succeeds : succeeds np_random_random (fun _ => True).
Proof.
  unfold np_random_random.
  apply succeeds_bind with (P := fun _ => True); [apply draw_succeeds|].
  intros r _. apply succeeds_ret. exact I.
Qed.

Lemma np_random_randint_succeeds (low high : Z) :
  (low < high)%Z ->
  succeeds (np_random_randint low high) (fun v => (low <= v < high)%Z).
Proof.
  intros H. unfold np_random_randint.
  assert (E : (low <? high)%Z = true) by (apply Z.ltb_lt; exact H).
  rewrite E.
  apply succeeds_bind with (P := fun _ => True); [apply draw_succeeds|].
  intros r _. apply succeeds_ret.
  pose proof (Z.mod_pos_bound r (high - low)). lia.
Qed.

Lemma np_random_array_succeeds op scale (h w : nat) :
  succeeds (np_random_array op scale [h; w; 3%nat]) (color_frame h w).
Proof.
  unfold np_random_array.
  apply succeeds_bind with (P := fun _ => True); [apply draw_succeeds|].
  intros r _. apply succeeds_ret. reflexivity.
Qed.

Lemma choose_succeeds (k : nat) : forall pool : list Z,
  (k <= length pool)%nat ->
  succeeds (choose k pool) (fun xs => forall x, x ∈ xs -> x ∈ pool).
Proof.
  induction k as [|k IH]; intros pool Hk; simpl.
  - apply succeeds_ret. intros x Hx. inversion Hx.
  - destruct pool as [|p0 pool]; [simpl in Hk; lia|].
    apply succeeds_bind with (P := fun _ => True); [apply draw_succeeds|].
    intros r _. cbv zeta.
    set (i := Z.to_nat (r mod Z.of_nat (length (p0 :: pool)))).
    assert (Hi : (i < length (p0 :: pool))%nat).
    { subst i. pose proof (Z.mod_pos_bound r (Z.of_nat (length (p0 :: pool)))).
      simpl length in *. lia. }
    apply succeeds_bind
      with (P := fun xs => forall x, x ∈ xs -> x ∈ delete i (p0 :: pool)).
    + apply IH. rewrite length_delete by (apply lookup_lt_is_Some; exact Hi).
      simpl length in *. lia.
    + intros rest Hrest. apply succeeds_ret. intros x Hx.
      apply elem_of_cons in Hx as [->|Hx].
      * eapply list_elem_of_lookup_2. apply lookup_nth_lt. exact Hi.
      * specialize (Hrest x Hx).
        eapply elem_of_sublist; [exact Hrest|apply sublist_delete].
Qed.

(** **** Array primitives *)

Lemma broadcastable_rev_refl (s : list nat) : broadcastable_rev s s = true.
Proof.
  induction s as [|a s IH]; [reflexivity|]. simpl.
  rewrite Nat.eqb_refl, IH. reflexivity.
Qed.

Lemma broadcastable_refl (s : list nat) : broadcastable s s = true.
Proof. apply broadcastable_rev_refl. Qed.

Lemma slice_len_inside (n : nat) (a b : Z) :
  (0 <= a)%Z -> (a <= b)%Z -> (b <= Z.of_nat n)%Z ->
  slice_len n (a, b) = Z.to_nat (b - a).
Proof.
  intros Ha Hab Hb. unfold slice_len, slice_bound. simpl.
  destruct (Z.ltb_spec b 0); destruct (Z.ltb_spec a 0); lia.
Qed.

Lemma shape_hw_succeeds {h w} (a : ndarray) :
  color_frame h w a ->
  succeeds (shape_hw a) (fun hw => hw = (Z.of_nat h, Z.of_nat w)).
Proof.
  intros Hs tape. unfold shape_hw. rewrite Hs. eexists _, _. split; reflexivity.
Qed.

Lemma getitem_succeeds (a : ndarray) ys xs h w rest :
  shape a = h :: w :: rest ->
  succeeds (getitem a ys xs)
           (fun b => shape b = slice_len h ys :: slice_len w xs :: rest).
Proof.
  intros Hs tape. unfold getitem. rewrite Hs. eexists _, _. split; reflexivity.
Qed.

Lemma setitem_succeeds (a v : ndarray) ys xs h w rest :
  shape a = h :: w :: rest ->
  shape v = slice_len h ys :: slice_len w xs :: rest ->
  succeeds (setitem a ys xs v) (fun b => shape b = shape a).
Proof.
  intros Hs Hv tape. unfold setitem. rewrite Hs, Hv, broadcastable_refl.
  eexists _, _. split; reflexivity.
Qed.

Lemma get_channel_succeeds (a : ndarray) c h w cn :
  shape a = [h; w; cn] -> (c < cn)%nat ->
  succeeds (get_channel a c) (fun b => shape b = [h; w]).
Proof.
  intros Hs Hc tape. unfold get_channel. rewrite Hs.
  apply Nat.ltb_lt in Hc. rewrite Hc. eexists _, _. split; reflexivity.
Qed.

Lemma set_channel_succeeds (a v : ndarray) c h w cn :
  shape a = [h; w; cn] -> (c < cn)%nat -> shape v = [h; w] ->
  succeeds (set_channel a c v) (fun b => shape b = shape a).
Proof.
  intros Hs Hc Hv tape. unfold set_channel. rewrite Hs, Hv.
  apply Nat.ltb_lt in Hc. rewrite Hc, broadcastable_refl.
  eexists _, _. split; reflexivity.
Qed.

Lemma index_in_range (n : nat) (x : Z) :
  (0 <= x < Z.of_nat n)%Z ->
  ((- Z.of_nat n <=? x) && (x <? Z.of_nat n))%Z = true.
Proof.
  intros H. apply andb_true_iff. split; [apply Z.leb_le|apply Z.ltb_lt]; lia.
Qed.

Lemma get_column_succeeds (a : ndarray) ys x h w rest :
  shape a = h :: w :: rest -> (0 <= x < Z.of_nat w)%Z ->
  succeeds (get_column a ys x) (fun b => shape b = slice_len h ys :: rest).
Proof.
  intros Hs Hx tape. unfold get_column. rewrite Hs, (index_in_range w x Hx).
  eexists _, _. split; reflexivity.
Qed.

Lemma set_column_succeeds (a v : ndarray) ys x h w rest :
  shape a = h :: w :: rest -> (0 <= x < Z.of_nat w)%Z ->
  shape v = slice_len h ys :: rest ->
  succeeds (set_column a ys x v) (fun b => shape b = shape a).
Proof.
  intros Hs Hx Hv tape. unfold set_column.
  rewrite Hs, (index_in_range w x Hx), Hv, broadcastable_refl.
  eexists _, _. split; reflexivity.
Qed.

Lemma get_row_succeeds (a : ndarray) y xs h w rest :
  shape a = h :: w :: rest -> (0 <= y < Z.of_nat h)%Z ->
  succeeds (get_row a y xs) (fun b => shape b = slice_len w xs :: rest).
Proof.
  intros Hs Hy tape. unfold get_row. rewrite Hs, (index_in_range h y Hy).
  eexists _, _. split; reflexivity.
Qed.

Lemma set_row_succeeds (a v : ndarray) y xs h w rest :
  shape a = h :: w :: rest -> (0 <= y < Z.of_nat h)%Z ->
  shape v = slice_len w xs :: rest ->
  succeeds (set_row a y xs v) (fun b => shape b = shape a).
Proof.
  intros Hs Hy Hv tape. unfold set_row.
  rewrite Hs, (index_in_range h y Hy), Hv, broadcastable_refl.
  eexists _, _. split; reflexivity.
Qed.

Lemma get_field_succeeds (a : ndarray) c n cn :
  shape a = [n; cn] -> (c < cn)%nat ->
  succeeds (get_field a c) (fun b => shape b = [n]).
Proof.
  intros Hs Hc tape. unfold get_field. rewrite Hs.
  apply Nat.ltb_lt in Hc. rewrite Hc. eexists _, _. split; reflexivity.
Qed.

Lemma take_along_succeeds (a idx : ndarray) n m rest :
  shape a = n :: rest -> shape idx = [m] ->
  succeeds (take_along a idx) (fun b => shape b = m :: rest).
Proof.
  intros Hs Hi tape. unfold take_along. rewrite Hs, Hi.
  eexists _, _. split; reflexivity.
Qed.

Lemma broadcast_op2_succeeds op params (a b : ndarray) :
  shape b = shape a ->
  succeeds (broadcast_op op params [a; b]) (fun r => shape r = shape a).
Proof.
  intros Hb tape. unfold broadcast_op.
  cbn [map broadcast_all_rev]. rewrite Hb.
  cbn [mbind option_bind]. rewrite broadcast_rev_nil_r. cbn [mbind option_bind].
  rewrite broadcast_rev_same.
  eexists _, _. split; [reflexivity|]. simpl. apply rev_involutive.
Qed.

Lemma broadcast_op3_succeeds op params (a b c : ndarray) :
  shape b = shape a -> shape c = shape a ->
  succeeds (broadcast_op op params [a; b; c]) (fun r => shape r = shape a).
Proof.
  intros Hb Hc tape. unfold broadcast_op.
  cbn [map broadcast_all_rev]. rewrite Hb, Hc.
  cbn [mbind option_bind]. rewrite broadcast_rev_nil_r. cbn [mbind option_bind].
  rewrite broadcast_rev_same. cbn [mbind option_bind].
  rewrite broadcast_rev_same.
  eexists _, _. split; [reflexivity|]. simpl. apply rev_involutive.
Qed.

(** **** OpenCV *)

Lemma cv_input_succeeds (a : ndarray) rows cols cn :
  cv_mat a = Some (rows, cols, cn) ->
  (0 < rows)%nat -> (0 < cols)%nat -> (0 < cn)%nat ->
  succeeds (cv_input a) (fun m => m = (rows, cols, cn)).
Proof.
  intros Hm Hr Hc Hn tape. unfold cv_input. rewrite Hm.
  apply Nat.ltb_lt in Hr, Hc, Hn. rewrite Hr, Hc, Hn.
  eexists _, _. split; reflexivity.
Qed.

Lemma cv_sized_succeeds op params (src : ndarray) rows cols cn (h w : nat) :
  cv_mat src = Some (rows, cols, cn) ->
  (0 < rows)%nat -> (0 < cols)%nat -> (0 < cn)%nat ->
  (0 < h)%nat -> (0 < w)%nat ->
  succeeds (cv_sized op params src (Z.of_nat w, Z.of_nat h))
           (fun b => shape b = cv_shape h w cn).
Proof.
  intros Hm Hr Hc Hn Hh Hw. unfold cv_sized.
  eapply succeeds_bind; [apply (cv_input_succeeds src rows cols cn); assumption|].
  intros m ->.
  assert (E : ((0 <? Z.of_nat w) && (0 <? Z.of_nat h))%Z = true).
  { apply andb_true_iff. split; apply Z.ltb_lt; lia. }
  rewrite E. apply succeeds_ret. simpl. rewrite !Nat2Z.id. reflexivity.
Qed.

Lemma cv_sized_color_succeeds op params (src : ndarray) (h0 w0 h w : nat) :
  color_frame h0 w0 src -> (0 < h0)%nat -> (0 < w0)%nat ->
  (0 < h)%nat -> (0 < w)%nat ->
  succeeds (cv_sized op params src (Z.of_nat w, Z.of_nat h)) (color_frame h w).
Proof.
  intros Hs H1 H2 H3 H4.
  apply (cv_sized_succeeds op params src h0 w0 3%nat h w);
    [apply cv_mat_color; exact Hs|..]; lia.
Qed.

Lemma cv_sized_plane_succeeds op params (src : ndarray) (h0 w0 h w : nat) :
  shape src = [h0; w0] -> (0 < h0)%nat -> (0 < w0)%nat ->
  (0 < h)%nat -> (0 < w)%nat ->
  succeeds (cv_sized op params src (Z.of_nat w, Z.of_nat h))
           (fun b => shape b = [h; w]).
Proof.
  intros Hs H1 H2 H3 H4.
  apply (cv_sized_succeeds op params src h0 w0 1%nat h w);
    [unfold cv_mat; rewrite Hs; reflexivity|..]; lia.
Qed.

Lemma cv_same_succeeds op params (src : ndarray) (h w : nat) :
  color_frame h w src -> (0 < h)%nat -> (0 < w)%nat ->
  succeeds (cv_same op params src) (color_frame h w).
Proof.
  intros Hs Hh Hw. unfold cv_same.
  eapply succeeds_bind;
    [apply (cv_input_succeeds src h w 3%nat); [apply cv_mat_color| | |]; auto; lia|].
  intros m ->. apply succeeds_ret. reflexivity.
Qed.

Lemma cv2_cvtColor_hsv_succeeds (src : ndarray) (h w : nat) (code : color_code) :
  color_frame h w src -> (0 < h)%nat -> (0 < w)%nat ->
  code = BGR2HSV \/ code = HSV2BGR ->
  succeeds (cv2_cvtColor src code) (color_frame h w).
Proof.
  intros Hs Hh Hw Hcode. unfold cv2_cvtColor.
  eapply succeeds_bind;
    [apply (cv_input_succeeds src h w 3%nat); [apply cv_mat_color| | |]; auto; lia|].
  intros m ->.
  destruct Hcode as [-> | ->]; apply succeeds_ret; reflexivity.
Qed.

Lemma cv2_bgr2gray_succeeds (src : ndarray) (h w : nat) :
  color_frame h w src -> (0 < h)%nat -> (0 < w)%nat ->
  succeeds (cv2_cvtColor src BGR2GRAY) (fun b => shape b = [h; w]).
Proof.
  intros Hs Hh Hw. unfold cv2_cvtColor.
  eapply succeeds_bind;
    [apply (cv_input_succeeds src h w 3%nat); [apply cv_mat_color| | |]; auto; lia|].
  intros m ->. apply succeeds_ret. reflexivity.
Qed.

Lemma cv2_gray2bgr_succeeds (src : ndarray) (h w : nat) :
  shape src = [h; w] -> (0 < h)%nat -> (0 < w)%nat ->
  succeeds (cv2_cvtColor src GRAY2BGR) (color_frame h w).
Proof.
  intros Hs Hh Hw. unfold cv2_cvtColor.
  eapply succeeds_bind;
    [apply (cv_input_succeeds src h w 1%nat); [unfold cv_mat; rewrite Hs| | |];
     auto; lia|].
  intros m ->. apply succeeds_ret. reflexivity.
Qed.

Lemma cv2_Canny_succeeds (gray : ndarray) (h w : nat) :
  shape gray = [h; w] -> (0 < h)%nat -> (0 < w)%nat ->
  succeeds (cv2_Canny gray) (fun b => shape b = [h; w]).
Proof.
  intros Hs Hh Hw. unfold cv2_Canny.
  eapply succeeds_bind;
    [apply (cv_input_succeeds gray h w 1%nat); [unfold cv_mat; rewrite Hs| | |];
     auto; lia|].
  intros m ->. apply succeeds_ret. reflexivity.
Qed.

Lemma cv2_split3_succeeds (src : ndarray) h w :
  color_frame h w src ->
  succeeds (cv2_split3 src)
           (fun bgr => shape bgr.1.1 = [h; w] /\ shape bgr.1.2 = [h; w] /\
                       shape bgr.2 = [h; w]).
Proof.
  intros Hs tape. unfold cv2_split3. rewrite (cv_mat_color _ _ _ Hs). simpl.
  eexists _, _. split; [reflexivity|]. simpl. auto.
Qed.

Lemma cv2_merge3_succeeds (c0 c1 c2 : ndarray) h w :
  shape c0 = [h; w] -> shape c1 = [h; w] -> shape c2 = [h; w] ->
  (0 < h)%nat -> (0 < w)%nat ->
  succeeds (cv2_merge3 c0 c1 c2) (color_frame h w).
Proof.
  intros H0 H1 H2 Hh Hw. unfold cv2_merge3.
  eapply succeeds_bind;
    [apply (cv_input_succeeds c0 h w 1%nat); [unfold cv_mat; rewrite H0| | |];
     auto; lia|].
  intros m ->.
  assert (E1 : cv_mat c1 = Some (h, w, 1%nat)) by (unfold cv_mat; rewrite H1; reflexivity).
  assert (E2 : cv_mat c2 = Some (h, w, 1%nat)) by (unfold cv_mat; rewrite H2; reflexivity).
  rewrite !bool_decide_eq_true_2 by assumption. simpl.
  apply succeeds_ret. reflexivity.
Qed.

Lemma cv2_addWeighted_succeeds (a b : ndarray) alpha beta h w :
  color_frame h w a -> color_frame h w b -> (0 < h)%nat -> (0 < w)%nat ->
  succeeds (cv2_addWeighted a alpha b beta) (color_frame h w).
Proof.
  intros Ha Hb Hh Hw. unfold cv2_addWeighted.
  eapply succeeds_bind;
    [apply (cv_input_succeeds a h w 3%nat); [apply cv_mat_color| | |]; auto; lia|].
  intros m ->.
  rewrite bool_decide_eq_true_2 by (apply cv_mat_color; exact Hb).
  apply succeeds_ret. reflexivity.
Qed.

Lemma cv2_remap_succeeds (src : ndarray) params (h w : nat) :
  color_frame h w src -> (0 < h)%nat -> (0 < w)%nat ->
  succeeds (cv2_remap src params (Z.of_nat h) (Z.of_nat w)) (color_frame h w).
Proof.
  intros Hs Hh Hw. unfold cv2_remap.
  eapply succeeds_bind;
    [apply (cv_input_succeeds src h w 3%nat); [apply cv_mat_color| | |]; auto; lia|].
  intros m ->.
  assert (E : ((0 <? Z.of_nat w) && (0 <? Z.of_nat h))%Z = true).
  { apply andb_true_iff. split; apply Z.ltb_lt; lia. }
  rewrite E. apply succeeds_ret. unfold color_frame. simpl.
  rewrite !Nat2Z.id. reflexivity.
Qed.

(** **** Basic effects *)

Lemma py_int_nonneg (x : Q) : 0 <= x -> (0 <= py_int x)%Z.
Proof.
  intros H. rewrite py_int_floor by exact H.
  change 0%Z with (Qfloor 0). apply Qfloor_resp_le. exact H.
Qed.

Lemma py_int_le (x : Q) (n : Z) : 0 <= x -> x <= inject_Z n -> (py_int x <= n)%Z.
Proof.
  intros H0 H. rewrite py_int_floor by exact H0.
  rewrite <- (Qfloor_Z n). apply Qfloor_resp_le. exact H.
Qed.

Lemma py_int_ge (x : Q) (n : Z) : inject_Z n <= x -> (0 <= n)%Z -> (n <= py_int x)%Z.
Proof.
  intros H Hn.
  assert (H0 : 0 <= x).
  { eapply Qle_trans; [|exact H]. change 0 with (inject_Z 0). rewrite <- Zle_Qle. exact Hn. }
  rewrite py_int_floor by exact H0.
  rewrite <- (Qfloor_Z n). apply Qfloor_resp_le. exact H.
Qed.

(** The centre crop of [zoom_frame] never exceeds the frame. *)
Lemma crop_size_bounds (n : nat) (zoom_factor : Q) :
  Qle_bool zoom_factor 1 = false ->
  (0 <= py_int (Zq (Z.of_nat n) / zoom_factor) <= Z.of_nat n)%Z.
Proof.
  intros Hz.
  assert (Hlt : 1 < zoom_factor).
  { apply Qnot_le_lt. intros H. apply Qle_bool_iff in H. congruence. }
  assert (Hn : 0 <= Zq (Z.of_nat n)).
  { unfold Zq. change 0 with (inject_Z 0). rewrite <- Zle_Qle. lia. }
  assert (H0 : 0 <= Zq (Z.of_nat n) / zoom_factor).
  { apply Qle_shift_div_l; [lra|]. lra. }
  assert (H1 : Zq (Z.of_nat n) / zoom_factor <= Zq (Z.of_nat n)).
  { apply Qle_shift_div_r; [lra|].
    assert (0 <= Zq (Z.of_nat n) * (zoom_factor - 1))
      by (apply Qmult_le_0_compat; lra).
    lra. }
  split; [apply py_int_nonneg; exact H0|apply py_int_le; assumption].
Qed.

Lemma centred_slice_len (n : nat) (crop : Z) :
  (0 <= crop <= Z.of_nat n)%Z ->
  slice_len n ((Z.of_nat n - crop) / 2, (Z.of_nat n - crop) / 2 + crop)%Z
  = Z.to_nat crop.
Proof.
  intros H.
  assert (0 <= (Z.of_nat n - crop) / 2)%Z by (apply Z.div_pos; lia).
  assert ((Z.of_nat n - crop) / 2 <= Z.of_nat n - crop)%Z
    by (apply Z.div_le_upper_bound; lia).
  rewrite slice_len_inside by lia. f_equal. lia.
Qed.

(** [zoom_frame] returns as soon as the centre crop is not empty. *)
Theorem zoom_frame_succeeds (frame : ndarray) (zoom_factor : Q) (h w : nat) :
  color_frame h w frame -> (0 < h)%nat -> (0 < w)%nat ->
  (1 < zoom_factor ->
   (1 <= py_int (Zq (Z.of_nat h) / zoom_factor))%Z /\
   (1 <= py_int (Zq (Z.of_nat w) / zoom_factor))%Z) ->
  succeeds (zoom_frame frame zoom_factor) (color_frame h w).
Proof.
  intros Hf Hh Hw Hcrop. unfold zoom_frame.
  destruct (Qle_bool zoom_factor 1) eqn:Hz; [apply succeeds_ret; exact Hf|].
  destruct Hcrop as [Hch Hcw].
  { apply Qnot_le_lt. intros H. apply Qle_bool_iff in H. congruence. }
  pose proof (crop_size_bounds h zoom_factor Hz) as Bh.
  pose proof (crop_size_bounds w zoom_factor Hz) as Bw.
  eapply succeeds_bind; [apply (shape_hw_succeeds frame Hf)|]. intros hw ->.
  cbv zeta.
  eapply succeeds_bind; [apply (getitem_succeeds frame _ _ h w [3%nat] Hf)|].
  intros cropped Hc. rewrite !centred_slice_len in Hc by lia.
  eapply succeeds_bind;
    [apply (cv_sized_color_succeeds "cv2.resize" [] cropped _ _ h w Hc); lia|].
  intros zoomed Hzm. apply succeeds_ret. exact Hzm.
Qed.

(** [zoom_frame] raises when the centre crop is empty. *)
Theorem zoom_frame_raises (frame : ndarray) (zoom_factor : Q) (h w : nat) :
  color_frame h w frame ->
  1 < zoom_factor ->
  (py_int (Zq (Z.of_nat h) / zoom_factor) = 0)%Z \/
  (py_int (Zq (Z.of_nat w) / zoom_factor) = 0)%Z ->
  forall tape, zoom_frame frame zoom_factor tape = Raise CvError.
Proof.
  intros Hf Hlt Hempty tape. unfold zoom_frame.
  assert (Hz : Qle_bool zoom_factor 1 = false).
  { apply not_true_is_false. intros H. apply Qle_bool_iff in H. lra. }
  rewrite Hz.
  pose proof (crop_size_bounds h zoom_factor Hz) as Bh.
  pose proof (crop_size_bounds w zoom_factor Hz) as Bw.
  unfold bind, shape_hw, getitem. rewrite Hf. simpl.
  rewrite !centred_slice_len by lia.
  unfold cv2_resize, cv_sized, bind, cv_input, cv_mat. simpl.
  destruct Hempty as [-> | ->]; simpl.
  - reflexivity.
  - rewrite andb_false_r. reflexivity.
Qed.

Theorem rotate_frame_succeeds (frame : ndarray) (angle_degrees : Q) (h w : nat) :
  color_frame h w frame -> (0 < h)%nat -> (0 < w)%nat ->
  succeeds (rotate_frame frame angle_degrees) (color_frame h w).
Proof.
  intros Hf Hh Hw. unfold rotate_frame.
  destruct (Qltb _ _); [apply succeeds_ret; exact Hf|].
  eapply succeeds_bind; [apply (shape_hw_succeeds frame Hf)|]. intros hw ->.
  cbv zeta.
  eapply succeeds_bind;
    [apply (cv_sized_color_succeeds "cv2.warpAffine" _ frame h w h w Hf); lia|].
  intros r Hr. apply succeeds_ret. exact Hr.
Qed.

Lemma update_channel_succeeds {h w} (hsv : ndarray) (c : nat) (flag : bool)
    (f : ndarray -> ndarray) :
  color_frame h w hsv -> (c < 3)%nat ->
  (forall ch, shape (f ch) = shape ch) ->
  succeeds (if flag then bind (get_channel hsv c) (fun ch => set_channel hsv c (f ch))
            else ret hsv)
           (color_frame h w).
Proof.
  intros Hf Hc Hshape. destruct flag; [|apply succeeds_ret; exact Hf].
  eapply succeeds_bind; [apply (get_channel_succeeds hsv c h w 3%nat Hf Hc)|].
  intros ch Hch.
  eapply succeeds_weaken.
  - apply (set_channel_succeeds hsv (f ch) c h w 3%nat Hf Hc).
    rewrite Hshape. exact Hch.
  - intros b Hb. unfold color_frame in *. congruence.
Qed.

Theorem apply_color_grade_succeeds (frame : ndarray) (hue sat bri : Q) (h w : nat) :
  color_frame h w frame -> (0 < h)%nat -> (0 < w)%nat ->
  succeeds (apply_color_grade frame hue sat bri) (color_frame h w).
Proof.
  intros Hf Hh Hw. unfold apply_color_grade.
  destruct (_ && _); [apply succeeds_ret; exact Hf|].
  eapply succeeds_bind;
    [apply (cv2_cvtColor_hsv_succeeds frame h w BGR2HSV Hf Hh Hw); auto|].
  intros hsv0 H0.
  eapply succeeds_bind.
  { apply (@update_channel_succeeds h w (elementwise "astype.float32" [] hsv0) 0
             (negb (Qeq_bool hue 0)) (elementwise "hue" [hue; 180]));
      [exact H0|lia|reflexivity]. }
  intros hsv1 H1.
  eapply succeeds_bind.
  { apply (@update_channel_succeeds h w hsv1 1 (negb (Qeq_bool sat 1))
             (elementwise "scale_clip" [sat; 0; 255])); [exact H1|lia|reflexivity]. }
  intros hsv2 H2.
  eapply succeeds_bind.
  { apply (@update_channel_succeeds h w hsv2 2 (negb (Qeq_bool bri 1))
             (elementwise "scale_clip" [bri; 0; 255])); [exact H2|lia|reflexivity]. }
  intros hsv3 H3.
  eapply succeeds_bind;
    [apply (cv2_cvtColor_hsv_succeeds (elementwise "astype.uint8" [] hsv3) h w HSV2BGR
              H3 Hh Hw); auto|].
  intros g Hg. apply succeeds_ret. exact Hg.
Qed.

Theorem apply_motion_blur_succeeds (frame : ndarray) (intensity : Q) (h w : nat) :
  color_frame h w frame -> (0 < h)%nat -> (0 < w)%nat ->
  succeeds (apply_motion_blur frame intensity) (color_frame h w).
Proof.
  intros Hf Hh Hw. unfold apply_motion_blur.
  destruct (Qle_bool intensity 0); [apply succeeds_ret; exact Hf|]. cbv zeta.
  destruct (_ <=? 1)%Z; [apply succeeds_ret; exact Hf|].
  eapply succeeds_bind; [apply (cv_same_succeeds _ _ frame h w Hf Hh Hw)|].
  intros b Hb. apply succeeds_ret. exact Hb.
Qed.

(** **** Helpers for the loops *)

Lemma succeeds_kept {h w} (a : ndarray) {m : M ndarray} :
  color_frame h w a ->
  succeeds m (fun b => shape b = shape a) ->
  succeeds m (color_frame h w).
Proof.
  intros Ha Hm. eapply succeeds_weaken; [exact Hm|].
  intros b Hb. unfold color_frame in *. congruence.
Qed.

Lemma succeeds_then {A B} (m : M A) (k : A -> M B) (Q : B -> Prop) :
  succeeds m (fun _ => True) -> (forall a, succeeds (k a) Q) ->
  succeeds (bind m k) Q.
Proof.
  intros Hm Hk. eapply succeeds_bind; [exact Hm|]. intros a _. apply Hk.
Qed.

Lemma np_random_array_shape op scale (shp : list nat) :
  succeeds (np_random_array op scale shp) (fun a => shape a = shp).
Proof.
  unfold np_random_array.
  apply succeeds_bind with (P := fun _ => True); [apply draw_succeeds|].
  intros r _. apply succeeds_ret. reflexivity.
Qed.

Lemma slice_len_block (n : nat) (a len : Z) :
  (0 <= a)%Z -> (0 <= len)%Z -> (a + len <= Z.of_nat n)%Z ->
  slice_len n (a, a + len)%Z = Z.to_nat len.
Proof.
  intros Ha Hl Hn. rewrite slice_len_inside by lia. f_equal. lia.
Qed.

Lemma slice_len_whole (n : nat) : slice_len n (whole (Z.of_nat n)) = n.
Proof. unfold whole. rewrite slice_len_inside by lia. lia. Qed.

Lemma elem_of_py_range (n x : Z) : x ∈ py_range n -> (0 <= x < n)%Z.
Proof.
  unfold py_range. intros H.
  apply list_elem_of_fmap in H as (i & -> & Hi).
  apply elem_of_seq in Hi. lia.
Qed.

Lemma length_py_range (n : Z) : length (py_range n) = Z.to_nat n.
Proof. unfold py_range. rewrite length_map, length_seq. reflexivity. Qed.

Lemma np_random_choice_succeeds (n k : Z) :
  (k <= n)%Z ->
  succeeds (np_random_choice n k) (fun xs => forall x, x ∈ xs -> (0 <= x < n)%Z).
Proof.
  intros Hk. unfold np_random_choice.
  eapply succeeds_weaken.
  - apply choose_succeeds. rewrite length_py_range. lia.
  - intros xs Hxs x Hx. apply elem_of_py_range. apply Hxs. exact Hx.
Qed.

Lemma positive_intensity (intensity : Q) :
  Qle_bool intensity 0 = false -> 0 < intensity.
Proof.
  intros H. apply Qnot_le_lt. intros Hle. apply Qle_bool_iff in Hle. congruence.
Qed.

Tactic Notation "sbind" uconstr(lem) "as" ident(x) ident(H) :=
  eapply succeeds_bind; [eapply lem; eauto; try lia|cbv beta; intros x H].

Ltac sret := apply succeeds_ret; try assumption.

(** **** Corruption effects *)

Theorem apply_glitch_effect_succeeds (frame : ndarray) (intensity : Q) (h w : nat) :
  color_frame h w frame -> (0 < h)%nat -> (0 < w)%nat ->
  succeeds (apply_glitch_effect frame intensity) (color_frame h w).
Proof.
  intros Hf Hh Hw. unfold apply_glitch_effect.
  destruct (Qle_bool intensity 0) eqn:Hi; [sret|].
  apply positive_intensity in Hi.
  eapply succeeds_bind; [apply (shape_hw_succeeds frame Hf)|]. intros hw ->.
  cbv zeta. unfold copy.
  apply succeeds_bind with (P := color_frame h w).
  { destruct (Qltb (3 # 10) intensity) eqn:H3; [|sret].
    assert (Hs : (0 <= py_int (intensity * 20))%Z)
      by (apply py_int_nonneg; apply Qmult_le_0_compat; lra).
    sbind (get_channel_succeeds frame 2 h w 3%nat) as red Hred.
    sbind (np_random_randint_succeeds (- py_int (intensity * 20))
             (py_int (intensity * 20) + 1)) as shift_x Hshift.
    destruct (negb _); [|sret].
    sbind (cv_sized_plane_succeeds "cv2.warpAffine" _ red h w h w) as shifted Hsh.
    apply (succeeds_kept frame Hf).
    eapply (set_channel_succeeds frame shifted 2 h w 3%nat); auto. }
  intros g1 H1.
  apply succeeds_bind with (P := color_frame h w).
  { destruct (Qltb (5 # 10) intensity) eqn:H5; [|sret].
    apply Qltb_lt in H5.
    assert (Hs : (10 <= py_int (intensity * 20))%Z)
      by (apply py_int_ge; [change (inject_Z 10) with 10; lra|lia]).
    apply succeeds_foldM; [|exact H1]. intros _ g _ Hg.
    sbind (np_random_randint_succeeds 0 (Z.of_nat h)) as sy Hsy.
    sbind (np_random_randint_succeeds 1 (py_int (intensity * 20) + 1)) as sh Hsh.
    sbind (np_random_randint_succeeds 0 (Z.max 1 (Z.of_nat w - 50))) as sx Hsx.
    sbind (np_random_randint_succeeds 10 50) as sw Hsw.
    sbind np_random_random_succeeds as coin Hcoin.
    destruct (Qltb _ _).
    - sbind (np_random_randint_succeeds (-20) 21) as shift Hshift.
      destruct (_ && _) eqn:Hc; [|sret].
      apply andb_true_iff in Hc as [Hc1 Hc2].
      apply Z.leb_le in Hc1. apply Z.ltb_lt in Hc2.
      sbind (getitem_succeeds g _ _ h w [3%nat]) as src Hsrc.
      apply (succeeds_kept g Hg).
      eapply (setitem_succeeds g _ _ _ h w [3%nat]); [exact Hg|].
      rewrite Hsrc. f_equal. f_equal.
      rewrite !slice_len_block by lia. reflexivity.
    - sbind (getitem_succeeds g _ _ h w [3%nat]) as src Hsrc.
      apply (succeeds_kept g Hg).
      eapply (setitem_succeeds g _ _ _ h w [3%nat]); eauto. }
  intros g2 H2.
  apply succeeds_bind with (P := color_frame h w); [|intros; sret].
  destruct (Qltb (4 # 10) intensity); [|sret].
  sbind (cv2_split3_succeeds g2 h w) as bgr Hbgr.
  destruct bgr as [[b g] r]. simpl in Hbgr. destruct Hbgr as (Hb & Hg & Hr).
  sbind (cv_sized_plane_succeeds "cv2.warpAffine" _ g h w h w) as gs Hgs.
  sbind (cv_sized_plane_succeeds "cv2.warpAffine" _ b h w h w) as bs Hbs.
  eapply cv2_merge3_succeeds; eauto.
Qed.

Theorem apply_artifacts_effect_succeeds (frame : ndarray) (intensity : Q)
    (h w : nat) :
  color_frame h w frame -> (0 < h)%nat -> (0 < w)%nat ->
  succeeds (apply_artifacts_effect frame intensity) (color_frame h w).
Proof.
  intros Hf Hh Hw. unfold apply_artifacts_effect.
  destruct (Qle_bool intensity 0) eqn:Hi; [sret|].
  eapply succeeds_bind; [apply (shape_hw_succeeds frame Hf)|]. intros hw ->.
  cbv zeta. unfold copy.
  assert (H0 : color_frame h w (elementwise "astype.float32" [] frame)) by exact Hf.
  apply succeeds_bind with (P := color_frame h w).
  { destruct (Qltb (2 # 10) intensity); [|sret].
    apply succeeds_foldM; [|exact H0]. intros y a _ Ha.
    apply succeeds_foldM; [|exact Ha]. intros x a' _ Ha'.
    sbind np_random_random_succeeds as coin Hcoin.
    destruct (Qltb _ _); [|sret].
    sbind (getitem_succeeds a' _ _ h w [3%nat]) as block Hblock.
    apply (succeeds_kept a' Ha').
    eapply (setitem_succeeds a' _ _ _ h w [3%nat]); eauto. }
  intros a1 H1.
  apply succeeds_bind with (P := color_frame h w).
  { destruct (Qltb (15 # 100) intensity); [|sret].
    rewrite !Nat2Z.id.
    sbind (np_random_array_succeeds "np.random.normal") as noise Hnoise.
    eapply succeeds_bind with (P := color_frame h w); [|intros; sret].
    apply (succeeds_kept a1 H1). apply broadcast_op2_succeeds.
    unfold color_frame in *. congruence. }
  intros a2 H2.
  apply succeeds_bind with (P := color_frame h w).
  { destruct (Qltb (3 # 10) intensity); [|sret].
    apply succeeds_foldM; [|exact H2]. intros _ a _ Ha.
    sbind (np_random_randint_succeeds 0 (Z.max 1 (Z.of_nat h - 3))) as ly Hly.
    sbind (np_random_randint_succeeds 1 4) as lh Hlh.
    sbind np_random_random_succeeds as coin Hcoin.
    destruct (Qltb _ _); [sret|].
    sbind (getitem_succeeds a _ _ h w [3%nat]) as rows Hrows.
    apply (succeeds_kept a Ha).
    eapply (setitem_succeeds a _ _ _ h w [3%nat]); eauto. }
  intros a3 H3.
  apply succeeds_bind with (P := color_frame h w); [|intros; sret].
  set (a4 := elementwise "clip.astype.uint8" _ _).
  assert (H4 : color_frame h w a4).
  { subst a4. destruct (Qltb (4 # 10) intensity); exact H3. }
  clearbody a4.
  destruct (Qltb (7 # 10) intensity); [|sret].
  destruct (1 <? _)%Z eqn:Hp; [|sret].
  set (small_w := Z.max 1 _). set (small_h := Z.max 1 _).
  replace small_w with (Z.of_nat (Z.to_nat small_w)) by (subst small_w; lia).
  replace small_h with (Z.of_nat (Z.to_nat small_h)) by (subst small_h; lia).
  sbind (cv_sized_color_succeeds "cv2.resize" [] a4 h w
           (Z.to_nat small_h) (Z.to_nat small_w)) as small Hsmall.
  eapply (cv_sized_color_succeeds "cv2.resize" [] small); eauto; lia.
Qed.

Lemma shuffled_planes (order : Z) (b g r : ndarray) (s : list nat) :
  shape b = s -> shape g = s -> shape r = s ->
  let shuffled :=
    match (order mod 6)%Z with
    | 0%Z => (b, g, r) | 1%Z => (b, r, g) | 2%Z => (g, b, r)
    | 3%Z => (g, r, b) | 4%Z => (r, b, g) | _ => (r, g, b)
    end in
  shape shuffled.1.1 = s /\ shape shuffled.1.2 = s /\ shape shuffled.2 = s.
Proof.
  intros Hb Hg Hr.
  destruct (order mod 6)%Z as [|p|p]; simpl; auto;
    repeat (destruct p as [p|p|]; simpl; auto).
Qed.

Theorem apply_data_corruption_succeeds (frame : ndarray) (intensity : Q)
    (h w : nat) :
  color_frame h w frame -> (0 < h)%nat -> (0 < w)%nat ->
  (1 # 10 < intensity ->
   (corruption_block intensity <= Z.of_nat h)%Z /\
   (corruption_block intensity <= Z.of_nat w)%Z) ->
  succeeds (apply_data_corruption frame intensity) (color_frame h w).
Proof.
  intros Hf Hh Hw Hblock. unfold apply_data_corruption.
  destruct (Qle_bool intensity 0) eqn:Hi; [sret|].
  apply positive_intensity in Hi.
  eapply succeeds_bind; [apply (shape_hw_succeeds frame Hf)|]. intros hw ->.
  cbv zeta. unfold copy.
  apply succeeds_bind with (P := color_frame h w).
  { destruct (Qltb (1 # 10) intensity) eqn:H1; [|sret].
    apply Qltb_lt in H1. destruct (Hblock H1) as [Bh Bw].
    unfold corruption_block in Bh, Bw.
    assert (Hbs : (10 <= py_int (10 + intensity * 40))%Z).
    { apply py_int_ge; [change (inject_Z 10) with 10; lra|lia]. }
    set (bs := py_int (10 + intensity * 40)) in *.
    apply succeeds_foldM; [|exact Hf]. intros _ a _ Ha.
    sbind (np_random_randint_succeeds 0 (Z.max 1 (Z.of_nat w - bs))) as x Hx.
    sbind (np_random_randint_succeeds 0 (Z.max 1 (Z.of_nat h - bs))) as y Hy.
    sbind np_random_random_succeeds as kind Hkind.
    assert (Ly : slice_len h (y, y + bs)%Z = Z.to_nat bs)
      by (apply slice_len_block; lia).
    assert (Lx : slice_len w (x, x + bs)%Z = Z.to_nat bs)
      by (apply slice_len_block; lia).
    destruct (Qltb _ _).
    - sbind (np_random_array_shape "np.random.randint") as noise Hnoise.
      apply (succeeds_kept a Ha).
      eapply (setitem_succeeds a _ _ _ h w [3%nat]); [exact Ha|].
      rewrite Hnoise, Ly, Lx. reflexivity.
    - destruct (Qltb _ _).
      + sbind (np_random_randint_succeeds (- bs) bs) as shift_x Hsx.
        sbind (np_random_randint_succeeds (- bs) bs) as shift_y Hsy.
        sbind (getitem_succeeds a _ _ h w [3%nat]) as src Hsrc.
        apply (succeeds_kept a Ha).
        eapply (setitem_succeeds a _ _ _ h w [3%nat]); [exact Ha|].
        rewrite Hsrc, Ly, Lx. f_equal; [|f_equal].
        * apply slice_len_block; lia.
        * apply slice_len_block; lia.
      + sbind (getitem_succeeds a _ _ h w [3%nat]) as block Hb.
        rewrite Ly, Lx in Hb.
        sbind (cv2_split3_succeeds block (Z.to_nat bs) (Z.to_nat bs)) as bgr Hbgr.
        destruct bgr as [[b g] r]. simpl in Hbgr. destruct Hbgr as (Eb & Eg & Er).
        sbind draw_succeeds as order Horder.
        destruct (shuffled_planes order b g r _ Eb Eg Er) as (S1 & S2 & S3).
        sbind (cv2_merge3_succeeds _ _ _ (Z.to_nat bs) (Z.to_nat bs)) as merged Hm.
        apply (succeeds_kept a Ha).
        eapply (setitem_succeeds a _ _ _ h w [3%nat]); [exact Ha|].
        rewrite Hm, Ly, Lx. reflexivity. }
  intros a1 H1.
  apply succeeds_bind with (P := color_frame h w); [|intros; sret].
  destruct (Qltb (4 # 10) intensity); [|sret].
  apply succeeds_foldM; [|exact H1]. intros _ a _ Ha.
  assert (Hq : (Z.of_nat w / 4 < Z.of_nat w)%Z)
    by (apply Z.div_lt_upper_bound; lia).
  assert (Hq0 : (0 <= Z.of_nat w / 4)%Z) by (apply Z.div_pos; lia).
  sbind (np_random_randint_succeeds 0 (Z.of_nat h)) as ly Hly.
  sbind (np_random_randint_succeeds (Z.of_nat w / 4) (Z.of_nat w)) as lw Hlw.
  sbind (np_random_randint_succeeds 0 (Z.max 1 (Z.of_nat w - lw))) as lx Hlx.
  sbind (np_random_randint_succeeds (-50) 51) as shift Hshift.
  sbind (getitem_succeeds a _ _ h w [3%nat]) as src Hsrc.
  apply (succeeds_kept a Ha).
  eapply (setitem_succeeds a _ _ _ h w [3%nat]); [exact Ha|].
  rewrite Hsrc. f_equal. f_equal.
  rewrite !slice_len_block by lia. reflexivity.
Qed.

(** **** Artistic effects *)

Lemma sort_column_succeeds (strip strip_hsv sorted_frame : ndarray)
    (rows : Z * Z) (x : Z) (h w : nat) :
  color_frame h w sorted_frame ->
  color_frame (slice_len h rows) w strip ->
  color_frame (slice_len h rows) w strip_hsv ->
  (0 <= x < Z.of_nat w)%Z ->
  succeeds (sort_column strip strip_hsv rows x sorted_frame) (color_frame h w).
Proof.
  intros Hf Hs Hh Hx. unfold sort_column.
  rewrite Hs, Hh. cbn [hd].
  sbind (get_column_succeeds strip _ x (slice_len h rows) w [3%nat]) as col Hcol.
  sbind (get_column_succeeds strip_hsv _ x (slice_len h rows) w [3%nat]) as chsv Hchsv.
  rewrite slice_len_whole in Hcol, Hchsv.
  sbind (get_field_succeeds chsv 2 (slice_len h rows) 3%nat) as br Hbr.
  sbind (take_along_succeeds col (elementwise "np.argsort" [] br)
           (slice_len h rows) (slice_len h rows) [3%nat]) as sorted Hsorted.
  apply (succeeds_kept sorted_frame Hf).
  eapply (set_column_succeeds sorted_frame sorted rows x h w [3%nat]); eauto.
Qed.

Lemma sort_row_succeeds (strip strip_hsv sorted_frame : ndarray)
    (y : Z) (cols : Z * Z) (h w : nat) :
  color_frame h w sorted_frame ->
  color_frame h (slice_len w cols) strip ->
  color_frame h (slice_len w cols) strip_hsv ->
  (0 <= y < Z.of_nat h)%Z ->
  succeeds (sort_row strip strip_hsv y cols sorted_frame) (color_frame h w).
Proof.
  intros Hf Hs Hh Hy. unfold sort_row.
  rewrite Hs, Hh. cbn [nth].
  sbind (get_row_succeeds strip y _ h (slice_len w cols) [3%nat]) as row Hrow.
  sbind (get_row_succeeds strip_hsv y _ h (slice_len w cols) [3%nat]) as rhsv Hrhsv.
  rewrite slice_len_whole in Hrow, Hrhsv.
  sbind (get_field_succeeds rhsv 2 (slice_len w cols) 3%nat) as br Hbr.
  sbind (take_along_succeeds row (elementwise "np.argsort" [] br)
           (slice_len w cols) (slice_len w cols) [3%nat]) as sorted Hsorted.
  apply (succeeds_kept sorted_frame Hf).
  eapply (set_row_succeeds sorted_frame sorted y cols h w [3%nat]); eauto.
Qed.

Lemma indices_succeed (n k : Z) :
  succeeds (if (k <? n)%Z then np_random_choice n k else ret (py_range n))
           (fun xs => forall x, x ∈ xs -> (0 <= x < n)%Z).
Proof.
  destruct (k <? n)%Z eqn:Hk.
  - apply Z.ltb_lt in Hk. apply np_random_choice_succeeds. lia.
  - apply succeeds_ret. intros x. apply elem_of_py_range.
Qed.

Theorem apply_pixel_sorting_succeeds (frame : ndarray) (intensity : Q) (h w : nat) :
  color_frame h w frame -> (0 < h)%nat -> (0 < w)%nat ->
  succeeds (apply_pixel_sorting frame intensity) (color_frame h w).
Proof.
  intros Hf Hh Hw. unfold apply_pixel_sorting.
  destruct (Qle_bool intensity 0) eqn:Hi; [sret|].
  eapply succeeds_bind; [apply (shape_hw_succeeds frame Hf)|]. intros hw ->.
  cbv zeta. unfold copy.
  sbind (cv2_cvtColor_hsv_succeeds frame h w BGR2HSV) as hsv Hhsv.
  sbind np_random_random_succeeds as coin Hcoin.
  destruct (Qltb _ _).
  - apply succeeds_foldM; [|exact Hf]. intros i f _ Hfr.
    destruct (_ <? 2)%Z; [sret|].
    sbind (getitem_succeeds f _ _ h w [3%nat]) as strip Hstrip.
    sbind (getitem_succeeds hsv _ _ h w [3%nat]) as shsv Hshsv.
    rewrite slice_len_whole in Hstrip, Hshsv.
    sbind indices_succeed as cols Hcols.
    apply succeeds_foldM; [|exact Hfr]. intros x f' Hx Hf'.
    apply (sort_column_succeeds strip shsv f' _ x h w); auto.
  - apply succeeds_foldM; [|exact Hf]. intros i f _ Hfr.
    destruct (_ <? 2)%Z; [sret|].
    sbind (getitem_succeeds f _ _ h w [3%nat]) as strip Hstrip.
    sbind (getitem_succeeds hsv _ _ h w [3%nat]) as shsv Hshsv.
    rewrite slice_len_whole in Hstrip, Hshsv.
    sbind indices_succeed as rows Hrows.
    apply succeeds_foldM; [|exact Hfr]. intros y f' Hy Hf'.
    apply (sort_row_succeeds strip shsv f' y _ h w); auto.
Qed.

Theorem apply_kaleidoscope_succeeds (frame : ndarray) (intensity : Q) (h w : nat) :
  color_frame h w frame -> (0 < h)%nat -> (0 < w)%nat ->
  succeeds (apply_kaleidoscope frame intensity) (color_frame h w).
Proof.
  intros Hf Hh Hw. unfold apply_kaleidoscope.
  destruct (Qle_bool intensity 0) eqn:Hi; [sret|].
  eapply succeeds_bind; [apply (shape_hw_succeeds frame Hf)|]. intros hw ->.
  cbv zeta.
  assert (H0 : color_frame h w (elementwise "np.zeros_like" [] frame)) by exact Hf.
  apply succeeds_bind with (P := color_frame h w).
  { apply succeeds_foldM; [|exact H0]. intros i k _ Hk.
    sbind (cv_sized_color_succeeds "cv2.warpAffine" _ frame h w h w) as rotated Hrot.
    rewrite !Nat2Z.id.
    apply succeeds_foldM; [|exact Hk]. intros c k' Hc Hk'.
    assert (Hc3 : (c < 3)%nat).
    { repeat (apply elem_of_cons in Hc as [->|Hc]; [lia|]). inversion Hc. }
    sbind (get_channel_succeeds rotated c h w 3%nat) as rc Hrc.
    sbind (get_channel_succeeds k' c h w 3%nat) as kc Hkc.
    eapply succeeds_bind.
    { apply (broadcast_op3_succeeds "np.where" []
               {| shape := [h; w];
                  data := Prim "cv2.fillPoly"
                            [Zq (Z.of_nat w / 2); Zq (Z.of_nat h / 2); Zq (Z.of_nat w);
                             Zq i * (360 / Zq (py_int (2 + intensity * 6)));
                             360 / Zq (py_int (2 + intensity * 6))] [] |} rc kc);
        simpl; assumption. }
    intros chosen Hch. simpl in Hch.
    apply (succeeds_kept k' Hk').
    eapply (set_channel_succeeds k' chosen c h w 3%nat); eauto. }
  intros k Hk.
  sbind (cv2_addWeighted_succeeds _ _ _ _ h w) as result Hres.
  sret.
Qed.

Theorem apply_wave_distortion_succeeds (frame : ndarray) (intensity : Q) (h w : nat) :
  color_frame h w frame -> (0 < h)%nat -> (0 < w)%nat ->
  succeeds (apply_wave_distortion frame intensity) (color_frame h w).
Proof.
  intros Hf Hh Hw. unfold apply_wave_distortion.
  destruct (Qle_bool intensity 0) eqn:Hi; [sret|].
  eapply succeeds_bind; [apply (shape_hw_succeeds frame Hf)|]. intros hw ->.
  cbv zeta.
  sbind np_random_random_succeeds as px Hpx.
  sbind np_random_random_succeeds as py Hpy.
  sbind (cv2_remap_succeeds frame _ h w) as distorted Hd.
  sret.
Qed.

(** **** Stylization *)

Theorem apply_posterization_succeeds (frame : ndarray) (intensity : Q) (h w : nat) :
  color_frame h w frame ->
  succeeds (apply_posterization frame intensity) (color_frame h w).
Proof.
  intros Hf. unfold apply_posterization.
  destruct (Qle_bool intensity 0) eqn:Hi; [sret|]. cbv zeta. unfold copy.
  apply succeeds_foldM; [|exact Hf]. intros c a Hc Ha.
  assert (Hc3 : (c < 3)%nat).
  { repeat (apply elem_of_cons in Hc as [->|Hc]; [lia|]). inversion Hc. }
  sbind (get_channel_succeeds a c h w 3%nat) as ch Hch.
  apply (succeeds_kept a Ha).
  eapply (set_channel_succeeds a _ c h w 3%nat); eauto.
Qed.

Theorem apply_edge_detection_overlay_succeeds (frame : ndarray) (intensity : Q)
    (h w : nat) :
  color_frame h w frame -> (0 < h)%nat -> (0 < w)%nat ->
  succeeds (apply_edge_detection_overlay frame intensity) (color_frame h w).
Proof.
  intros Hf Hh Hw. unfold apply_edge_detection_overlay.
  destruct (Qle_bool intensity 0) eqn:Hi; [sret|].
  sbind (cv2_bgr2gray_succeeds frame h w) as gray Hgray.
  sbind (cv2_Canny_succeeds gray h w) as edges Hedges.
  sbind (cv2_gray2bgr_succeeds edges h w) as ebgr Hebgr.
  cbv zeta.
  sbind (cv2_addWeighted_succeeds _ _ _ _ h w) as result Hres.
  sret.
Qed.

(** **** Retro effects *)

Theorem apply_vhs_degradation_succeeds (frame : ndarray) (intensity : Q) (h w : nat) :
  color_frame h w frame -> (0 < h)%nat -> (0 < w)%nat ->
  succeeds (apply_vhs_degradation frame intensity) (color_frame h w).
Proof.
  intros Hf Hh Hw. unfold apply_vhs_degradation.
  destruct (Qle_bool intensity 0) eqn:Hi; [sret|].
  eapply succeeds_bind; [apply (shape_hw_succeeds frame Hf)|]. intros hw ->.
  cbv zeta. unfold copy.
  set (v0 := if Qltb (2 # 10) intensity then _ else _).
  assert (H0 : color_frame h w v0).
  { subst v0. destruct (Qltb (2 # 10) intensity); [|exact Hf].
    apply fold_left_shape; [|exact Hf]. intros a x Ha. exact Ha. }
  clearbody v0.
  apply succeeds_bind with (P := color_frame h w).
  { destruct (Qltb (3 # 10) intensity); [|sret].
    sbind (cv2_split3_succeeds v0 h w) as bgr Hbgr.
    destruct bgr as [[b g] r]. simpl in Hbgr. destruct Hbgr as (Hb & Hg & Hr).
    sbind (cv_sized_plane_succeeds "cv2.warpAffine" _ r h w h w) as rs Hrs.
    sbind (cv_sized_plane_succeeds "cv2.warpAffine" _ b h w h w) as bs Hbs.
    eapply cv2_merge3_succeeds; eauto. }
  intros v1 H1.
  apply succeeds_bind with (P := color_frame h w).
  { destruct (Qltb (4 # 10) intensity); [|sret].
    rewrite !Nat2Z.id.
    sbind (np_random_array_succeeds "np.random.normal") as noise Hnoise.
    apply (succeeds_kept v1 H1). apply broadcast_op2_succeeds.
    unfold color_frame in *. congruence. }
  intros v2 H2.
  apply succeeds_bind with (P := color_frame h w); [|intros; sret].
  destruct (Qltb (5 # 10) intensity); [|sret].
  sbind (cv2_cvtColor_hsv_succeeds (elementwise "astype.uint8" [] v2) h w BGR2HSV)
    as hsv Hhsv.
  sbind (get_channel_succeeds hsv 1 h w 3%nat) as sat Hsat.
  apply succeeds_bind with (P := color_frame h w).
  { apply (succeeds_kept hsv Hhsv).
    eapply (set_channel_succeeds hsv _ 1 h w 3%nat); eauto. }
  intros hsv' Hh'.
  sbind (cv2_cvtColor_hsv_succeeds hsv' h w HSV2BGR) as bgr Hbgr.
  sret.
Qed.

Theorem apply_scan_lines_crt_succeeds (frame : ndarray) (intensity : Q) (h w : nat) :
  color_frame h w frame -> (0 < h)%nat -> (0 < w)%nat ->
  succeeds (apply_scan_lines_crt frame intensity) (color_frame h w).
Proof.
  intros Hf Hh Hw. unfold apply_scan_lines_crt.
  destruct (Qle_bool intensity 0) eqn:Hi; [sret|].
  eapply succeeds_bind; [apply (shape_hw_succeeds frame Hf)|]. intros hw ->.
  cbv zeta. unfold copy.
  set (c0 := fold_left _ _ _).
  assert (H0 : color_frame h w c0).
  { subst c0. apply fold_left_shape; [|exact Hf]. intros a x Ha. exact Ha. }
  clearbody c0.
  apply succeeds_bind with (P := color_frame h w); [|intros; sret].
  destruct (Qltb (5 # 10) intensity); [|sret].
  sbind (cv2_remap_succeeds (elementwise "astype.uint8" [] c0) _ h w) as r Hr.
  sret.
Qed.

(** **** Blending and the whole pipeline *)

Theorem blend_layers_succeeds (base overlay : ndarray) (mode : string)
    (opacity : Q) (h w : nat) :
  color_frame h w base -> color_frame h w overlay ->
  succeeds (blend_layers base overlay mode opacity) (color_frame h w).
Proof.
  intros Hb Ho. unfold blend_layers.
  destruct (Qle_bool opacity 0); [sret|]. cbv zeta.
  apply succeeds_bind with (P := color_frame h w); [|intros; sret].
  apply (succeeds_kept (elementwise "astype.float32./255" [] base) Hb).
  apply broadcast_op2_succeeds. unfold color_frame in *. simpl. congruence.
Qed.

Lemma when_positive_succeeds (intensity : Q) (effect : ndarray -> Q -> M ndarray)
    (frame : ndarray) (h w : nat) :
  (0 < intensity -> succeeds (effect frame intensity) (color_frame h w)) ->
  color_frame h w frame ->
  succeeds (when_positive intensity effect frame) (color_frame h w).
Proof.
  intros He Hf. unfold when_positive.
  destruct (Qltb 0 intensity) eqn:Hi; [|sret].
  apply He. apply Qltb_lt. exact Hi.
Qed.

Theorem apply_effects_succeeds (frame : ndarray) (p : EffectParams)
    (effect_mode blend_mode : string) (layer_opacity : Q) (h w : nat) :
  color_frame h w frame -> (0 < h)%nat -> (0 < w)%nat ->
  crop_nonempty h w (zoom p) ->
  block_fits h w (data_corruption_intensity p) ->
  succeeds (apply_effects frame p effect_mode blend_mode layer_opacity)
           (color_frame h w).
Proof.
  intros Hf Hh Hw Hcrop Hblock. unfold apply_effects, apply_effects_with, copy.
  apply succeeds_bind with (P := fun o => forall a, o = Some a -> color_frame h w a).
  { destruct (bool_decide (effect_mode = "layer")).
    - sbind (zoom_frame_succeeds frame (zoom p) h w) as z Hz.
      sbind (rotate_frame_succeeds z (rotation p) h w) as r Hr.
      apply succeeds_ret. intros ? [= <-]. assumption.
    - apply succeeds_ret. discriminate. }
  intros original_transformed Ho.
  sbind (zoom_frame_succeeds frame (zoom p) h w) as f1 H1.
  sbind (rotate_frame_succeeds f1 (rotation p) h w) as f2 H2.
  sbind (apply_color_grade_succeeds f2 (hue_shift p) (saturation p) (brightness p) h w)
    as f3 H3.
  repeat (apply succeeds_bind with (P := color_frame h w);
          [apply when_positive_succeeds;
           [intros; first
              [ apply apply_pixel_sorting_succeeds | apply apply_kaleidoscope_succeeds
              | apply apply_wave_distortion_succeeds | apply apply_glitch_effect_succeeds
              | apply apply_data_corruption_succeeds | apply apply_artifacts_effect_succeeds
              | apply apply_posterization_succeeds
              | apply apply_edge_detection_overlay_succeeds
              | apply apply_vhs_degradation_succeeds | apply apply_scan_lines_crt_succeeds
              | apply apply_motion_blur_succeeds ]; assumption
           | eassumption]
          | cbv beta; intros]).
  destruct original_transformed as [o|]; [|apply succeeds_ret; assumption].
  destruct (bool_decide _); [|apply succeeds_ret; assumption].
  apply blend_layers_succeeds; [apply Ho; reflexivity|assumption].
Qed.

(** ** The pipeline as a whole *)

(** C7. With every parameter at its neutral value and
    [effect_mode = "direct"], [apply_effects] returns the very array it was
    given, whatever the frame, the blend arguments and the state of the
    random generator, and draws no random number. *)
Theorem apply_effects_neutral_identity (frame : ndarray) (blend_mode : string)
    (layer_opacity : Q) (tape : list Z) :
  apply_effects frame neutral_params "direct" blend_mode layer_opacity tape
  = Ok (frame, tape).
Proof. reflexivity. Qed.

(** C10. In direct mode the result of [apply_effects], on the same frame,
    parameters and random draws, does not depend on [blend_mode] or
    [layer_opacity]; and it does not depend on what [blend_layers] is: the
    pipeline run with any other function in its place, even one that always
    raises, gives the same result, so [blend_layers] is not called. *)
Theorem direct_mode_ignores_blending (frame : ndarray) (p : EffectParams)
    (blend_mode1 blend_mode2 : string) (layer_opacity1 layer_opacity2 : Q)
    (blend : ndarray -> ndarray -> string -> Q -> M ndarray) (tape : list Z) :
  apply_effects frame p "direct" blend_mode1 layer_opacity1 tape
  = apply_effects frame p "direct" blend_mode2 layer_opacity2 tape /\
  apply_effects_with blend frame p "direct" blend_mode1 layer_opacity1 tape
  = apply_effects frame p "direct" blend_mode1 layer_opacity1 tape /\
  apply_effects_with (fun _ _ _ _ => raise ValueError) frame p "direct"
    blend_mode1 layer_opacity1 tape
  = apply_effects frame p "direct" blend_mode1 layer_opacity1 tape.
Proof. split_and!; reflexivity. Qed.

(** In layer mode, by contrast, the blend arguments reach the result. *)
Example layer_mode_uses_blending :
  apply_effects (input_frame 0 4 6) neutral_params "layer" "normal" 1 []
  <> apply_effects (input_frame 0 4 6) neutral_params "layer" "screen" 1 [] /\
  apply_effects (input_frame 0 4 6) neutral_params "layer" "screen" 1 []
  <> apply_effects (input_frame 0 4 6) neutral_params "layer" "screen" (1 # 2) [].
Proof. split; vm_compute; discriminate. Qed.

(** C9 (amended). For a colour frame of at least one row and one column,
    any parameters, either effect mode:
    - whatever [apply_effects], [zoom_frame] and [apply_data_corruption]
      return has the height, width and channel count of the input;
    - [apply_effects] does return such a frame when the centre crop of the
      zoom is not empty ([int(h / zoom) >= 1] and [int(w / zoom) >= 1]
      when [zoom > 1]) and the blocks of the data corruption fit
      ([int(10 + 40 * intensity) <= h, w] when its intensity is above 0.1);
      so do [zoom_frame] and [apply_data_corruption] under their own
      condition;
    - every other effect, and [blend_layers] on two frames of that shape,
      returns a frame of the same shape, on every state of the random
      generator;
    - [zoom_frame] raises OpenCV's error when the centre crop is empty. *)
Theorem effects_preserve_shape (frame : ndarray) (p : EffectParams)
    (effect_mode blend_mode : string) (layer_opacity : Q) (h w : nat) :
  color_frame h w frame -> (1 <= h)%nat -> (1 <= w)%nat ->
  returns (apply_effects frame p effect_mode blend_mode layer_opacity)
          (color_frame h w) /\
  (forall z, returns (zoom_frame frame z) (color_frame h w)) /\
  (forall i, returns (apply_data_corruption frame i) (color_frame h w)) /\
  (crop_nonempty h w (zoom p) ->
   block_fits h w (data_corruption_intensity p) ->
   succeeds (apply_effects frame p effect_mode blend_mode layer_opacity)
            (color_frame h w)) /\
  (forall z, crop_nonempty h w z ->
     succeeds (zoom_frame frame z) (color_frame h w)) /\
  (forall i, block_fits h w i ->
     succeeds (apply_data_corruption frame i) (color_frame h w)) /\
  (forall angle, succeeds (rotate_frame frame angle) (color_frame h w)) /\
  (forall hue sat bri,
     succeeds (apply_color_grade frame hue sat bri) (color_frame h w)) /\
  (forall i, Forall (fun effect => succeeds (effect frame i) (color_frame h w))
                    intensity_effects) /\
  (forall overlay mode opacity, color_frame h w overlay ->
     succeeds (blend_layers frame overlay mode opacity) (color_frame h w)) /\
  (forall z, 1 < z ->
     (py_int (Zq (Z.of_nat h) / z) = 0)%Z \/ (py_int (Zq (Z.of_nat w) / z) = 0)%Z ->
     forall tape, zoom_frame frame z tape = Raise CvError).
Proof.
  intros Hf Hh Hw. split_and!.
  - apply apply_effects_shape. exact Hf.
  - intros z. apply zoom_frame_shape. exact Hf.
  - intros i. apply apply_data_corruption_shape. exact Hf.
  - intros Hcrop Hblock. apply apply_effects_succeeds; assumption.
  - intros z Hcrop. apply zoom_frame_succeeds; assumption.
  - intros i Hblock. apply apply_data_corruption_succeeds; assumption.
  - intros angle. apply rotate_frame_succeeds; assumption.
  - intros hue sat bri. apply apply_color_grade_succeeds; assumption.
  - intros i. unfold intensity_effects. repeat constructor.
    + apply apply_pixel_sorting_succeeds; assumption.
    + apply apply_kaleidoscope_succeeds; assumption.
    + apply apply_wave_distortion_succeeds; assumption.
    + apply apply_glitch_effect_succeeds; assumption.
    + apply apply_artifacts_effect_succeeds; assumption.
    + apply apply_posterization_succeeds; assumption.
    + apply apply_edge_detection_overlay_succeeds; assumption.
    + apply apply_vhs_degradation_succeeds; assumption.
    + apply apply_scan_lines_crt_succeeds; assumption.
    + apply apply_motion_blur_succeeds; assumption.
  - intros overlay mode opacity Ho. apply blend_layers_succeeds; assumption.
  - intros z Hz Hempty. apply (zoom_frame_raises frame z h w Hf Hz Hempty).
Qed.

Lemma effects_preserve_shape_witness :
  crop_nonempty 100 120 (zoom busy_params) /\
  block_fits 100 120 (data_corruption_intensity busy_params) /\
  returns (apply_effects (input_frame 0 100 120) busy_params "layer" "screen" (1 # 2))
          (color_frame 100 120) /\
  (forall z, returns (zoom_frame (input_frame 0 100 120) z) (color_frame 100 120)) /\
  (forall i, returns (apply_data_corruption (input_frame 0 100 120) i)
                     (color_frame 100 120)) /\
  (crop_nonempty 100 120 (zoom busy_params) ->
   block_fits 100 120 (data_corruption_intensity busy_params) ->
   succeeds (apply_effects (input_frame 0 100 120) busy_params "layer" "screen" (1 # 2))
            (color_frame 100 120)) /\
  (forall z, crop_nonempty 100 120 z ->
     succeeds (zoom_frame (input_frame 0 100 120) z) (color_frame 100 120)) /\
  (forall i, block_fits 100 120 i ->
     succeeds (apply_data_corruption (input_frame 0 100 120) i) (color_frame 100 120)) /\
  (forall angle,
     succeeds (rotate_frame (input_frame 0 100 120) angle) (color_frame 100 120)) /\
  (forall hue sat bri,
     succeeds (apply_color_grade (input_frame 0 100 120) hue sat bri)
              (color_frame 100 120)) /\
  (forall i, Forall (fun effect => succeeds (effect (input_frame 0 100 120) i)
                                            (color_frame 100 120))
                    intensity_effects) /\
  (forall overlay mode opacity, color_frame 100 120 overlay ->
     succeeds (blend_layers (input_frame 0 100 120) overlay mode opacity)
              (color_frame 100 120)) /\
  (forall z, 1 < z ->
     (py_int (Zq (Z.of_nat 100) / z) = 0)%Z \/ (py_int (Zq (Z.of_nat 120) / z) = 0)%Z ->
     forall tape, zoom_frame (input_frame 0 100 120) z tape = Raise CvError).
Proof.
  split; [intros _; vm_compute; split; discriminate|].
  split; [intros _; vm_compute; split; discriminate|].
  apply (effects_preserve_shape (input_frame 0 100 120) busy_params
           "layer" "screen" (1 # 2) 100 120).
  - reflexivity.
  - lia.
  - lia.
Defined.

(** C9 as stated fails on frames smaller than the zoom factor: a frame of
    one pixel is a colour frame of height and width 1, a zoom of 2 is in
    range, and the crop of [int(1 / 2) = 0] rows makes [cv2.resize] raise;
    no frame is returned by [zoom_frame], nor by [apply_effects] in either
    mode.  On a frame smaller than its blocks [apply_data_corruption] at
    intensity 1 fails to assign a 50 x 50 noise block. *)
Lemma tiny_frame_zoom_counterexample :
  color_frame 1 1 (input_frame 0 1 1) /\
  1 <= zoom (zoom_only 2) /\
  zoom_frame (input_frame 0 1 1) 2 [] = Raise CvError /\
  apply_effects (input_frame 0 1 1) (zoom_only 2) "direct" "normal" 1 []
  = Raise CvError /\
  apply_effects (input_frame 0 1 1) (zoom_only 2) "layer" "normal" 1 []
  = Raise CvError /\
  ~ succeeds (apply_effects (input_frame 0 1 1) (zoom_only 2) "direct" "normal" 1)
             (color_frame 1 1) /\
  apply_data_corruption (input_frame 0 5 5) 1 [] = Raise ValueError.
Proof.
  split; [reflexivity|]. split; [discriminate|].
  split; [reflexivity|]. split; [reflexivity|]. split; [reflexivity|].
  split; [|reflexivity].
  intros H. destruct (H []) as (a & tape' & E & _). discriminate E.
Qed.

(** ** gui_preview_pyqt5.py: mixing the bands into effect intensities *)

(** ** Mixing *)

Lemma band_weights_lookup a b c d e :
  band_weights a b c d e !! "sub_bass" = Some a /\
  band_weights a b c d e !! "bass" = Some b /\
  band_weights a b c d e !! "mid" = Some c /\
  band_weights a b c d e !! "treble" = Some d /\
  band_weights a b c d e !! "high_treble" = Some e.
Proof. split_and!; reflexivity. Qed.

Lemma mix_frequency_bands_inv sb ba mi tr ht weights r :
  mix_frequency_bands sb ba mi tr ht weights = Some r ->
  exists a b c d e,
    weights !! "sub_bass" = Some a /\ weights !! "bass" = Some b /\
    weights !! "mid" = Some c /\ weights !! "treble" = Some d /\
    weights !! "high_treble" = Some e /\
    r = (if Qltb (a + b + c + d + e) eps8 then 0
         else np_clip ((sb * a + ba * b + mi * c + tr * d + ht * e)
                       / (a + b + c + d + e)) 0 1).
Proof.
  unfold mix_frequency_bands. intros H.
  destruct (weights !! "sub_bass") as [a|]; [|discriminate].
  destruct (weights !! "bass") as [b|]; [|discriminate].
  destruct (weights !! "mid") as [c|]; [|discriminate].
  destruct (weights !! "treble") as [d|]; [|discriminate].
  destruct (weights !! "high_treble") as [e|]; [|discriminate].
  simpl in H. exists a, b, c, d, e. split_and!; try reflexivity.
  destruct (Qltb _ _); congruence.
Qed.

Lemma mix_frequency_bands_range sb ba mi tr ht weights r :
  mix_frequency_bands sb ba mi tr ht weights = Some r -> 0 <= r <= 1.
Proof.
  intros H. apply mix_frequency_bands_inv in H as (a & b & c & d & e & _ & _ & _ & _ & _ & ->).
  destruct (Qltb _ _); [lra|]. apply np_clip_bounds. lra.
Qed.

Lemma weighted_sum_bounds (lo hi sb ba mi tr ht a b c d e : Q) :
  0 <= a -> 0 <= b -> 0 <= c -> 0 <= d -> 0 <= e ->
  lo <= sb <= hi -> lo <= ba <= hi -> lo <= mi <= hi -> lo <= tr <= hi ->
  lo <= ht <= hi ->
  lo * (a + b + c + d + e) <= sb * a + ba * b + mi * c + tr * d + ht * e
  <= hi * (a + b + c + d + e).
Proof.
  intros Ha Hb Hc Hd He Hsb Hba Hmi Htr Hht.
  assert (forall x w, 0 <= w -> lo <= x <= hi -> lo * w <= x * w <= hi * w) as P.
  { intros x w Hw [H1 H2]. split; apply Qmult_le_compat_r; assumption. }
  pose proof (P sb a Ha Hsb). pose proof (P ba b Hb Hba). pose proof (P mi c Hc Hmi).
  pose proof (P tr d Hd Htr). pose proof (P ht e He Hht).
  lra.
Qed.

(** X1. [mix_frequency_bands] returns a value exactly when the weight
    dictionary has the five band keys; the value is always in [0,1]; it is
    0 when the weights sum to less than [1e-8], whatever the band energies;
    and for non-negative weights summing to at least [1e-8] it is the
    weighted average of the bands, between any bounds [lo], [hi] in [0,1]
    that hold for the five band values. *)
Theorem mix_frequency_bands_weighted_average (sb ba mi tr ht : Q)
    (weights : gmap string Q) (a b c d e : Q) :
  weights !! "sub_bass" = Some a -> weights !! "bass" = Some b ->
  weights !! "mid" = Some c -> weights !! "treble" = Some d ->
  weights !! "high_treble" = Some e ->
  exists r,
    mix_frequency_bands sb ba mi tr ht weights = Some r /\
    0 <= r <= 1 /\
    (a + b + c + d + e < eps8 -> r = 0) /\
    (0 <= a -> 0 <= b -> 0 <= c -> 0 <= d -> 0 <= e ->
     eps8 <= a + b + c + d + e ->
     forall lo hi, 0 <= lo -> hi <= 1 ->
       lo <= sb <= hi -> lo <= ba <= hi -> lo <= mi <= hi ->
       lo <= tr <= hi -> lo <= ht <= hi ->
       r == (sb * a + ba * b + mi * c + tr * d + ht * e) / (a + b + c + d + e) /\
       lo <= r <= hi).
Proof.
  intros Ha Hb Hc Hd He.
  unfold mix_frequency_bands. rewrite Ha, Hb, Hc, Hd, He. simpl.
  destruct (Qltb (a + b + c + d + e) eps8) eqn:Ht.
  - exists 0. split; [reflexivity|]. split; [lra|]. split; [reflexivity|].
    apply Qltb_lt in Ht. intros. lra.
  - apply Qltb_ge in Ht. eexists. split; [reflexivity|].
    split; [apply np_clip_bounds; lra|].
    split; [intros; lra|].
    intros A B C D E Htot lo hi Hlo Hhi Hsb Hba Hmi Htr Hht.
    assert (Hpos : 0 < a + b + c + d + e) by (unfold eps8 in *; lra).
    pose proof (weighted_sum_bounds lo hi sb ba mi tr ht a b c d e
                  A B C D E Hsb Hba Hmi Htr Hht) as [L U].
    assert (L' : lo <= (sb * a + ba * b + mi * c + tr * d + ht * e)
                       / (a + b + c + d + e))
      by (apply Qle_shift_div_l; [exact Hpos|exact L]).
    assert (U' : (sb * a + ba * b + mi * c + tr * d + ht * e)
                 / (a + b + c + d + e) <= hi)
      by (apply Qle_shift_div_r; [exact Hpos|exact U]).
    assert (E' : np_clip ((sb * a + ba * b + mi * c + tr * d + ht * e)
                          / (a + b + c + d + e)) 0 1
                 == (sb * a + ba * b + mi * c + tr * d + ht * e)
                    / (a + b + c + d + e))
      by (apply np_clip_id; lra).
    split; [exact E'|]. rewrite E'. split; assumption.
Qed.

Lemma mix_frequency_bands_weighted_average_witness :
  exists r,
    mix_frequency_bands (1 # 2) (1 # 2) (1 # 2) (1 # 2) (1 # 2) vhs_weights = Some r /\
    0 <= r <= 1 /\
    (0 + (3 # 10) + (3 # 10) + (4 # 10) + 0 < eps8 -> r = 0) /\
    (0 <= 0 -> 0 <= 3 # 10 -> 0 <= 3 # 10 -> 0 <= 4 # 10 -> 0 <= 0 ->
     eps8 <= 0 + (3 # 10) + (3 # 10) + (4 # 10) + 0 ->
     forall lo hi, 0 <= lo -> hi <= 1 ->
       lo <= 1 # 2 <= hi -> lo <= 1 # 2 <= hi -> lo <= 1 # 2 <= hi ->
       lo <= 1 # 2 <= hi -> lo <= 1 # 2 <= hi ->
       r == ((1 # 2) * 0 + (1 # 2) * (3 # 10) + (1 # 2) * (3 # 10)
             + (1 # 2) * (4 # 10) + (1 # 2) * 0)
            / (0 + (3 # 10) + (3 # 10) + (4 # 10) + 0) /\
       lo <= r <= hi).
Proof.
  apply (mix_frequency_bands_weighted_average
           (1 # 2) (1 # 2) (1 # 2) (1 # 2) (1 # 2) vhs_weights
           0 (3 # 10) (3 # 10) (4 # 10) 0); reflexivity.
Defined.

(** ** Temporal smoothing as a state update *)

Lemma convex_between (f p x lo hi : Q) :
  0 <= f <= 1 -> lo <= p <= hi -> lo <= x <= hi ->
  lo <= (1 - f) * x + (1 - (1 - f)) * p <= hi.
Proof.
  intros [Hf0 Hf1] [Hp0 Hp1] [Hx0 Hx1].
  assert (0 <= (1 - f) * (x - lo)) by (apply Qmult_le_0_compat; lra).
  assert (0 <= f * (p - lo)) by (apply Qmult_le_0_compat; lra).
  assert (0 <= (1 - f) * (hi - x)) by (apply Qmult_le_0_compat; lra).
  assert (0 <= f * (hi - p)) by (apply Qmult_le_0_compat; lra).
  lra.
Qed.

Lemma apply_temporal_smoothing_stored (f : Q) (prev : gmap string Q)
    (name : string) (x : Q) :
  (apply_temporal_smoothing f prev name x).2 !! name
  = Some (apply_temporal_smoothing f prev name x).1 /\
  (forall other, other <> name ->
     (apply_temporal_smoothing f prev name x).2 !! other = prev !! other).
Proof.
  unfold apply_temporal_smoothing.
  destruct (prev !! name) as [p|]; simpl; split;
    try apply lookup_insert_eq;
    intros other Ho; apply lookup_insert_ne; congruence.
Qed.

(** X2. One call of [apply_temporal_smoothing] with a factor in [0,1]:
    the value returned is the value stored under the effect's name; the
    entries of the other effects are untouched; the first call for a name
    returns the raw intensity; a later call returns a value between the
    stored one and the raw one. *)
Theorem apply_temporal_smoothing_update (f : Q) (prev : gmap string Q)
    (name : string) (x : Q) :
  0 <= f <= 1 ->
  let '(y, st) := apply_temporal_smoothing f prev name x in
  st !! name = Some y /\
  (forall other, other <> name -> st !! other = prev !! other) /\
  (prev !! name = None -> y = x) /\
  (forall p, prev !! name = Some p -> Qmin p x <= y <= Qmax p x).
Proof.
  intros Hf. unfold apply_temporal_smoothing.
  destruct (prev !! name) as [p|] eqn:Hp.
  - split_and!.
    + apply lookup_insert_eq.
    + intros other Ho. apply lookup_insert_ne. congruence.
    + discriminate.
    + intros p' [= <-].
      apply convex_between; [exact Hf| |].
      * split; [apply Q.le_min_l|apply Q.le_max_l].
      * split; [apply Q.le_min_r|apply Q.le_max_r].
  - split_and!.
    + apply lookup_insert_eq.
    + intros other Ho. apply lookup_insert_ne. congruence.
    + reflexivity.
    + discriminate.
Qed.

Lemma apply_temporal_smoothing_update_witness :
  let '(y, st) :=
    apply_temporal_smoothing (3 # 10) (<["vhs" := 1 # 2]> ∅) "vhs" 1 in
  st !! "vhs" = Some y /\
  (forall other, other <> "vhs" ->
     st !! other = (<["vhs" := 1 # 2]> ∅ : gmap string Q) !! other) /\
  ((<["vhs" := 1 # 2]> ∅ : gmap string Q) !! "vhs" = None -> y = 1) /\
  (forall p, (<["vhs" := 1 # 2]> ∅ : gmap string Q) !! "vhs" = Some p ->
     Qmin p 1 <= y <= Qmax p 1).
Proof.
  apply (apply_temporal_smoothing_update (3 # 10) (<["vhs" := 1 # 2]> ∅) "vhs" 1).
  split; discriminate.
Defined.

Lemma apply_temporal_smoothing_between (f lo hi : Q) (prev : gmap string Q)
    (name : string) (x : Q) :
  0 <= f <= 1 -> lo <= x <= hi ->
  (forall n v, prev !! n = Some v -> lo <= v <= hi) ->
  lo <= (apply_temporal_smoothing f prev name x).1 <= hi /\
  (forall n v, (apply_temporal_smoothing f prev name x).2 !! n = Some v ->
     lo <= v <= hi).
Proof.
  intros Hf Hx Hprev. unfold apply_temporal_smoothing.
  destruct (prev !! name) as [p|] eqn:Hp; simpl.
  - pose proof (convex_between f p x lo hi Hf (Hprev _ _ Hp) Hx) as Hy.
    split; [exact Hy|].
    intros n v. destruct (decide (n = name)) as [->|Hn].
    + rewrite lookup_insert_eq. intros [= <-]. exact Hy.
    + rewrite lookup_insert_ne by congruence. apply Hprev.
  - split; [exact Hx|].
    intros n v. destruct (decide (n = name)) as [->|Hn].
    + rewrite lookup_insert_eq. intros [= <-]. exact Hx.
    + rewrite lookup_insert_ne by congruence. apply Hprev.
Qed.

(** X3. No overshoot, for any input: with a smoothing factor in [0,1],
    when the intensities fed to [apply_temporal_smoothing] frame after frame
    and the values already stored all lie between [lo] and [hi], so does
    every smoothed output; there are as many outputs as inputs. *)
Theorem smooth_sequence_between (f lo hi : Q) (name : string) (inputs : list Q) :
  0 <= f <= 1 ->
  Forall (fun x => lo <= x <= hi) inputs ->
  forall prev : gmap string Q,
    (forall n v, prev !! n = Some v -> lo <= v <= hi) ->
    length (smooth_sequence f prev name inputs) = length inputs /\
    Forall (fun y => lo <= y <= hi) (smooth_sequence f prev name inputs).
Proof.
  intros Hf Hin. induction Hin as [|x rest Hx Hrest IH]; intros prev Hprev.
  - split; [reflexivity|constructor].
  - cbn [smooth_sequence].
    pose proof (apply_temporal_smoothing_between f lo hi prev name x Hf Hx Hprev)
      as [Hy Hst].
    destruct (apply_temporal_smoothing f prev name x) as [y st]. simpl in Hy, Hst.
    destruct (IH st Hst) as [Hlen Hall].
    split; [simpl; f_equal; exact Hlen|constructor; assumption].
Qed.

Lemma smooth_sequence_between_witness :
  length (smooth_sequence (3 # 10) (<["vhs" := 1 # 2]> ∅) "vhs" [1; 0; 1 # 2])
  = length [1; 0; 1 # 2] /\
  Forall (fun y => 0 <= y <= 1)
    (smooth_sequence (3 # 10) (<["vhs" := 1 # 2]> ∅) "vhs" [1; 0; 1 # 2]).
Proof.
  refine (smooth_sequence_between (3 # 10) 0 1 "vhs" [1; 0; 1 # 2] _ _
            (<["vhs" := 1 # 2]> ∅) _).
  - split; discriminate.
  - repeat constructor; discriminate.
  - intros n v. destruct (decide (n = "vhs")) as [->|Hn].
    + rewrite lookup_insert_eq. intros [= <-]. split; discriminate.
    + rewrite lookup_insert_ne by congruence. rewrite lookup_empty. discriminate.
Defined.

(** X4. The intensity of an artistic effect in [get_effect_parameters]:
    with a smoothing factor in [0,1], a weight dictionary holding the five
    band keys and stored intensities in [0,1], the block returns an
    intensity in [0,1] and leaves the stored intensities in [0,1] and those
    of the other effects untouched; when the effect is unchecked or the
    mixed intensity is not above [1e-8] the intensity is 0 and the stored
    value is not updated at all; otherwise the intensity returned is the
    one stored. *)
Theorem effect_intensity_range (f sens : Q) (checked : bool) (name : string)
    (weights : gmap string Q) (sb ba mi tr ht : Q) (prev : gmap string Q) :
  0 <= f <= 1 ->
  Forall (fun key => is_Some (weights !! key))
         ["sub_bass"; "bass"; "mid"; "treble"; "high_treble"] ->
  intensities_in_range prev ->
  exists base i st,
    mix_frequency_bands sb ba mi tr ht weights = Some base /\
    effect_intensity f sens checked name weights sb ba mi tr ht prev = Some (i, st) /\
    0 <= i <= 1 /\
    intensities_in_range st /\
    (forall other, other <> name -> st !! other = prev !! other) /\
    (checked = false \/ base <= eps8 -> i = 0 /\ st = prev) /\
    (checked = true -> eps8 < base -> st !! name = Some i).
Proof.
  intros Hf Hkeys Hprev.
  assert (exists base, mix_frequency_bands sb ba mi tr ht weights = Some base)
    as [base Hbase].
  { apply Forall_cons_1 in Hkeys as [[a Ha] Hkeys].
    apply Forall_cons_1 in Hkeys as [[b Hb] Hkeys].
    apply Forall_cons_1 in Hkeys as [[c Hc] Hkeys].
    apply Forall_cons_1 in Hkeys as [[d Hd] Hkeys].
    apply Forall_cons_1 in Hkeys as [[e He] _].
    unfold mix_frequency_bands. rewrite Ha, Hb, Hc, Hd, He.
    simpl. destruct (Qltb _ _); eauto. }
  exists base. unfold effect_intensity. rewrite Hbase. simpl.
  destruct checked.
  - destruct (Qltb eps8 base) eqn:Hb.
    + apply Qltb_lt in Hb.
      set (x := np_clip (base * ((5 # 10) + sens * (5 # 10))) 0 1).
      assert (Hx : 0 <= x <= 1) by (apply np_clip_bounds; lra).
      pose proof (apply_temporal_smoothing_between f 0 1 prev name x Hf Hx Hprev)
        as [Hy Hst].
      pose proof (apply_temporal_smoothing_stored f prev name x) as [Hs Hother].
      destruct (apply_temporal_smoothing f prev name x) as [y st].
      simpl in Hy, Hst, Hs, Hother.
      exists y, st. split; [reflexivity|]. split; [reflexivity|].
      split; [exact Hy|]. split; [exact Hst|]. split; [exact Hother|].
      split; [|intros _ _; exact Hs].
      intros [Hc|Hle]; [discriminate|lra].
    + apply Qltb_ge in Hb.
      exists 0, prev. split; [reflexivity|]. split; [reflexivity|].
      split; [lra|]. split; [exact Hprev|]. split; [reflexivity|].
      split; [intros _; split; reflexivity|].
      intros _ Hlt. lra.
  - exists 0, prev. split; [reflexivity|]. split; [reflexivity|].
    split; [lra|]. split; [exact Hprev|]. split; [reflexivity|].
    split; [intros _; split; reflexivity|discriminate].
Qed.

Lemma effect_intensity_range_witness :
  exists base i st,
    mix_frequency_bands 0 1 (1 # 2) 1 0 vhs_weights = Some base /\
    effect_intensity (3 # 10) (7 # 10) true "vhs" vhs_weights 0 1 (1 # 2) 1 0
      (<["vhs" := 1 # 2]> ∅) = Some (i, st) /\
    0 <= i <= 1 /\
    intensities_in_range st /\
    (forall other, other <> "vhs" ->
       st !! other = (<["vhs" := 1 # 2]> ∅ : gmap string Q) !! other) /\
    (true = false \/ base <= eps8 ->
       i = 0 /\ st = (<["vhs" := 1 # 2]> ∅ : gmap string Q)) /\
    (true = true -> eps8 < base -> st !! "vhs" = Some i).
Proof.
  apply (effect_intensity_range (3 # 10) (7 # 10) true "vhs" vhs_weights
           0 1 (1 # 2) 1 0 (<["vhs" := 1 # 2]> ∅)).
  - split; discriminate.
  - repeat constructor; eexists; reflexivity.
  - intros n v. destruct (decide (n = "vhs")) as [->|Hn].
    + rewrite lookup_insert_eq. intros [= <-]. split; discriminate.
    + rewrite lookup_insert_ne by congruence. rewrite lookup_empty. discriminate.
Defined.

(** ** video_processor.py: easing and the legacy effect map *)

(** ** Easing curves *)

Lemma cube_expand (x : Q) : x ^ 3 == x * x * x.
Proof. simpl. ring. Qed.

Lemma square_expand (x : Q) : x ^ 2 == x * x.
Proof. simpl. ring. Qed.

Lemma Qsquare_nonneg (x : Q) : 0 <= x * x.
Proof.
  destruct (Qlt_le_dec x 0) as [H|H].
  - assert (E : x * x == (- x) * (- x)) by ring.
    rewrite E. apply Qmult_le_0_compat; lra.
  - apply Qmult_le_0_compat; assumption.
Qed.

Lemma Qmult_le_1 (x y : Q) : 0 <= x <= 1 -> 0 <= y <= 1 -> 0 <= x * y <= 1.
Proof.
  intros [Hx0 Hx1] [Hy0 Hy1]. split; [apply Qmult_le_0_compat; assumption|].
  assert (0 <= (1 - x) * y) by (apply Qmult_le_0_compat; lra). lra.
Qed.

Lemma Qmult_mono (a b c d : Q) :
  0 <= a -> a <= b -> 0 <= c -> c <= d -> a * c <= b * d.
Proof.
  intros Ha Hab Hc Hcd.
  assert (0 <= (b - a) * c) by (apply Qmult_le_0_compat; lra).
  assert (0 <= b * (d - c)) by (apply Qmult_le_0_compat; lra).
  lra.
Qed.

Lemma smoothstep_range (t : Q) : 0 <= t <= 1 -> 0 <= t * t * (3 - 2 * t) <= 1.
Proof.
  intros [H0 H1].
  pose proof (Qmult_le_1 t t (conj H0 H1) (conj H0 H1)) as [Hs0 Hs1].
  split.
  - apply Qmult_le_0_compat; lra.
  - assert (E : 1 - t * t * (3 - 2 * t) == (1 - t) * (1 - t) * (1 + 2 * t)) by ring.
    assert (0 <= (1 - t) * (1 - t) * (1 + 2 * t)).
    { apply Qmult_le_0_compat; [apply Qsquare_nonneg|lra]. }
    lra.
Qed.

Lemma smoothstep_mono (s t : Q) :
  0 <= s -> s <= t -> t <= 1 -> s * s * (3 - 2 * s) <= t * t * (3 - 2 * t).
Proof.
  intros H0 Hst H1.
  assert (E : t * t * (3 - 2 * t) - s * s * (3 - 2 * s)
              == (t - s) * (3 * (t + s) - 2 * (t * t + t * s + s * s))) by ring.
  assert (Htt : t * t <= t).
  { assert (0 <= t * (1 - t)) by (apply Qmult_le_0_compat; lra). lra. }
  assert (Hss : s * s <= s).
  { assert (0 <= s * (1 - s)) by (apply Qmult_le_0_compat; lra). lra. }
  assert (Hts : t * s <= s).
  { assert (0 <= (1 - t) * s) by (apply Qmult_le_0_compat; lra). lra. }
  assert (0 <= (t - s) * (3 * (t + s) - 2 * (t * t + t * s + s * s)))
    by (apply Qmult_le_0_compat; lra).
  lra.
Qed.

Lemma cube_mono (a b : Q) : 0 <= a -> a <= b -> a * a * a <= b * b * b.
Proof.
  intros Ha Hab.
  assert (a * a <= b * b) by (apply Qmult_mono; lra).
  apply Qmult_mono; try lra. apply Qmult_le_0_compat; lra.
Qed.

Ltac ease_cases t :=
  let H0 := fresh "Hneg" in
  let H1 := fresh "Hbig" in
  destruct (Qltb t 0) eqn:H0;
  [apply Qltb_lt in H0
  |apply Qltb_ge in H0; destruct (Qltb 1 t) eqn:H1;
   [apply Qltb_lt in H1|apply Qltb_ge in H1]].

Lemma ease_in_out_cubic_easing : easing_curve ease_in_out_cubic.
Proof.
  unfold easing_curve, ease_in_out_cubic. split_and!.
  - intros t. ease_cases t; try lra. apply smoothstep_range. lra.
  - intros t Ht. ease_cases t; try lra.
    assert (E : t == 0) by lra. rewrite E. ring.
  - intros t Ht. ease_cases t; try lra.
    assert (E : t == 1) by lra. rewrite E. ring.
  - intros s t Hst. ease_cases s; ease_cases t; try lra.
    + apply smoothstep_range. lra.
    + apply smoothstep_range. lra.
    + apply smoothstep_mono; lra.
Qed.

Lemma ease_out_cubic_easing : easing_curve ease_out_cubic.
Proof.
  unfold easing_curve, ease_out_cubic.
  assert (R : forall t, 0 <= t <= 1 -> 0 <= 1 - (1 - t) ^ 3 <= 1).
  { intros t [H0 H1]. rewrite cube_expand.
    pose proof (cube_mono 0 (1 - t) (Qle_refl 0) ltac:(lra)) as L.
    pose proof (cube_mono (1 - t) 1 ltac:(lra) ltac:(lra)) as U.
    lra. }
  split_and!.
  - intros t. ease_cases t; try lra. apply R. lra.
  - intros t Ht. ease_cases t; try lra.
    assert (E : t == 0) by lra. rewrite E. reflexivity.
  - intros t Ht. ease_cases t; try lra.
    assert (E : t == 1) by lra. rewrite E. reflexivity.
  - intros s t Hst. ease_cases s; ease_cases t; try lra.
    + apply R. lra.
    + apply R. lra.
    + rewrite !cube_expand.
      pose proof (cube_mono (1 - t) (1 - s) ltac:(lra) ltac:(lra)). lra.
Qed.

Lemma quad_rise_range (t : Q) : 0 <= t <= 1 # 2 -> 0 <= 2 * t * t <= 1 # 2.
Proof.
  intros [H0 H1].
  assert (0 <= t * t) by (apply Qmult_le_0_compat; lra).
  assert (t * t <= (1 # 2) * (1 # 2)) by (apply Qmult_mono; lra).
  lra.
Qed.

Lemma quad_fall_range (t : Q) :
  1 # 2 <= t <= 1 -> 1 # 2 <= 1 - (-2 * t + 2) ^ 2 / 2 <= 1.
Proof.
  intros [H0 H1]. rewrite square_expand.
  assert (E : 1 - (-2 * t + 2) * (-2 * t + 2) / 2 == 1 - 2 * ((1 - t) * (1 - t)))
    by (field).
  rewrite E.
  assert (0 <= (1 - t) * (1 - t)) by (apply Qmult_le_0_compat; lra).
  assert ((1 - t) * (1 - t) <= (1 # 2) * (1 # 2)) by (apply Qmult_mono; lra).
  lra.
Qed.

Lemma ease_in_out_quad_easing : easing_curve ease_in_out_quad.
Proof.
  unfold easing_curve, ease_in_out_quad. split_and!.
  - intros t. ease_cases t; try lra.
    destruct (Qltb t (1 # 2)) eqn:Hh;
      [apply Qltb_lt in Hh; pose proof (quad_rise_range t ltac:(lra))
      |apply Qltb_ge in Hh; pose proof (quad_fall_range t ltac:(lra))]; lra.
  - intros t Ht. ease_cases t; try lra.
    assert (E : t == 0) by lra.
    destruct (Qltb t (1 # 2)) eqn:Hh;
      [|apply Qltb_ge in Hh; lra]. rewrite E. ring.
  - intros t Ht. ease_cases t; try lra.
    assert (E : t == 1) by lra.
    destruct (Qltb t (1 # 2)) eqn:Hh; [apply Qltb_lt in Hh; lra|].
    rewrite E. reflexivity.
  - intros s t Hst.
    assert (R : forall u, 0 <= u <= 1 ->
              0 <= (if Qltb u (1 # 2) then 2 * u * u
                    else 1 - (-2 * u + 2) ^ 2 / 2) <= 1).
    { intros u Hu. destruct (Qltb u (1 # 2)) eqn:Hh;
        [apply Qltb_lt in Hh; pose proof (quad_rise_range u ltac:(lra))
        |apply Qltb_ge in Hh; pose proof (quad_fall_range u ltac:(lra))]; lra. }
    ease_cases s; ease_cases t; try lra.
    + apply R. lra.
    + apply R. lra.
    + destruct (Qltb s (1 # 2)) eqn:Hs; destruct (Qltb t (1 # 2)) eqn:Ht;
        try apply Qltb_lt in Hs; try apply Qltb_ge in Hs;
        try apply Qltb_lt in Ht; try apply Qltb_ge in Ht; try lra.
      * assert (s * s <= t * t) by (apply Qmult_mono; lra). lra.
      * pose proof (quad_rise_range s ltac:(lra)).
        pose proof (quad_fall_range t ltac:(lra)). lra.
      * rewrite !square_expand.
        assert (E : forall u, 1 - (-2 * u + 2) * (-2 * u + 2) / 2
                              == 1 - 2 * ((1 - u) * (1 - u))) by (intros; field).
        rewrite !E.
        assert ((1 - t) * (1 - t) <= (1 - s) * (1 - s)) by (apply Qmult_mono; lra).
        lra.
Qed.

(** X5. The three interpolation curves [ease_in_out_cubic],
    [ease_out_cubic] and [ease_in_out_quad] do what their docstrings say for
    every argument, also outside [0,1]: the value lies in [0,1], it is 0 for
    [t <= 0] and 1 for [t >= 1], and the curve never decreases (the two
    branches of the quadratic curve meet at [t = 0.5]). *)
Theorem easing_curves_monotone :
  easing_curve ease_in_out_cubic /\
  easing_curve ease_out_cubic /\
  easing_curve ease_in_out_quad.
Proof.
  split; [exact ease_in_out_cubic_easing|].
  split; [exact ease_out_cubic_easing|exact ease_in_out_quad_easing].
Qed.

(** ** The legacy effect map *)

Lemma ease_in_out_cubic_half : ease_in_out_cubic (1 # 2) == 1 # 2.
Proof. reflexivity. Qed.

Lemma hit_progress (effect_frames i : Z) :
  (0 <= i < effect_frames)%Z ->
  0 <= inject_Z i / inject_Z effect_frames < 1.
Proof.
  intros [H0 H1].
  assert (Hef : 0 < inject_Z effect_frames).
  { change 0 with (inject_Z 0). rewrite <- Zlt_Qlt. lia. }
  split.
  - apply Qle_shift_div_l; [exact Hef|]. rewrite Qmult_0_l.
    change 0 with (inject_Z 0). rewrite <- Zle_Qle. lia.
  - apply Qlt_shift_div_r; [exact Hef|]. rewrite Qmult_1_l.
    rewrite <- Zlt_Qlt. lia.
Qed.

Lemma bass_hit_zoom_range (zoom_factor : Q) (effect_frames i : Z) :
  1 <= zoom_factor -> (0 <= i < effect_frames)%Z ->
  1 <= bass_hit_zoom zoom_factor effect_frames i <= zoom_factor.
Proof.
  intros Hz Hi. unfold bass_hit_zoom. cbv zeta.
  pose proof (hit_progress _ _ Hi) as [Hp0 Hp1].
  destruct ease_in_out_cubic_easing as (Hr & _ & _ & Hm).
  set (p := inject_Z i / inject_Z effect_frames) in *.
  pose proof (Hr p) as [He0 He1].
  destruct (Qltb p (1 # 2)) eqn:Hh.
  - apply Qltb_lt in Hh.
    pose proof (Hm p (1 # 2) ltac:(lra)) as Hle.
    rewrite ease_in_out_cubic_half in Hle.
    assert (0 <= (zoom_factor - 1) * (ease_in_out_cubic p * 2))
      by (apply Qmult_le_0_compat; lra).
    assert (0 <= (zoom_factor - 1) * (1 - ease_in_out_cubic p * 2))
      by (apply Qmult_le_0_compat; lra).
    lra.
  - apply Qltb_ge in Hh.
    pose proof (Hm (1 # 2) p Hh) as Hle.
    rewrite ease_in_out_cubic_half in Hle.
    assert (0 <= (zoom_factor - 1) * ((ease_in_out_cubic p - (1 # 2)) * 2))
      by (apply Qmult_le_0_compat; lra).
    assert (0 <= (zoom_factor - 1) * (1 - (ease_in_out_cubic p - (1 # 2)) * 2))
      by (apply Qmult_le_0_compat; lra).
    lra.
Qed.

Lemma treble_hit_rotation_range (rotation_angle : Q) (effect_frames i : Z) :
  0 <= rotation_angle -> (0 <= i < effect_frames)%Z ->
  0 <= treble_hit_rotation rotation_angle effect_frames i <= rotation_angle.
Proof.
  intros Hz Hi. unfold treble_hit_rotation. cbv zeta.
  pose proof (hit_progress _ _ Hi) as [Hp0 Hp1].
  destruct ease_in_out_cubic_easing as (Hr & _ & _ & Hm).
  set (p := inject_Z i / inject_Z effect_frames) in *.
  pose proof (Hr p) as [He0 He1].
  destruct (Qltb p (1 # 2)) eqn:Hh.
  - apply Qltb_lt in Hh.
    pose proof (Hm p (1 # 2) ltac:(lra)) as Hle.
    rewrite ease_in_out_cubic_half in Hle.
    assert (0 <= rotation_angle * (ease_in_out_cubic p * 2))
      by (apply Qmult_le_0_compat; lra).
    assert (0 <= rotation_angle * (1 - ease_in_out_cubic p * 2))
      by (apply Qmult_le_0_compat; lra).
    lra.
  - apply Qltb_ge in Hh.
    pose proof (Hm (1 # 2) p Hh) as Hle.
    rewrite ease_in_out_cubic_half in Hle.
    assert (0 <= rotation_angle * ((1 - ease_in_out_cubic p) * 2))
      by (apply Qmult_le_0_compat; lra).
    assert (0 <= rotation_angle * (1 - (1 - ease_in_out_cubic p) * 2))
      by (apply Qmult_le_0_compat; lra).
    lra.
Qed.

(** One pass of an inner loop of [process_video]: every frame of the window
    that lies before [total_frames] is updated once, from its previous
    entry; nothing else changes. *)
Ltac zbool :=
  repeat match goal with
         | |- context [(?a <=? ?b)%Z] => destruct (Z.leb_spec a b)
         | |- context [(?a <? ?b)%Z] => destruct (Z.ltb_spec a b)
         end;
  simpl; try reflexivity; try lia.

Lemma window_pass {V} (g : option V -> Z -> V) (start total : Z) (n : nat) :
  forall (a : nat) (m : gmap Z V) (k : Z),
    fold_left
      (fun m i =>
         if (start + i <? total)%Z then <[(start + i)%Z := g (m !! (start + i)%Z) i]> m
         else m)
      (map Z.of_nat (seq a n)) m !! k
    = if (start + Z.of_nat a <=? k)%Z && (k <? start + Z.of_nat a + Z.of_nat n)%Z
         && (k <? total)%Z
      then Some (g (m !! k) (k - start)%Z)
      else m !! k.
Proof.
  induction n as [|n IH]; intros a m k.
  - simpl. zbool.
  - cbn [seq map fold_left]. rewrite IH.
    destruct (Z.ltb_spec (start + Z.of_nat a) total) as [Ht|Ht].
    + destruct (decide (k = start + Z.of_nat a)%Z) as [->|Hk].
      * rewrite lookup_insert_eq. zbool. do 2 f_equal. lia.
      * rewrite lookup_insert_ne by congruence. zbool.
    + zbool.
Qed.

Lemma hit_covers_window fps total ef t k :
  hit_covers fps total ef t k
  = (time_to_frame fps t + Z.of_nat 0 <=? k)%Z
    && (k <? time_to_frame fps t + Z.of_nat 0 + Z.of_nat (Z.to_nat ef))%Z
    && (k <? total)%Z.
Proof. unfold hit_covers. cbv zeta. zbool. Qed.

Lemma hit_covers_offset fps total ef t k :
  hit_covers fps total ef t k = true ->
  (0 <= k - time_to_frame fps t < ef)%Z /\ (k < total)%Z.
Proof.
  unfold hit_covers. cbv zeta. intros H.
  apply andb_true_iff in H as [H H3]. apply andb_true_iff in H as [H1 H2]. lia.
Qed.

Lemma fold_left_ext_eq {A B} (f g : A -> B -> A) :
  (forall a b, f a b = g a b) -> forall l a, fold_left f l a = fold_left g l a.
Proof.
  intros H l. induction l as [|b l IH]; intros a; [reflexivity|].
  simpl. rewrite H. apply IH.
Qed.

Lemma map_bass_hit_lookup fps total zf ef (m : gmap Z (Q * Q)) t k :
  map_bass_hit fps total zf ef m t !! k
  = if hit_covers fps total ef t k then
      Some (match m !! k with
            | None => (bass_hit_zoom zf ef (k - time_to_frame fps t), 0)
            | Some (cz, cr) =>
              (Qmax (bass_hit_zoom zf ef (k - time_to_frame fps t)) cz, cr)
            end)
    else m !! k.
Proof.
  unfold map_bass_hit, py_range. cbv zeta.
  rewrite hit_covers_window.
  etransitivity;
    [|exact (window_pass
               (fun o i => match o with
                           | None => (bass_hit_zoom zf ef i, 0)
                           | Some (cz, cr) => (Qmax (bass_hit_zoom zf ef i) cz, cr)
                           end)
               (time_to_frame fps t) total (Z.to_nat ef) 0 m k)].
  f_equal. apply fold_left_ext_eq. intros m' i.
  destruct (_ <? total)%Z; [|reflexivity].
  destruct (m' !! _) as [[cz cr]|]; reflexivity.
Qed.

Lemma map_treble_hit_lookup fps total angle ef (m : gmap Z (Q * Q)) t k :
  map_treble_hit fps total angle ef m t !! k
  = if hit_covers fps total ef t k then
      Some (match m !! k with
            | None => (1, treble_hit_rotation angle ef (k - time_to_frame fps t))
            | Some (cz, cr) =>
              (cz, cr + treble_hit_rotation angle ef (k - time_to_frame fps t))
            end)
    else m !! k.
Proof.
  unfold map_treble_hit, py_range. cbv zeta.
  rewrite hit_covers_window.
  etransitivity;
    [|exact (window_pass
               (fun o i => match o with
                           | None => (1, treble_hit_rotation angle ef i)
                           | Some (cz, cr) => (cz, cr + treble_hit_rotation angle ef i)
                           end)
               (time_to_frame fps t) total (Z.to_nat ef) 0 m k)].
  f_equal. apply fold_left_ext_eq. intros m' i.
  destruct (_ <? total)%Z; [|reflexivity].
  destruct (m' !! _) as [[cz cr]|]; reflexivity.
Qed.

Lemma effect_at_bass_hit fps total zf ef (m : gmap Z (Q * Q)) t k acc :
  1 <= zf ->
  (effect_at m k).1 == acc -> 1 <= acc ->
  let acc' := if hit_covers fps total ef t k
              then Qmax (bass_hit_zoom zf ef (k - time_to_frame fps t)) acc
              else acc in
  (effect_at (map_bass_hit fps total zf ef m t) k).1 == acc' /\
  1 <= acc' /\
  (effect_at (map_bass_hit fps total zf ef m t) k).2 = (effect_at m k).2.
Proof.
  intros Hzf Hacc H1. cbv zeta. unfold effect_at in *.
  rewrite map_bass_hit_lookup.
  destruct (hit_covers fps total ef t k) eqn:Hc; [|auto].
  apply hit_covers_offset in Hc as [Hi _].
  pose proof (bass_hit_zoom_range zf ef _ Hzf Hi) as [Hz1 Hz2].
  destruct (m !! k) as [[cz cr]|]; simpl in *.
  - pose proof (Q.le_max_l (bass_hit_zoom zf ef (k - time_to_frame fps t)) acc).
    split; [rewrite Hacc; reflexivity|]. split; [lra|reflexivity].
  - pose proof (Q.le_max_l (bass_hit_zoom zf ef (k - time_to_frame fps t)) acc).
    split; [|split; [lra|reflexivity]].
    symmetry. apply Q.max_l. lra.
Qed.

Lemma effect_at_bass_hits fps total zf ef ts k :
  1 <= zf ->
  forall (m : gmap Z (Q * Q)) acc,
    (effect_at m k).1 == acc -> 1 <= acc ->
    (effect_at (fold_left (map_bass_hit fps total zf ef) ts m) k).1
    == fold_left
         (fun acc t =>
            if hit_covers fps total ef t k
            then Qmax (bass_hit_zoom zf ef (k - time_to_frame fps t)) acc
            else acc) ts acc /\
    (effect_at (fold_left (map_bass_hit fps total zf ef) ts m) k).2
    = (effect_at m k).2.
Proof.
  intros Hzf. induction ts as [|t ts IH]; intros m acc Hacc H1.
  - simpl. split; [exact Hacc|reflexivity].
  - cbn [fold_left].
    destruct (effect_at_bass_hit fps total zf ef m t k acc Hzf Hacc H1)
      as (Hz & Hge & Hr).
    destruct (IH _ _ Hz Hge) as [IH1 IH2].
    split; [exact IH1|]. rewrite IH2. exact Hr.
Qed.

Lemma effect_at_treble_hit fps total angle ef (m : gmap Z (Q * Q)) t k :
  (effect_at (map_treble_hit fps total angle ef m t) k).1 = (effect_at m k).1 /\
  (effect_at (map_treble_hit fps total angle ef m t) k).2
  == (effect_at m k).2
     + (if hit_covers fps total ef t k
        then treble_hit_rotation angle ef (k - time_to_frame fps t) else 0).
Proof.
  unfold effect_at. rewrite map_treble_hit_lookup.
  destruct (hit_covers fps total ef t k).
  - destruct (m !! k) as [[cz cr]|]; simpl; split; try reflexivity. ring.
  - split; [reflexivity|ring].
Qed.

Lemma effect_at_treble_hits fps total angle ef ts k :
  forall (m : gmap Z (Q * Q)),
    (effect_at (fold_left (map_treble_hit fps total angle ef) ts m) k).1
    = (effect_at m k).1 /\
    (effect_at (fold_left (map_treble_hit fps total angle ef) ts m) k).2
    == (effect_at m k).2 + rotation_of_hits fps total angle ef ts k.
Proof.
  induction ts as [|t ts IH]; intros m.
  - simpl. split; [reflexivity|]. unfold rotation_of_hits. simpl. ring.
  - cbn [fold_left].
    destruct (effect_at_treble_hit fps total angle ef m t k) as [Hz Hr].
    destruct (IH (map_treble_hit fps total angle ef m t)) as [IH1 IH2].
    split; [rewrite IH1; exact Hz|].
    rewrite IH2, Hr. unfold rotation_of_hits. cbn [map Qsum]. ring.
Qed.

Lemma bass_hits_keys fps total zf ef ts :
  forall (m : gmap Z (Q * Q)),
    (forall k, is_Some (m !! k) -> (k < total)%Z) ->
    forall k, is_Some (fold_left (map_bass_hit fps total zf ef) ts m !! k) ->
              (k < total)%Z.
Proof.
  induction ts as [|t ts IH]; intros m Hm; [exact Hm|].
  cbn [fold_left]. apply IH. intros k. rewrite map_bass_hit_lookup.
  destruct (hit_covers fps total ef t k) eqn:Hc; [|apply Hm].
  intros _. apply hit_covers_offset in Hc. lia.
Qed.

Lemma treble_hits_keys fps total angle ef ts :
  forall (m : gmap Z (Q * Q)),
    (forall k, is_Some (m !! k) -> (k < total)%Z) ->
    forall k, is_Some (fold_left (map_treble_hit fps total angle ef) ts m !! k) ->
              (k < total)%Z.
Proof.
  induction ts as [|t ts IH]; intros m Hm; [exact Hm|].
  cbn [fold_left]. apply IH. intros k. rewrite map_treble_hit_lookup.
  destruct (hit_covers fps total ef t k) eqn:Hc; [|apply Hm].
  intros _. apply hit_covers_offset in Hc. lia.
Qed.

Lemma build_effect_map_lookup (fps : Q) (total : Z) (zf angle dur : Q)
    (frame_times : list Q) (bass_frames treble_frames : list nat) :
  1 <= zf ->
  Forall (fun f => (f < length frame_times)%nat) bass_frames ->
  Forall (fun f => (f < length frame_times)%nat) treble_frames ->
  exists bass_times treble_times m,
    beat_times frame_times bass_frames = Some bass_times /\
    beat_times frame_times treble_frames = Some treble_times /\
    build_effect_map fps total zf angle dur frame_times bass_frames treble_frames
    = Some m /\
    forall k,
      (effect_at m k).1
      == zoom_of_hits fps total zf (py_int (dur * fps)) bass_times k /\
      (effect_at m k).2
      == rotation_of_hits fps total angle (py_int (dur * fps)) treble_times k /\
      (is_Some (m !! k) -> (k < total)%Z).
Proof.
  intros Hzf Hb Ht.
  destruct (beat_times_Some frame_times bass_frames Hb) as [bts Hbts].
  destruct (beat_times_Some frame_times treble_frames Ht) as [tts Htts].
  exists bts, tts. eexists. split; [exact Hbts|]. split; [exact Htts|].
  unfold build_effect_map. rewrite Hbts, Htts. simpl.
  split; [reflexivity|]. intros k.
  set (ef := py_int (dur * fps)).
  destruct (effect_at_treble_hits fps total angle ef tts k
              (fold_left (map_bass_hit fps total zf ef) bts ∅)) as [Tz Tr].
  destruct (effect_at_bass_hits fps total zf ef bts k Hzf ∅ 1) as [Bz Br].
  { unfold effect_at. rewrite lookup_empty. reflexivity. }
  { lra. }
  split; [rewrite Tz; exact Bz|]. split.
  - rewrite Tr, Br. unfold effect_at. rewrite lookup_empty. simpl. ring.
  - apply treble_hits_keys. apply bass_hits_keys.
    intros k' [x Hx]. rewrite lookup_empty in Hx. discriminate.
Qed.

Lemma zoom_of_hits_range fps total zf ef ts k :
  1 <= zf -> 1 <= zoom_of_hits fps total zf ef ts k <= zf.
Proof.
  intros Hzf. unfold zoom_of_hits.
  assert (G : forall acc, 1 <= acc <= zf ->
            1 <= fold_left
                   (fun acc t =>
                      if hit_covers fps total ef t k
                      then Qmax (bass_hit_zoom zf ef (k - time_to_frame fps t)) acc
                      else acc) ts acc <= zf).
  { induction ts as [|t ts IH]; intros acc Hacc; [exact Hacc|].
    cbn [fold_left]. apply IH.
    destruct (hit_covers fps total ef t k) eqn:Hc; [|exact Hacc].
    apply hit_covers_offset in Hc as [Hi _].
    pose proof (bass_hit_zoom_range zf ef _ Hzf Hi) as [Hz1 Hz2].
    destruct (Qmax_cases (bass_hit_zoom zf ef (k - time_to_frame fps t)) acc)
      as [-> | ->]; [split; assumption|exact Hacc]. }
  apply G. lra.
Qed.

Lemma rotation_of_hits_range fps total angle ef ts k :
  0 <= angle ->
  0 <= rotation_of_hits fps total angle ef ts k
  <= angle * inject_Z (Z.of_nat
                        (length (filter (fun t => hit_covers fps total ef t k = true) ts))).
Proof.
  intros Ha. unfold rotation_of_hits.
  induction ts as [|t ts IH].
  - rewrite filter_nil. cbn [map Qsum length].
    change (inject_Z (Z.of_nat 0)) with 0. lra.
  - cbn [map Qsum]. rewrite filter_cons.
    destruct (hit_covers fps total ef t k) eqn:Hc.
    + rewrite decide_True by reflexivity. cbn [length].
      apply hit_covers_offset in Hc as [Hi _].
      pose proof (treble_hit_rotation_range angle ef _ Ha Hi) as [Hr0 Hr1].
      rewrite Nat2Z.inj_succ, <- Z.add_1_r, inject_Z_plus.
      change (inject_Z 1) with 1. lra.
    + rewrite decide_False by discriminate. lra.
Qed.

(** X6. The effect map of the legacy [process_video], in closed form.  For
    a zoom factor of at least 1 and hit indices inside [frame_times], the
    map is built, and for every video frame: its zoom is the largest among
    1 and the zooms of the bass hits whose window reaches the frame
    (overlapping bass hits do not add up); its rotation is the sum of the
    rotations of all the treble hits whose window reaches it (overlapping
    treble hits do add up); and only frames before [total_frames] get an
    entry. *)
Theorem build_effect_map_closed_form (fps : Q) (total : Z) (zf angle dur : Q)
    (frame_times : list Q) (bass_frames treble_frames : list nat) :
  1 <= zf ->
  Forall (fun f => (f < length frame_times)%nat) bass_frames ->
  Forall (fun f => (f < length frame_times)%nat) treble_frames ->
  exists bass_times treble_times m,
    beat_times frame_times bass_frames = Some bass_times /\
    beat_times frame_times treble_frames = Some treble_times /\
    build_effect_map fps total zf angle dur frame_times bass_frames treble_frames
    = Some m /\
    forall k,
      (effect_at m k).1
      == zoom_of_hits fps total zf (py_int (dur * fps)) bass_times k /\
      (effect_at m k).2
      == rotation_of_hits fps total angle (py_int (dur * fps)) treble_times k /\
      (is_Some (m !! k) -> (k < total)%Z).
Proof. apply build_effect_map_lookup. Qed.

Lemma build_effect_map_closed_form_witness :
  exists bass_times treble_times m,
    beat_times [0; 1 # 10; 2 # 10] [0%nat] = Some bass_times /\
    beat_times [0; 1 # 10; 2 # 10] [0%nat; 1%nat] = Some treble_times /\
    build_effect_map 10 8 (13 # 10) 5 (4 # 10) [0; 1 # 10; 2 # 10]
      [0%nat] [0%nat; 1%nat] = Some m /\
    forall k,
      (effect_at m k).1
      == zoom_of_hits 10 8 (13 # 10) (py_int ((4 # 10) * 10)) bass_times k /\
      (effect_at m k).2
      == rotation_of_hits 10 8 5 (py_int ((4 # 10) * 10)) treble_times k /\
      (is_Some (m !! k) -> (k < 8)%Z).
Proof.
  apply (build_effect_map_closed_form 10 8 (13 # 10) 5 (4 # 10)
           [0; 1 # 10; 2 # 10] [0%nat] [0%nat; 1%nat]).
  - discriminate.
  - repeat constructor.
  - repeat constructor.
Defined.

(** X7. Bounds of the legacy effect map.  For a zoom factor of at least 1
    and a non-negative rotation angle, every video frame gets a zoom between
    1 and [zoom_factor], however many bass hits overlap, and a rotation
    between 0 and [rotation_angle] times the number of treble hits reaching
    the frame; a frame at or after [total_frames] gets the neutral
    [(1.0, 0.0)]. *)
Theorem build_effect_map_bounds (fps : Q) (total : Z) (zf angle dur : Q)
    (frame_times : list Q) (bass_frames treble_frames : list nat) :
  1 <= zf -> 0 <= angle ->
  Forall (fun f => (f < length frame_times)%nat) bass_frames ->
  Forall (fun f => (f < length frame_times)%nat) treble_frames ->
  exists treble_times m,
    beat_times frame_times treble_frames = Some treble_times /\
    build_effect_map fps total zf angle dur frame_times bass_frames treble_frames
    = Some m /\
    forall k,
      1 <= (effect_at m k).1 <= zf /\
      0 <= (effect_at m k).2
      <= angle * inject_Z (Z.of_nat (length (filter
           (fun t => hit_covers fps total (py_int (dur * fps)) t k = true)
           treble_times))) /\
      ((total <= k)%Z -> effect_at m k = (1, 0)).
Proof.
  intros Hzf Ha Hb Ht.
  destruct (build_effect_map_lookup fps total zf angle dur frame_times
              bass_frames treble_frames Hzf Hb Ht)
    as (bts & tts & m & _ & Htts & Hm & Hk).
  exists tts, m. split; [exact Htts|]. split; [exact Hm|].
  intros k. destruct (Hk k) as (Hz & Hr & Hkeys).
  pose proof (zoom_of_hits_range fps total zf (py_int (dur * fps)) bts k Hzf).
  pose proof (rotation_of_hits_range fps total angle (py_int (dur * fps)) tts k Ha).
  split; [rewrite Hz; assumption|]. split; [rewrite Hr; assumption|].
  intros Hge. unfold effect_at.
  destruct (m !! k) eqn:E; [|reflexivity].
  assert (k < total)%Z by (apply Hkeys; eauto). lia.
Qed.

Lemma build_effect_map_bounds_witness :
  exists treble_times m,
    beat_times [0; 1 # 10; 2 # 10] [0%nat; 1%nat] = Some treble_times /\
    build_effect_map 10 8 (13 # 10) 5 (4 # 10) [0; 1 # 10; 2 # 10]
      [0%nat] [0%nat; 1%nat] = Some m /\
    forall k,
      1 <= (effect_at m k).1 <= 13 # 10 /\
      0 <= (effect_at m k).2
      <= 5 * inject_Z (Z.of_nat (length (filter
           (fun t => hit_covers 10 8 (py_int ((4 # 10) * 10)) t k = true)
           treble_times))) /\
      ((8 <= k)%Z -> effect_at m k = (1, 0)).
Proof.
  apply (build_effect_map_bounds 10 8 (13 # 10) 5 (4 # 10)
           [0; 1 # 10; 2 # 10] [0%nat] [0%nat; 1%nat]).
  - discriminate.
  - discriminate.
  - repeat constructor.
  - repeat constructor.
Defined.

(** Two treble hits one frame apart: at frame 2 the first is at its peak
    and the second on its way up, and the frame is rotated by more than
    [rotation_angle]. *)
Example overlapping_treble_hits_add :
  exists m,
    build_effect_map 10 8 (13 # 10) 5 (4 # 10) [0; 1 # 10; 2 # 10]
      [0%nat] [0%nat; 1%nat] = Some m /\
    (effect_at m 2).2 == 5 + 5 * (5 # 16) /\
    5 < (effect_at m 2).2.
Proof.
  eexists. split; [reflexivity|]. split; vm_compute; reflexivity.
Qed.

(** ** video_processor.py: the parameters of one frame of
    [process_video_enhanced] *)

(** ** Frame parameters *)

Lemma sensitivity_blend_range cfg x :
  0 <= intensity_sensitivity cfg <= 1 -> 0 <= x <= 1 ->
  0 <= sensitivity_blend cfg x <= 1.
Proof.
  intros [Hs0 Hs1] [Hx0 Hx1]. unfold sensitivity_blend.
  assert (0 <= intensity_sensitivity cfg * x) by (apply Qmult_le_0_compat; lra).
  assert (0 <= intensity_sensitivity cfg * (1 - x))
    by (apply Qmult_le_0_compat; lra).
  lra.
Qed.

Lemma scaled_range (a x : Q) : 0 <= a -> 0 <= x <= 1 -> 0 <= a * x <= a.
Proof.
  intros Ha [Hx0 Hx1].
  assert (0 <= a * x) by (apply Qmult_le_0_compat; lra).
  assert (0 <= a * (1 - x)) by (apply Qmult_le_0_compat; lra).
  lra.
Qed.

Lemma compute_zoom_range cfg times t b :
  1 <= zoom_factor cfg -> 0 <= intensity_sensitivity cfg <= 1 ->
  1 <= compute_zoom cfg times t b <= zoom_factor cfg.
Proof.
  intros Hzf Hs. unfold compute_zoom.
  assert (Hb : 0 <= bass_intensity cfg b <= 1) by apply bass_intensity_bounds.
  assert (G : forall x, 0 <= x <= 1 ->
            1 <= 1 + (zoom_factor cfg - 1) * x <= zoom_factor cfg).
  { intros x Hx. pose proof (scaled_range (zoom_factor cfg - 1) x ltac:(lra) Hx). lra. }
  destruct (beat_triggered_zoom cfg && (0 <? length times)%nat).
  - destruct (nearest_beat_distance times t) as [d|]; [|lra].
    destruct (Qle_bool d (beat_window cfg)); [|lra].
    apply G. unfold beat_zoom_intensity. cbv zeta.
    apply sensitivity_blend_range; [exact Hs|].
    pose proof (np_clip_bounds (1 - d / beat_window cfg) 0 1 ltac:(lra)). lra.
  - apply G. unfold continuous_zoom_intensity.
    apply sensitivity_blend_range; assumption.
Qed.

Lemma compute_rotation_range cfg b :
  0 <= rotation_angle cfg -> 0 <= intensity_sensitivity cfg <= 1 ->
  0 <= compute_rotation cfg b <= rotation_angle cfg.
Proof.
  intros Ha Hs. unfold compute_rotation, rotation_intensity. cbv zeta.
  apply scaled_range; [exact Ha|].
  apply sensitivity_blend_range; [exact Hs|]. apply np_clip_bounds. lra.
Qed.

Lemma compute_brightness_range sw snares t b :
  bands_in_range b -> 1 <= compute_brightness sw snares t b <= 2.
Proof.
  intros (_ & Hba & Hmi & _). unfold compute_brightness. cbv zeta.
  assert (H : 1 <= (if enable_brightness sw
                    then 1 + (bass_val b + mid_val b) * (3 # 10) else 1) <= 2).
  { destruct (enable_brightness sw); lra. }
  destruct (snare_triggered_flash sw && (0 <? length snares)%nat); [|exact H].
  destruct (nearest_beat_distance snares t) as [d|]; [|exact H].
  destruct (Qle_bool d (snare_window sw)); [|exact H].
  apply np_clip_bounds. lra.
Qed.

(** X8. The parameters the frame loop of [process_video_enhanced] computes
    from band values in [0,1], with non-negative band weights, positive
    beat and snare windows, [zoom_factor >= 1], [rotation_angle >= 0],
    [mid_hue_shift >= 0] and a sensitivity in [0,1], whatever the switches
    and the beat and snare times: the zoom is in
    [1, zoom_factor], the rotation in [0, rotation_angle], the hue shift in
    [0, mid_hue_shift], the saturation in [1, 1.3], the brightness in
    [1, 2], the blur in [0, 0.5], the glitch and artifact intensities in
    [0, 1]. *)
Theorem frame_effect_params_range (cfg : ReactConfig) (sw : EffectSwitches)
    (bass_beat_times snare_hit_times : list Q) (current_time : Q)
    (b : BandValues) :
  bands_in_range b -> nonneg_weights cfg ->
  0 < beat_window cfg -> 0 < snare_window sw ->
  1 <= zoom_factor cfg -> 0 <= rotation_angle cfg ->
  0 <= intensity_sensitivity cfg <= 1 -> 0 <= mid_hue_shift sw ->
  let p := frame_effect_params cfg sw bass_beat_times snare_hit_times
             current_time b in
  1 <= zoom p <= zoom_factor cfg /\
  0 <= rotation p <= rotation_angle cfg /\
  0 <= hue_shift p <= mid_hue_shift sw /\
  1 <= saturation p <= 13 # 10 /\
  1 <= brightness p <= 2 /\
  0 <= blur_intensity p <= 5 # 10 /\
  0 <= glitch_intensity p <= 1 /\
  0 <= artifacts_intensity p <= 1.
Proof.
  intros Hb _ _ _ Hzf Ha Hs Hh. cbv zeta.
  pose proof Hb as (Hsb & Hba & Hmi & Htr & Hht).
  unfold frame_effect_params. cbn [zoom rotation hue_shift saturation brightness
    blur_intensity glitch_intensity artifacts_intensity].
  split; [apply compute_zoom_range; assumption|].
  split; [apply compute_rotation_range; assumption|].
  split.
  { destruct (enable_color_grading sw); [|lra].
    pose proof (scaled_range (mid_hue_shift sw) (mid_val b) Hh Hmi). lra. }
  split; [destruct (enable_color_grading sw); lra|].
  split; [apply compute_brightness_range; exact Hb|].
  split; [destruct (enable_blur sw); lra|].
  split.
  { destruct (enable_glitch sw); [|lra].
    pose proof (Qmult_le_1
                  (treble_val b * (6 # 10) + high_treble_val b * (4 # 10))
                  (intensity_sensitivity cfg) ltac:(lra) Hs). lra. }
  destruct (enable_artifacts sw); [|lra]. apply np_clip_bounds. lra.
Qed.

Lemma frame_effect_params_range_witness :
  let p := frame_effect_params default_config default_switches [1] [2] (11 # 10)
             half_bands in
  1 <= zoom p <= zoom_factor default_config /\
  0 <= rotation p <= rotation_angle default_config /\
  0 <= hue_shift p <= mid_hue_shift default_switches /\
  1 <= saturation p <= 13 # 10 /\
  1 <= brightness p <= 2 /\
  0 <= blur_intensity p <= 5 # 10 /\
  0 <= glitch_intensity p <= 1 /\
  0 <= artifacts_intensity p <= 1.
Proof.
  apply (frame_effect_params_range default_config default_switches [1] [2]
           (11 # 10) half_bands).
  - unfold bands_in_range. simpl. split_and!; discriminate.
  - unfold nonneg_weights. simpl. split_and!; discriminate.
  - reflexivity.
  - reflexivity.
  - discriminate.
  - discriminate.
  - split; discriminate.
  - discriminate.
Defined.

(** ** Stages that do nothing *)

Lemma when_positive_skip (intensity : Q) (effect : ndarray -> Q -> M ndarray)
    (frame : ndarray) :
  intensity <= 0 -> when_positive intensity effect frame = ret frame.
Proof.
  intros H. unfold when_positive.
  replace (Qltb 0 intensity) with false; [reflexivity|].
  symmetry. apply Qltb_ge. exact H.
Qed.

Lemma zoom_frame_skip (frame : ndarray) (z : Q) :
  z <= 1 -> zoom_frame frame z = ret frame.
Proof.
  intros H. unfold zoom_frame.
  replace (Qle_bool z 1) with true; [reflexivity|].
  symmetry. apply Qle_bool_iff. exact H.
Qed.

Lemma rotate_frame_skip (frame : ndarray) (angle : Q) :
  Qabs angle < 1 # 100 -> rotate_frame frame angle = ret frame.
Proof.
  intros H. unfold rotate_frame.
  replace (Qltb (Qabs angle) (1 # 100)) with true; [reflexivity|].
  symmetry. apply Qltb_lt. exact H.
Qed.

Lemma apply_color_grade_skip (frame : ndarray) (hue sat bri : Q) :
  hue == 0 -> sat == 1 -> bri == 1 -> apply_color_grade frame hue sat bri = ret frame.
Proof.
  intros H1 H2 H3. unfold apply_color_grade.
  apply Qeq_bool_iff in H1, H2, H3. rewrite H1, H2, H3. reflexivity.
Qed.

Lemma apply_effects_inactive_direct (frame : ndarray) (p : EffectParams)
    (blend_mode : string) (layer_opacity : Q) (tape : list Z) :
  inactive p ->
  apply_effects frame p "direct" blend_mode layer_opacity tape = Ok (frame, tape).
Proof.
  intros (Hz & Hr & Hh & Hs & Hb & Hi).
  repeat match goal with
         | H : Forall _ (_ :: _) |- _ =>
           let Hx := fresh "Hx" in apply Forall_cons_1 in H as [Hx H]
         end.
  unfold apply_effects, apply_effects_with.
  rewrite (zoom_frame_skip _ _ Hz).
  change (bool_decide ("direct" = "layer")) with false. cbv iota.
  unfold bind at 1. unfold ret at 1. unfold bind at 1. unfold ret at 1.
  rewrite (rotate_frame_skip _ _ Hr). unfold bind at 1. unfold ret at 1.
  rewrite (apply_color_grade_skip _ _ _ _ Hh Hs Hb). unfold bind at 1. unfold ret at 1.
  repeat (rewrite when_positive_skip by assumption; unfold bind at 1; unfold ret at 1).
  reflexivity.
Qed.

(** X9. [apply_effects] in direct mode returns the very frame it was given,
    and draws no random number, not only at the neutral values: a zoom
    factor below 1 (a zoom out), a rotation of less than 0.01 degree in
    either direction and negative intensities are all ignored, as long as
    the colour grade is neutral. *)
Theorem apply_effects_ignores_inactive (frame : ndarray) (p : EffectParams)
    (blend_mode : string) (layer_opacity : Q) (tape : list Z) :
  inactive p ->
  apply_effects frame p "direct" blend_mode layer_opacity tape = Ok (frame, tape).
Proof. apply apply_effects_inactive_direct. Qed.

Lemma apply_effects_ignores_inactive_witness :
  apply_effects (input_frame 0 4 6)
    {| zoom := 1 # 2; rotation := - (1 # 200); hue_shift := 0; saturation := 1;
       brightness := 1; blur_intensity := - (1); glitch_intensity := 0;
       artifacts_intensity := 0; pixel_sort_intensity := 0;
       kaleidoscope_intensity := - (1 # 2); wave_distortion_intensity := 0;
       vhs_intensity := 0; posterization_intensity := 0;
       edge_detection_intensity := 0; data_corruption_intensity := 0;
       scan_lines_intensity := 0 |}
    "direct" "screen" (1 # 2) [7%Z]
  = Ok (input_frame 0 4 6, [7%Z]).
Proof.
  apply apply_effects_ignores_inactive.
  unfold inactive. simpl.
  split; [discriminate|]. split; [reflexivity|].
  split; [reflexivity|]. split; [reflexivity|]. split; [reflexivity|].
  repeat constructor; discriminate.
Defined.

Lemma needs_effects_false (p : EffectParams) :
  needs_effects p = false ->
  zoom p == 1 /\ rotation p == 0 /\ hue_shift p == 0 /\ saturation p == 1 /\
  brightness p == 1 /\ blur_intensity p <= 0 /\ glitch_intensity p <= 0 /\
  artifacts_intensity p <= 0.
Proof.
  unfold needs_effects. intros H.
  repeat (apply orb_false_iff in H as [H ?]).
  repeat match goal with
         | H : negb _ = false |- _ => apply negb_false_iff, Qeq_bool_iff in H
         | H : Qltb _ _ = false |- _ => apply Qltb_ge in H
         end.
  auto 10.
Qed.

(** X10. The guard of the frame loop of [process_video_enhanced] only saves
    work: for the parameters the loop passes (the artistic intensities at
    their default 0), writing the frame untouched when the guard is false
    gives exactly what the call of [apply_effects] would give, with the same
    random draws. *)
Theorem render_frame_guard_sound (frame : ndarray) (p : EffectParams)
    (tape : list Z) :
  Forall (fun intensity => intensity == 0)
    [pixel_sort_intensity p; kaleidoscope_intensity p;
     wave_distortion_intensity p; data_corruption_intensity p;
     posterization_intensity p; edge_detection_intensity p;
     vhs_intensity p; scan_lines_intensity p] ->
  render_frame frame p tape = apply_effects frame p "direct" "normal" 1 tape.
Proof.
  intros Hzero. unfold render_frame.
  destruct (needs_effects p) eqn:Hg; [reflexivity|].
  apply needs_effects_false in Hg as (Hz & Hr & Hh & Hs & Hb & Hbl & Hgl & Har).
  repeat match goal with
         | H : Forall _ (_ :: _) |- _ =>
           let Hx := fresh "Hx" in apply Forall_cons_1 in H as [Hx H]
         end.
  symmetry. apply apply_effects_inactive_direct.
  unfold inactive. split; [lra|]. split.
  { rewrite Hr. reflexivity. }
  split; [exact Hh|]. split; [exact Hs|]. split; [exact Hb|].
  repeat constructor; lra.
Qed.

Lemma render_frame_guard_sound_witness :
  render_frame (input_frame 0 4 6) neutral_params [7%Z]
  = apply_effects (input_frame 0 4 6) neutral_params "direct" "normal" 1 [7%Z] /\
  render_frame (input_frame 0 4 6) (zoom_only 2) [7%Z]
  = apply_effects (input_frame 0 4 6) (zoom_only 2) "direct" "normal" 1 [7%Z].
Proof.
  split.
  - apply (render_frame_guard_sound (input_frame 0 4 6) neutral_params [7%Z]).
    repeat constructor.
  - apply (render_frame_guard_sound (input_frame 0 4 6) (zoom_only 2) [7%Z]).
    repeat constructor.
Defined.

(** ** Layer mode *)

Lemma bind_Ok {A B} (m : M A) (k : A -> M B) (tape : list Z) (b : B)
    (tape' : list Z) :
  bind m k tape = Ok (b, tape') ->
  exists a tape1, m tape = Ok (a, tape1) /\ k a tape1 = Ok (b, tape').
Proof.
  unfold bind. destruct (m tape) as [[a tape1]|e]; [|discriminate].
  intros H. exists a, tape1. split; [reflexivity|exact H].
Qed.

Section DrawsNothing.
Context {A B : Type}.

Lemma draws_nothing_ret (a : A) : draws_nothing (ret a).
Proof. exists (Ok a). reflexivity. Qed.

Lemma draws_nothing_raise (e : exn) : draws_nothing (raise e : M A).
Proof. exists (Raise e). reflexivity. Qed.

Lemma draws_nothing_bind (m : M A) (k : A -> M B) :
draws_nothing m -> (forall a, draws_nothing (k a)) -> draws_nothing (bind m k).
Proof.
intros [[a|e] Hm] Hk.
- destruct (Hk a) as [r Hr]. exists r. intros tape.
  unfold bind. rewrite Hm. apply Hr.
- exists (Raise e). intros tape. unfold bind. rewrite Hm. reflexivity.
Qed.

End DrawsNothing.

Lemma draws_nothing_foldM {A B} (body : B -> A -> M A) (xs : list B) :
  (forall x a, draws_nothing (body x a)) ->
  forall a, draws_nothing (foldM body xs a).
Proof.
  intros Hbody. induction xs as [|x xs IH]; intros a; simpl.
  - apply draws_nothing_ret.
  - apply draws_nothing_bind; [apply Hbody|apply IH].
Qed.

Lemma draws_nothing_Ok {A} (m : M A) (tape : list Z) (a : A) (tape' : list Z) :
  draws_nothing m -> m tape = Ok (a, tape') ->
  tape' = tape /\ forall t, m t = Ok (a, t).
Proof.
  intros [[a0|e] Hm] H; rewrite Hm in H; [|discriminate].
  injection H as -> ->. split; [reflexivity|exact Hm].
Qed.

(** Decomposes a computation into the primitives that draw nothing. *)
Ltac draws_nothing :=
  repeat first
    [ apply draws_nothing_ret
    | apply draws_nothing_raise
    | apply draws_nothing_bind; [|intros]
    | apply draws_nothing_foldM; intros
    | match goal with
      | |- draws_nothing (if ?c then _ else _) => destruct c
      | |- draws_nothing (match ?x with _ => _ end) => destruct x
      | |- draws_nothing (let (_, _) := ?x in _) => destruct x
      end ].

Lemma shape_hw_draws_nothing a : draws_nothing (shape_hw a).
Proof. unfold shape_hw. draws_nothing. Qed.

Lemma getitem_draws_nothing a ys xs : draws_nothing (getitem a ys xs).
Proof. unfold getitem. draws_nothing. Qed.

Lemma get_channel_draws_nothing a c : draws_nothing (get_channel a c).
Proof. unfold get_channel. draws_nothing. Qed.

Lemma set_channel_draws_nothing a c v : draws_nothing (set_channel a c v).
Proof. unfold set_channel. draws_nothing. Qed.

Lemma broadcast_op_draws_nothing op params args :
  draws_nothing (broadcast_op op params args).
Proof. unfold broadcast_op. draws_nothing. Qed.

Lemma cv_input_draws_nothing a : draws_nothing (cv_input a).
Proof. unfold cv_input. draws_nothing. Qed.

Lemma cv_sized_draws_nothing op params src dsize :
  draws_nothing (cv_sized op params src dsize).
Proof.
  unfold cv_sized. apply draws_nothing_bind; [apply cv_input_draws_nothing|].
  intros [[rows cols] cn]. destruct dsize as [w h]. draws_nothing.
Qed.

Lemma cv_same_draws_nothing op params src : draws_nothing (cv_same op params src).
Proof.
  unfold cv_same. apply draws_nothing_bind; [apply cv_input_draws_nothing|].
  intros [[rows cols] cn]. draws_nothing.
Qed.

Lemma cv2_cvtColor_draws_nothing src code : draws_nothing (cv2_cvtColor src code).
Proof.
  unfold cv2_cvtColor. apply draws_nothing_bind; [apply cv_input_draws_nothing|].
  intros [[rows cols] cn]. draws_nothing.
Qed.

Lemma cv2_Canny_draws_nothing gray : draws_nothing (cv2_Canny gray).
Proof.
  unfold cv2_Canny. apply draws_nothing_bind; [apply cv_input_draws_nothing|].
  intros [[rows cols] cn]. draws_nothing.
Qed.

Lemma cv2_addWeighted_draws_nothing a alpha b beta :
  draws_nothing (cv2_addWeighted a alpha b beta).
Proof.
  unfold cv2_addWeighted. apply draws_nothing_bind; [apply cv_input_draws_nothing|].
  intros [[rows cols] cn]. draws_nothing.
Qed.

Lemma cv2_remap_draws_nothing src params h w :
  draws_nothing (cv2_remap src params h w).
Proof.
  unfold cv2_remap. apply draws_nothing_bind; [apply cv_input_draws_nothing|].
  intros [[rows cols] cn]. draws_nothing.
Qed.

Create HintDb pure_effects.
#[local] Hint Resolve shape_hw_draws_nothing getitem_draws_nothing
  get_channel_draws_nothing set_channel_draws_nothing
  broadcast_op_draws_nothing cv_input_draws_nothing cv_sized_draws_nothing
  cv_same_draws_nothing cv2_cvtColor_draws_nothing cv2_Canny_draws_nothing
  cv2_addWeighted_draws_nothing cv2_remap_draws_nothing : pure_effects.

(** Like [draws_nothing], closing the leaves with the primitives. *)
Ltac pure_effect :=
  repeat first
    [ apply draws_nothing_ret
    | apply draws_nothing_raise
    | solve [auto with pure_effects]
    | apply draws_nothing_bind; [|intros]
    | apply draws_nothing_foldM; intros
    | match goal with
      | |- draws_nothing (if ?c then _ else _) => destruct c
      | |- draws_nothing (match ?x with _ => _ end) => destruct x
      | |- draws_nothing (let (_, _) := ?x in _) => destruct x
      end ].

Lemma zoom_frame_draws_nothing frame z : draws_nothing (zoom_frame frame z).
Proof. unfold zoom_frame, cv2_resize. pure_effect. Qed.

Lemma rotate_frame_draws_nothing frame a : draws_nothing (rotate_frame frame a).
Proof. unfold rotate_frame, cv2_warpAffine. pure_effect. Qed.

Lemma apply_color_grade_draws_nothing frame hue sat bri :
  draws_nothing (apply_color_grade frame hue sat bri).
Proof. unfold apply_color_grade. pure_effect. Qed.

Lemma apply_motion_blur_draws_nothing frame i :
  draws_nothing (apply_motion_blur frame i).
Proof. unfold apply_motion_blur. pure_effect. Qed.

Lemma apply_kaleidoscope_draws_nothing frame i :
  draws_nothing (apply_kaleidoscope frame i).
Proof. unfold apply_kaleidoscope, cv2_warpAffine. pure_effect. Qed.

Lemma apply_posterization_draws_nothing frame i :
  draws_nothing (apply_posterization frame i).
Proof. unfold apply_posterization. pure_effect. Qed.

Lemma apply_edge_detection_overlay_draws_nothing frame i :
  draws_nothing (apply_edge_detection_overlay frame i).
Proof. unfold apply_edge_detection_overlay. pure_effect. Qed.

Lemma apply_scan_lines_crt_draws_nothing frame i :
  draws_nothing (apply_scan_lines_crt frame i).
Proof. unfold apply_scan_lines_crt. pure_effect. Qed.

Lemma blend_layers_draws_nothing base overlay mode opacity :
  draws_nothing (blend_layers base overlay mode opacity).
Proof. unfold blend_layers. pure_effect. Qed.

Lemma when_positive_draws_nothing intensity effect frame :
  (intensity <= 0 \/ forall f i, draws_nothing (effect f i)) ->
  draws_nothing (when_positive intensity effect frame).
Proof.
  intros [H|H].
  - rewrite when_positive_skip by exact H. apply draws_nothing_ret.
  - unfold when_positive. destruct (Qltb 0 intensity);
      [apply H|apply draws_nothing_ret].
Qed.

(** X11. Reproducibility.  When the six effects that use [np.random] (pixel
    sorting, wave distortion, glitch, data corruption, artifacts and VHS
    degradation) are off, [apply_effects] draws no random number, in either
    effect mode and whatever the other parameters: the zoom, the rotation,
    the colour grade, the kaleidoscope, the posterization, the edge overlay,
    the scan lines, the blur and the blending give the same frame, or raise
    the same error, on every state of the random generator, and leave that
    state untouched. *)
Theorem apply_effects_reproducible (frame : ndarray) (p : EffectParams)
    (effect_mode blend_mode : string) (layer_opacity : Q) :
  Forall (fun intensity => intensity <= 0)
    [pixel_sort_intensity p; wave_distortion_intensity p; glitch_intensity p;
     data_corruption_intensity p; artifacts_intensity p; vhs_intensity p] ->
  draws_nothing (apply_effects frame p effect_mode blend_mode layer_opacity).
Proof.
  intros H.
  repeat match goal with
         | H : Forall _ (_ :: _) |- _ =>
           let Hx := fresh "Hx" in apply Forall_cons_1 in H as [Hx H]
         end.
  unfold apply_effects, apply_effects_with.
  apply draws_nothing_bind.
  { destruct (bool_decide (effect_mode = "layer")); [|apply draws_nothing_ret].
    apply draws_nothing_bind; [apply zoom_frame_draws_nothing|]. intros z.
    apply draws_nothing_bind; [apply rotate_frame_draws_nothing|]. intros r.
    apply draws_nothing_ret. }
  intros original_transformed.
  apply draws_nothing_bind; [apply zoom_frame_draws_nothing|]. intros f1.
  apply draws_nothing_bind; [apply rotate_frame_draws_nothing|]. intros f2.
  apply draws_nothing_bind; [apply apply_color_grade_draws_nothing|]. intros f3.
  repeat (apply draws_nothing_bind;
          [apply when_positive_draws_nothing;
           first [ left; assumption
                 | right; first
                     [ exact apply_kaleidoscope_draws_nothing
                     | exact apply_posterization_draws_nothing
                     | exact apply_edge_detection_overlay_draws_nothing
                     | exact apply_scan_lines_crt_draws_nothing
                     | exact apply_motion_blur_draws_nothing ] ]
          | intros ]).
  destruct original_transformed as [o|]; [|apply draws_nothing_ret].
  destruct (bool_decide (effect_mode = "layer")); [|apply draws_nothing_ret].
  apply blend_layers_draws_nothing.
Qed.

Lemma apply_effects_reproducible_witness :
  draws_nothing
    (apply_effects (input_frame 0 100 120)
       {| zoom := 13 # 10; rotation := 5; hue_shift := 30; saturation := 3 # 2;
          brightness := 12 # 10; blur_intensity := 1; glitch_intensity := 0;
          artifacts_intensity := 0; pixel_sort_intensity := 0;
          kaleidoscope_intensity := 1; wave_distortion_intensity := 0;
          vhs_intensity := 0; posterization_intensity := 1;
          edge_detection_intensity := 1; data_corruption_intensity := 0;
          scan_lines_intensity := 1 |}
       "layer" "screen" (1 # 2)).
Proof.
  apply apply_effects_reproducible. simpl. repeat constructor; discriminate.
Defined.

(** The glitch effect, by contrast, reads the random generator: two states
    give two frames. *)
Example apply_glitch_effect_draws :
  apply_glitch_effect (input_frame 0 100 120) 1 [1%Z; 2%Z; 3%Z; 4%Z; 5%Z; 6%Z]
  <> apply_glitch_effect (input_frame 0 100 120) 1 [6%Z; 5%Z; 4%Z; 3%Z; 2%Z; 1%Z] /\
  ~ draws_nothing (apply_glitch_effect (input_frame 0 100 120) 1).
Proof.
  split; [vm_compute; discriminate|].
  intros [r Hr].
  pose proof (Hr [1%Z]) as H1. pose proof (Hr []) as H0.
  destruct r as [a|e]; vm_compute in H0, H1.
  - injection H1 as _ Ht. discriminate Ht.
  - discriminate H0.
Qed.

(** X12. Layer mode at zero opacity.  When [apply_effects] returns in layer
    mode with [layer_opacity <= 0], the frame returned is the zoomed and
    rotated original: [blend_layers] returns its base layer, and the pixels
    of every other effect are discarded, although the effects were run (they
    may have drawn random numbers). *)
Theorem layer_mode_zero_opacity (frame : ndarray) (p : EffectParams)
    (blend_mode : string) (layer_opacity : Q) (tape : list Z)
    (result : ndarray) (tape' : list Z) :
  layer_opacity <= 0 ->
  apply_effects frame p "layer" blend_mode layer_opacity tape = Ok (result, tape') ->
  forall t,
    bind (zoom_frame frame (zoom p)) (fun f => rotate_frame f (rotation p)) t
    = Ok (result, t).
Proof.
  intros Hop H. unfold apply_effects, apply_effects_with in H.
  change (bool_decide ("layer" = "layer")) with true in H. cbv iota in H.
  unfold copy in H.
  apply bind_Ok in H as (o & t1 & Ho & H).
  apply bind_Ok in Ho as (z & tz & Hz & Ho).
  apply bind_Ok in Ho as (r & tr & Hr & Ho).
  injection Ho as <- <-.
  do 14 (apply bind_Ok in H as (? & ? & _ & H)).
  unfold blend_layers in H.
  replace (Qle_bool layer_opacity 0) with true in H
    by (symmetry; apply Qle_bool_iff; exact Hop).
  injection H as <- _.
  apply (draws_nothing_Ok _ _ _ _ (zoom_frame_draws_nothing _ _)) in Hz as [-> Hz].
  apply (draws_nothing_Ok _ _ _ _ (rotate_frame_draws_nothing _ _)) in Hr as [_ Hr].
  intros t. unfold bind. rewrite Hz. apply Hr.
Qed.

Lemma layer_mode_zero_opacity_witness :
  bind (zoom_frame (input_frame 0 100 120) (zoom busy_params))
       (fun f => rotate_frame f (rotation busy_params)) [9%Z]
  = Ok ({| shape := [100%nat; 120%nat; 3%nat];
           data := Prim "cv2.warpAffine" [60; 50; 5; 1; 120; 100]
                     [Prim "cv2.resize" [120; 100]
                        [Prim "getitem" [12; 88; 14; 106] [Raw 0]]] |}, [9%Z]).
Proof.
  refine (layer_mode_zero_opacity (input_frame 0 100 120) busy_params "screen" 0
            [1%Z; 2%Z; 3%Z] _ [] _ _ [9%Z]).
  - discriminate.
  - vm_compute. reflexivity.
Defined.

(** ** The frame loop never fails on frames larger than the zoom factor *)

Lemma crop_nonempty_of_le (h w : nat) (z : Q) :
  z <= inject_Z (Z.of_nat h) -> z <= inject_Z (Z.of_nat w) -> crop_nonempty h w z.
Proof.
  intros Hh Hw Hz. unfold Zq.
  split; apply py_int_ge; try lia; change (inject_Z 1) with 1;
    apply Qle_shift_div_l; lra.
Qed.

(** X13. With band values in [0,1], non-negative band weights, positive
    beat and snare windows, [zoom_factor >= 1], a sensitivity in [0,1] and a
    colour frame at least [zoom_factor] pixels high and wide, what the frame
    loop of [process_video_enhanced] hands to the writer is always a frame
    of the size of its input: neither the guard nor [apply_effects] can
    raise, on any state of the random generator, whatever the switches, the
    rotation angle, the beats and the snares. *)
Theorem render_frame_succeeds (cfg : ReactConfig) (sw : EffectSwitches)
    (bass_beat_times snare_hit_times : list Q) (current_time : Q)
    (b : BandValues) (frame : ndarray) (h w : nat) :
  bands_in_range b -> nonneg_weights cfg ->
  0 < beat_window cfg -> 0 < snare_window sw ->
  1 <= zoom_factor cfg -> 0 <= intensity_sensitivity cfg <= 1 ->
  zoom_factor cfg <= inject_Z (Z.of_nat h) ->
  zoom_factor cfg <= inject_Z (Z.of_nat w) ->
  color_frame h w frame ->
  succeeds
    (render_frame frame
       (frame_effect_params cfg sw bass_beat_times snare_hit_times current_time b))
    (color_frame h w).
Proof.
  intros Hb _ _ _ Hzf Hs Hh Hw Hf. unfold render_frame.
  destruct (needs_effects _); [|apply succeeds_ret; exact Hf].
  pose proof (compute_zoom_range cfg bass_beat_times current_time b Hzf Hs) as [_ Hz].
  assert (H1 : (1 <= Z.of_nat h)%Z) by (rewrite Zle_Qle; change (inject_Z 1) with 1; lra).
  assert (H2 : (1 <= Z.of_nat w)%Z) by (rewrite Zle_Qle; change (inject_Z 1) with 1; lra).
  apply apply_effects_succeeds; try assumption; try lia.
  - apply crop_nonempty_of_le; cbn [zoom frame_effect_params]; lra.
  - intros Hc. cbn [data_corruption_intensity frame_effect_params] in Hc. lra.
Qed.

Lemma render_frame_succeeds_witness :
  succeeds
    (render_frame (input_frame 0 100 120)
       (frame_effect_params default_config default_switches [1] [2] (11 # 10)
          half_bands))
    (color_frame 100 120).
Proof.
  apply (render_frame_succeeds default_config default_switches [1] [2] (11 # 10)
           half_bands (input_frame 0 100 120) 100 120).
  - unfold bands_in_range. simpl. split_and!; discriminate.
  - unfold nonneg_weights. simpl. split_and!; discriminate.
  - reflexivity.
  - reflexivity.
  - discriminate.
  - split; discriminate.
  - discriminate.
  - discriminate.
  - reflexivity.
Defined.

(** ** audio_analysis.py: the analyzer *)

(** ** What a detected peak is *)

Lemma detect_peaks_inv energy pct d peaks :
  detect_peaks energy pct d = Some peaks ->
  exists threshold,
    np_percentile energy pct = Some threshold /\ (1 <= d)%nat /\
    peaks = mask_select (peaks_above energy threshold)
              (select_by_peak_distance (peaks_above energy threshold)
                 (map (fun p => nth p energy 0) (peaks_above energy threshold)) d).
Proof.
  unfold detect_peaks. intros H.
  destruct (np_percentile energy pct) as [threshold|]; [|discriminate].
  simpl in H. unfold find_peaks in H.
  destruct (d <? 1)%nat eqn:Hd; [discriminate|].
  apply Nat.ltb_ge in Hd. injection H as <-.
  exists threshold. split; [reflexivity|]. split; [exact Hd|reflexivity].
Qed.

Lemma detect_peaks_Some energy pct d :
  energy <> [] -> 0 <= pct -> pct <= 100 -> (1 <= d)%nat ->
  exists threshold peaks,
    np_percentile energy pct = Some threshold /\
    detect_peaks energy pct d = Some peaks /\
    StronglySorted lt peaks /\
    Forall (fun p => local_maximum energy p /\ threshold <= nth p energy 0) peaks.
Proof.
  intros Hne H0 H100 Hd.
  destruct (np_percentile_Some energy pct Hne H0 H100) as [threshold Ht].
  exists threshold. eexists. split; [exact Ht|].
  unfold detect_peaks. rewrite Ht. simpl. unfold find_peaks.
  replace (d <? 1)%nat with false by (symmetry; apply Nat.ltb_ge; exact Hd).
  split; [reflexivity|]. split.
  - apply kept_sorted.
  - apply mask_select_Forall. apply peaks_above_spec.
Qed.

(** X14. What [detect_peaks] returns.  For a non-empty curve, a percentile
    in [0,100] and a minimal distance of at least 1, every index returned is
    an interior sample that sits on a local maximum (a run of equal samples
    with a strictly lower sample on each side) and whose value reaches the
    percentile threshold.  So a curve of fewer than three samples and a
    constant curve have no peak. *)
Theorem detect_peaks_local_maxima (energy : list Q) (pct : Q) (d : nat) :
  energy <> [] -> 0 <= pct -> pct <= 100 -> (1 <= d)%nat ->
  exists threshold peaks,
    np_percentile energy pct = Some threshold /\
    detect_peaks energy pct d = Some peaks /\
    Forall (fun p => (1 <= p)%nat /\ (p + 1 < length energy)%nat /\
                     local_maximum energy p /\
                     threshold <= nth p energy 0) peaks /\
    ((length energy < 3)%nat -> peaks = []) /\
    ((forall i j, nth i energy 0 == nth j energy 0) -> peaks = []).
Proof.
  intros Hne H0 H100 Hd.
  destruct (detect_peaks_Some energy pct d Hne H0 H100 Hd)
    as (threshold & peaks & Ht & Hp & _ & Hall).
  exists threshold, peaks. split; [exact Ht|]. split; [exact Hp|].
  split; [|split].
  - eapply Forall_impl; [exact Hall|]. intros p [Hm Hh].
    destruct (local_maximum_inside _ _ Hm). auto.
  - intros Hlen. destruct peaks as [|p peaks]; [reflexivity|].
    apply Forall_cons_1 in Hall as [[Hm _] _].
    apply local_maximum_inside in Hm. lia.
  - intros Hconst. destruct peaks as [|p peaks]; [reflexivity|].
    apply Forall_cons_1 in Hall as [[Hm _] _].
    destruct Hm as (l & r & _ & _ & _ & _ & _ & Hlt & _).
    rewrite (Hconst (l - 1)%nat p) in Hlt. lra.
Qed.

Lemma detect_peaks_local_maxima_witness :
  exists threshold peaks,
    np_percentile two_peaks_apart 50 = Some threshold /\
    detect_peaks two_peaks_apart 50 4 = Some peaks /\
    Forall (fun p => (1 <= p)%nat /\ (p + 1 < length two_peaks_apart)%nat /\
                     local_maximum two_peaks_apart p /\
                     threshold <= nth p two_peaks_apart 0) peaks /\
    ((length two_peaks_apart < 3)%nat -> peaks = []) /\
    ((forall i j, nth i two_peaks_apart 0 == nth j two_peaks_apart 0) -> peaks = []).
Proof.
  apply (detect_peaks_local_maxima two_peaks_apart 50 4).
  - discriminate.
  - discriminate.
  - discriminate.
  - lia.
Defined.

(** ** Band energy *)

Lemma length_np_sum_axis0 n rows :
  Forall (fun row => length row = n) rows -> length (np_sum_axis0 n rows) = n.
Proof.
  unfold np_sum_axis0. induction 1 as [|row rows Hrow _ IH]; simpl.
  - apply length_replicate.
  - rewrite length_zip_with, Hrow, IH. lia.
Qed.

Lemma zip_with_Qplus_nonneg (r1 r2 : list Q) :
  Forall (fun v => 0 <= v) r1 -> Forall (fun v => 0 <= v) r2 ->
  Forall (fun v => 0 <= v) (zip_with Qplus r1 r2).
Proof.
  intros H1. revert r2. induction H1 as [|a r1 Ha _ IH]; intros r2 H2; simpl.
  - constructor.
  - destruct H2 as [|b r2 Hb H2]; constructor; [lra|apply IH; exact H2].
Qed.

Lemma np_sum_axis0_nonneg n rows :
  Forall (Forall (fun v => 0 <= v)) rows ->
  Forall (fun v => 0 <= v) (np_sum_axis0 n rows).
Proof.
  unfold np_sum_axis0. induction 1 as [|row rows Hrow _ IH]; simpl.
  - apply Forall_replicate. lra.
  - apply zip_with_Qplus_nonneg; assumption.
Qed.

Lemma Forall2_Qle_refl (l : list Q) : Forall2 Qle l l.
Proof. induction l; constructor; [lra|assumption]. Qed.

Lemma zip_with_Qplus_mono (row r1 r2 : list Q) :
  Forall2 Qle r1 r2 -> Forall2 Qle (zip_with Qplus row r1) (zip_with Qplus row r2).
Proof.
  intros H. revert row. induction H as [|a b r1 r2 Hab _ IH]; intros row.
  - destruct row; constructor.
  - destruct row as [|v row]; simpl; constructor; [lra|apply IH].
Qed.

Lemma zip_with_Qplus_grow (row r1 r2 : list Q) :
  length row = length r2 -> Forall (fun v => 0 <= v) row ->
  Forall2 Qle r1 r2 -> Forall2 Qle r1 (zip_with Qplus row r2).
Proof.
  intros Hlen Hrow H. revert row Hlen Hrow.
  induction H as [|a b r1 r2 Hab _ IH]; intros row Hlen Hrow.
  - destruct row; [constructor|discriminate].
  - destruct row as [|v row]; [discriminate|]. simpl.
    apply Forall_cons_1 in Hrow as [Hv Hrow].
    constructor; [lra|]. apply IH; [simpl in Hlen; lia|exact Hrow].
Qed.

(** Summing the rows a mask selects: a mask that selects more rows gives at
    least as much, column by column. *)
Lemma masked_sum_mono n (rows : list (list Q)) :
  Forall (fun row => length row = n /\ Forall (fun v => 0 <= v) row) rows ->
  forall m1 m2 : list bool,
    length m1 = length rows -> length m2 = length rows ->
    (forall j, m1 !! j = Some true -> m2 !! j = Some true) ->
    Forall2 Qle (np_sum_axis0 n (mask_select rows m1))
                (np_sum_axis0 n (mask_select rows m2)).
Proof.
  unfold np_sum_axis0.
  induction 1 as [|row rows [Hlen Hrow] Hrows IH]; intros m1 m2 L1 L2 Hsub.
  - simpl. apply Forall2_Qle_refl.
  - destruct m1 as [|b1 m1]; [discriminate|].
    destruct m2 as [|b2 m2]; [discriminate|].
    simpl in L1, L2.
    assert (IH' := IH m1 m2 ltac:(lia) ltac:(lia)
                      (fun j Hj => Hsub (S j) Hj)).
    cbn [mask_select].
    destruct b1, b2; cbn [foldr].
    + apply zip_with_Qplus_mono. exact IH'.
    + specialize (Hsub 0%nat eq_refl). discriminate.
    + apply zip_with_Qplus_grow; [|exact Hrow|exact IH'].
      rewrite Hlen. symmetry.
      apply (length_np_sum_axis0 n). apply mask_select_Forall.
      eapply Forall_impl; [exact Hrows|]. intros r [Hr _]. exact Hr.
    + exact IH'.
Qed.

Lemma mask_select_none {A} (a : list A) (keep : list bool) :
  Forall (fun b => b = false) keep -> mask_select a keep = [].
Proof.
  intros H. revert a. induction H as [|b keep -> _ IH]; intros a.
  - destruct a; reflexivity.
  - destruct a; [reflexivity|]. simpl. apply IH.
Qed.

Lemma length_fft_frequencies sr n_fft :
  length (fft_frequencies sr n_fft) = (n_fft / 2 + 1)%nat.
Proof. unfold fft_frequencies. rewrite length_map, length_seq. reflexivity. Qed.

Lemma extract_frequency_band_energy_Some a fmin fmax :
  spectrogram_computed a ->
  extract_frequency_band_energy a (fmin, fmax)
  = Some (np_sum_axis0 (length (times a))
            (mask_select (spectrogram a)
               (map (fun f => Qle_bool fmin f && Qle_bool f fmax)
                    (fft_frequencies (sr a) (n_fft a))))).
Proof.
  intros (Hrows & Hall & _). unfold extract_frequency_band_energy.
  rewrite length_map, length_fft_frequencies, Hrows, Nat.eqb_refl.
  destruct (spectrogram a) as [|row rows] eqn:E; [simpl in Hrows; lia|].
  apply Forall_cons_1 in Hall as [[Hlen _] _]. simpl. rewrite Hlen. reflexivity.
Qed.

(** X15. [extract_frequency_band_energy] on a computed spectrogram (one row
    of non-negative magnitudes per FFT bin): it returns one energy value per
    spectrogram frame, none of them negative; a band that contains no bin
    frequency gives zeros; and a band contained in another never has more
    energy than it, frame by frame. *)
Theorem extract_frequency_band_energy_spec (a : AudioAnalyzer) (fmin fmax : Q) :
  spectrogram_computed a ->
  exists energy,
    extract_frequency_band_energy a (fmin, fmax) = Some energy /\
    length energy = length (times a) /\
    Forall (fun v => 0 <= v) energy /\
    ((forall f, f ∈ fft_frequencies (sr a) (n_fft a) -> ~ (fmin <= f /\ f <= fmax)) ->
     energy = replicate (length (times a)) 0) /\
    (forall fmin' fmax', fmin <= fmin' -> fmax' <= fmax ->
       exists inner,
         extract_frequency_band_energy a (fmin', fmax') = Some inner /\
         Forall2 Qle inner energy).
Proof.
  intros Hc. pose proof Hc as (Hrows & Hall & _).
  rewrite (extract_frequency_band_energy_Some a fmin fmax Hc).
  eexists. split; [reflexivity|].
  split.
  { apply length_np_sum_axis0. apply mask_select_Forall.
    eapply Forall_impl; [exact Hall|]. intros r [Hr _]. exact Hr. }
  split.
  { apply np_sum_axis0_nonneg. apply mask_select_Forall.
    eapply Forall_impl; [exact Hall|]. intros r [_ Hr]. exact Hr. }
  split.
  { intros Hnone. rewrite mask_select_none; [reflexivity|].
    apply Forall_forall. intros b Hb.
    apply list_elem_of_fmap in Hb as (f & -> & Hf).
    apply not_true_is_false. intros Ht.
    apply andb_true_iff in Ht as [H1 H2]. apply Qle_bool_iff in H1, H2.
    apply (Hnone f Hf). split; assumption. }
  intros fmin' fmax' Hlo Hhi.
  rewrite (extract_frequency_band_energy_Some a fmin' fmax' Hc).
  eexists. split; [reflexivity|].
  apply masked_sum_mono.
  - exact Hall.
  - rewrite length_map, length_fft_frequencies. symmetry. exact Hrows.
  - rewrite length_map, length_fft_frequencies. symmetry. exact Hrows.
  - intros j. rewrite !list_lookup_fmap.
    destruct (fft_frequencies (sr a) (n_fft a) !! j) as [f|]; [|discriminate].
    simpl. intros [= Ht]. f_equal.
    apply andb_true_iff in Ht as [H1 H2]. apply Qle_bool_iff in H1, H2.
    apply andb_true_iff. split; apply Qle_bool_iff; lra.
Qed.

Lemma small_analyzer_computed : spectrogram_computed small_analyzer.
Proof.
  unfold spectrogram_computed. simpl. split; [reflexivity|]. split; [|reflexivity].
  repeat constructor; discriminate.
Qed.

Lemma extract_frequency_band_energy_spec_witness :
  exists energy,
    extract_frequency_band_energy small_analyzer (1, 5) = Some energy /\
    length energy = length (times small_analyzer) /\
    Forall (fun v => 0 <= v) energy /\
    ((forall f, f ∈ fft_frequencies (sr small_analyzer) (n_fft small_analyzer) ->
        ~ (1 <= f /\ f <= 5)) ->
     energy = replicate (length (times small_analyzer)) 0) /\
    (forall fmin' fmax', 1 <= fmin' -> fmax' <= 5 ->
       exists inner,
         extract_frequency_band_energy small_analyzer (fmin', fmax') = Some inner /\
         Forall2 Qle inner energy).
Proof.
  apply (extract_frequency_band_energy_spec small_analyzer 1 5).
  exact small_analyzer_computed.
Defined.

(** ** Normalization *)

Lemma normalize_energy_inv (energy out : list Q) :
  normalize_energy energy = Some out ->
  exists mn mx,
    np_min energy = Some mn /\ np_max energy = Some mx /\
    out = (if Qltb (mx - mn) eps8 then map (fun _ => 0) energy
           else map (fun x => (x - mn) / (mx - mn)) energy).
Proof.
  unfold normalize_energy. intros H.
  destruct (np_min energy) as [mn|]; [|discriminate].
  destruct (np_max energy) as [mx|]; [|discriminate].
  simpl in H. exists mn, mx. split; [reflexivity|]. split; [reflexivity|].
  destruct (Qltb (mx - mn) eps8); congruence.
Qed.

Lemma normalize_energy_Some (energy : list Q) :
  energy <> [] ->
  exists out,
    normalize_energy energy = Some out /\
    length out = length energy /\
    Forall (fun v => 0 <= v <= 1) out.
Proof.
  intros Hne.
  destruct (np_min energy) as [mn|] eqn:Hmin;
    [|destruct energy; [congruence|discriminate]].
  destruct (np_max energy) as [mx|] eqn:Hmax;
    [|destruct energy; [congruence|discriminate]].
  destruct (np_min_spec _ _ Hmin) as [_ Hmn_le].
  destruct (np_max_spec _ _ Hmax) as [_ Hmx_ge].
  unfold normalize_energy. rewrite Hmin, Hmax. simpl.
  destruct (Qltb (mx - mn) eps8) eqn:Hr; eexists; (split; [reflexivity|]);
    (split; [apply length_map|]); apply Forall_forall; intros v Hv;
    apply list_elem_of_fmap in Hv as (x & -> & Hx).
  - lra.
  - apply Qltb_ge in Hr. apply normalized_value_bounds; auto.
    unfold eps8 in Hr. lra.
Qed.

Lemma Qdiv_le_mono (a b c : Q) : 0 < c -> a <= b -> a / c <= b / c.
Proof.
  intros Hc Hab. unfold Qdiv. apply Qmult_le_compat_r; [exact Hab|].
  apply Qlt_le_weak, Qinv_lt_0_compat. exact Hc.
Qed.

(** X16. [normalize_energy] keeps the order of the samples, and
    normalizing twice changes nothing more: the result of a second pass
    equals the first, sample by sample.  When the range of the input is at
    least [1e-8], a sample equal to the minimum becomes 0 and one equal to
    the maximum becomes 1. *)
Theorem normalize_energy_order (energy : list Q) :
  energy <> [] ->
  exists out mn mx,
    normalize_energy energy = Some out /\
    np_min energy = Some mn /\ np_max energy = Some mx /\
    (forall i j, (i < length energy)%nat -> (j < length energy)%nat ->
       nth i energy 0 <= nth j energy 0 -> nth i out 0 <= nth j out 0) /\
    (eps8 <= mx - mn ->
     forall i, (i < length energy)%nat ->
       (nth i energy 0 == mn -> nth i out 0 == 0) /\
       (nth i energy 0 == mx -> nth i out 0 == 1)) /\
    exists again, normalize_energy out = Some again /\ Forall2 Qeq again out.
Proof.
  intros Hne.
  destruct (normalize_energy_Some energy Hne) as (out & Hout & Hlen & Hrange).
  destruct (normalize_energy_inv _ _ Hout) as (mn & mx & Hmin & Hmax & Hform).
  destruct (np_min_spec _ _ Hmin) as [Hmn_in Hmn_le].
  destruct (np_max_spec _ _ Hmax) as [Hmx_in Hmx_ge].
  exists out, mn, mx. split; [exact Hout|]. split; [exact Hmin|]. split; [exact Hmax|].
  assert (Hnth : forall i, (i < length energy)%nat ->
            nth i out 0 = if Qltb (mx - mn) eps8 then 0
                          else (nth i energy 0 - mn) / (mx - mn)).
  { intros i Hi. rewrite Hform. destruct (Qltb (mx - mn) eps8).
    - exact (map_nth (fun _ : Q => 0) energy 0 i).
    - rewrite (nth_indep _ 0 ((fun x => (x - mn) / (mx - mn)) 0))
        by (rewrite length_map; exact Hi).
      rewrite (map_nth (fun x => (x - mn) / (mx - mn)) energy 0 i). reflexivity. }
  split; [|split].
  - intros i j Hi Hj Hle. rewrite (Hnth i Hi), (Hnth j Hj).
    destruct (Qltb (mx - mn) eps8) eqn:Hr; [lra|].
    apply Qltb_ge in Hr. apply Qdiv_le_mono; [unfold eps8 in Hr; lra|lra].
  - intros Hr i Hi. rewrite (Hnth i Hi).
    replace (Qltb (mx - mn) eps8) with false by (symmetry; apply Qltb_ge; exact Hr).
    assert (Hpos : ~ mx - mn == 0) by (unfold eps8 in Hr; lra).
    split; intros E; rewrite E; field; exact Hpos.
  - assert (Hone : out <> []).
    { intros ->. destruct energy; [congruence|discriminate]. }
    destruct (normalize_energy_Some out Hone) as (again & Hagain & Hlen2 & _).
    exists again. split; [exact Hagain|].
    destruct (normalize_energy_inv _ _ Hagain) as (mn' & mx' & Hmin' & Hmax' & Hform').
    destruct (np_min_spec _ _ Hmin') as [Hmn_in' Hmn_le'].
    destruct (np_max_spec _ _ Hmax') as [Hmx_in' Hmx_ge'].
    rewrite Forall_forall in Hrange.
    destruct (Qltb (mx - mn) eps8) eqn:Hr.
    + (* the first pass gave zeros *)
      assert (Hz : forall v, v ∈ out -> v = 0).
      { intros v Hv. rewrite Hform in Hv.
        apply list_elem_of_fmap in Hv as (? & -> & _). reflexivity. }
      rewrite (Hz mn' Hmn_in'), (Hz mx' Hmx_in') in Hform'.
      change (Qltb (0 - 0) eps8) with true in Hform'. cbv iota in Hform'.
      rewrite Hform'. clear -Hz. induction out as [|v out IH]; [constructor|].
      simpl. constructor.
      * rewrite (Hz v) by (left). reflexivity.
      * apply IH. intros w Hw. apply Hz. right. exact Hw.
    + apply Qltb_ge in Hr.
      assert (Hpos : 0 < mx - mn) by (unfold eps8 in Hr; lra).
      assert (Hlo : mn' == 0).
      { assert (H0 : (mn - mn) / (mx - mn) ∈ out).
        { rewrite Hform. apply list_elem_of_fmap. exists mn. split; [reflexivity|exact Hmn_in]. }
        pose proof (Hmn_le' _ H0) as Hle. pose proof (Hrange _ Hmn_in') as [Hge _].
        assert (E : (mn - mn) / (mx - mn) == 0) by (field; lra).
        rewrite E in Hle. lra. }
      assert (Hhi : mx' == 1).
      { assert (H1 : (mx - mn) / (mx - mn) ∈ out).
        { rewrite Hform. apply list_elem_of_fmap. exists mx. split; [reflexivity|exact Hmx_in]. }
        pose proof (Hmx_ge' _ H1) as Hge. pose proof (Hrange _ Hmx_in') as [_ Hle].
        assert (E : (mx - mn) / (mx - mn) == 1) by (field; lra).
        rewrite E in Hge. lra. }
      assert (Hr' : Qltb (mx' - mn') eps8 = false).
      { apply Qltb_ge. rewrite Hhi, Hlo. discriminate. }
      rewrite Hr' in Hform'. rewrite Hform'.
      clear -Hlo Hhi. induction out as [|v out IH]; [constructor|].
      simpl. constructor; [|exact IH].
      rewrite Hhi, Hlo. field.
Qed.

Lemma normalize_energy_order_witness :
  exists out mn mx,
    normalize_energy [1; 3; 2] = Some out /\
    np_min [1; 3; 2] = Some mn /\ np_max [1; 3; 2] = Some mx /\
    (forall i j, (i < length [1; 3; 2])%nat -> (j < length [1; 3; 2])%nat ->
       nth i [1; 3; 2] 0 <= nth j [1; 3; 2] 0 -> nth i out 0 <= nth j out 0) /\
    (eps8 <= mx - mn ->
     forall i, (i < length [1; 3; 2])%nat ->
       (nth i [1; 3; 2] 0 == mn -> nth i out 0 == 0) /\
       (nth i [1; 3; 2] 0 == mx -> nth i out 0 == 1)) /\
    exists again, normalize_energy out = Some again /\ Forall2 Qeq again out.
Proof.
  apply (normalize_energy_order [1; 3; 2]). discriminate.
Defined.

(** ** The time axis *)

Lemma frames_to_time_lookup n sr hop k v :
  frames_to_time n sr hop !! k = Some v ->
  (k < n)%nat /\ v = inject_Z (Z.of_nat (k * hop)) / sr.
Proof.
  unfold frames_to_time. rewrite list_lookup_fmap.
  destruct (seq 0 n !! k) as [k'|] eqn:Hk; [|discriminate].
  apply lookup_seq in Hk as [-> Hlt]. simpl. intros [= <-]. auto.
Qed.

(** X17. The frame times [compute_spectrogram] stores, for a positive
    sample rate and hop length: one per frame, starting at 0 and strictly
    increasing, frame [k] at [k * hop_length / sr]; so they are a valid
    abscissa axis for [np.interp]. *)
Theorem frames_to_time_increasing (n : nat) (sr : Q) (hop : nat) :
  0 < sr -> (0 < hop)%nat ->
  length (frames_to_time n sr hop) = n /\
  strictly_increasing (frames_to_time n sr hop) /\
  (forall k, (k < n)%nat ->
     nth k (frames_to_time n sr hop) 0
     == inject_Z (Z.of_nat k) * (inject_Z (Z.of_nat hop) / sr)) /\
  ((0 < n)%nat -> nth 0 (frames_to_time n sr hop) 0 == 0).
Proof.
  intros Hsr Hhop.
  assert (Hnth : forall k, (k < n)%nat ->
            nth k (frames_to_time n sr hop) 0
            == inject_Z (Z.of_nat k) * (inject_Z (Z.of_nat hop) / sr)).
  { intros k Hk. unfold frames_to_time.
    rewrite (nth_indep _ 0 ((fun k => inject_Z (Z.of_nat (k * hop)) / sr) 0%nat))
      by (rewrite length_map, length_seq; exact Hk).
    rewrite (map_nth (fun k => inject_Z (Z.of_nat (k * hop)) / sr)).
    rewrite seq_nth by exact Hk. simpl.
    rewrite Nat2Z.inj_mul, inject_Z_mult. field. lra. }
  split; [unfold frames_to_time; rewrite length_map; apply length_seq|].
  split; [|split; [exact Hnth|]].
  - intros i j u v Hij Hu Hv.
    apply frames_to_time_lookup in Hu as [Hi ->].
    apply frames_to_time_lookup in Hv as [Hj ->].
    apply Qlt_shift_div_l; [exact Hsr|].
    assert (E : inject_Z (Z.of_nat (i * hop)) / sr * sr
                == inject_Z (Z.of_nat (i * hop))) by (field; lra).
    rewrite E. rewrite <- Zlt_Qlt. nia.
  - intros Hn. rewrite (Hnth 0%nat Hn). change (inject_Z (Z.of_nat 0)) with 0. ring.
Qed.

Lemma frames_to_time_increasing_witness :
  length (frames_to_time 3 22050 512) = 3%nat /\
  strictly_increasing (frames_to_time 3 22050 512) /\
  (forall k, (k < 3)%nat ->
     nth k (frames_to_time 3 22050 512) 0
     == inject_Z (Z.of_nat k) * (inject_Z (Z.of_nat 512) / 22050)) /\
  ((0 < 3)%nat -> nth 0 (frames_to_time 3 22050 512) 0 == 0).
Proof.
  apply (frames_to_time_increasing 3 22050 512).
  - reflexivity.
  - lia.
Defined.

(** ** The multi-band analysis *)

Lemma extract_then_normalize a freq_range :
  spectrogram_computed a -> times a <> [] ->
  exists energy normalized,
    extract_frequency_band_energy a freq_range = Some energy /\
    normalize_energy energy = Some normalized /\
    length normalized = length (times a) /\
    Forall (fun v => 0 <= v <= 1) normalized.
Proof.
  intros Hc Hne. destruct freq_range as [fmin fmax].
  pose proof Hc as (Hrows & Hall & _).
  rewrite (extract_frequency_band_energy_Some a fmin fmax Hc).
  set (energy := np_sum_axis0 _ _).
  assert (Hlen : length energy = length (times a)).
  { apply length_np_sum_axis0. apply mask_select_Forall.
    eapply Forall_impl; [exact Hall|]. intros r [Hr _]. exact Hr. }
  destruct (normalize_energy_Some energy) as (normalized & Hn & Hl & Hr).
  { intros E. rewrite E in Hlen. destruct (times a); [congruence|discriminate]. }
  exists energy, normalized. split; [reflexivity|]. split; [exact Hn|].
  split; [congruence|exact Hr].
Qed.

Lemma set_energy_curves_computed a c :
  spectrogram_computed a -> spectrogram_computed (set_energy_curves a c).
Proof. intros H. exact H. Qed.

Lemma band_curves_spec a bands :
  spectrogram_computed a -> times a <> [] ->
  forall acc,
    (forall name c, acc !! name = Some c ->
       length c = length (times a) /\ Forall (fun v => 0 <= v <= 1) c) ->
    exists curves,
      band_curves a bands acc = Some curves /\
      (forall name c, curves !! name = Some c ->
         length c = length (times a) /\ Forall (fun v => 0 <= v <= 1) c) /\
      (forall name, is_Some (curves !! name) <->
                    is_Some (acc !! name) \/ name ∈ bands.*1).
Proof.
  intros Hc Hne. induction bands as [|[band_name freq_range] rest IH]; intros acc Hacc.
  - exists acc. split; [reflexivity|]. split; [exact Hacc|].
    intros name. simpl. rewrite elem_of_nil. tauto.
  - cbn [band_curves].
    destruct (extract_then_normalize a freq_range Hc Hne)
      as (energy & normalized & -> & Hn & Hlen & Hr). simpl. rewrite Hn. simpl.
    destruct (IH (<[band_name := normalized]> acc)) as (curves & Hcurves & Hall & Hkeys).
    { intros name c. destruct (decide (name = band_name)) as [->|Hneq].
      - rewrite lookup_insert_eq. intros [= <-]. auto.
      - rewrite lookup_insert_ne by congruence. apply Hacc. }
    exists curves. split; [exact Hcurves|]. split; [exact Hall|].
    intros name. rewrite Hkeys. cbn [fmap list_fmap fst].
    rewrite elem_of_cons.
    destruct (decide (name = band_name)) as [->|Hneq].
    + rewrite lookup_insert_eq. split; [intros _; right; left; reflexivity|].
      intros _. left. eauto.
    + rewrite lookup_insert_ne by congruence. tauto.
Qed.

Lemma detect_peaks_in_range (energy : list Q) (pct : Q) (d : nat) :
  energy <> [] -> 0 <= pct -> pct <= 100 -> (1 <= d)%nat ->
  exists peaks,
    detect_peaks energy pct d = Some peaks /\
    StronglySorted lt peaks /\
    Forall (fun p => (p < length energy)%nat) peaks.
Proof.
  intros Hne H0 H100 Hd.
  destruct (detect_peaks_Some energy pct d Hne H0 H100 Hd)
    as (threshold & peaks & _ & Hp & Hs & Hall).
  exists peaks. split; [exact Hp|]. split; [exact Hs|].
  eapply Forall_impl; [exact Hall|]. intros p [Hm _].
  apply local_maximum_inside in Hm. lia.
Qed.

Lemma analyze_multiple_bands_Some (a : AudioAnalyzer)
    (r1 r2 r3 r4 r5 : Q * Q) :
  spectrogram_computed a -> times a <> [] ->
  exists curves a' beats snares,
    analyze_multiple_bands a r1 r2 r3 r4 r5 = Some (curves, a') /\
    (forall name, is_Some (curves !! name) <-> name ∈ band_names) /\
    (forall name c, curves !! name = Some c ->
       length c = length (times a) /\ Forall (fun v => 0 <= v <= 1) c) /\
    (forall name, name ∈ band_names -> get_energy_curve a' name = curves !! name) /\
    times a' = times a /\
    bass_beat_frames a' = Some beats /\ snare_hit_frames a' = Some snares /\
    StronglySorted lt beats /\
    Forall (fun f => (f < length (times a))%nat) beats /\
    StronglySorted lt snares /\
    Forall (fun f => (f < length (times a))%nat) snares.
Proof.
  intros Hc Hne. unfold analyze_multiple_bands. cbv zeta.
  destruct (band_curves_spec a
              [("sub_bass", r1); ("bass", r2); ("mid", r3); ("treble", r4);
               ("high_treble", r5)] Hc Hne ∅)
    as (curves & Hcurves & Hall & Hkeys).
  { intros name c. rewrite lookup_empty. discriminate. }
  rewrite Hcurves. cbn [mbind option_bind].
  assert (Hk : forall name, is_Some (curves !! name) <-> name ∈ band_names).
  { intros name. rewrite Hkeys, lookup_empty. unfold band_names. simpl.
    split; [intros [[? ?]|?]; [discriminate|assumption]|auto]. }
  destruct (proj2 (Hk "bass")) as [bass Hbass].
  { unfold band_names. repeat constructor. }
  rewrite Hbass. cbn [from_option id mbind option_bind].
  destruct (Hall _ _ Hbass) as [Hblen _].
  destruct (detect_peaks_in_range bass 75 10) as (beats & Hbeats & Hbs & Hbr);
    [intros ->; destruct (times a); [congruence|discriminate]
    |discriminate|discriminate|lia|].
  rewrite Hbeats. cbn [mbind option_bind].
  destruct (extract_then_normalize (set_energy_curves a (curves ∪ energy_curves a))
              (200, 500) Hc Hne)
    as (senergy & snorm & Hse & Hsn & Hslen & _).
  change (length snorm = length (times a)) in Hslen.
  rewrite Hse. cbn [mbind option_bind]. rewrite Hsn. cbn [mbind option_bind].
  destruct (detect_peaks_in_range snorm 70 8) as (snares & Hsnares & Hss & Hsr);
    [intros ->; destruct (times a); [congruence|discriminate]
    |discriminate|discriminate|lia|].
  rewrite Hsnares. cbn [mbind option_bind].
  exists curves. eexists. exists beats, snares.
  split; [reflexivity|]. split; [exact Hk|]. split; [exact Hall|].
  split.
  { intros name Hname. unfold get_energy_curve. simpl.
    destruct (proj2 (Hk name) Hname) as [c Hcn]. rewrite Hcn.
    apply lookup_union_Some_l. exact Hcn. }
  split; [reflexivity|]. split; [reflexivity|]. split; [reflexivity|].
  split; [exact Hbs|]. split; [rewrite <- Hblen; exact Hbr|].
  split; [exact Hss|]. rewrite <- Hslen. exact Hsr.
Qed.

(** X18. [analyze_multiple_bands] on a computed spectrogram with at least
    one frame never raises.  It returns exactly the five band curves, each
    with one value in [0,1] per spectrogram frame; [get_energy_curve] then
    returns these curves; the frame times are unchanged; and the bass beats
    and snare hits it stores are strictly increasing frame indices inside
    the time axis. *)
Theorem analyze_multiple_bands_spec (a : AudioAnalyzer)
    (sub_bass_range bass_range mid_range treble_range high_treble_range : Q * Q) :
  spectrogram_computed a -> times a <> [] ->
  exists curves a' beats snares,
    analyze_multiple_bands a sub_bass_range bass_range mid_range treble_range
      high_treble_range = Some (curves, a') /\
    (forall name, is_Some (curves !! name) <-> name ∈ band_names) /\
    (forall name c, curves !! name = Some c ->
       length c = length (times a) /\ Forall (fun v => 0 <= v <= 1) c) /\
    (forall name, name ∈ band_names -> get_energy_curve a' name = curves !! name) /\
    times a' = times a /\
    bass_beat_frames a' = Some beats /\ snare_hit_frames a' = Some snares /\
    StronglySorted lt beats /\
    Forall (fun f => (f < length (times a))%nat) beats /\
    StronglySorted lt snares /\
    Forall (fun f => (f < length (times a))%nat) snares.
Proof. apply analyze_multiple_bands_Some. Qed.

Lemma analyze_multiple_bands_spec_witness :
  exists curves a' beats snares,
    analyze_multiple_bands small_analyzer (0, 1) (1, 3) (3, 5) (5, 6) (6, 7)
    = Some (curves, a') /\
    (forall name, is_Some (curves !! name) <-> name ∈ band_names) /\
    (forall name c, curves !! name = Some c ->
       length c = length (times small_analyzer) /\
       Forall (fun v => 0 <= v <= 1) c) /\
    (forall name, name ∈ band_names -> get_energy_curve a' name = curves !! name) /\
    times a' = times small_analyzer /\
    bass_beat_frames a' = Some beats /\ snare_hit_frames a' = Some snares /\
    StronglySorted lt beats /\
    Forall (fun f => (f < length (times small_analyzer))%nat) beats /\
    StronglySorted lt snares /\
    Forall (fun f => (f < length (times small_analyzer))%nat) snares.
Proof.
  apply (analyze_multiple_bands_spec small_analyzer (0, 1) (1, 3) (3, 5) (5, 6) (6, 7)).
  - exact small_analyzer_computed.
  - discriminate.
Defined.

(** The analysis raises on a spectrogram without frames: [np.min] of an
    empty energy array. *)
Example analyze_multiple_bands_no_frames :
  analyze_multiple_bands
    {| sr := 8; n_fft := 4; hop_length := 2; spectrogram := [[]; []; []];
       times := []; energy_curves := ∅; bass_frames := None;
       treble_frames := None; bass_beat_frames := None;
       snare_hit_frames := None |}
    (20, 60) (60, 250) (250, 2000) (2000, 6000) (6000, 12000) = None.
Proof. reflexivity. Qed.

(** ** From the analysis to the renderers *)

Lemma detect_band_Some (a : AudioAnalyzer) (freq_range : Q * Q) (pct : Q) (d : nat) :
  spectrogram_computed a -> times a <> [] -> 0 <= pct -> pct <= 100 -> (1 <= d)%nat ->
  exists energy normalized peaks,
    extract_frequency_band_energy a freq_range = Some energy /\
    normalize_energy energy = Some normalized /\
    detect_peaks normalized pct d = Some peaks /\
    StronglySorted lt peaks /\
    Forall (fun p => (p < length (times a))%nat) peaks.
Proof.
  intros Hc Hne H0 H100 Hd.
  destruct (extract_then_normalize a freq_range Hc Hne)
    as (energy & normalized & He & Hn & Hlen & _).
  destruct (detect_peaks_in_range normalized pct d) as (peaks & Hp & Hs & Hr);
    [intros ->; destruct (times a); [congruence|discriminate]|assumption..|].
  exists energy, normalized, peaks.
  split; [exact He|]. split; [exact Hn|]. split; [exact Hp|]. split; [exact Hs|].
  rewrite <- Hlen. exact Hr.
Qed.

(** X20. The legacy analysis feeds the legacy renderer, and shares the
    curve store with the enhanced one.  On a computed spectrogram with at
    least one frame, [analyze] returns bass and treble peak indices inside
    the time axis, from which [process_video] builds its effect map without
    an index error; and it stores its own normalized curves under the keys
    ["bass"] and ["treble"], replacing whatever was stored there (such as
    the curves of [analyze_multiple_bands], computed for other frequency
    ranges), while the other keys are kept. *)
Theorem analyze_feeds_process_video (a : AudioAnalyzer)
    (bass_freq_range treble_freq_range : Q * Q)
    (fps : Q) (total : Z) (zf angle dur : Q) :
  spectrogram_computed a -> times a <> [] -> 1 <= zf ->
  exists bass treble a' bass_energy bass_curve treble_energy treble_curve m,
    analyze a bass_freq_range treble_freq_range
    = Some (bass, treble, times a, a') /\
    bass_frames a' = Some bass /\ treble_frames a' = Some treble /\
    build_effect_map fps total zf angle dur (times a) bass treble = Some m /\
    extract_frequency_band_energy a bass_freq_range = Some bass_energy /\
    normalize_energy bass_energy = Some bass_curve /\
    get_energy_curve a' "bass" = Some bass_curve /\
    extract_frequency_band_energy a treble_freq_range = Some treble_energy /\
    normalize_energy treble_energy = Some treble_curve /\
    get_energy_curve a' "treble" = Some treble_curve /\
    (forall name, name <> "bass" -> name <> "treble" ->
       get_energy_curve a' name = get_energy_curve a name).
Proof.
  intros Hc Hne Hzf.
  destruct (detect_band_Some a bass_freq_range 75 10 Hc Hne)
    as (be & bn & bass & Hbe & Hbn & Hbp & _ & Hbr); [discriminate|discriminate|lia|].
  set (a1 := set_bass_frames
               (set_energy_curves a (<["bass" := bn]> (energy_curves a))) bass).
  destruct (detect_band_Some a1 treble_freq_range 70 5 Hc Hne)
    as (te & tn & treble & Hte & Htn & Htp & _ & Htr); [discriminate|discriminate|lia|].
  destruct (build_effect_map_lookup fps total zf angle dur (times a) bass treble
              Hzf Hbr Htr) as (_ & _ & m & _ & _ & Hm & _).
  exists bass, treble. eexists. exists be, bn, te, tn, m.
  unfold analyze, detect_bass_drums, detect_treble.
  rewrite Hbe. cbn [mbind option_bind]. rewrite Hbn. cbn [mbind option_bind].
  rewrite Hbp. cbn [mbind option_bind]. fold a1.
  rewrite Hte. cbn [mbind option_bind]. rewrite Htn. cbn [mbind option_bind].
  rewrite Htp. cbn [mbind option_bind].
  split; [reflexivity|]. split; [reflexivity|]. split; [reflexivity|].
  split; [exact Hm|]. split; [reflexivity|]. split; [reflexivity|].
  unfold get_energy_curve. cbn [energy_curves set_treble_frames set_energy_curves
                                a1 set_bass_frames].
  split.
  { rewrite lookup_insert_ne by discriminate. apply lookup_insert_eq. }
  split; [exact Hte|]. split; [reflexivity|].
  split; [apply lookup_insert_eq|].
  intros name Hb Ht. rewrite !lookup_insert_ne by congruence. reflexivity.
Qed.

Lemma analyze_feeds_process_video_witness :
  exists bass treble a' bass_energy bass_curve treble_energy treble_curve m,
    analyze small_analyzer (0, 2) (3, 5)
    = Some (bass, treble, times small_analyzer, a') /\
    bass_frames a' = Some bass /\ treble_frames a' = Some treble /\
    build_effect_map 10 8 (13 # 10) 5 (4 # 10) (times small_analyzer) bass treble
    = Some m /\
    extract_frequency_band_energy small_analyzer (0, 2) = Some bass_energy /\
    normalize_energy bass_energy = Some bass_curve /\
    get_energy_curve a' "bass" = Some bass_curve /\
    extract_frequency_band_energy small_analyzer (3, 5) = Some treble_energy /\
    normalize_energy treble_energy = Some treble_curve /\
    get_energy_curve a' "treble" = Some treble_curve /\
    (forall name, name <> "bass" -> name <> "treble" ->
       get_energy_curve a' name = get_energy_curve small_analyzer name).
Proof.
  apply (analyze_feeds_process_video small_analyzer (0, 2) (3, 5)
           10 8 (13 # 10) 5 (4 # 10)).
  - exact small_analyzer_computed.
  - discriminate.
  - discriminate.
Defined.

(** ** The frame loop of [process_image_to_video] *)

Lemma frame_body_inv cfg fps bt c1 c2 c3 c4 c5 i p :
  frame_body cfg fps bt c1 c2 c3 c4 c5 i = Some p ->
  exists sb ba mi tr ht,
    c1 !! i = Some sb /\ c2 !! i = Some ba /\ c3 !! i = Some mi /\
    c4 !! i = Some tr /\ c5 !! i = Some ht /\
    fp_zoom p = compute_zoom cfg bt (inject_Z (Z.of_nat i) / fps)
                  {| sub_bass_val := sb; bass_val := ba; mid_val := mi;
                     treble_val := tr; high_treble_val := ht |} /\
    fp_rotation p = compute_rotation cfg
                      {| sub_bass_val := sb; bass_val := ba; mid_val := mi;
                         treble_val := tr; high_treble_val := ht |}.
Proof.
  unfold frame_body. intros H.
  destruct (c1 !! i) as [sb|]; [|discriminate].
  destruct (c2 !! i) as [ba|]; [|discriminate].
  destruct (c3 !! i) as [mi|]; [|discriminate].
  destruct (c4 !! i) as [tr|]; [|discriminate].
  destruct (c5 !! i) as [ht|]; [|discriminate].
  simpl in H. injection H as <-. exists sb, ba, mi, tr, ht. auto 10.
Qed.

Lemma process_image_to_video_inv cfg dur fps curves frame_times beats frames :
  process_image_to_video cfg dur fps curves frame_times beats = Some frames ->
  exists c1 c2 c3 c4 c5 bt,
    let vt := np_linspace 0 dur (Z.to_nat (total_frames dur fps)) in
    resample_band cfg curves frame_times vt "sub_bass" = Some c1 /\
    resample_band cfg curves frame_times vt "bass" = Some c2 /\
    resample_band cfg curves frame_times vt "mid" = Some c3 /\
    resample_band cfg curves frame_times vt "treble" = Some c4 /\
    resample_band cfg curves frame_times vt "high_treble" = Some c5 /\
    beat_times frame_times beats = Some bt /\
    forall i p, frames !! i = Some p ->
                frame_body cfg fps bt c1 c2 c3 c4 c5 i = Some p.
Proof.
  unfold process_image_to_video. intros H.
  destruct (resample_band _ _ _ _ "sub_bass") as [c1|]; [|discriminate].
  destruct (resample_band _ _ _ _ "bass") as [c2|]; [|discriminate].
  destruct (resample_band _ _ _ _ "mid") as [c3|]; [|discriminate].
  destruct (resample_band _ _ _ _ "treble") as [c4|]; [|discriminate].
  destruct (resample_band _ _ _ _ "high_treble") as [c5|]; [|discriminate].
  destruct (beat_times frame_times beats) as [bt|]; [|discriminate].
  cbn [mbind option_bind] in H.
  exists c1, c2, c3, c4, c5, bt. cbv zeta. split_and!; try reflexivity.
  intros i p Hp. apply mapM_Some in H.
  destruct (Forall2_lookup_r _ _ _ _ _ H Hp) as (j & Hj & Hbody).
  apply lookup_seq in Hj as [-> _]. exact Hbody.
Qed.

(** X21. Every frame [process_image_to_video] computes, whatever the
    energy curves hold (the band intensities are clipped), has a zoom
    between 1 and [zoom_factor] and a rotation between 0 and
    [rotation_angle], for non-negative band weights, a positive beat window,
    a zoom factor of at least 1, a non-negative rotation angle and a
    sensitivity in [0,1]. *)
Theorem process_image_to_video_ranges (cfg : ReactConfig) (dur fps : Q)
    (curves : gmap string (list Q)) (frame_times : list Q) (beats : list nat)
    (frames : list FrameParams) :
  nonneg_weights cfg -> 0 < beat_window cfg ->
  1 <= zoom_factor cfg -> 0 <= rotation_angle cfg ->
  0 <= intensity_sensitivity cfg <= 1 ->
  process_image_to_video cfg dur fps curves frame_times beats = Some frames ->
  Forall (fun p => 1 <= fp_zoom p <= zoom_factor cfg /\
                   0 <= fp_rotation p <= rotation_angle cfg) frames.
Proof.
  intros _ _ Hzf Ha Hs H.
  apply process_image_to_video_inv in H
    as (c1 & c2 & c3 & c4 & c5 & bt & _ & _ & _ & _ & _ & _ & Hbody).
  apply Forall_lookup. intros i p Hp.
  apply Hbody, frame_body_inv in Hp
    as (sb & ba & mi & tr & ht & _ & _ & _ & _ & _ & -> & ->).
  split; [apply compute_zoom_range|apply compute_rotation_range]; assumption.
Qed.

Lemma process_image_to_video_ranges_witness :
  Forall (fun p => 1 <= fp_zoom p <= zoom_factor default_config /\
                   0 <= fp_rotation p <= rotation_angle default_config)
    (default [] (process_image_to_video default_config (1 # 10) 30
                   (<["bass" := [1; 1 # 2]]> ∅) [0; 1] [1%nat])).
Proof.
  apply (process_image_to_video_ranges default_config (1 # 10) 30
           (<["bass" := [1; 1 # 2]]> ∅) [0; 1] [1%nat]).
  - unfold nonneg_weights. simpl. split_and!; discriminate.
  - reflexivity.
  - discriminate.
  - discriminate.
  - split; discriminate.
  - vm_compute. reflexivity.
Defined.

Lemma resample_band_no_frames cfg curves frame_times name :
  frame_times <> [] ->
  (forall c, curves !! name = Some c -> length c = length frame_times) ->
  resample_band cfg curves frame_times [] name = smooth_curve cfg [].
Proof.
  intros Hne Hlen. unfold resample_band.
  set (energy := default _ _).
  assert (He : length frame_times = length energy).
  { subst energy. destruct (curves !! name) as [c|] eqn:Hc; simpl.
    - symmetry. eauto.
    - rewrite length_replicate. reflexivity. }
  unfold np_interp. rewrite <- He, Nat.eqb_refl.
  destruct frame_times; [congruence|]. reflexivity.
Qed.

(** ** Silence *)

Lemma interp_scan_zero (x : Q) : forall rest x0 y0,
  y0 == 0 -> Forall (fun p : Q * Q => p.2 == 0) rest ->
  interp_scan x x0 y0 rest == 0.
Proof.
  induction rest as [|[x1 y1] rest IH]; intros x0 y0 Hy0 Hrest; simpl.
  - exact Hy0.
  - apply Forall_cons_1 in Hrest as [Hy1 Hrest]. simpl in Hy1.
    destruct (Qltb x x1).
    + destruct (Qeq_bool x0 x); [exact Hy0|].
      rewrite Hy1, Hy0. unfold Qdiv. ring.
    + apply IH; assumption.
Qed.

Lemma interp1_zero (x : Q) (xp fp : list Q) :
  Forall (fun v => v == 0) fp -> interp1 x xp fp == 0.
Proof.
  intros Hfp. unfold interp1.
  assert (Hz : Forall (fun p : Q * Q => p.2 == 0) (zip xp fp)).
  { revert xp. induction Hfp as [|y fp Hy _ IH]; intros [|x0 xp]; simpl;
      constructor; auto. }
  destruct (zip xp fp) as [|[x0 y0] rest]; [reflexivity|].
  apply Forall_cons_1 in Hz as [Hy0 Hrest]. simpl in Hy0.
  destruct (Qltb x x0); [exact Hy0|]. apply interp_scan_zero; assumption.
Qed.

Lemma Qsum_zero (l : list Q) : Forall (fun v => v == 0) l -> Qsum l == 0.
Proof.
  induction 1 as [|v l Hv _ IH]; simpl; [reflexivity|]. rewrite Hv, IH. ring.
Qed.

Lemma nth_zero (l : list Q) (i : nat) :
  Forall (fun v => v == 0) l -> nth i l 0 == 0.
Proof.
  intros H. revert i. induction H as [|v l Hv _ IH]; intros [|i]; simpl;
    try reflexivity; auto.
Qed.

Lemma convolve_full_zero (a v : list Q) :
  Forall (fun y => y == 0) a -> Forall (fun y => y == 0) (convolve_full a v).
Proof.
  intros Ha. unfold convolve_full. apply Forall_forall. intros y Hy.
  apply list_elem_of_fmap in Hy as (k & -> & _).
  apply Qsum_zero. apply Forall_forall. intros t Ht.
  apply list_elem_of_fmap in Ht as (j & -> & _).
  destruct (j <=? k)%nat; [|reflexivity].
  rewrite (nth_zero a j Ha). ring.
Qed.

Lemma smooth_curve_zero cfg (curve r : list Q) :
  Forall (fun y => y == 0) curve -> smooth_curve cfg curve = Some r ->
  Forall (fun y => y == 0) r.
Proof.
  intros Hc. unfold smooth_curve, np_convolve_same.
  destruct (Qltb 0 (smoothness cfg)); [|intros [= <-]; exact Hc].
  destruct (1 <? _)%nat; [|intros [= <-]; exact Hc].
  destruct (_ || _); [discriminate|]. intros [= <-].
  apply Forall_take, Forall_drop, convolve_full_zero. exact Hc.
Qed.

Lemma resample_band_zero cfg curves frame_times vt name r :
  (forall c, curves !! name = Some c -> Forall (fun v => v == 0) c) ->
  resample_band cfg curves frame_times vt name = Some r ->
  Forall (fun y => y == 0) r.
Proof.
  intros Hz. unfold resample_band.
  set (energy := default _ _).
  assert (He : Forall (fun v => v == 0) energy).
  { subst energy. destruct (curves !! name) as [c|]; simpl; [auto|].
    apply Forall_replicate. reflexivity. }
  unfold np_interp. destruct (_ || _); [discriminate|]. cbn [mbind option_bind].
  apply smooth_curve_zero. apply Forall_forall. intros y Hy.
  apply list_elem_of_fmap in Hy as (v & -> & _). apply interp1_zero. exact He.
Qed.

Lemma clipped_quotient_zero (x y w1 w2 d : Q) :
  x == 0 -> y == 0 -> np_clip ((x * w1 + y * w2) / d) 0 1 == 0.
Proof.
  intros Hx Hy.
  assert (E : (x * w1 + y * w2) / d == 0) by (rewrite Hx, Hy; unfold Qdiv; ring).
  rewrite np_clip_id; [exact E|rewrite E; discriminate|rewrite E; discriminate].
Qed.

(** X23. Silence still moves the picture.  With band curves that are all
    zero (what [normalize_energy] returns for a band without variation) or
    missing, and no beat, every frame of [process_image_to_video] gets the
    zoom [1 + (zoom_factor - 1) * (1 - sensitivity)] and the rotation
    [rotation_angle * (1 - sensitivity)], also when beat-triggered zoom is
    on: without beats the zoom falls back to the continuous formula, and the
    sensitivity blending leaves the share [1 - sensitivity] of each effect
    permanently on. *)
Theorem silence_still_moves (cfg : ReactConfig) (dur fps : Q)
    (curves : gmap string (list Q)) (frame_times : list Q)
    (frames : list FrameParams) :
  0 <= sub_bass_zoom cfg -> 0 <= bass_zoom cfg ->
  0 <= treble_rotation cfg -> 0 <= high_treble_rotation cfg ->
  (forall name c, curves !! name = Some c -> Forall (fun v => v == 0) c) ->
  process_image_to_video cfg dur fps curves frame_times [] = Some frames ->
  Forall (fun p =>
            fp_zoom p == 1 + (zoom_factor cfg - 1) * (1 - intensity_sensitivity cfg) /\
            fp_rotation p == rotation_angle cfg * (1 - intensity_sensitivity cfg))
         frames.
Proof.
  intros _ _ _ _ Hz H.
  apply process_image_to_video_inv in H
    as (c1 & c2 & c3 & c4 & c5 & bt & H1 & H2 & H3 & H4 & H5 & Hbt & Hbody).
  injection Hbt as <-.
  apply resample_band_zero in H1, H2, H4, H5; eauto.
  apply Forall_lookup. intros i p Hp.
  apply Hbody, frame_body_inv in Hp
    as (sb & ba & mi & tr & ht & Hsb & Hba & _ & Htr & Hht & -> & ->).
  assert (Esb : sb == 0) by (eapply (proj1 (Forall_lookup _ _) H1); eauto).
  assert (Eba : ba == 0) by (eapply (proj1 (Forall_lookup _ _) H2); eauto).
  assert (Etr : tr == 0) by (eapply (proj1 (Forall_lookup _ _) H4); eauto).
  assert (Eht : ht == 0) by (eapply (proj1 (Forall_lookup _ _) H5); eauto).
  split.
  - unfold compute_zoom. rewrite andb_false_r.
    unfold continuous_zoom_intensity, sensitivity_blend, bass_intensity.
    cbn [sub_bass_val bass_val].
    rewrite (clipped_quotient_zero sb ba _ _ _ Esb Eba). ring.
  - unfold compute_rotation, rotation_intensity, sensitivity_blend. cbv zeta.
    cbn [treble_val high_treble_val].
    rewrite (clipped_quotient_zero tr ht _ _ _ Etr Eht). ring.
Qed.

Lemma silence_still_moves_witness :
  Forall (fun p =>
            fp_zoom p == 1 + (zoom_factor default_config - 1)
                             * (1 - intensity_sensitivity default_config) /\
            fp_rotation p == rotation_angle default_config
                             * (1 - intensity_sensitivity default_config))
    (default [] (process_image_to_video default_config (1 # 10) 30
                   (<["bass" := [0; 0]]> ∅) [0; 1] [])).
Proof.
  apply (silence_still_moves default_config (1 # 10) 30
           (<["bass" := [0; 0]]> ∅) [0; 1]).
  - discriminate.
  - discriminate.
  - discriminate.
  - discriminate.
  - intros name c. destruct (decide (name = "bass")) as [->|Hn].
    + rewrite lookup_insert_eq. intros [= <-]. repeat constructor.
    + rewrite lookup_insert_ne by congruence. rewrite lookup_empty. discriminate.
  - vm_compute. reflexivity.
Defined.

(** With the defaults, a silent track is zoomed by 1.09 and rotated by 1.5
    degrees throughout. *)
Example silence_default_zoom :
  option_map (map (fun p => (Qred (fp_zoom p), Qred (fp_rotation p))))
    (process_image_to_video default_config (1 # 10) 30 ∅ [0; 1] [])
  = Some [(109 # 100, 3 # 2); (109 # 100, 3 # 2); (109 # 100, 3 # 2)].
Proof. vm_compute. reflexivity. Qed.

(** ** gui_preview_pyqt5.py: fitting an image into the output frame *)




(** A strip of 1 x 1000 pixels cannot be fitted into 100 x 100: its height
    would become [int(1 * 0.1) = 0].  Nor can a 49 x 49 picture be fitted
    into 1 x 1, although the aspect ratios agree: in binary64
    [49 * (1 / 49)] is just below 1. *)
Example resize_image_to_fit_strip :
  fit_size 1 1000 100 100 = Some (100, 0)%Z /\
  resize_image_to_fit (input_frame 0 1 1000) 100 100 [] = Raise CvError /\
  fit_size 49 49 1 1 = Some (0, 0)%Z /\
  resize_image_to_fit (input_frame 0 49 49) 1 1 [] = Raise CvError /\
  (exists canvas,
     resize_image_to_fit (input_frame 0 100 200) 640 480 [] = Ok (canvas, []) /\
     shape canvas = [480; 640; 3]%nat).
Proof.
  split; [vm_compute; reflexivity|]. split; [vm_compute; reflexivity|].
  split; [vm_compute; reflexivity|]. split; [vm_compute; reflexivity|].
  eexists. split; [vm_compute; reflexivity|reflexivity].
Qed.

(** ** image_to_video.py: the resampled curves stay in range *)

Lemma interp_segment_between (x x0 x1 y0 y1 lo hi : Q) :
  x0 <= x -> x < x1 -> lo <= y0 <= hi -> lo <= y1 <= hi ->
  lo <= (y1 - y0) / (x1 - x0) * (x - x0) + y0 <= hi.
Proof.
  intros H0 H1 Hy0 Hy1.
  set (t := (x - x0) / (x1 - x0)).
  assert (Ht : 0 <= t <= 1).
  { unfold t. split.
    - apply Qle_shift_div_l; lra.
    - apply Qle_shift_div_r; lra. }
  assert (E : (y1 - y0) / (x1 - x0) * (x - x0) + y0 == (1 - t) * y0 + t * y1).
  { unfold t. field. lra. }
  rewrite E. destruct Ht as [Ht0 Ht1].
  assert (0 <= (1 - t) * (y0 - lo)) by (apply Qmult_le_0_compat; lra).
  assert (0 <= t * (y1 - lo)) by (apply Qmult_le_0_compat; lra).
  assert (0 <= (1 - t) * (hi - y0)) by (apply Qmult_le_0_compat; lra).
  assert (0 <= t * (hi - y1)) by (apply Qmult_le_0_compat; lra).
  split; lra.
Qed.

Lemma interp_scan_between (x lo hi : Q) (rest : list (Q * Q)) :
  forall x0 y0,
    x0 <= x -> lo <= y0 <= hi ->
    Forall (fun p => lo <= p.2 <= hi) rest ->
    lo <= interp_scan x x0 y0 rest <= hi.
Proof.
  induction rest as [|[x1 y1] rest IH]; intros x0 y0 Hx Hy Hrest; simpl.
  - exact Hy.
  - apply Forall_cons_1 in Hrest as [Hy1 Hrest]. simpl in Hy1.
    destruct (Qltb x x1) eqn:Hlt.
    + apply Qltb_lt in Hlt.
      destruct (Qeq_bool x0 x); [exact Hy|].
      apply interp_segment_between; assumption.
    + apply Qltb_ge in Hlt. apply IH; assumption.
Qed.

Lemma zip_snd_Forall (P : Q -> Prop) (xp fp : list Q) :
  Forall P fp -> Forall (fun p : Q * Q => P p.2) (zip xp fp).
Proof.
  intros H. revert xp. induction H as [|y fp Hy H IH]; intros [|x xp]; simpl;
    try constructor; auto.
Qed.

Lemma interp1_between (x lo hi : Q) (xp fp : list Q) :
  lo <= 0 <= hi -> Forall (fun v => lo <= v <= hi) fp ->
  lo <= interp1 x xp fp <= hi.
Proof.
  intros H0 Hfp. unfold interp1.
  pose proof (zip_snd_Forall (fun v => lo <= v <= hi) xp fp Hfp) as Hz.
  destruct (zip xp fp) as [|[x0 y0] rest]; [exact H0|].
  apply Forall_cons_1 in Hz as [Hy0 Hrest]. simpl in Hy0.
  destruct (Qltb x x0) eqn:Hlt; [exact Hy0|].
  apply Qltb_ge in Hlt. apply interp_scan_between; assumption.
Qed.

Lemma np_interp_between (x xp fp r : list Q) (lo hi : Q) :
  lo <= 0 <= hi -> Forall (fun v => lo <= v <= hi) fp ->
  np_interp x xp fp = Some r ->
  Forall (fun v => lo <= v <= hi) r.
Proof.
  intros H0 Hfp. unfold np_interp.
  destruct (_ || _); [discriminate|]. intros [= <-].
  apply Forall_map, Forall_forall. intros v _. simpl.
  apply interp1_between; assumption.
Qed.

(** *** The moving average *)

Lemma nth_Forall (P : Q -> Prop) (l : list Q) (i : nat) (d : Q) :
  Forall P l -> P d -> P (nth i l d).
Proof.
  intros Hl Hd. rewrite nth_lookup.
  destruct (l !! i) as [v|] eqn:E; simpl; [|exact Hd].
  eapply Forall_lookup_1; eassumption.
Qed.

Lemma nth_replicate_inside (n i : nat) (c : Q) :
  (i < n)%nat -> nth i (replicate n c) 0 = c.
Proof.
  intros H. rewrite nth_lookup, lookup_replicate_2 by exact H. reflexivity.
Qed.

Lemma nth_replicate_outside (n i : nat) (c : Q) :
  (n <= i)%nat -> nth i (replicate n c) 0 = 0.
Proof.
  intros H. rewrite nth_lookup.
  assert (E : replicate n c !! i = None) by (apply lookup_replicate_None; exact H).
  rewrite E. reflexivity.
Qed.

Lemma Qsum_nonneg (l : list Q) : Forall (fun v => 0 <= v) l -> 0 <= Qsum l.
Proof.
  induction 1 as [|v l Hv _ IH]; simpl; [discriminate|lra].
Qed.

(** The terms of one output sample of the convolution with a constant
    kernel of [n] samples: at most [n] of them are not zero. *)
Lemma window_sum_bound (a : list Q) (n k : nat) (c : Q) (len : nat) :
  0 <= c -> Forall (fun v => 0 <= v <= 1) a ->
  forall s : nat,
    Qsum (map (fun j => if (j <=? k)%nat
                        then nth j a 0 * nth (k - j) (replicate n c) 0 else 0)
              (seq s len))
    <= c * inject_Z (Z.max 0 (Z.min (Z.of_nat k + 1) (Z.of_nat s + Z.of_nat len)
                              - Z.max (Z.of_nat s) (Z.of_nat k + 1 - Z.of_nat n))).
Proof.
  intros Hc Ha. induction len as [|len IH]; intros s.
  - simpl. apply Qmult_le_0_compat; [exact Hc|].
    change 0 with (inject_Z 0). rewrite <- Zle_Qle. lia.
  - cbn [seq map Qsum]. specialize (IH (S s)).
    set (M1 := Z.max 0 (_ - _)) in IH.
    set (M2 := Z.max 0 (_ - _)).
    set (rest := Qsum _) in *.
    assert (Hx : 0 <= nth s a 0 <= 1)
      by (apply (nth_Forall (fun v => 0 <= v <= 1)); [exact Ha|split; discriminate]).
    destruct (Nat.leb_spec s k) as [Hsk|Hsk].
    + destruct (Nat.lt_ge_cases (k - s) n) as [Hin|Hout].
      * rewrite nth_replicate_inside by exact Hin.
        assert (HM : (1 + M1 <= M2)%Z) by (subst M1 M2; lia).
        rewrite Zle_Qle, inject_Z_plus in HM. change (inject_Z 1) with 1 in HM.
        assert (nth s a 0 * c <= c).
        { assert (0 <= (1 - nth s a 0) * c) by (apply Qmult_le_0_compat; lra). lra. }
        assert (0 <= c * (inject_Z M2 - (1 + inject_Z M1)))
          by (apply Qmult_le_0_compat; lra).
        lra.
      * rewrite nth_replicate_outside by exact Hout.
        assert (HM : (M1 <= M2)%Z) by (subst M1 M2; lia).
        rewrite Zle_Qle in HM.
        assert (0 <= c * (inject_Z M2 - inject_Z M1))
          by (apply Qmult_le_0_compat; lra).
        lra.
    + assert (HM : (M1 <= M2)%Z) by (subst M1 M2; lia).
      rewrite Zle_Qle in HM.
      assert (0 <= c * (inject_Z M2 - inject_Z M1))
        by (apply Qmult_le_0_compat; lra).
      lra.
Qed.

Lemma convolve_average_range (a : list Q) (n : nat) :
  (0 < n)%nat -> Forall (fun v => 0 <= v <= 1) a ->
  Forall (fun v => 0 <= v <= 1)
         (convolve_full a (replicate n (1 / inject_Z (Z.of_nat n)))).
Proof.
  intros Hn Ha. set (c := 1 / inject_Z (Z.of_nat n)).
  assert (Hnq : 0 < inject_Z (Z.of_nat n)).
  { change 0 with (inject_Z 0). rewrite <- Zlt_Qlt. lia. }
  assert (Hc : 0 <= c) by (unfold c; apply Qle_shift_div_l; lra).
  unfold convolve_full. apply Forall_map, Forall_forall. intros k _. simpl. split.
  - apply Qsum_nonneg, Forall_map, Forall_forall. intros j _. simpl.
    destruct (j <=? k)%nat; [|discriminate].
    apply Qmult_le_0_compat.
    + apply (nth_Forall (fun v => 0 <= v)); [|discriminate].
      eapply Forall_impl; [exact Ha|]. intros v [Hv _]. exact Hv.
    + apply (nth_Forall (fun v => 0 <= v)); [|discriminate].
      apply Forall_replicate. exact Hc.
  - pose proof (window_sum_bound a n k c (length a) Hc Ha 0%nat) as B.
    set (M := Z.max 0 _) in B.
    assert (HM : (M <= Z.of_nat n)%Z) by (subst M; lia).
    rewrite Zle_Qle in HM.
    assert (0 <= c * (inject_Z (Z.of_nat n) - inject_Z M))
      by (apply Qmult_le_0_compat; lra).
    assert (E : c * inject_Z (Z.of_nat n) == 1) by (unfold c; field; lra).
    lra.
Qed.

Lemma smooth_curve_range (cfg : ReactConfig) (curve r : list Q) :
  Forall (fun v => 0 <= v <= 1) curve ->
  smooth_curve cfg curve = Some r ->
  Forall (fun v => 0 <= v <= 1) r.
Proof.
  intros Hc. unfold smooth_curve.
  destruct (Qltb 0 (smoothness cfg)); [|intros [= <-]; exact Hc].
  destruct (Nat.ltb_spec 1 (Z.to_nat (Z.max 1 (py_int (smoothness cfg * 5)))))
    as [Hw|Hw]; [|intros [= <-]; exact Hc].
  unfold np_convolve_same. destruct (_ || _); [discriminate|]. intros [= <-].
  apply Forall_take, Forall_drop, convolve_average_range; [lia|exact Hc].
Qed.

Lemma resample_band_range (cfg : ReactConfig) (energy_curves : gmap string (list Q))
    (frame_times video_frame_times : list Q) (name : string) (r : list Q) :
  curves_in_range energy_curves ->
  resample_band cfg energy_curves frame_times video_frame_times name = Some r ->
  Forall (fun v => 0 <= v <= 1) r.
Proof.
  intros Hc. unfold resample_band.
  set (energy := default _ _).
  assert (He : Forall (fun v => 0 <= v <= 1) energy).
  { subst energy. destruct (energy_curves !! name) as [c|] eqn:E; simpl.
    - eapply Hc; eassumption.
    - apply Forall_replicate. split; discriminate. }
  destruct (np_interp video_frame_times frame_times energy) as [interp|] eqn:Hi;
    [|discriminate].
  cbn [mbind option_bind]. apply smooth_curve_range.
  eapply np_interp_between; [|exact He|exact Hi]. split; discriminate.
Qed.

(** X25. The band curves [process_image_to_video] works with, resampled by
    [np.interp] onto the video frame times and smoothed by the moving
    average, stay in [0,1] when the analysed curves are in [0,1]: neither
    the interpolation nor the zero-padded convolution can leave the range
    (a band missing from [energy_curves] is read as zeros). *)
Theorem resample_band_in_range (cfg : ReactConfig)
    (energy_curves : gmap string (list Q))
    (frame_times video_frame_times : list Q) (name : string) (r : list Q) :
  curves_in_range energy_curves ->
  resample_band cfg energy_curves frame_times video_frame_times name = Some r ->
  Forall (fun v => 0 <= v <= 1) r.
Proof. apply resample_band_range. Qed.

Lemma resample_band_in_range_witness :
  exists r,
    resample_band default_config (<["bass" := [0; 1; 0]]> ∅) [0; 1; 2]
                  [0; 1 # 2; 1; 3 # 2; 2] "bass" = Some r /\
    length r = 5%nat /\ Forall (fun v => 0 <= v <= 1) r.
Proof.
  eexists. split; [vm_compute; reflexivity|]. split; [reflexivity|].
  apply (resample_band_in_range default_config (<["bass" := [0; 1; 0]]> ∅) [0; 1; 2]
           [0; 1 # 2; 1; 3 # 2; 2] "bass").
  - intros name c. destruct (decide (name = "bass")) as [->|Hn].
    + rewrite lookup_insert_eq. intros [= <-]. repeat constructor; discriminate.
    + rewrite lookup_insert_ne by congruence. rewrite lookup_empty. discriminate.
  - vm_compute. reflexivity.
Defined.

(** ** image_to_video.py: rendering the frames *)

Lemma reactive_intensity_range (cfg : ReactConfig) (enable : bool) (base : Q) :
  0 <= reactive_intensity cfg enable base <= 1.
Proof.
  unfold reactive_intensity. destruct enable; [|split; discriminate].
  apply np_clip_bounds. discriminate.
Qed.

Lemma corruption_block_le_50 (intensity : Q) :
  intensity <= 1 -> (corruption_block intensity <= 50)%Z.
Proof.
  intros H. unfold corruption_block.
  destruct (Qlt_le_dec (10 + intensity * 40) 0) as [Hn|Hp].
  - assert (Hz : (py_int (10 + intensity * 40) <= 0)%Z).
    { unfold py_int. destruct (10 + intensity * 40) as [n d]. unfold Qlt in Hn.
      simpl in *. apply Z.quot_le_upper_bound; lia. }
    lia.
  - rewrite py_int_floor by exact Hp.
    assert (Hf : inject_Z (Qfloor (10 + intensity * 40)) <= 10 + intensity * 40)
      by apply Qfloor_le.
    rewrite Zle_Qle. change (inject_Z 50) with 50. lra.
Qed.

Lemma succeeds_bind_ret {A B} (a : A) (k : A -> M B) (Q : B -> Prop) :
  succeeds (k a) Q -> succeeds (bind (ret a) k) Q.
Proof. intros H tape. exact (H tape). Qed.

Lemma image_frame_returns (cfg : ReactConfig) (sw : EffectSwitches) (art : ArtSwitches)
    (bass_beat_times snare_hit_times : list Q) (current_time : Q) (b : BandValues)
    (base_image : ndarray) (h w : nat) :
  1 <= zoom_factor cfg -> 0 <= intensity_sensitivity cfg <= 1 ->
  picture_fits cfg art h w ->
  color_frame h w base_image ->
  succeeds
    (image_frame base_image
       (image_effect_params cfg sw art bass_beat_times snare_hit_times current_time b))
    (color_frame h w).
Proof.
  intros Hzf Hs (Hh & Hw & Hdc) Hf. unfold image_frame, copy.
  destruct (image_needs_effects _); [|apply succeeds_ret; exact Hf].
  pose proof (compute_zoom_range cfg bass_beat_times current_time b Hzf Hs) as [_ Hz].
  assert (H1 : (1 <= Z.of_nat h)%Z) by (rewrite Zle_Qle; change (inject_Z 1) with 1; lra).
  assert (H2 : (1 <= Z.of_nat w)%Z) by (rewrite Zle_Qle; change (inject_Z 1) with 1; lra).
  apply apply_effects_succeeds; try assumption; try lia.
  - apply crop_nonempty_of_le; cbn [zoom image_effect_params]; lra.
  - intros Hc. cbn [data_corruption_intensity image_effect_params] in Hc |- *.
    set (i := reactive_intensity _ _ _) in *.
    destruct (enable_data_corruption art) eqn:E.
    + destruct (Hdc eq_refl) as [Hh50 Hw50].
      pose proof (corruption_block_le_50 i
                    (proj2 (reactive_intensity_range cfg _ _))) as Hb.
      lia.
    + subst i. unfold reactive_intensity in Hc. lra.
Qed.

Lemma foldM_trace_succeeds {A B} (body : B -> list A -> M (list A))
    (R : B -> A -> Prop) (xs : list B) :
  (forall x out, x ∈ xs ->
     succeeds (body x out) (fun res => exists f, res = out ++ [f] /\ R x f)) ->
  forall out,
    succeeds (foldM body xs out)
             (fun res => exists fs, res = out ++ fs /\ Forall2 R xs fs).
Proof.
  induction xs as [|x xs IH]; intros Hbody out; simpl.
  - apply succeeds_ret. exists []. split; [rewrite app_nil_r; reflexivity|constructor].
  - apply succeeds_bind with (P := fun res => exists f, res = out ++ [f] /\ R x f).
    + apply Hbody. left.
    + intros res (f & -> & Hf).
      eapply succeeds_weaken.
      * apply IH. intros y o Hy. apply Hbody. right. exact Hy.
      * intros r (fs & -> & Hfs). exists (f :: fs).
        split; [rewrite <- app_assoc; reflexivity|constructor; assumption].
Qed.

Lemma frame_bands_Some (c1 c2 c3 c4 c5 : list Q) (i : nat) :
  (i < length c1)%nat -> (i < length c2)%nat -> (i < length c3)%nat ->
  (i < length c4)%nat -> (i < length c5)%nat ->
  is_Some (frame_bands c1 c2 c3 c4 c5 i).
Proof.
  intros H1 H2 H3 H4 H5. unfold frame_bands.
  destruct (lookup_lt_is_Some_2 c1 i H1) as [v1 ->].
  destruct (lookup_lt_is_Some_2 c2 i H2) as [v2 ->].
  destruct (lookup_lt_is_Some_2 c3 i H3) as [v3 ->].
  destruct (lookup_lt_is_Some_2 c4 i H4) as [v4 ->].
  destruct (lookup_lt_is_Some_2 c5 i H5) as [v5 ->].
  simpl. eauto.
Qed.

Lemma Forall2_written (self : ImageToVideoProcessor) (h w : nat) (n : nat) :
  forall s (fs : list (Q * ndarray)),
    Forall2 (fun k (tf : Q * ndarray) =>
               tf.1 = inject_Z (Z.of_nat k) / self_fps self /\ color_frame h w tf.2)
            (seq s n) fs ->
    length fs = n /\
    fs.*1 = map (fun k => inject_Z (Z.of_nat k) / self_fps self) (seq s n) /\
    Forall (color_frame h w) fs.*2.
Proof.
  induction n as [|n IH]; intros s fs H; simpl in H.
  - apply Forall2_nil_inv_l in H as ->. split; [reflexivity|]. split; [reflexivity|constructor].
  - apply Forall2_cons_inv_l in H as ([t f] & fs' & [Ht Hf] & H & ->).
    destruct (IH _ _ H) as (Hl & Ht' & Hc). cbn [fst snd] in Ht, Hf.
    rewrite !fmap_cons. cbn [seq map length fst snd].
    split; [lia|]. split; [f_equal; assumption|constructor; assumption].
Qed.

Lemma process_image_to_video_render_returns (self : ImageToVideoProcessor)
    (cfg : ReactConfig) (sw : EffectSwitches) (art : ArtSwitches)
    (energy_curves : gmap string (list Q)) (frame_times : list Q)
    (bass_beat_frames snare_hit_frames : list nat) (h w : nat) :
  render_inputs_valid cfg sw energy_curves frame_times bass_beat_frames
    snare_hit_frames ->
  (1 <= self_total_frames self)%Z ->
  picture_fits cfg art h w ->
  color_frame h w (self_base_image self) ->
  succeeds
    (process_image_to_video_render self cfg sw art energy_curves frame_times
       bass_beat_frames snare_hit_frames)
    (written self h w).
Proof.
  intros (Hv & Hsn & _ & _ & _ & Hzf & Hs) Htot Hfit Hf.
  unfold process_image_to_video_render. cbv zeta.
  replace (self_total_frames self <? 0)%Z with false by (symmetry; apply Z.ltb_ge; lia).
  set (total := Z.to_nat (self_total_frames self)).
  set (vt := np_linspace 0 (self_audio_duration self) total).
  assert (Hvt : vt <> []).
  { intros E. apply (f_equal length) in E. subst vt.
    rewrite length_np_linspace in E. simpl in E. lia. }
  assert (Hlen : length vt = total) by apply length_np_linspace.
  destruct (resample_band_Some cfg energy_curves frame_times vt bass_beat_frames
              "sub_bass" Hv Hvt) as (c1 & E1 & L1).
  destruct (resample_band_Some cfg energy_curves frame_times vt bass_beat_frames
              "bass" Hv Hvt) as (c2 & E2 & L2).
  destruct (resample_band_Some cfg energy_curves frame_times vt bass_beat_frames
              "mid" Hv Hvt) as (c3 & E3 & L3).
  destruct (resample_band_Some cfg energy_curves frame_times vt bass_beat_frames
              "treble" Hv Hvt) as (c4 & E4 & L4).
  destruct (resample_band_Some cfg energy_curves frame_times vt bass_beat_frames
              "high_treble" Hv Hvt) as (c5 & E5 & L5).
  destruct Hv as (_ & _ & Hb).
  destruct (beat_times_Some _ _ Hb) as [bt Ebt].
  destruct (beat_times_Some _ _ Hsn) as [st Est].
  rewrite E1, E2, E3, E4, E5, Ebt, Est.
  unfold of_option at 1 2 3 4 5 6 7.
  do 7 apply succeeds_bind_ret.
  eapply succeeds_weaken.
  - apply (foldM_trace_succeeds _
             (fun k (tf : Q * ndarray) =>
                tf.1 = inject_Z (Z.of_nat k) / self_fps self /\ color_frame h w tf.2)).
    intros i out Hi.
    apply elem_of_seq in Hi.
    destruct (frame_bands_Some c1 c2 c3 c4 c5 i) as [b Eb]; try lia.
    rewrite Eb. unfold of_option. apply succeeds_bind_ret.
    apply succeeds_bind with (P := color_frame h w).
    { apply image_frame_returns; assumption. }
    intros f Hfr. apply succeeds_ret. eexists. split; [reflexivity|].
    split; [reflexivity|exact Hfr].
  - intros out (fs & -> & Hfs). rewrite app_nil_l.
    destruct (Forall2_written self h w total 0 fs Hfs) as (Hl & Ht & Hc).
    unfold written. rewrite Hl. split; [subst total; lia|]. split; assumption.
Qed.

Lemma image_to_video_init_inv (base_image : ndarray) (n_samples sr : Z) (fps : f64)
    (self : ImageToVideoProcessor) :
  image_to_video_init base_image n_samples sr fps = Some self ->
  py_int_f64 (PrimFloat.mul (PrimFloat.div (f64_of_Z n_samples) (f64_of_Z sr)) fps)
  = Some (self_total_frames self) /\
  self_base_image self = base_image /\
  self_fps self = f64_to_Q fps /\
  self_audio_duration self
  = f64_to_Q (PrimFloat.div (f64_of_Z n_samples) (f64_of_Z sr)).
Proof.
  unfold image_to_video_init. destruct (sr =? 0)%Z; [discriminate|]. cbv zeta.
  destruct (py_int_f64 _) as [t|]; [|discriminate].
  intros [= <-]. repeat split.
Qed.

(** C5 (as the code has it). For an audio of [n_samples] samples at [sr] Hz
    and a frame rate [fps], the processor's frame count is
    [int((n_samples / sr) * fps)] computed in binary64: the rounded product,
    truncated.  When that count is at least 1, the analysis data fit
    together and the picture is large enough for the effects, the
    image-to-video path writes exactly that many frames, frame [i] being
    computed for time [i / fps]. *)
Theorem image_to_video_frame_count (base_image : ndarray) (n_samples sr : Z)
    (fps : f64) (self : ImageToVideoProcessor)
    (cfg : ReactConfig) (sw : EffectSwitches) (art : ArtSwitches)
    (energy_curves : gmap string (list Q)) (frame_times : list Q)
    (bass_beat_frames snare_hit_frames : list nat) (h w : nat) :
  (0 <= n_samples < 2 ^ 53)%Z -> (0 < sr < 2 ^ 53)%Z ->
  image_to_video_init base_image n_samples sr fps = Some self ->
  (1 <= self_total_frames self)%Z -> 0 < self_fps self ->
  render_inputs_valid cfg sw energy_curves frame_times bass_beat_frames
    snare_hit_frames ->
  picture_fits cfg art h w -> color_frame h w base_image ->
  py_int_f64 (PrimFloat.mul (PrimFloat.div (f64_of_Z n_samples) (f64_of_Z sr)) fps)
  = Some (self_total_frames self) /\
  succeeds
    (process_image_to_video_render self cfg sw art energy_curves frame_times
       bass_beat_frames snare_hit_frames)
    (fun out =>
       Z.of_nat (length out) = self_total_frames self /\
       out.*1 = map (fun frame_idx => inject_Z (Z.of_nat frame_idx) / self_fps self)
                    (seq 0 (length out))).
Proof.
  intros _ _ Hinit Htot _ Hv Hfit Hf.
  destruct (image_to_video_init_inv _ _ _ _ _ Hinit) as (Hcount & Himg & _ & _).
  split; [exact Hcount|].
  eapply succeeds_weaken.
  - apply (process_image_to_video_render_returns self cfg sw art energy_curves
             frame_times bass_beat_frames snare_hit_frames h w); try assumption.
    rewrite Himg. exact Hf.
  - intros out (Hl & Ht & _). split; assumption.
Qed.

Lemma default_inputs_valid :
  render_inputs_valid default_config default_switches ∅ [0; 1] [1%nat] [0%nat].
Proof.
  split.
  { split; [discriminate|]. split.
    - intros name c H. rewrite lookup_empty in H. discriminate.
    - repeat constructor. }
  split; [repeat constructor|].
  split; [unfold nonneg_weights; simpl; split_and!; discriminate|].
  split; [reflexivity|]. split; [reflexivity|].
  split; [discriminate|split; discriminate].
Qed.

Lemma image_to_video_frame_count_witness :
  exists self,
    five_seconds = Some self /\
    self_total_frames self = 150%Z /\
    succeeds
      (process_image_to_video_render self default_config default_switches
         default_art_switches ∅ [0; 1] [1%nat] [0%nat])
      (fun out =>
         Z.of_nat (length out) = 150%Z /\
         out.*1 = map (fun frame_idx => inject_Z (Z.of_nat frame_idx) / self_fps self)
                      (seq 0 (length out))).
Proof.
  eexists. split; [vm_compute; reflexivity|]. split; [reflexivity|].
  refine (proj2 (image_to_video_frame_count (input_frame 0 64 64) 110250 22050
                   (f64_of_Z 30) _ default_config default_switches
                   default_art_switches ∅ [0; 1] [1%nat] [0%nat] 64 64
                   _ _ _ _ _ _ _ _)).
  - lia.
  - lia.
  - vm_compute. reflexivity.
  - vm_compute. discriminate.
  - vm_compute. reflexivity.
  - exact default_inputs_valid.
  - split; [discriminate|]. split; [discriminate|]. discriminate.
  - reflexivity.
Defined.

(** C5 as stated fails: 1323 samples at 22050 Hz (0.06 s) at 30 fps are
    1.8 frame periods; rounding would give two frames, the code writes
    one. *)
Lemma frame_count_round_counterexample :
  exists self out tape,
    image_to_video_init (input_frame 0 64 64) 1323 22050 (f64_of_Z 30) = Some self /\
    py_round (self_audio_duration self * self_fps self) = 2%Z /\
    process_image_to_video_render self default_config default_switches
      default_art_switches ∅ [0; 1] [] [] [] = Ok (out, tape) /\
    length out = 1%nat /\
    Z.of_nat (length out) <> py_round (self_audio_duration self * self_fps self).
Proof.
  eexists _, _, _. split; [vm_compute; reflexivity|].
  split; [vm_compute; reflexivity|].
  split; [vm_compute; reflexivity|].
  split; [reflexivity|]. vm_compute. discriminate.
Qed.

(** The count is the truncation of the rounded product, not of the exact
    one: 90405 samples at 22050 Hz are exactly 4.1 s and 123 frame periods
    at 30 fps, but in binary64 [90405 / 22050 * 30.0] is just below 123 and
    122 frames are written.  Five seconds at 30 fps give 150 frames. *)
Example frame_count_binary64 :
  total_frames (audio_duration 90405 22050) 30 = 123%Z /\
  self_total_frames <$> image_to_video_init (input_frame 0 64 64) 90405 22050
                          (f64_of_Z 30) = Some 122%Z /\
  self_total_frames <$> five_seconds = Some 150%Z.
Proof. split; [reflexivity|]. split; vm_compute; reflexivity. Qed.

(** X26. [process_image_to_video] on analysis data that fit together
    (curves as long as the time axis, beat and snare indices inside it), with
    non-negative band weights, positive beat and snare windows,
    [zoom_factor >= 1], a sensitivity in [0,1], at least one output frame, a
    frame rate above 0 and a picture at least [zoom_factor] pixels high and
    wide - and at least 50 x 50 pixels when the data corruption is switched
    on - never raises, on any state of the random generator and for any
    combination of the switches: it hands [total_frames] frames to the
    writer, each of the size of the picture. *)
Theorem process_image_to_video_render_succeeds (self : ImageToVideoProcessor)
    (cfg : ReactConfig) (sw : EffectSwitches) (art : ArtSwitches)
    (energy_curves : gmap string (list Q)) (frame_times : list Q)
    (bass_beat_frames snare_hit_frames : list nat) (h w : nat) :
  render_inputs_valid cfg sw energy_curves frame_times bass_beat_frames
    snare_hit_frames ->
  (1 <= self_total_frames self)%Z -> 0 < self_fps self ->
  picture_fits cfg art h w ->
  color_frame h w (self_base_image self) ->
  succeeds
    (process_image_to_video_render self cfg sw art energy_curves frame_times
       bass_beat_frames snare_hit_frames)
    (fun out => Z.of_nat (length out) = self_total_frames self /\
                Forall (color_frame h w) out.*2).
Proof.
  intros Hv Htot _ Hfit Hf.
  eapply succeeds_weaken.
  - apply (process_image_to_video_render_returns self cfg sw art energy_curves
             frame_times bass_beat_frames snare_hit_frames h w); assumption.
  - intros out (Hl & _ & Hc). split; assumption.
Qed.

Lemma process_image_to_video_render_succeeds_witness :
  succeeds
    (process_image_to_video_render three_frames default_config default_switches
       corruption_only (<["treble" := [1; 1]]> ∅) [0; 1] [1%nat] [0%nat])
    (fun out => Z.of_nat (length out) = 3%Z /\ Forall (color_frame 64 64) out.*2).
Proof.
  apply (process_image_to_video_render_succeeds three_frames default_config
           default_switches corruption_only (<["treble" := [1; 1]]> ∅) [0; 1]
           [1%nat] [0%nat] 64 64).
  - split.
    { split; [discriminate|]. split.
      - intros name c. destruct (decide (name = "treble")) as [->|Hn].
        + rewrite lookup_insert_eq. intros [= <-]. reflexivity.
        + rewrite lookup_insert_ne by congruence. rewrite lookup_empty. discriminate.
      - repeat constructor. }
    split; [repeat constructor|].
    split; [unfold nonneg_weights; simpl; split_and!; discriminate|].
    split; [reflexivity|]. split; [reflexivity|].
    split; [discriminate|split; discriminate].
  - simpl. lia.
  - reflexivity.
  - split; [discriminate|]. split; [discriminate|]. intros _. split; lia.
  - reflexivity.
Defined.

(** On a 40 x 40 picture the data corruption at full treble asks for blocks
    of 50 pixels: with the draws 0 (a noise block at the origin) the
    assignment of the block raises, and the frame is never written. *)
Example small_picture_data_corruption :
  data_corruption_intensity
    (image_effect_params still_config switches_off corruption_only [] [] 0 full_treble)
  == 1 /\
  image_frame (input_frame 0 40 40)
    (image_effect_params still_config switches_off corruption_only [] [] 0 full_treble)
    [] = Raise ValueError.
Proof. split; vm_compute; reflexivity. Qed.

(** X19. The enhanced analysis always feeds the image-to-video renderer:
    for a computed spectrogram with at least one frame, what
    [analyze_multiple_bands] returns and stores (the curves, all in [0,1],
    the frame times, the bass beats and the snare hits) is accepted by
    [process_image_to_video] - no curve has the wrong length and no beat or
    snare index is out of range - which, for keyword arguments and a picture
    as in X26, writes [total_frames] frames of the size of the picture. *)
Theorem analysis_feeds_image_to_video (a : AudioAnalyzer)
    (r1 r2 r3 r4 r5 : Q * Q) (self : ImageToVideoProcessor)
    (cfg : ReactConfig) (sw : EffectSwitches) (art : ArtSwitches) (h w : nat) :
  spectrogram_computed a -> times a <> [] ->
  (1 <= self_total_frames self)%Z -> 0 < self_fps self ->
  nonneg_weights cfg -> 0 < beat_window cfg -> 0 < snare_window sw ->
  1 <= zoom_factor cfg -> 0 <= intensity_sensitivity cfg <= 1 ->
  picture_fits cfg art h w ->
  color_frame h w (self_base_image self) ->
  exists curves a' beats snares,
    analyze_multiple_bands a r1 r2 r3 r4 r5 = Some (curves, a') /\
    bass_beat_frames a' = Some beats /\ snare_hit_frames a' = Some snares /\
    curves_in_range curves /\
    succeeds
      (process_image_to_video_render self cfg sw art curves (times a') beats snares)
      (fun out => Z.of_nat (length out) = self_total_frames self /\
                  Forall (color_frame h w) out.*2).
Proof.
  intros Hc Hne Htot _ Hwt Hbw Hsw Hzf Hs Hfit Hf.
  destruct (analyze_multiple_bands_Some a r1 r2 r3 r4 r5 Hc Hne)
    as (curves & a' & beats & snares & Han & _ & Hall & _ & Ht & Hb & Hsn & _ & Hbr
        & _ & Hsr).
  exists curves, a', beats, snares.
  split; [exact Han|]. split; [exact Hb|]. split; [exact Hsn|].
  split; [intros name c Hcn; apply (Hall _ _ Hcn)|].
  eapply succeeds_weaken.
  - apply (process_image_to_video_render_returns self cfg sw art curves (times a')
             beats snares h w); try assumption.
    rewrite Ht. split.
    { split; [exact Hne|]. split; [|exact Hbr].
      intros name c Hcn. apply (Hall _ _ Hcn). }
    split; [exact Hsr|]. split; [exact Hwt|]. split; [exact Hbw|].
    split; [exact Hsw|]. split; [exact Hzf|exact Hs].
  - intros out (Hl & _ & Hcf). split; assumption.
Qed.

Lemma analysis_feeds_image_to_video_witness :
  exists curves a' beats snares,
    analyze_multiple_bands small_analyzer (0, 1) (1, 3) (3, 5) (5, 6) (6, 7)
    = Some (curves, a') /\
    bass_beat_frames a' = Some beats /\ snare_hit_frames a' = Some snares /\
    curves_in_range curves /\
    succeeds
      (process_image_to_video_render three_frames default_config default_switches
         corruption_only curves (times a') beats snares)
      (fun out => Z.of_nat (length out) = self_total_frames three_frames /\
                  Forall (color_frame 64 64) out.*2).
Proof.
  apply (analysis_feeds_image_to_video small_analyzer (0, 1) (1, 3) (3, 5) (5, 6)
           (6, 7) three_frames default_config default_switches corruption_only
           64 64).
  - exact small_analyzer_computed.
  - discriminate.
  - simpl. lia.
  - reflexivity.
  - unfold nonneg_weights. simpl. split_and!; discriminate.
  - reflexivity.
  - reflexivity.
  - discriminate.
  - split; discriminate.
  - split; [discriminate|]. split; [discriminate|]. intros _. split; lia.
  - reflexivity.
Defined.

(** X22. With analysis data that fit together: a negative frame count
    makes [process_image_to_video] raise ([np.linspace] rejects it); with a
    frame count of 0 (an audio shorter than one frame period) the method
    raises when the smoothing window [max(1, int(smoothness * 5))] is larger
    than one sample ([np.convolve] rejects the empty resampled curve), and
    writes no frame at all when smoothing is off or the window is one
    sample. *)
Theorem process_image_to_video_no_frames (self : ImageToVideoProcessor)
    (cfg : ReactConfig) (sw : EffectSwitches) (art : ArtSwitches)
    (energy_curves : gmap string (list Q)) (frame_times : list Q)
    (bass_beat_frames snare_hit_frames : list nat) :
  valid_analysis energy_curves frame_times bass_beat_frames ->
  Forall (fun f => (f < length frame_times)%nat) snare_hit_frames ->
  ((self_total_frames self < 0)%Z ->
   forall tape,
     process_image_to_video_render self cfg sw art energy_curves frame_times
       bass_beat_frames snare_hit_frames tape = Raise ValueError) /\
  (self_total_frames self = 0%Z ->
   (0 < smoothness cfg -> (2 <= py_int (smoothness cfg * 5))%Z ->
    forall tape,
      process_image_to_video_render self cfg sw art energy_curves frame_times
        bass_beat_frames snare_hit_frames tape = Raise ValueError) /\
   (smoothness cfg <= 0 \/ (py_int (smoothness cfg * 5) <= 1)%Z ->
    forall tape,
      process_image_to_video_render self cfg sw art energy_curves frame_times
        bass_beat_frames snare_hit_frames tape = Ok ([], tape))).
Proof.
  intros (Hne & Hlen & Hb) Hsn. unfold process_image_to_video_render. cbv zeta.
  split.
  - intros Hneg tape.
    replace (self_total_frames self <? 0)%Z with true
      by (symmetry; apply Z.ltb_lt; exact Hneg).
    reflexivity.
  - intros ->. change (0 <? 0)%Z with false. cbv iota.
    change (Z.to_nat 0) with 0%nat.
    change (np_linspace 0 (self_audio_duration self) 0) with (@nil Q).
    rewrite !(resample_band_no_frames cfg energy_curves frame_times)
      by (auto; intros; eauto).
    destruct (beat_times_Some _ _ Hb) as [bt Hbt]. rewrite Hbt.
    destruct (beat_times_Some _ _ Hsn) as [st Hst]. rewrite Hst.
    unfold smooth_curve. split.
    + intros Hs Hw tape.
      replace (Qltb 0 (smoothness cfg)) with true
        by (symmetry; apply Qltb_lt; exact Hs).
      replace (1 <? Z.to_nat (Z.max 1 (py_int (smoothness cfg * 5))))%nat with true
        by (symmetry; apply Nat.ltb_lt; lia).
      reflexivity.
    + intros Hoff tape.
      destruct (Qltb 0 (smoothness cfg)) eqn:Hs; [|reflexivity].
      apply Qltb_lt in Hs. destruct Hoff as [Hoff|Hoff]; [lra|].
      replace (1 <? Z.to_nat (Z.max 1 (py_int (smoothness cfg * 5))))%nat with false
        by (symmetry; apply Nat.ltb_ge; lia).
      reflexivity.
Qed.

Lemma process_image_to_video_no_frames_witness :
  process_image_to_video_render no_frames default_config default_switches
    default_art_switches ∅ [0; 1] [1%nat] [0%nat] [7%Z] = Raise ValueError.
Proof.
  refine (proj1 (proj2 (process_image_to_video_no_frames no_frames default_config
                          default_switches default_art_switches ∅ [0; 1] [1%nat]
                          [0%nat] _ _) _) _ _ [7%Z]).
  - split; [discriminate|]. split.
    + intros name c. rewrite lookup_empty. discriminate.
    + repeat constructor.
  - repeat constructor.
  - reflexivity.
  - reflexivity.
  - vm_compute. discriminate.
Defined.

(** A hundredth of a second of audio at 30 fps has no frame: with the
    default smoothness 0.8 (a window of 4 samples) the method raises. *)
Example process_image_to_video_too_short :
  self_total_frames <$> image_to_video_init (input_frame 0 64 64) 220 22050
                          (f64_of_Z 30) = Some 0%Z /\
  process_image_to_video_render no_frames default_config default_switches
    default_art_switches ∅ [0; 1] [1%nat] [] [] = Raise ValueError.
Proof. split; vm_compute; reflexivity. Qed.
